(** * The maze topology engine of yalue/maze (maze.go)

    A shallow embedding of the grid maze: the disjoint-set forest, the
    randomized spanning-tree generator [RegenerateFromSeed], the wall
    eroder [ErodeWalls], the heuristic depth-first solver [ShowSolution]
    and the template loader [NewGridMazeFromTemplate], followed by the
    properties of the specification that are settled on this embedding.

    Conventions of the embedding.
    - A Go [int] that is only ever used as a slice index is a [nat]; an
      access out of range is the outcome [Panic], as is a subtraction that
      would make an index negative right before it is used.
    - A Go [int] that carries the sentinel -1, a coordinate or a seed is
      a [Z]; where the code subtracts or negates such values the 64-bit
      wrap-around is written out with [wrap64].
    - A pointer to a [disjointSet] is an address into a list of nodes (the
      heap); [nil] is [None].
    - Loops that Go writes as [for { ... }] or [for cond { ... }] take fuel;
      running out of it is the outcome [OutOfFuel], which the termination
      theorems exclude.
    - The wall-clock field [generationTime] is not modelled. *)

From Stdlib Require Import ZArith Lia Bool.
From stdpp Require Import base list.

Local Open Scope nat_scope.

(** ** Outcomes of Go functions *)

Module Go.

(** The error values that maze.go builds with [fmt.Errorf]. *)
Inductive error : Type :=
| ErrDimensions        (* "width and height must be at least 1" *)
| ErrTooBig            (* "The maze's size was too big" *)
| ErrNeighborDirection (* "Internal error: neighbor not below or to the right" *)
| ErrSolve             (* "Internal error: failed to solve maze" *)
| ErrTemplatePixel (t : nat) (* "Invalid template pixel type (%s)" *)
| ErrNoStart           (* "No possible start locations marked, and ..." *)
| ErrNoEnd             (* "No possible end locations marked, and ..." *)
| ErrInit (e : error)      (* "Error initializing maze state: %w" *)
| ErrGenerating (e : error). (* "Error generating maze: %w" *)

Inductive result (A : Type) : Type :=
| Ok (a : A)
| Err (e : error)
| Panic
| OutOfFuel.

Arguments Ok {A} a.
Arguments Err {A} e.
Arguments Panic {A}.
Arguments OutOfFuel {A}.

Definition bind {A B} (r : result A) (f : A → result B) : result B :=
  match r with
  | Ok a => f a
  | Err e => Err e
  | Panic => Panic
  | OutOfFuel => OutOfFuel
  end.

(** [fmt.Errorf("...: %w", e)] around a call. *)
Definition wrapErr {A} (w : error → error) (r : result A) : result A :=
  match r with
  | Err e => Err (w e)
  | _ => r
  end.

(** [l[i]] on a slice. *)
Definition at_ {A} (l : list A) (i : nat) : result A :=
  match l !! i with
  | Some x => Ok x
  | None => Panic
  end.

(** Dereferencing a pointer that may be nil. *)
Definition deref {A} (p : option A) : result A :=
  match p with
  | Some x => Ok x
  | None => Panic
  end.

(** An [int] used as a slice index. *)
Definition toIndex (z : Z) : result nat :=
  if (z <? 0)%Z then Panic else Ok (Z.to_nat z).

(** [i - k] on an index that is used right away. *)
Definition subIndex (i k : nat) : result nat :=
  if i <? k then Panic else Ok (i - k).

(** A loop with an exit: the body answers [inl] to go round again and
    [inr] to leave. *)
Fixpoint loop {S R} (fuel : nat) (body : S → result (S + R)) (s : S)
  : result R :=
  match fuel with
  | 0 => OutOfFuel
  | S fuel' =>
      match body s with
      | Ok (inl s') => loop fuel' body s'
      | Ok (inr r) => Ok r
      | Err e => Err e
      | Panic => Panic
      | OutOfFuel => OutOfFuel
      end
  end.

(** A [for ... range] loop whose body may fail. *)
Fixpoint foldM {A B} (f : B → A → result B) (l : list A) (b : B)
  : result B :=
  match l with
  | [] => Ok b
  | a :: l' => bind (f b a) (foldM f l')
  end.

(** Two's complement wrap-around of a 64-bit [int]. *)
Definition wrap64 (z : Z) : Z :=
  ((z + 2 ^ 63) mod 2 ^ 64 - 2 ^ 63)%Z.

End Go.

Export Go.

Global Instance result_ret : MRet result := @Ok.
Global Instance result_bind : MBind result := λ A B f r, bind r f.

(** ** The random source

    [math/rand] is outside the repository.  A generator is any state
    machine whose [Intn n] answers below [n]; Go's [Intn] panics for
    [n <= 0]. *)

Class Rand : Type := {
  rngState : Type;
  NewSource : Z → rngState;
  Intn : rngState → nat → nat * rngState;
  Intn_lt : ∀ s n, 0 < n → fst (Intn s n) < n
}.

Definition rngIntn `{Rand} (s : rngState) (n : nat)
  : result (nat * rngState) :=
  if n =? 0 then Panic else Ok (Intn s n).

(** ** Data model *)

(** [disjointSet]: the parent pointer and the rank. *)
Record disjointSet : Type := DisjointSet {
  parent : nat;
  rank : nat
}.

Abbreviation heap := (list disjointSet).

(** [walls [4]bool], in the order left, top, right, bottom. *)
Record wallFlags : Type := Walls {
  wLeft : bool;
  wTop : bool;
  wRight : bool;
  wBottom : bool
}.

Definition getWall (w : wallFlags) (d : nat) : result bool :=
  match d with
  | 0 => Ok (wLeft w)
  | 1 => Ok (wTop w)
  | 2 => Ok (wRight w)
  | 3 => Ok (wBottom w)
  | _ => Panic
  end.

Definition setWall (d : nat) (b : bool) (w : wallFlags) : wallFlags :=
  match d with
  | 0 => Walls b (wTop w) (wRight w) (wBottom w)
  | 1 => Walls (wLeft w) b (wRight w) (wBottom w)
  | 2 => Walls (wLeft w) (wTop w) b (wBottom w)
  | 3 => Walls (wLeft w) (wTop w) (wRight w) b
  | _ => w
  end.

(** [cellState]: 0 normal, 1 solutionPath, 2 excluded. *)
Abbreviation cellState := nat (only parsing).

Record gridMazeCell : Type := Cell {
  walls : wallFlags;
  state : cellState;
  djSet : option nat
}.

Definition setCellWall (d : nat) (b : bool) (c : gridMazeCell)
  : gridMazeCell :=
  Cell (setWall d b (walls c)) (state c) (djSet c).

Definition setCellState (s : cellState) (c : gridMazeCell) : gridMazeCell :=
  Cell (walls c) s (djSet c).

Record gridNeighborInfo : Type := Neighbor {
  baseIndex : nat;
  neighborDirection : nat
}.

Record GridMaze : Type := Maze {
  width : nat;
  height : nat;
  cells : list gridMazeCell;
  startCellIndex : Z;
  endCellIndex : Z;
  neighbors : list gridNeighborInfo;
  randomSeed : Z
}.

Definition setCells (cs : list gridMazeCell) (m : GridMaze) : GridMaze :=
  Maze (width m) (height m) cs (startCellIndex m) (endCellIndex m)
       (neighbors m) (randomSeed m).

Definition setNeighbors (ns : list gridNeighborInfo) (m : GridMaze)
  : GridMaze :=
  Maze (width m) (height m) (cells m) (startCellIndex m) (endCellIndex m)
       ns (randomSeed m).

Definition setRandomSeed (seed : Z) (m : GridMaze) : GridMaze :=
  Maze (width m) (height m) (cells m) (startCellIndex m) (endCellIndex m)
       (neighbors m) seed.

Definition setEnds (s e : Z) (m : GridMaze) : GridMaze :=
  Maze (width m) (height m) (cells m) s e (neighbors m) (randomSeed m).

(** ** Disjoint sets *)

Definition setParent (p : nat) (n : disjointSet) : disjointSet :=
  DisjointSet p (rank n).

Definition incrRank (n : disjointSet) : disjointSet :=
  DisjointSet (parent n) (S (rank n)).

(** [newDisjointSet], allocated at address [p]. *)
Definition newDisjointSet (p : nat) : disjointSet :=
  DisjointSet p 0.

(** [findSet]: the root of [s], every node on the way re-parented to it. *)
Fixpoint findSet (fuel : nat) (h : heap) (s : nat) : result (heap * nat) :=
  match fuel with
  | 0 => OutOfFuel
  | S fuel' =>
      n ← at_ h s;
      if s =? parent n then Ok (h, parent n)
      else
        '(h', r) ← findSet fuel' h (parent n);
        let h'' := alter (setParent r) s h' in
        n' ← at_ h'' s;
        Ok (h'', parent n')
  end.

(** [union]: by rank. *)
Definition union (fuel : nat) (h : heap) (s other : nat) : result heap :=
  '(h1, x) ← findSet fuel h s;
  '(h2, y) ← findSet fuel h1 other;
  nx ← at_ h2 x;
  ny ← at_ h2 y;
  if rank ny <? rank nx then Ok (alter (setParent x) y h2)
  else
    let h3 := alter (setParent y) x h2 in
    if rank nx =? rank ny then Ok (alter incrRank y h3) else Ok h3.

(** ** Allocation *)

Definition zeroCell : gridMazeCell :=
  Cell (Walls false false false false) 0 None.

(** [allocateMaze]: the cell count is the 64-bit product. *)
Definition allocateMaze (width height : Z) : result GridMaze :=
  if ((width <? 1) || (height <? 1))%Z then Err ErrDimensions
  else
    let cellCount := wrap64 (width * height) in
    if (cellCount <=? 0)%Z then Err ErrTooBig
    else Ok (Maze (Z.to_nat width) (Z.to_nat height)
                  (replicate (Z.to_nat cellCount) zeroCell)
                  (-1) (-1) [] 0).

(** [initGridMazeCell]: a new set, all four walls, the state untouched. *)
Definition initGridMazeCell (p : nat) (c : gridMazeCell) : gridMazeCell :=
  Cell (Walls true true true true) (state c) (Some p).

(** ** Maze generator *)

Section Generator.

Context `{Rand}.

(** The loop of [RegenerateFromSeed] over the cells: cell [i] gets the
    node allocated for it, which lives at address [i] of a new heap. *)
Definition initCells (cs : list gridMazeCell) : list gridMazeCell * heap :=
  (imap initGridMazeCell cs, imap (λ i _, newDisjointSet i) cs).

(** The body of the two nested loops of [initDisjointNeighbors]. *)
Definition initNeighborsAt (m : GridMaze) (row : nat)
    (ns : list gridNeighborInfo) (col : nat)
  : result (list gridNeighborInfo) :=
  let index := row * width m + col in
  c ← at_ (cells m) index;
  if state c =? 2 then Ok ns
  else
    ns1 ← (if negb (col =? width m - 1) then
             r ← at_ (cells m) (index + 1);
             Ok (if negb (state r =? 2) then ns ++ [Neighbor index 2]
                 else ns)
           else Ok ns);
    if row =? height m - 1 then Ok ns1
    else
      b ← at_ (cells m) (index + width m);
      Ok (if negb (state b =? 2) then ns1 ++ [Neighbor index 3] else ns1).

Definition initDisjointNeighbors (m : GridMaze) : result GridMaze :=
  let initCount := (width m - 1) * height m + (height m - 1) * width m in
  if initCount =? 0 then Ok m
  else
    ns ← foldM (λ ns row, foldM (initNeighborsAt m row) (seq 0 (width m)) ns)
               (seq 0 (height m)) [];
    Ok (setNeighbors ns m).

Definition neighborIndex (m : GridMaze) (n : gridNeighborInfo)
  : result nat :=
  if neighborDirection n =? 2 then Ok (baseIndex n + 1)
  else if neighborDirection n =? 3 then Ok (baseIndex n + width m)
  else Err ErrNeighborDirection.

(** The roots of the two cells of a pair, in the order the code asks for
    them. *)
Definition pairRoots (fuel : nat) (m : GridMaze) (h : heap)
    (n : gridNeighborInfo) : result (heap * nat * nat) :=
  cellA ← at_ (cells m) (baseIndex n);
  indexB ← neighborIndex m n;
  cellB ← at_ (cells m) indexB;
  pa ← deref (djSet cellA);
  '(h1, ra) ← findSet fuel h pa;
  pb ← deref (djSet cellB);
  '(h2, rb) ← findSet fuel h1 pb;
  Ok (h2, ra, rb).

(** One round of the loop of [updateDisjointNeighbors]; the state is the
    counter [i], the list and the heap. *)
Definition updateStep (fuel : nat) (m : GridMaze)
    (st : nat * list gridNeighborInfo * heap)
  : result (nat * list gridNeighborInfo * heap
            + list gridNeighborInfo * heap) :=
  let '(i, ns, h) := st in
  if negb (i <? length ns) then Ok (inr (ns, h))
  else
    tmp ← at_ ns i;
    '(h2, ra, rb) ← pairRoots fuel (setNeighbors ns m) h tmp;
    if negb (ra =? rb) then Ok (inl (i + 1, ns, h2))
    else
      last ← at_ ns (length ns - 1);
      Ok (inl (i, take (length ns - 1) (<[i:=last]> ns), h2)).

Definition updateDisjointNeighbors (fuel : nat) (m : GridMaze) (h : heap)
  : result (GridMaze * heap) :=
  '(ns, h') ← loop fuel (updateStep fuel m) (0, neighbors m, h);
  Ok (setNeighbors ns m, h').

(** [sampleNeighbor]: [None] is the nil pointer. *)
Definition sampleNeighbor (fuel : nat) (m : GridMaze) (h : heap)
    (rng : rngState)
  : result (option gridNeighborInfo * heap * rngState) :=
  '(k, rng') ← rngIntn rng (length (neighbors m));
  toReturn ← at_ (neighbors m) k;
  '(h2, ra, rb) ← pairRoots fuel m h toReturn;
  if ra =? rb then Ok (None, h2, rng') else Ok (Some toReturn, h2, rng').

(** [getDisjointNeighbor]: the pair, the flag [done], and the maze, heap
    and generator as the call leaves them. *)
Definition getDisjointNeighbor (fuel : nat) (m : GridMaze) (h : heap)
    (rng : rngState)
  : result (option gridNeighborInfo * bool * GridMaze * heap * rngState) :=
  if length (neighbors m) =? 0 then Ok (None, true, m, h, rng)
  else
    '(toReturn, h1, rng1) ← sampleNeighbor fuel m h rng;
    match toReturn with
    | Some _ => Ok (toReturn, false, m, h1, rng1)
    | None =>
        '(m2, h2) ← updateDisjointNeighbors fuel m h1;
        if length (neighbors m2) =? 0 then Ok (None, true, m2, h2, rng1)
        else
          '(toReturn, h3, rng2) ← sampleNeighbor fuel m2 h2 rng1;
          Ok (toReturn, false, m2, h3, rng2)
    end.

(** One round of the loop of [RegenerateFromSeed]. *)
Definition regenerateStep (fuel : nat) (st : GridMaze * heap * rngState)
  : result (GridMaze * heap * rngState + GridMaze * heap) :=
  let '(m, h, rng) := st in
  if length (neighbors m) =? 0 then Ok (inr (m, h))
  else
    '(tmp, done, m1, h1, rng1) ← getDisjointNeighbor fuel m h rng;
    if done : bool then Ok (inr (m1, h1))
    else
      tmp ← deref tmp;
      cellA ← at_ (cells m1) (baseIndex tmp);
      '(cellB, cs) ←
        (if neighborDirection tmp =? 2 then
           cellB ← at_ (cells m1) (baseIndex tmp + 1);
           Ok (cellB,
               alter (setCellWall 0 false) (baseIndex tmp + 1)
                 (alter (setCellWall 2 false) (baseIndex tmp) (cells m1)))
         else
           cellB ← at_ (cells m1) (baseIndex tmp + width m1);
           Ok (cellB,
               alter (setCellWall 1 false) (baseIndex tmp + width m1)
                 (alter (setCellWall 3 false) (baseIndex tmp) (cells m1))));
      pa ← deref (djSet cellA);
      pb ← deref (djSet cellB);
      h2 ← union fuel h1 pa pb;
      Ok (inl (setCells cs m1, h2, rng1)).

(** [RegenerateFromSeed] up to the end of its loop, with the heap. *)
Definition regenerateLoop (fuel : nat) (seed : Z) (m : GridMaze)
  : result (GridMaze * heap) :=
  let '(cs, h) := initCells (cells m) in
  m1 ← wrapErr ErrInit (initDisjointNeighbors (setCells cs m));
  loop fuel (regenerateStep fuel) (setRandomSeed seed m1, h, NewSource seed).

Definition RegenerateFromSeed (fuel : nat) (seed : Z) (m : GridMaze)
  : result GridMaze :=
  '(m', _) ← regenerateLoop fuel seed m;
  if (startCellIndex m' =? -1)%Z
  then Ok (setEnds 0 (Z.of_nat (length (cells m')) - 1) m')
  else Ok m'.

(** [NewGridMazeWithSeed]; [now] is what [time.Now().UnixNano()] answers. *)
Definition NewGridMazeWithSeed (fuel : nat) (now : Z) (width height : Z)
    (seed : Z) : result GridMaze :=
  toReturn ← allocateMaze width height;
  let seed := if (seed <=? 0)%Z then now else seed in
  wrapErr ErrGenerating (RegenerateFromSeed fuel seed toReturn).

End Generator.

(** ** Wall eroder *)

(** [if flag { wallCount++; if wallCount != 1 { continue }; firstWall = d }]
    on the pair of [wallCount] and [firstWall]; [None] is the [continue]. *)
Definition countWall (flag : bool) (d : nat) (st : nat * nat)
  : option (nat * nat) :=
  let '(wallCount, firstWall) := st in
  if flag then
    let wallCount := wallCount + 1 in
    if negb (wallCount =? 1) then None else Some (wallCount, d)
  else Some (wallCount, firstWall).

(** The four branches that clear the wall found, on both cells sharing
    it. *)
Definition clearStub (w cellIndex firstWall : nat) (cs : list gridMazeCell)
  : result (list gridMazeCell) :=
  if firstWall =? 0 then
    _ ← at_ cs (cellIndex + w + 1);
    _ ← at_ cs (cellIndex + w);
    Ok (alter (setCellWall 2 false) (cellIndex + w)
          (alter (setCellWall 0 false) (cellIndex + w + 1) cs))
  else if firstWall =? 1 then
    _ ← at_ cs (cellIndex + w + 1);
    _ ← at_ cs (cellIndex + 1);
    Ok (alter (setCellWall 3 false) (cellIndex + 1)
          (alter (setCellWall 1 false) (cellIndex + w + 1) cs))
  else if firstWall =? 2 then
    _ ← at_ cs cellIndex;
    _ ← at_ cs (cellIndex + 1);
    Ok (alter (setCellWall 0 false) (cellIndex + 1)
          (alter (setCellWall 2 false) cellIndex cs))
  else if firstWall =? 3 then
    _ ← at_ cs cellIndex;
    _ ← at_ cs (cellIndex + w);
    Ok (alter (setCellWall 1 false) (cellIndex + w)
          (alter (setCellWall 3 false) cellIndex cs))
  else Ok cs.

(** The body of the two nested loops of [ErodeWalls]: [origCells] is the
    copy taken on entry, [cs] the cells being written. *)
Definition erodeAt (w : nat) (origCells : list gridMazeCell) (row : nat)
    (cs : list gridMazeCell) (col : nat) : result (list gridMazeCell) :=
  let cellIndex := row * w + col in
  mainCell ← at_ origCells cellIndex;
  let st := if wRight (walls mainCell) then (0 + 1, 2) else (0, 0) in
  match countWall (wBottom (walls mainCell)) 3 st with
  | None => Ok cs
  | Some st =>
      lowerCell ← at_ origCells (cellIndex + w + 1);
      match countWall (wLeft (walls lowerCell)) 0 st with
      | None => Ok cs
      | Some st =>
          match countWall (wTop (walls lowerCell)) 1 st with
          | None => Ok cs
          | Some (wallCount, firstWall) =>
              if wallCount =? 0 then Ok cs
              else clearStub w cellIndex firstWall cs
          end
      end
  end.

Definition erodeCells (w h : nat) (origCells cs : list gridMazeCell)
  : result (list gridMazeCell) :=
  foldM (λ cs row, foldM (erodeAt w origCells row) (seq 0 (w - 1)) cs)
        (seq 0 (h - 1)) cs.

Definition ErodeWalls (m : GridMaze) : result GridMaze :=
  let origCells := cells m in
  cs ← erodeCells (width m) (height m) origCells (cells m);
  Ok (setCells cs m).

(** [ErodeWalls] called [k] times in a row, the way the command-line
    tool runs its erosion passes. *)
Fixpoint erodeTimes (k : nat) (m : GridMaze) : result GridMaze :=
  match k with
  | 0 => Ok m
  | S k' => m' ← ErodeWalls m; erodeTimes k' m'
  end.

(** ** Path solver *)

(** [setDirRanking]: the four entries of [dirRanking] are directions
    (0 left, 1 up, 2 right, 3 down), best first. *)
Definition setDirRanking (currentCol currentRow targetCol targetRow : Z)
    (dirRanking : list nat) : list nat :=
  let colDiff := wrap64 (targetCol - currentCol) in
  let absColDiff :=
    if (colDiff <? 0)%Z then wrap64 (- colDiff) else colDiff in
  let rowDiff := wrap64 (targetRow - currentRow) in
  let absRowDiff :=
    if (rowDiff <? 0)%Z then wrap64 (- rowDiff) else rowDiff in
  if (absRowDiff >? absColDiff)%Z then
    let dirRanking :=
      if (rowDiff >? 0)%Z then <[3:=1]> (<[0:=3]> dirRanking)
      else <[3:=3]> (<[0:=1]> dirRanking) in
    if (colDiff >? 0)%Z then <[2:=0]> (<[1:=2]> dirRanking)
    else <[2:=2]> (<[1:=0]> dirRanking)
  else
    let dirRanking :=
      if (colDiff >? 0)%Z then <[3:=0]> (<[0:=2]> dirRanking)
      else <[3:=2]> (<[0:=0]> dirRanking) in
    if (rowDiff >? 0)%Z then <[2:=1]> (<[1:=3]> dirRanking)
    else <[2:=3]> (<[1:=1]> dirRanking).

(** [isReachableAndUnvisited]: [Some dstIndex] for [(true, dstIndex)],
    [None] for [(false, -1)]. *)
Definition isReachableAndUnvisited (m : GridMaze) (currentIndex : nat)
    (currentCol currentRow : Z) (moveDir : nat) (visited : list bool)
  : result (option nat) :=
  c ← at_ (cells m) currentIndex;
  wall ← getWall (walls c) moveDir;
  if wall : bool then Ok None
  else
    dstIndex ←
      match moveDir with
      | 0 => if (currentCol =? 0)%Z then Ok None
             else d ← subIndex currentIndex 1; Ok (Some d)
      | 1 => if (currentRow =? 0)%Z then Ok None
             else d ← subIndex currentIndex (width m); Ok (Some d)
      | 2 => if (currentCol =? Z.of_nat (width m) - 1)%Z then Ok None
             else Ok (Some (currentIndex + 1))
      | 3 => if (currentRow =? Z.of_nat (height m) - 1)%Z then Ok None
             else Ok (Some (currentIndex + width m))
      | _ => Panic
      end;
    match dstIndex with
    | None => Ok None
    | Some d =>
        v ← at_ visited d;
        if v : bool then Ok None else Ok (Some d)
    end.

Definition clearSolution (m : GridMaze) : GridMaze :=
  setCells
    (map (λ c, if state c =? 1 then setCellState 0 c else c) (cells m)) m.

(** The search state between two rounds of [DFSLoop]: the ranking array,
    the visited flags, the parent indices and the stack, its top first. *)
Abbreviation dfsState :=
  (list nat * list bool * list Z * list nat)%type.

(** The body of the loop over [dirRanking]: [move] is the pair of
    [moveDst] and [moveDir], [None] while they are -1. *)
Definition tryDirection (m : GridMaze) (currentIndex : nat)
    (currentCol currentRow : Z)
    (st : option (nat * nat) * list bool * list Z * list nat) (v : nat)
  : result (option (nat * nat) * list bool * list Z * list nat) :=
  let '(move, visited, parentIndices, dfsStack) := st in
  r ← isReachableAndUnvisited m currentIndex currentCol currentRow v visited;
  match r with
  | None => Ok st
  | Some dstIndex =>
      match move with
      | None => Ok (Some (dstIndex, v), visited, parentIndices, dfsStack)
      | Some _ =>
          _ ← at_ visited dstIndex;
          _ ← at_ parentIndices dstIndex;
          Ok (move, <[dstIndex:=true]> visited,
              <[dstIndex:=Z.of_nat currentIndex]> parentIndices,
              dstIndex :: dfsStack)
      end
  end.

(** One round of the inner loop, which follows a path: [inr (true, _)]
    is [break DFSLoop], [inr (false, _)] the plain [break]. *)
Definition followStep (m : GridMaze) (endCol endRow : Z)
    (st : nat * Z * Z * dfsState)
  : result (nat * Z * Z * dfsState + bool * dfsState) :=
  let '(currentIndex, currentCol, currentRow,
        (dirRanking, visited, parentIndices, dfsStack)) := st in
  let dirRanking :=
    setDirRanking currentCol currentRow endCol endRow dirRanking in
  '(move, visited, parentIndices, dfsStack) ←
    foldM (tryDirection m currentIndex currentCol currentRow) dirRanking
          (None, visited, parentIndices, dfsStack);
  match move with
  | None => Ok (inr (false, (dirRanking, visited, parentIndices, dfsStack)))
  | Some (moveDst, moveDir) =>
      _ ← at_ visited moveDst;
      _ ← at_ parentIndices moveDst;
      let visited := <[moveDst:=true]> visited in
      let parentIndices :=
        <[moveDst:=Z.of_nat currentIndex]> parentIndices in
      let currentIndex' := moveDst in
      let '(currentCol, currentRow) :=
        match moveDir with
        | 0 => ((currentCol - 1)%Z, currentRow)
        | 1 => (currentCol, (currentRow - 1)%Z)
        | 2 => ((currentCol + 1)%Z, currentRow)
        | 3 => (currentCol, (currentRow + 1)%Z)
        | _ => (currentCol, currentRow)
        end in
      let st' := (dirRanking, visited, parentIndices, dfsStack) in
      if ((currentRow =? endRow) && (currentCol =? endCol))%Z
      then Ok (inr (true, st'))
      else Ok (inl (currentIndex', currentCol, currentRow, st'))
  end.

(** One round of [DFSLoop]; leaving it hands over the parent indices. *)
Definition dfsStep (fuel : nat) (m : GridMaze) (endCol endRow : Z)
    (st : dfsState) : result (dfsState + list Z) :=
  let '(dirRanking, visited, parentIndices, dfsStack) := st in
  match dfsStack with
  | [] => Err ErrSolve
  | currentIndex :: dfsStack =>
      if width m =? 0 then Panic
      else
        let currentCol := Z.of_nat (currentIndex mod width m) in
        let currentRow := Z.of_nat (currentIndex / width m) in
        if ((currentRow =? endRow) && (currentCol =? endCol))%Z
        then Ok (inr parentIndices)
        else
          '(found, st') ←
            loop fuel (followStep m endCol endRow)
              (currentIndex, currentCol, currentRow,
               (dirRanking, visited, parentIndices, dfsStack));
          if found : bool then Ok (inr (st'.1.2)) else Ok (inl st')
  end.

(** One round of the loop that follows the parent indices from the end
    cell. *)
Definition highlightStep (parentIndices : list Z)
    (st : Z * list gridMazeCell)
  : result (Z * list gridMazeCell + list gridMazeCell) :=
  let '(index, cs) := st in
  if (index <? 0)%Z then Ok (inr cs)
  else
    let i := Z.to_nat index in
    _ ← at_ cs i;
    p ← at_ parentIndices i;
    Ok (inl (p, alter (setCellState 1) i cs)).

(** The search of [ShowSolution(true)], up to the parent indices. *)
Definition solveParents (fuel : nat) (m : GridMaze) : result (list Z) :=
  if width m =? 0 then Panic
  else
    let endCol := Z.rem (endCellIndex m) (Z.of_nat (width m)) in
    let endRow := Z.quot (endCellIndex m) (Z.of_nat (width m)) in
    let visited := map (λ c, state c =? 2) (cells m) in
    let parentIndices := replicate (length (cells m)) (-1)%Z in
    start ← toIndex (startCellIndex m);
    _ ← at_ visited start;
    let visited := <[start:=true]> visited in
    loop fuel (dfsStep fuel m endCol endRow)
      (replicate 4 0, visited, parentIndices, [start]).

Definition ShowSolution (fuel : nat) (show : bool) (m : GridMaze)
  : result GridMaze :=
  if negb show then Ok (clearSolution m)
  else
    parentIndices ← solveParents fuel m;
    cs ← loop fuel (highlightStep parentIndices) (endCellIndex m, cells m);
    Ok (setCells cs m).

(** ** Template loader *)

(** What [color.Color.RGBA()] answers. *)
Record Color : Type := RGBA {
  cR : Z;
  cG : Z;
  cB : Z;
  cA : Z
}.

(** [templateCellType]: 0 valid, 1 excluded, 2 startCandidate,
    3 endCandidate. *)
Definition colorToTemplateCellType (c : Color) : nat :=
  let r := Z.shiftr (cR c) 8 in
  let g := Z.shiftr (cG c) 8 in
  let b := Z.shiftr (cB c) 8 in
  if ((r =? 0) && (g =? 0) && (b =? 0))%Z then 1
  else if ((r =? 0) && (g >? 200) && (b =? 0))%Z then 2
  else if ((r >? 200) && (g =? 0) && (b =? 0))%Z then 3
  else if ((r =? 255) && (g =? 255) && (b =? 255))%Z then 0
  else 0.

(** An [image.Image]: its canonical bounds and its pixels. *)
Record Image : Type := Picture {
  minX : Z;
  minY : Z;
  maxX : Z;
  maxY : Z;
  At : Z → Z → Color
}.

(** The coordinates [lo], [lo+1], ... below [hi]. *)
Definition zrange (lo hi : Z) : list Z :=
  map (λ k, lo + Z.of_nat k)%Z (seq 0 (Z.to_nat (hi - lo))).

(** The [switch] of [NewGridMazeFromTemplate] on one pixel's type; the
    state is the cells and the two lists of candidates. *)
Definition templateCell (cellType : nat) (cellIndex : nat)
    (st : list gridMazeCell * list nat * list nat)
  : result (list gridMazeCell * list nat * list nat) :=
  let '(cs, possibleStartIndices, possibleEndIndices) := st in
  match cellType with
  | 0 => Ok st
  | 1 =>
      _ ← at_ cs cellIndex;
      Ok (alter (setCellState 2) cellIndex cs,
          possibleStartIndices, possibleEndIndices)
  | 2 => Ok (cs, possibleStartIndices ++ [cellIndex], possibleEndIndices)
  | 3 => Ok (cs, possibleStartIndices, possibleEndIndices ++ [cellIndex])
  | _ => Err (ErrTemplatePixel cellType)
  end.

(** The body of the loop over the pixels of a row.  The counter holds
    the index of the next pixel (the code starts it at -1 and increments
    it before use). *)
Definition templatePixel (classify : Color → nat) (templatePic : Image)
    (row : Z) (st : nat * (list gridMazeCell * list nat * list nat))
    (col : Z) : result (nat * (list gridMazeCell * list nat * list nat)) :=
  let '(cellIndex, st) := st in
  st' ← templateCell (classify (At templatePic col row)) cellIndex st;
  Ok (cellIndex + 1, st').

Section Template.

Context `{Rand}.

(** [NewGridMazeFromTemplate] for a given classifier of pixels. *)
Definition newFromTemplate (classify : Color → nat) (fuel : nat) (now : Z)
    (templatePic : Image) (seed : Z) : result GridMaze :=
  let width := (maxX templatePic - minX templatePic)%Z in
  let height := (maxY templatePic - minY templatePic)%Z in
  toReturn ← allocateMaze width height;
  let seed := if (seed <=? 0)%Z then now else seed in
  '(_, (cs, possibleStartIndices, possibleEndIndices)) ←
    foldM (λ st row,
      foldM (templatePixel classify templatePic row)
        (zrange (minX templatePic) (maxX templatePic)) st)
      (zrange (minY templatePic) (maxY templatePic))
      (0, (cells toReturn, [], []));
  let rng := NewSource seed in
  '(startCellIndex, rng) ←
    (if negb (length possibleStartIndices =? 0) then
       '(k, rng) ← rngIntn rng (length possibleStartIndices);
       i ← at_ possibleStartIndices k;
       Ok (Z.of_nat i, rng)
     else
       c ← at_ cs 0;
       if state c =? 2 then Err ErrNoStart else Ok (0%Z, rng));
  '(endCellIndex, rng) ←
    (if negb (length possibleEndIndices =? 0) then
       '(k, rng) ← rngIntn rng (length possibleEndIndices);
       i ← at_ possibleEndIndices k;
       Ok (Z.of_nat i, rng)
     else
       c ← at_ cs (length cs - 1);
       if state c =? 2 then Err ErrNoEnd
       else Ok (Z.of_nat (length cs) - 1, rng)%Z);
  wrapErr ErrGenerating
    (RegenerateFromSeed fuel seed
       (setEnds startCellIndex endCellIndex (setCells cs toReturn))).

Definition NewGridMazeFromTemplate : nat → Z → Image → Z → result GridMaze :=
  newFromTemplate colorToTemplateCellType.

End Template.

(** ** Specification-side definitions *)

(** The ranking table in the words of the specification: the axis with
    the larger remaining offset takes ranks 0 and 3, the other axis ranks
    1 and 2; on each axis the move that reduces the offset comes first,
    left and up on a tie. *)
Definition betterHorizontal (colDiff : Z) : nat :=
  if (0 <? colDiff)%Z then 2 else 0.

Definition betterVertical (rowDiff : Z) : nat :=
  if (0 <? rowDiff)%Z then 3 else 1.

(** The move opposite to a move. *)
Definition opposite (d : nat) : nat :=
  match d with
  | 0 => 2
  | 1 => 3
  | 2 => 0
  | _ => 1
  end.

Definition specRanking (colDiff rowDiff : Z) : list nat :=
  let bh := betterHorizontal colDiff in
  let bv := betterVertical rowDiff in
  if (Z.abs colDiff <? Z.abs rowDiff)%Z
  then [bv; bh; opposite bh; opposite bv]
  else [bh; bv; opposite bv; opposite bh].

(** What a move adds to the column and to the row. *)
Definition colStep (d : nat) : Z :=
  match d with
  | 0 => -1
  | 2 => 1
  | _ => 0
  end.

Definition rowStep (d : nat) : Z :=
  match d with
  | 1 => -1
  | 3 => 1
  | _ => 0
  end.

(** A coordinate inside a grid: a non-negative [int]. *)
Definition coordinate (z : Z) : Prop := (0 ≤ z < 2 ^ 63)%Z.

(** The four classes of template pixels, on the 8-bit channels. *)
Definition channel8 (z : Z) : Z := Z.shiftr z 8.

Definition isBlack (c : Color) : Prop :=
  channel8 (cR c) = 0%Z ∧ channel8 (cG c) = 0%Z ∧ channel8 (cB c) = 0%Z.

Definition isGreen (c : Color) : Prop :=
  channel8 (cR c) = 0%Z ∧ (200 < channel8 (cG c))%Z ∧ channel8 (cB c) = 0%Z.

Definition isRed (c : Color) : Prop :=
  (200 < channel8 (cR c))%Z ∧ channel8 (cG c) = 0%Z ∧ channel8 (cB c) = 0%Z.

(** The pixels of a picture, inside its bounds. *)
Definition inBounds (p : Image) (col row : Z) : Prop :=
  (minX p ≤ col < maxX p)%Z ∧ (minY p ≤ row < maxY p)%Z.

(** A picture whose cell count fits an [int]. *)
Definition fitsInt (p : Image) : Prop :=
  (minX p ≤ maxX p)%Z ∧ (minY p ≤ maxY p)%Z ∧
  ((maxX p - minX p) * (maxY p - minY p) < 2 ^ 63)%Z.

(** ** The disjoint-set forest, abstractly *)

(** [rootOf h x r]: following parent pointers from [x] ends at the
    self-parented node [r]. *)
Inductive rootOf (h : heap) : nat → nat → Prop :=
| rootOf_self x n :
    h !! x = Some n → parent n = x → rootOf h x x
| rootOf_step x n r :
    h !! x = Some n → parent n ≠ x → rootOf h (parent n) r → rootOf h x r.

Definition sameSet (h : heap) (u v : nat) : Prop :=
  ∃ r, rootOf h u r ∧ rootOf h v r.

(** The number of self-parented nodes, that is, of sets. *)
Fixpoint countRootsFrom (i : nat) (h : heap) : nat :=
  match h with
  | [] => 0
  | n :: t => (if parent n =? i then 1 else 0) + countRootsFrom (S i) t
  end.

Definition countRoots (h : heap) : nat := countRootsFrom 0 h.

(** Ranks grow strictly towards the root. *)
Definition rankOk (h : heap) : Prop :=
  ∀ x n, h !! x = Some n → parent n ≠ x →
    ∃ pn, h !! parent n = Some pn ∧ rank n < rank pn.

(** No rank exceeds the number of unions made so far. *)
Definition boundOk (h : heap) : Prop :=
  ∀ x n, h !! x = Some n → rank n + countRoots h ≤ length h.

Definition forestOk (h : heap) : Prop := rankOk h ∧ boundOk h.

(** Two heaps that describe the same partition with the same roots. *)
Definition sameRoots (h h' : heap) : Prop :=
  length h' = length h ∧ ∀ x r, rootOf h x r ↔ rootOf h' x r.

(** ** Paths and forests *)

(** [path E u v p]: [p] lists the vertices of a walk from [u] to [v]
    along [E], both ends included. *)
Inductive path (E : nat → nat → Prop) : nat → nat → list nat → Prop :=
| path_end u : path E u u [u]
| path_cons u w v p : E u w → path E w v p → path E u v (u :: p).

Definition simplePath (E : nat → nat → Prop) (u v : nat) (p : list nat)
  : Prop :=
  path E u v p ∧ NoDup p.

(** [E] is a forest whose trees are the classes of [R]: inside a class
    there is a simple path, and no two ends have two of them. *)
Record forestOf (E R : nat → nat → Prop) : Prop := ForestOf {
  forest_sym : ∀ u v, R u v → R v u;
  forest_trans : ∀ u v w, R u v → R v w → R u w;
  forest_edge : ∀ u v, E u v → R u v;
  forest_path : ∀ u v, R u v → ∃ p, simplePath E u v p;
  forest_unique : ∀ u v p q, simplePath E u v p → simplePath E u v q → p = q
}.

Definition addEdge (E : nat → nat → Prop) (a b : nat) : nat → nat → Prop :=
  λ u v, E u v ∨ (u = a ∧ v = b) ∨ (u = b ∧ v = a).

Definition joinSets (R : nat → nat → Prop) (a b : nat) : nat → nat → Prop :=
  λ u v, R u v ∨ (R u a ∧ R b v) ∨ (R u b ∧ R a v).

(** ** Grids *)

(** A grid as the constructors hand it out and as every exported method
    leaves it: the cells fill the rectangle and the working list of the
    generator is empty. *)
Record valid (m : GridMaze) : Prop := Valid {
  valid_width : 1 ≤ width m;
  valid_height : 1 ≤ height m;
  valid_cells : length (cells m) = width m * height m;
  valid_neighbors : neighbors m = []
}.

Definition cellCount (m : GridMaze) : nat := length (cells m).

Definition states (m : GridMaze) : list cellState := map state (cells m).

Definition noExclusions (m : GridMaze) : Prop :=
  ∀ i s, states m !! i = Some s → s ≠ 2.

(** The wall to the right of cell [u], resp. below it, is cleared on both
    of the cells that share it. *)
Definition rightOpen (m : GridMaze) (u : nat) : Prop :=
  u mod width m ≠ width m - 1 ∧
  ∃ cu cv, cells m !! u = Some cu ∧ cells m !! (u + 1) = Some cv ∧
           wRight (walls cu) = false ∧ wLeft (walls cv) = false.

Definition downOpen (m : GridMaze) (u : nat) : Prop :=
  ∃ cu cv, cells m !! u = Some cu ∧ cells m !! (u + width m) = Some cv ∧
           wBottom (walls cu) = false ∧ wTop (walls cv) = false.

(** The graph of the maze: two adjacent cells with the wall between them
    cleared. *)
Definition passage (m : GridMaze) (u v : nat) : Prop :=
  (v = u + 1 ∧ rightOpen m u) ∨ (u = v + 1 ∧ rightOpen m v) ∨
  (v = u + width m ∧ downOpen m u) ∨ (u = v + width m ∧ downOpen m v).

(** Wall symmetry: right against left, bottom against top. *)
Definition wallSymmetric (m : GridMaze) : Prop :=
  ∀ u cu cv, cells m !! u = Some cu →
    (u mod width m ≠ width m - 1 → cells m !! (u + 1) = Some cv →
     wRight (walls cu) = wLeft (walls cv)) ∧
    (cells m !! (u + width m) = Some cv →
     wBottom (walls cu) = wTop (walls cv)).

(** The pairs that [initDisjointNeighbors] lists for the cell [i], given
    the states of the cells. *)
Definition pairsAt (w : nat) (st : list cellState) (i : nat)
  : list gridNeighborInfo :=
  match st !! i with
  | None => []
  | Some s =>
      if s =? 2 then []
      else
        (if negb (i mod w =? w - 1) then
           match st !! (i + 1) with
           | Some r => if negb (r =? 2) then [Neighbor i 2] else []
           | None => []
           end
         else [])
        ++ match st !! (i + w) with
           | Some b => if negb (b =? 2) then [Neighbor i 3] else []
           | None => []
           end
  end.

(** A pair of adjacent cells, neither of them excluded. *)
Definition joinable (m : GridMaze) (n : gridNeighborInfo) : Prop :=
  n ∈ pairsAt (width m) (states m) (baseIndex n).

Definition otherIndex (m : GridMaze) (n : gridNeighborInfo) : nat :=
  if neighborDirection n =? 2 then baseIndex n + 1
  else baseIndex n + width m.

(** The invariant of the loop of [RegenerateFromSeed]: the part about the
    cells and the heap, and the part about the list of pairs. *)
Record gridInv (m : GridMaze) (h : heap) : Prop := GridInv {
  grid_width : 1 ≤ width m;
  grid_height : 1 ≤ height m;
  grid_cells : length (cells m) = width m * height m;
  grid_heap : length h = length (cells m);
  grid_forest : forestOk h;
  grid_djSet : ∀ i c, cells m !! i = Some c → djSet c = Some i;
  grid_sym : wallSymmetric m;
  grid_excluded : ∀ i c, cells m !! i = Some c → state c = 2 →
    walls c = Walls true true true true;
  grid_right : ∀ u, rightOpen m u → joinable m (Neighbor u 2);
  grid_down : ∀ u, downOpen m u → joinable m (Neighbor u 3);
  grid_tree : forestOf (passage m) (sameSet h)
}.

Record listInv (m : GridMaze) (h : heap) (ns : list gridNeighborInfo)
  : Prop := ListInv {
  list_listed : ∀ n, n ∈ ns → joinable m n;
  list_cover : ∀ n, joinable m n →
    n ∈ ns ∨ sameSet h (baseIndex n) (otherIndex m n);
  list_short : length ns ≤ 2 * length (cells m)
}.

Definition genInv (m : GridMaze) (h : heap) : Prop :=
  gridInv m h ∧ listInv m h (neighbors m).

(** What regeneration leaves alone. *)
Definition sameFrame (m m' : GridMaze) : Prop :=
  width m' = width m ∧ height m' = height m ∧ states m' = states m.

(** Fuel that is enough for the loops of the generator and of the solver
    on a grid with [n] cells. *)
Definition enoughFuel (n : nat) : nat := 2 * n + 2.

(** The wall flag [d] of a cell, for any [d]. *)
Definition flag (c : gridMazeCell) (d : nat) : bool :=
  match d with
  | 0 => wLeft (walls c)
  | 1 => wTop (walls c)
  | 2 => wRight (walls c)
  | _ => wBottom (walls c)
  end.

(** Clearing wall [d] of cell [i] and the opposite wall of cell [j], in
    this order. *)
Definition clearPair (cs : list gridMazeCell) (i j d : nat)
  : list gridMazeCell :=
  alter (setCellWall (opposite d) false) j (alter (setCellWall d false) i cs).

(** Whether clearing the pair touches flag [d'] of cell [k]. *)
Definition cleared (i j d k d' : nat) : bool :=
  (k =? i) && (d' =? d) || (k =? j) && (d' =? opposite d).

Definition sameEnds (m m' : GridMaze) : Prop :=
  startCellIndex m' = startCellIndex m ∧ endCellIndex m' = endCellIndex m.

(** ** The eroder in the words of the specification *)

(** A wall segment is named by a cell and one of its four walls.  The four
    segments that meet at the bottom-right corner of cell [idx]: the
    right and bottom walls of that cell, the left and top walls of the
    cell diagonally below-right. *)
Definition cornerSegments (w idx : nat) : list (nat * nat) :=
  [(idx, 2); (idx, 3); (idx + w + 1, 0); (idx + w + 1, 1)].

(** Whether a segment is present in the snapshot. *)
Definition segmentSet (snapshot : list gridMazeCell) (s : nat * nat) : bool :=
  match snapshot !! s.1 with
  | Some c => flag c s.2
  | None => false
  end.

(** The cell on the other side of a segment. *)
Definition acrossWall (w : nat) (s : nat * nat) : nat :=
  match s.2 with
  | 0 => s.1 - 1
  | 1 => s.1 - w
  | 2 => s.1 + 1
  | _ => s.1 + w
  end.

(** Clearing a segment on both cells that share it. *)
Definition clearSegment (w : nat) (s : nat * nat) (cs : list gridMazeCell)
  : list gridMazeCell :=
  clearPair cs s.1 (acrossWall w s) s.2.

(** One corner: a segment that is the only one present is cleared,
    otherwise nothing changes. *)
Definition erodeCorner (w : nat) (snapshot cs : list gridMazeCell)
    (idx : nat) : list gridMazeCell :=
  match List.filter (segmentSet snapshot) (cornerSegments w idx) with
  | [s] => clearSegment w s cs
  | _ => cs
  end.

(** One pass: every corner that is not on the bottom row or on the right
    column, all of them judged on the same snapshot. *)
Definition erodeSpec (w h : nat) (snapshot cs : list gridMazeCell)
  : list gridMazeCell :=
  foldl (λ cs row,
           foldl (λ cs col, erodeCorner w snapshot cs (row * w + col))
                 cs (seq 0 (w - 1)))
        cs (seq 0 (h - 1)).

(** The corners of one pass: the bottom-right corners of the cells that
    are not on the bottom row or on the right column. *)
Definition corners (w h : nat) : list nat :=
  flat_map (λ row, map (λ col, row * w + col) (seq 0 (w - 1)))
           (seq 0 (h - 1)).

(** Whether the rule, at the corner of cell [idx], clears the wall [d] of
    cell [k]: the corner has a single segment present, and that segment
    is this wall, seen from either of the two cells that share it. *)
Definition erodes (w : nat) (snapshot : list gridMazeCell) (idx k d : nat)
  : bool :=
  match List.filter (segmentSet snapshot) (cornerSegments w idx) with
  | [s] => cleared s.1 (acrossWall w s) s.2 k d
  | _ => false
  end.

(** Excluded cells keep all four walls. *)
Definition excludedWalled (m : GridMaze) : Prop :=
  ∀ i c, cells m !! i = Some c → state c = 2 →
         walls c = Walls true true true true.

(** ** The solver, abstractly *)

(** The cell that move [d] from cell [u] leads to, and whether the move
    stays inside the grid. *)
Definition target (w u d : nat) : nat :=
  match d with
  | 0 => u - 1
  | 1 => u - w
  | 2 => u + 1
  | _ => u + w
  end.

Definition inGrid (w h u d : nat) : Prop :=
  match d with
  | 0 => u mod w ≠ 0
  | 1 => u / w ≠ 0
  | 2 => u mod w ≠ w - 1
  | _ => u / w ≠ h - 1
  end.

(** A step the solver may take: the wall of [u] towards [v] is cleared. *)
Definition canStep (m : GridMaze) (u v : nat) : Prop :=
  ∃ cu d, d ≤ 3 ∧ cells m !! u = Some cu ∧ flag cu d = false ∧
          inGrid (width m) (height m) u d ∧ v = target (width m) u d.

(** [trail parent s i l]: following the parent indices from [i] ends at
    the start cell [s], whose parent is -1; [l] lists the cells on the
    way, [i] first. *)
Inductive trail (parent : list Z) (s : nat) : nat → list nat → Prop :=
| trail_start :
    parent !! s = Some (-1)%Z → trail parent s s [s]
| trail_step i p l :
    i ≠ s → parent !! i = Some (Z.of_nat p) → trail parent s p l →
    trail parent s i (i :: l).

(** A cell the search has reached. *)
Definition reached (parent : list Z) (s i : nat) : Prop :=
  i = s ∨ ∃ p, parent !! i = Some (Z.of_nat p).

Definition countTrue (l : list bool) : nat :=
  length (List.filter id l).

Definition countFalse (l : list bool) : nat :=
  length (List.filter negb l).

(** The invariant of the search. *)
Record solveInv (m : GridMaze) (s : nat) (visited : list bool)
    (parent : list Z) (stack : list nat) : Prop := SolveInv {
  solve_visited : length visited = length (cells m);
  solve_parent : length parent = length (cells m);
  solve_start_visited : visited !! s = Some true;
  solve_start_parent : parent !! s = Some (-1)%Z;
  solve_excluded : ∀ i c, cells m !! i = Some c → state c = 2 →
    visited !! i = Some true;
  solve_link : ∀ i p, parent !! i = Some p →
    p = (-1)%Z ∨
    ∃ q c, p = Z.of_nat q ∧ i ≠ s ∧ visited !! i = Some true ∧
           canStep m q i ∧ reached parent s q ∧
           cells m !! i = Some c ∧ state c ≠ 2;
  solve_stack : ∀ i, i ∈ stack → reached parent s i ∧ i < length (cells m);
  solve_trail : ∀ i, reached parent s i →
    ∃ l, trail parent s i l ∧ length l ≤ countTrue visited
}.

(** A move that the solver finds closed at the cell [u]: the wall is
    set, the move leaves the grid, or the cell behind it has been
    visited. *)
Definition blocked (m : GridMaze) (visited : list bool) (u d : nat) : Prop :=
  ∀ cu, cells m !! u = Some cu → flag cu d = false →
        inGrid (width m) (height m) u d →
        visited !! target (width m) u d = Some true.

Definition excludedAt (m : GridMaze) (j : nat) : Prop :=
  ∃ c, cells m !! j = Some c ∧ state c = 2.

(** The part of the invariant that makes the search exhaustive.  The
    cells the search is done with are the reached cells that are neither
    on the stack nor the current cell [cur]: every move from them is
    closed, and the end cell [e] is not among them. *)
Record doneInv (m : GridMaze) (s e : nat) (cur : option nat)
    (visited : list bool) (parent : list Z) (stack : list nat)
  : Prop := DoneInv {
  done_visited : ∀ j, visited !! j = Some true →
    reached parent s j ∨ excludedAt m j;
  done_closed : ∀ i d, reached parent s i → i ∉ stack → cur ≠ Some i →
    d ≤ 3 → blocked m visited i d;
  done_end : reached parent s e → e ∈ stack
}.

(** What one round of the loop over the directions may add to the
    search: cells that are visited, given a parent and pushed. *)
Record grown (s : nat) (visited : list bool) (parent : list Z)
    (stack : list nat) (visited' : list bool) (parent' : list Z)
    (stack' : list nat) : Prop := Grown {
  grown_visited : ∀ j, visited !! j = Some true → visited' !! j = Some true;
  grown_new : ∀ j, visited' !! j = Some true →
    visited !! j = Some true ∨ j ∈ stack';
  grown_stack : ∀ i, i ∈ stack → i ∈ stack';
  grown_reached : ∀ i, reached parent s i → reached parent' s i;
  grown_pushed : ∀ i, reached parent' s i → reached parent s i ∨ i ∈ stack'
}.

(** A direction that the loop has tried from the cell [u]: the move is
    closed, or it is the move chosen as the next step. *)
Definition tried (m : GridMaze) (visited : list bool) (u : nat)
    (move : option (nat * nat)) (d : nat) : Prop :=
  ∀ cu, cells m !! u = Some cu → flag cu d = false →
        inGrid (width m) (height m) u d →
        visited !! target (width m) u d = Some true ∨
        move = Some (target (width m) u d, d).

(** A step of the solver into a cell that is not excluded, and the end
    cell being within reach of the start cell by such steps. *)
Definition openStep (m : GridMaze) (u v : nat) : Prop :=
  canStep m u v ∧ ¬ excludedAt m v.

Definition solvable (m : GridMaze) (s e : nat) : Prop :=
  ∃ q, path (openStep m) s e q.

(** A grid with its two ends: both inside the grid. *)
Definition validEnds (m : GridMaze) : Prop :=
  (0 ≤ startCellIndex m < Z.of_nat (length (cells m)))%Z ∧
  (0 ≤ endCellIndex m < Z.of_nat (length (cells m)))%Z.

Definition startCell (m : GridMaze) : nat := Z.to_nat (startCellIndex m).
Definition endCell (m : GridMaze) : nat := Z.to_nat (endCellIndex m).

(** Marking the cells of a list as on the solution path. *)
Definition markAll (l : list nat) (cs : list gridMazeCell)
  : list gridMazeCell :=
  foldl (λ cs i, alter (setCellState 1) i cs) cs l.

(** ** Regions of cells that are not excluded *)

Definition free (m : GridMaze) (u : nat) : Prop :=
  ∃ c, cells m !! u = Some c ∧ state c ≠ 2.

(** Two cells next to each other in a row or in a column. *)
Definition adjacent (m : GridMaze) (u v : nat) : Prop :=
  (v = u + 1 ∧ u mod width m ≠ width m - 1) ∨
  (u = v + 1 ∧ v mod width m ≠ width m - 1) ∨
  v = u + width m ∨ u = v + width m.

Definition freeStep (m : GridMaze) (u v : nat) : Prop :=
  adjacent m u v ∧ free m u ∧ free m v.

(** The exclusions leave the start cell and the end cell in different
    regions: no walk over cells that are not excluded joins them. *)
Definition separated (m : GridMaze) : Prop :=
  ∀ p, ¬ path (freeStep m) (startCell m) (endCell m) p.

Definition startFree (m : GridMaze) : Prop := free m (startCell m).

(** Every cell in the normal state: no exclusions and no solution shown. *)
Definition allNormal (m : GridMaze) : Prop :=
  ∀ i c, cells m !! i = Some c → state c = 0.

(** ** A random source and small grids to run the code on *)

(** A small congruential generator. *)
Definition lcg : Rand := {|
  rngState := nat;
  NewSource := Z.to_nat;
  Intn := λ s n, ((s * 7 + 3) mod n, (s * 5 + 1) mod 101);
  Intn_lt := λ s n Hn,
    Nat.mod_upper_bound (s * 7 + 3) n (proj2 (Nat.neq_0_lt_0 n) Hn)
|}.

(** What [allocateMaze 2 2] hands to the generator. *)
Definition grid2x2 : GridMaze :=
  Maze 2 2 (replicate 4 zeroCell) (-1) (-1) [] 0.

(** What [allocateMaze 3 3] hands to the generator. *)
Definition grid3x3 : GridMaze :=
  Maze 3 3 (replicate 9 zeroCell) (-1) (-1) [] 0.

(** A 2x2 grid with a solution shown and one cell excluded. *)
Definition marked2x2 : GridMaze :=
  Maze 2 2 [setCellState 1 zeroCell; setCellState 1 zeroCell;
            setCellState 2 zeroCell; setCellState 1 zeroCell] 0 3 [] 0.

Definition blackPixel : Color := RGBA 0 0 0 65535.
Definition whitePixel : Color := RGBA 65535 65535 65535 65535.

(** A template two pixels wide and three high whose middle row is
    black. *)
Definition splitPicture : Image :=
  Picture 0 0 2 3 (λ _ row, if (row =? 1)%Z then blackPixel else whitePixel).

(** The grid that [NewGridMazeFromTemplate] builds from [splitPicture]
    and hands to [RegenerateFromSeed]: the cells as allocated, the middle
    row excluded, the ends in the two corners. *)
Definition splitGrid : GridMaze :=
  Maze 2 3 [zeroCell; zeroCell;
            setCellState 2 zeroCell; setCellState 2 zeroCell;
            zeroCell; zeroCell] 0 5 [] 0.

(** A template of a single pixel. *)
Definition dotPicture : Image := Picture 0 0 1 1 (λ _ _, whitePixel).

(** A 2x2 grid whose only wall is the one between the two upper cells: a
    dangling stub at the middle corner. *)
Definition stubGrid : GridMaze :=
  Maze 2 2 [Cell (Walls false false true false) 0 None;
            Cell (Walls true false false false) 0 None;
            zeroCell; zeroCell] 0 3 [] 0.


(** The end cell can be reached from the start cell over adjacent cells
    that are not excluded. *)
Definition joined (m : GridMaze) : Prop :=
  ∃ p, path (freeStep m) (startCell m) (endCell m) p.

(** A 3x3 grid with its middle cell excluded and its ends in two
    opposite corners. *)
Definition holed3x3 : GridMaze :=
  Maze 3 3 [zeroCell; zeroCell; zeroCell;
            zeroCell; setCellState 2 zeroCell; zeroCell;
            zeroCell; zeroCell; zeroCell] 0 8 [] 0.

(** No cell shown as on the solution path. *)
Definition noMarks (m : GridMaze) : Prop :=
  ∀ i c, cells m !! i = Some c → state c ≠ 1.

(** A result passed through a function. *)
Definition mapResult {A B} (f : A → B) (r : result A) : result B :=
  match r with
  | Ok a => Ok (f a)
  | Err e => Err e
  | Panic => Panic
  | OutOfFuel => OutOfFuel
  end.

(** ** The template loader, abstractly *)

(** The pixel of a template that the cell [i] is read from: the loops go
    through the rows from top to bottom and through each row from left
    to right. *)
Definition pixelOf (p : Image) (i : nat) : Color :=
  let w := Z.to_nat (maxX p - minX p) in
  At p (minX p + Z.of_nat (i mod w)) (minY p + Z.of_nat (i / w)).

(** The cells after the first [k] of [n] pixels have been read, and the
    candidates of type [t] among those pixels. *)
Definition templateCells (p : Image) (k n : nat) : list gridMazeCell :=
  map (λ i, if colorToTemplateCellType (pixelOf p i) =? 1
            then setCellState 2 zeroCell else zeroCell) (seq 0 k)
  ++ replicate (n - k) zeroCell.

Definition candidates (t : nat) (p : Image) (k : nat) : list nat :=
  List.filter (λ i, colorToTemplateCellType (pixelOf p i) =? t) (seq 0 k).

(** The size of the grid that a template gives. *)
Definition templateWidth (p : Image) : nat := Z.to_nat (maxX p - minX p).
Definition templateHeight (p : Image) : nat := Z.to_nat (maxY p - minY p).
Definition templateCount (p : Image) : nat :=
  templateWidth p * templateHeight p.

Definition hasGreen (p : Image) (n : nat) : Prop :=
  ∃ i, i < n ∧ isGreen (pixelOf p i).

Definition hasRed (p : Image) (n : nat) : Prop :=
  ∃ i, i < n ∧ isRed (pixelOf p i).

(** A template with a green pixel, a red pixel and a black one. *)
Definition greenPixel : Color := RGBA 0 65535 0 65535.
Definition redPixel : Color := RGBA 65535 0 0 65535.

Definition cornerPicture : Image :=
  Picture 0 0 2 2
    (λ col row,
       if ((col =? 1) && (row =? 0))%Z then greenPixel
       else if ((col =? 0) && (row =? 1))%Z then redPixel
       else if ((col =? 1) && (row =? 1))%Z then blackPixel
       else whitePixel).

(** ** Drawing *)

(** The number of pixels across a cell. *)
Definition cellPixels : Z := 9.

(** The colours that the drawing code answers with: [color.Transparent],
    [color.White], [color.Black] and the red of the solution path,
    [color.RGBA{230, 20, 20, 255}]. *)
Inductive pixel : Type :=
| Transparent
| White
| Black
| SolutionRed.

(** [image.Rect]: the rectangle with the two given corners, its minimum
    first. *)
Definition imageRect (x0 y0 x1 y1 : Z) : Z * Z * Z * Z :=
  (Z.min x0 x1, Z.min y0 y1, Z.max x0 x1, Z.max y0 y1).

(** [gridMazeCell.Bounds]. *)
Definition cellBounds : Z * Z * Z * Z :=
  imageRect 0 0 cellPixels cellPixels.

(** [gridMazeCell.cornerSet]: [walls[n] || walls[n+1]], the last corner
    wrapping round to the first wall. *)
Definition cornerSet (c : gridMazeCell) (n : Z) : bool :=
  if ((n <? 0) || (n >? 3))%Z then true
  else if (n =? 3)%Z then flag c 3 || flag c 0
  else flag c (Z.to_nat n) || flag c (Z.to_nat (n + 1)).

(** [gridMazeCell.At]. *)
Definition cellAt (c : gridMazeCell) (x y : Z) : pixel :=
  if ((x <? 0) || (y <? 0) || (x >=? cellPixels) || (y >=? cellPixels))%Z
  then Transparent
  else if state c =? 2 then White
  else if (x =? 0)%Z then
    if (y =? 0)%Z then (if cornerSet c 0 then Black else White)
    else if (y =? cellPixels - 1)%Z then
      (if cornerSet c 3 then Black else White)
    else if flag c 0 then Black else White
  else if (x =? cellPixels - 1)%Z then
    if (y =? 0)%Z then (if cornerSet c 1 then Black else White)
    else if (y =? cellPixels - 1)%Z then
      (if cornerSet c 2 then Black else White)
    else if flag c 2 then Black else White
  else if (y =? 0)%Z then (if flag c 1 then Black else White)
  else if (y =? cellPixels - 1)%Z then (if flag c 3 then Black else White)
  else if negb (state c =? 1) then White
  else if ((x >? 1) && (x <? cellPixels - 2) &&
           (y >? 1) && (y <? cellPixels - 2))%Z then SolutionRed
  else White.

(** [GridMaze.getCell]: the cell at [col*width + row]. *)
Definition getCell (m : GridMaze) (col row : Z) : result gridMazeCell :=
  i ← toIndex (wrap64 (wrap64 (col * Z.of_nat (width m)) + row));
  at_ (cells m) i.

(** [GridMaze.Bounds]. *)
Definition mazeBounds (m : GridMaze) : Z * Z * Z * Z :=
  imageRect 0 0 (wrap64 (Z.of_nat (width m) * cellPixels))
                (wrap64 (Z.of_nat (height m) * cellPixels)).

(** [GridMaze.At]: the pixel is drawn by the cell it falls into. *)
Definition mazeAt (m : GridMaze) (x y : Z) : result pixel :=
  if ((x <? 0) || (y <? 0) ||
      (x >=? wrap64 (Z.of_nat (width m) * cellPixels)) ||
      (y >=? wrap64 (Z.of_nat (height m) * cellPixels)))%Z
  then Ok Transparent
  else
    let row := Z.quot x cellPixels in
    let rowOffset := Z.rem x cellPixels in
    let col := Z.quot y cellPixels in
    let colOffset := Z.rem y cellPixels in
    c ← getCell m col row;
    Ok (cellAt c rowOffset colOffset).

(** [AddImageBorder]: the picture inside a white border [width] pixels
    wide; [imageBorder.Bounds] and [imageBorder.At]. *)
Definition AddImageBorder (pic : Image) (width : Z) : Image :=
  let dx := wrap64 (maxX pic - minX pic) in
  let dy := wrap64 (maxY pic - minY pic) in
  let w := wrap64 (width * 2) in
  let '(x0, y0, x1, y1) :=
    imageRect 0 0 (wrap64 (dx + w)) (wrap64 (dy + w)) in
  Picture x0 y0 x1 y1
    (λ x y,
       if ((x <? width) || (y <? width))%Z then whitePixel
       else if ((x >=? wrap64 (dx + width)) ||
                (y >=? wrap64 (dy + width)))%Z then whitePixel
       else At pic (wrap64 (wrap64 (x - width) + minX pic))
                   (wrap64 (wrap64 (y - width) + minY pic))).

(** A pixel of a cell that lies on the wall [d] of the cell. *)
Definition onWall (d : nat) (x y : Z) : Prop :=
  match d with
  | 0 => x = 0%Z
  | 1 => y = 0%Z
  | 2 => x = (cellPixels - 1)%Z
  | 3 => y = (cellPixels - 1)%Z
  | _ => False
  end.

Definition inCell (x y : Z) : Prop :=
  (0 ≤ x < cellPixels)%Z ∧ (0 ≤ y < cellPixels)%Z.

(** A grid whose picture has coordinates that fit an [int]. *)
Definition fitsImage (m : GridMaze) : Prop :=
  (Z.of_nat (width m) * cellPixels < 2 ^ 63)%Z ∧
  (Z.of_nat (height m) * cellPixels < 2 ^ 63)%Z ∧
  (Z.of_nat (width m) * Z.of_nat (height m) < 2 ^ 63)%Z.

(** The pixels of the picture of a grid. *)
Definition inPicture (m : GridMaze) (x y : Z) : Prop :=
  (0 ≤ x < Z.of_nat (width m) * cellPixels)%Z ∧
  (0 ≤ y < Z.of_nat (height m) * cellPixels)%Z.

(** A picture whose bounds are in order and whose frame of the given
    width has coordinates that fit an [int]. *)
Definition fitsBorder (pic : Image) (width : Z) : Prop :=
  (0 ≤ width)%Z ∧ (minX pic ≤ maxX pic)%Z ∧ (minY pic ≤ maxY pic)%Z ∧
  (- 2 ^ 62 ≤ minX pic)%Z ∧ (- 2 ^ 62 ≤ minY pic)%Z ∧
  (maxX pic + 2 * width < 2 ^ 62)%Z ∧ (maxY pic + 2 * width < 2 ^ 62)%Z.

(** Every cell normal or excluded, as the two constructors leave them. *)
Definition plainStates (m : GridMaze) : Prop :=
  ∀ i c, cells m !! i = Some c → state c = 0 ∨ state c = 2.

(** The grid is enclosed: a wall that is clear has a cell of the grid
    behind it. *)
Definition enclosed (m : GridMaze) : Prop :=
  ∀ i c d, cells m !! i = Some c → d ≤ 3 → flag c d = false →
           inGrid (width m) (height m) i d.

(** * Proofs *)

(** ** Outcomes, loops *)

Lemma bind_Ok {A B} (r : result A) (f : A → result B) (b : B) :
  r ≫= f = Ok b → ∃ a, r = Ok a ∧ f a = Ok b.
Proof. destruct r; simpl; intros; try discriminate. eauto. Qed.

Lemma bind_Ok_eq {A B} (r : result A) (f : A → result B) (a : A) :
  r = Ok a → r ≫= f = f a.
Proof. by intros ->. Qed.

Lemma at_Ok {A} (l : list A) i x : at_ l i = Ok x ↔ l !! i = Some x.
Proof. unfold at_. destruct (l !! i); split; congruence. Qed.

Lemma at_lookup {A} (l : list A) i x : l !! i = Some x → at_ l i = Ok x.
Proof. by intros ?%at_Ok. Qed.

Lemma at_lt {A} (l : list A) i : i < length l → ∃ x, at_ l i = Ok x.
Proof.
  intros Hi. destruct (lookup_lt_is_Some_2 l i Hi) as [x Hx].
  exists x. by apply at_Ok.
Qed.

(** Split a conjunction without unfolding anything. *)
Ltac splitAll := repeat match goal with |- _ ∧ _ => split end.

(** Take a hypothesis [c ≫= f = Ok b] apart. *)
Ltac bindInv H :=
  let a := fresh "a" in
  let Ha := fresh "Hb" in
  apply bind_Ok in H as (a & Ha & H).

(** Total correctness of a loop: every round keeps the invariant and
    lowers the measure, or leaves with the postcondition, or fails with
    an allowed error. *)
Lemma loop_spec {S R} (I : S → Prop) (Q : R → Prop) (E : error → Prop)
    (μ : S → nat) (body : S → result (S + R)) :
  (∀ s, I s →
     match body s with
     | Ok (inl s') => I s' ∧ μ s' < μ s
     | Ok (inr r) => Q r
     | Err e => E e
     | _ => False
     end) →
  ∀ fuel s, I s → μ s < fuel →
    match loop fuel body s with
    | Ok r => Q r
    | Err e => E e
    | _ => False
    end.
Proof.
  intros Hstep fuel. induction fuel as [|fuel IH]; intros s Hs Hμ; [lia|].
  simpl. specialize (Hstep s Hs).
  destruct (body s) as [[s'|r]|e| |]; try done.
  destruct Hstep as [Hs' Hlt]. apply IH; [done|lia].
Qed.

(** Partial correctness of a loop. *)
Lemma loop_inv {S R} (I : S → Prop) (Q : R → Prop)
    (body : S → result (S + R)) :
  (∀ s s', I s → body s = Ok (inl s') → I s') →
  (∀ s r, I s → body s = Ok (inr r) → Q r) →
  ∀ fuel s r, I s → loop fuel body s = Ok r → Q r.
Proof.
  intros Hl Hr fuel. induction fuel as [|fuel IH]; intros s r Hs; [done|].
  simpl. destruct (body s) as [[s'|r']|e| |] eqn:Hb; try done.
  - eauto.
  - intros [= <-]. eauto.
Qed.

(** A range loop keeps an invariant indexed by the position. *)
Lemma foldM_seq {B} (I : nat → B → Prop) (f : B → nat → result B)
    (start len : nat) (b : B) :
  I start b →
  (∀ k b, start ≤ k < start + len → I k b →
     match f b k with Ok b' => I (S k) b' | _ => False end) →
  match foldM f (seq start len) b with
  | Ok b' => I (start + len) b'
  | _ => False
  end.
Proof.
  revert start b. induction len as [|len IH]; intros start b Hb Hf; simpl.
  - by rewrite Nat.add_0_r.
  - pose proof (Hf start b ltac:(lia) Hb) as H1.
    destruct (f b start) as [b'| | |]; try done. simpl.
    replace (start + S len) with (S start + len) by lia.
    apply IH; [done|]. intros k b0 Hk. apply Hf. lia.
Qed.

Lemma foldM_seq_Ok {B} (f : B → nat → result B) (g : nat → B)
    (start len : nat) (b : B) :
  b = g start →
  (∀ k, start ≤ k < start + len → f (g k) k = Ok (g (S k))) →
  foldM f (seq start len) b = Ok (g (start + len)).
Proof.
  intros ->. revert start. induction len as [|len IH]; intros start Hf; simpl.
  - by rewrite Nat.add_0_r.
  - rewrite Hf by lia. simpl.
    replace (start + S len) with (S start + len) by lia.
    apply IH. intros k Hk. apply Hf. lia.
Qed.

Lemma foldM_list {A B} (I : B → Prop) (f : B → A → result B)
    (l : list A) (b : B) :
  I b →
  (∀ a b, a ∈ l → I b → match f b a with Ok b' => I b' | _ => False end) →
  match foldM f l b with Ok b' => I b' | _ => False end.
Proof.
  revert b. induction l as [|a l IH]; intros b Hb Hf; simpl; [done|].
  pose proof (Hf a b ltac:(left) Hb) as H1.
  destruct (f b a) as [b'| | |]; try done. simpl.
  apply IH; [done|]. intros a0 b0 Ha. apply Hf. by right.
Qed.

Lemma wrap64_small z : (- 2 ^ 63 ≤ z < 2 ^ 63)%Z → wrap64 z = z.
Proof. intros Hz. unfold wrap64. rewrite Z.mod_small; lia. Qed.

(** Rows and columns of an index. *)
Lemma rowcol_mod w row col : col < w → (row * w + col) mod w = col.
Proof.
  intros Hc. rewrite Nat.add_comm, Nat.Div0.mod_add.
  by apply Nat.mod_small.
Qed.

Lemma rowcol_div w row col : col < w → (row * w + col) / w = row.
Proof.
  intros Hc. rewrite Nat.add_comm, Nat.div_add by lia.
  rewrite Nat.div_small; lia.
Qed.

Lemma rowcol_lt w h row col : col < w → row < h → row * w + col < w * h.
Proof. nia. Qed.

Lemma index_rowcol w i : 0 < w → i = (i / w) * w + i mod w.
Proof. intros Hw. pose proof (Nat.div_mod_eq i w). lia. Qed.

Lemma index_row_lt w h i : 0 < w → i < w * h → i / w < h.
Proof. intros Hw Hi. apply Nat.Div0.div_lt_upper_bound. lia. Qed.

(** ** Disjoint sets *)

Lemma rootOf_det h x r r' : rootOf h x r → rootOf h x r' → r = r'.
Proof.
  induction 1 as [x n Hx Hp|x n r Hx Hp Hr IH]; inversion 1; subst;
    try done; simplify_eq; eauto.
Qed.

Lemma rootOf_root h x r : rootOf h x r → ∃ n, h !! r = Some n ∧ parent n = r.
Proof. induction 1; eauto. Qed.

Lemma rootOf_root_self h x r : rootOf h x r → rootOf h r r.
Proof. intros (n & ? & ?)%rootOf_root. by eapply rootOf_self. Qed.

Lemma rootOf_lt h x r : rootOf h x r → x < length h.
Proof. inversion 1; subst; by eapply lookup_lt_Some. Qed.

Lemma rootOf_root_lt h x r : rootOf h x r → r < length h.
Proof. intros (n & ? & ?)%rootOf_root. by eapply lookup_lt_Some. Qed.

Lemma rootOf_is_root h x n r :
  h !! x = Some n → parent n = x → rootOf h x r → r = x.
Proof. intros Hx Hp Hr. eapply rootOf_det; [done|]. by eapply rootOf_self. Qed.

Lemma rootOf_rank_le h x r nx nr :
  rankOk h → rootOf h x r → h !! x = Some nx → h !! r = Some nr →
  rank nx ≤ rank nr ∧ (x ≠ r → rank nx < rank nr).
Proof.
  intros Hok Hr. revert nx nr.
  induction Hr as [x n Hx Hp|x n r Hx Hp Hr IH]; intros nx nr Hnx Hnr.
  - assert (nx = nr) as -> by congruence. split; [lia|done].
  - assert (nx = n) as -> by congruence.
    destruct (Hok x n Hx Hp) as (pn & Hpn & Hlt).
    destruct (IH pn nr Hpn Hnr) as [Hle _]. split; [lia|intros _; lia].
Qed.

Lemma rootOf_exists h x : forestOk h → x < length h → ∃ r, rootOf h x r.
Proof.
  intros [Hrank Hbound] Hx.
  destruct (lookup_lt_is_Some_2 h x Hx) as [nx Hnx].
  remember (length h - rank nx) as k eqn:Hk.
  assert (length h - rank nx ≤ k) as Hle by lia. clear Hk Hx.
  revert x nx Hnx Hle.
  induction k as [|k IH]; intros x nx Hnx Hle;
    destruct (decide (parent nx = x)) as [Hp|Hp];
    try (exists x; by eapply rootOf_self);
    destruct (Hrank x nx Hnx Hp) as (pn & Hpn & Hlt);
    pose proof (Hbound _ _ Hpn) as Hb.
  - lia.
  - destruct (IH (parent nx) pn Hpn ltac:(lia)) as [r Hr].
    exists r. by eapply rootOf_step.
Qed.

Lemma sameSet_sym h u v : sameSet h u v → sameSet h v u.
Proof. intros (r & ? & ?). by exists r. Qed.

Lemma sameSet_trans h u v w : sameSet h u v → sameSet h v w → sameSet h u w.
Proof.
  intros (r & Hu & Hv) (r' & Hv' & Hw).
  assert (r = r') as <- by by eapply rootOf_det. by exists r.
Qed.

Lemma sameSet_refl h u : forestOk h → u < length h → sameSet h u u.
Proof. intros Hok Hu. destruct (rootOf_exists h u Hok Hu) as [r Hr]. by exists r. Qed.

Lemma sameSet_lt h u v : sameSet h u v → u < length h ∧ v < length h.
Proof. intros (r & Hu & Hv). split; by eapply rootOf_lt. Qed.

Lemma sameRoots_refl h : sameRoots h h.
Proof. by split. Qed.

Lemma sameRoots_trans h1 h2 h3 :
  sameRoots h1 h2 → sameRoots h2 h3 → sameRoots h1 h3.
Proof.
  intros [Hl1 H1] [Hl2 H2]. split; [congruence|].
  intros x r. by rewrite H1, H2.
Qed.

Lemma sameRoots_sameSet h h' u v : sameRoots h h' → sameSet h u v ↔ sameSet h' u v.
Proof.
  intros [_ Hr]. unfold sameSet.
  split; intros (r & ? & ?); exists r; split; by apply Hr.
Qed.

Lemma alter_ge {A} (f : A → A) (l : list A) i :
  l !! i = None → alter f i l = l.
Proof.
  intros Hi. apply list_eq. intros j. rewrite list_lookup_alter.
  case_decide; [subst; by rewrite Hi|done].
Qed.

Lemma countRootsFrom_alter (f : disjointSet → disjointSet) h x i n :
  h !! x = Some n →
  countRootsFrom i (alter f x h) + (if parent n =? i + x then 1 else 0)
  = countRootsFrom i h + (if parent (f n) =? i + x then 1 else 0).
Proof.
  revert x i. induction h as [|a h IH]; intros x i Hx; [done|].
  destruct x as [|x]; simpl in *.
  - simplify_eq. rewrite Nat.add_0_r.
    destruct (parent (f n) =? i), (parent n =? i); lia.
  - specialize (IH x (S i) Hx).
    replace (i + S x) with (S i + x) by lia.
    change (alter f x h) with (list_alter f x h) in IH.
    destruct (parent a =? i), (parent n =? S i + x),
      (parent (f n) =? S i + x); lia.
Qed.

(** Re-parenting a node that is not a root to another node leaves the
    number of roots alone. *)
Lemma countRoots_alter_nonroot (f : disjointSet → disjointSet) h x n :
  h !! x = Some n → parent n ≠ x → parent (f n) ≠ x →
  countRoots (alter f x h) = countRoots h.
Proof.
  intros Hx Hp Hp'. unfold countRoots.
  pose proof (countRootsFrom_alter f h x 0 n Hx) as Hc. simpl in Hc.
  destruct (Nat.eqb_spec (parent n) x), (Nat.eqb_spec (parent (f n)) x); lia.
Qed.

Lemma countRoots_alter_same (f : disjointSet → disjointSet) h x :
  (∀ n, parent (f n) = parent n) →
  countRoots (alter f x h) = countRoots h.
Proof.
  intros Hf. destruct (h !! x) as [n|] eqn:Hx.
  - unfold countRoots.
    pose proof (countRootsFrom_alter f h x 0 n Hx) as Hc. simpl in Hc.
    rewrite Hf in Hc. lia.
  - by rewrite alter_ge.
Qed.

Lemma countRoots_alter_root (f : disjointSet → disjointSet) h x n :
  h !! x = Some n → parent n = x → parent (f n) ≠ x →
  S (countRoots (alter f x h)) = countRoots h.
Proof.
  intros Hx Hp Hp'. unfold countRoots.
  pose proof (countRootsFrom_alter f h x 0 n Hx) as Hc. simpl in Hc.
  destruct (Nat.eqb_spec (parent n) x), (Nat.eqb_spec (parent (f n)) x); lia.
Qed.

(** Heaps with the same parent pointers have the same roots. *)
Lemma rootOf_same_parents h h' x r :
  (∀ y, parent <$> h !! y = parent <$> h' !! y) →
  rootOf h x r → rootOf h' x r.
Proof.
  intros Hsame. induction 1 as [x n Hx Hp|x n r Hx Hp Hr IH];
    pose proof (Hsame x) as Hs; rewrite Hx in Hs; simpl in Hs;
    destruct (h' !! x) as [n'|] eqn:Hx'; simpl in Hs; try done;
    injection Hs as Hs.
  - eapply rootOf_self; [done|congruence].
  - eapply rootOf_step; [done|congruence|]. by rewrite <- Hs.
Qed.

Lemma sameRoots_alter_rank (f : disjointSet → disjointSet) h y :
  (∀ n, parent (f n) = parent n) → sameRoots h (alter f y h).
Proof.
  intros Hf.
  assert (∀ z, parent <$> h !! z = parent <$> alter f y h !! z) as Hs.
  { intros z. destruct (decide (y = z)) as [->|Hne].
    - rewrite list_lookup_alter_eq. destruct (h !! z); simpl; [|done].
      by rewrite Hf.
    - by rewrite list_lookup_alter_ne. }
  split; [by rewrite length_alter|]. intros x r.
  split; apply rootOf_same_parents; [done|]. intros z. by rewrite Hs.
Qed.

(** Path compression: pointing [x] at its own root changes no root. *)
Lemma sameRoots_compress h x r :
  rootOf h x r → sameRoots h (alter (setParent r) x h).
Proof.
  intros Hxr. split; [by rewrite length_alter|]. intros y ry. split.
  - induction 1 as [y n Hy Hp|y n ry Hy Hp Hr IH].
    + destruct (decide (y = x)) as [->|Hne].
      * assert (r = x) as -> by by eapply rootOf_is_root.
        eapply rootOf_self.
        { rewrite list_lookup_alter_eq, Hy. done. }
        done.
      * eapply rootOf_self; [|done]. by rewrite list_lookup_alter_ne.
    + destruct (decide (y = x)) as [->|Hne].
      * assert (ry = r) as ->.
        { eapply rootOf_det; [|done]. by eapply rootOf_step. }
        assert (r ≠ x) as Hrx.
        { intros ->. destruct (rootOf_root _ _ _ Hxr) as (n' & ? & ?).
          simplify_eq. }
        eapply rootOf_step.
        { rewrite list_lookup_alter_eq, Hy. done. }
        { done. }
        simpl. destruct (rootOf_root _ _ _ Hxr) as (nr & Hnr & Hpr).
        eapply rootOf_self; [|done]. by rewrite list_lookup_alter_ne.
      * eapply rootOf_step; [|done|done]. by rewrite list_lookup_alter_ne.
  - induction 1 as [y n Hy Hp|y n ry Hy Hp Hr IH].
    + destruct (decide (y = x)) as [->|Hne].
      * rewrite list_lookup_alter_eq in Hy.
        destruct (h !! x) as [nx|] eqn:Hx; simplify_eq/=. done.
      * rewrite list_lookup_alter_ne in Hy by done. by eapply rootOf_self.
    + destruct (decide (y = x)) as [->|Hne].
      * rewrite list_lookup_alter_eq in Hy.
        destruct (h !! x) as [nx|] eqn:Hx; simplify_eq/=.
        assert (ry = r) as ->; [|done].
        eapply (rootOf_det h); [exact IH|]. by eapply rootOf_root_self.
      * rewrite list_lookup_alter_ne in Hy by done. by eapply rootOf_step.
Qed.

Lemma rankOk_alter (f : disjointSet → disjointSet) h x nx :
  rankOk h → h !! x = Some nx → rank nx ≤ rank (f nx) →
  (parent (f nx) ≠ x →
     ∃ pn, h !! parent (f nx) = Some pn ∧ rank (f nx) < rank pn) →
  rankOk (alter f x h).
Proof.
  intros Hok Hx Hrk Hpar y n Hy Hp.
  destruct (decide (y = x)) as [->|Hne].
  - rewrite list_lookup_alter_eq, Hx in Hy. simplify_eq/=.
    destruct (Hpar Hp) as (pn & Hpn & Hlt).
    exists pn. split; [|done]. by rewrite list_lookup_alter_ne.
  - rewrite list_lookup_alter_ne in Hy by done.
    destruct (Hok y n Hy Hp) as (pn & Hpn & Hlt).
    destruct (decide (parent n = x)) as [Heq|Hne'].
    + rewrite Heq in *. exists (f nx). simplify_eq.
      split; [by rewrite list_lookup_alter_eq, Hx|lia].
    + exists pn. split; [|done]. by rewrite list_lookup_alter_ne.
Qed.

Lemma boundOk_alter (f : disjointSet → disjointSet) h x :
  boundOk h → countRoots (alter f x h) ≤ countRoots h →
  (∀ n, h !! x = Some n →
        rank (f n) + countRoots (alter f x h) ≤ rank n + countRoots h) →
  boundOk (alter f x h).
Proof.
  intros Hok Hc Hf y n Hy. rewrite length_alter.
  destruct (decide (y = x)) as [->|Hne].
  - rewrite list_lookup_alter_eq in Hy.
    destruct (h !! x) as [nx|] eqn:Hx; simplify_eq/=.
    specialize (Hok x nx Hx). specialize (Hf nx eq_refl). lia.
  - rewrite list_lookup_alter_ne in Hy by done.
    specialize (Hok y n Hy). lia.
Qed.

(** [findSet] answers the root, and leaves a forest with the same sets. *)
Lemma findSet_spec h x r :
  forestOk h → rootOf h x r →
  ∀ fuel nx, h !! x = Some nx → length h < fuel + rank nx →
    ∃ h', findSet fuel h x = Ok (h', r) ∧ sameRoots h h' ∧ forestOk h' ∧
          countRoots h' = countRoots h.
Proof.
  intros Hok. induction 1 as [x n Hx Hp|x n r Hx Hp Hr IH];
    intros fuel nx Hnx Hfuel; assert (nx = n) as -> by congruence.
  - destruct fuel as [|fuel].
    { destruct Hok as [_ Hb]. specialize (Hb x n Hx). lia. }
    exists h. simpl. rewrite (at_lookup _ _ _ Hx). simpl.
    rewrite Hp, Nat.eqb_refl.
    split_and!; first [done|apply sameRoots_refl].
  - destruct (proj1 Hok x n Hx Hp) as (pn & Hpn & Hlt).
    destruct fuel as [|fuel].
    { destruct Hok as [_ Hb]. specialize (Hb _ _ Hpn). lia. }
    destruct (IH fuel pn Hpn ltac:(lia)) as (h1 & Hf & Hsr & Hok1 & Hc1).
    simpl. rewrite (at_lookup _ _ _ Hx). simpl.
    destruct (Nat.eqb_spec x (parent n)) as [Heq|_]; [congruence|].
    rewrite Hf. simpl.
    assert (rootOf h1 x r) as Hxr1.
    { apply Hsr. by eapply rootOf_step. }
    assert (x < length h1) as Hlt1 by by eapply rootOf_lt.
    destruct (lookup_lt_is_Some_2 h1 x Hlt1) as [n1 Hn1].
    assert (r ≠ x) as Hrx.
    { intros ->. destruct (rootOf_root _ _ _ Hr) as (n' & ? & ?).
      simplify_eq. }
    assert (parent n1 ≠ x) as Hp1.
    { intros Hp1. apply Hrx. by eapply rootOf_is_root. }
    destruct (rootOf_root _ _ _ Hxr1) as (nr & Hnr & Hpr).
    destruct (rootOf_rank_le h1 x r n1 nr (proj1 Hok1) Hxr1 Hn1 Hnr)
      as [_ Hrank].
    exists (alter (setParent r) x h1).
    assert (alter (setParent r) x h1 !! x = Some (setParent r n1)) as Hx2.
    { by rewrite list_lookup_alter_eq, Hn1. }
    rewrite (at_lookup _ _ _ Hx2). simpl.
    assert (countRoots (alter (setParent r) x h1) = countRoots h1) as Hc2.
    { eapply countRoots_alter_nonroot; [done|done|]. simpl. done. }
    split_and!.
    + done.
    + eapply sameRoots_trans; [done|]. by apply sameRoots_compress.
    + split.
      * eapply rankOk_alter; [apply Hok1|done|simpl; lia|].
        simpl. intros _. exists nr. split; [done|]. apply Hrank. congruence.
      * apply boundOk_alter; [apply Hok1|lia|]. intros n' _. simpl. lia.
    + lia.
Qed.

Lemma findSet_ok h x fuel :
  forestOk h → x < length h → length h < fuel →
  ∃ h' r, findSet fuel h x = Ok (h', r) ∧ rootOf h x r ∧ rootOf h' x r ∧
          sameRoots h h' ∧ forestOk h' ∧ countRoots h' = countRoots h.
Proof.
  intros Hok Hx Hfuel. destruct (rootOf_exists h x Hok Hx) as [r Hr].
  destruct (lookup_lt_is_Some_2 h x Hx) as [nx Hnx].
  destruct (findSet_spec h x r Hok Hr fuel nx Hnx ltac:(lia))
    as (h' & Hf & Hsr & Hok' & Hc).
  exists h', r. split_and!; try done. by apply Hsr.
Qed.

(** Hanging the root [x] under the root [y]. *)
Lemma rootOf_link h x y nx u r :
  x ≠ y → h !! x = Some nx → parent nx = x → rootOf h y y →
  rootOf h u r →
  rootOf (alter (setParent y) x h) u (if decide (r = x) then y else r).
Proof.
  intros Hxy Hx Hpx Hy.
  assert (rootOf (alter (setParent y) x h) y y) as Hy'.
  { destruct (rootOf_root _ _ _ Hy) as (ny & Hny & Hpy).
    eapply rootOf_self; [|done]. by rewrite list_lookup_alter_ne. }
  induction 1 as [u n Hu Hp|u n r Hu Hp Hr IH].
  - case_decide as Hux.
    + rewrite Hux. eapply rootOf_step.
      { by rewrite list_lookup_alter_eq, Hx. }
      { simpl. done. }
      done.
    + eapply rootOf_self; [|done]. by rewrite list_lookup_alter_ne.
  - assert (u ≠ x) as Hux by (intros ->; simplify_eq).
    eapply rootOf_step; [|done|done]. by rewrite list_lookup_alter_ne.
Qed.

Lemma sameSet_link h x y nx :
  (∀ u, u < length h → ∃ r, rootOf h u r) →
  x ≠ y → h !! x = Some nx → parent nx = x → rootOf h y y →
  ∀ u v, sameSet (alter (setParent y) x h) u v ↔
         sameSet h u v ∨ (sameSet h u x ∧ sameSet h y v) ∨
         (sameSet h u y ∧ sameSet h x v).
Proof.
  intros Htot Hxy Hx Hpx Hy u v.
  assert (rootOf h x x) as Hxx by by eapply rootOf_self.
  pose proof (λ u r, rootOf_link h x y nx u r Hxy Hx Hpx Hy) as Hlink.
  simpl in Hlink. split.
  - intros (r' & Hu' & Hv').
    pose proof (rootOf_lt _ _ _ Hu') as Hul.
    pose proof (rootOf_lt _ _ _ Hv') as Hvl.
    rewrite length_alter in Hul, Hvl.
    destruct (Htot u Hul) as [ru Hu], (Htot v Hvl) as [rv Hv].
    pose proof (Hlink u ru Hu) as Hu2.
    pose proof (Hlink v rv Hv) as Hv2.
    pose proof (rootOf_det _ _ _ _ Hu' Hu2) as E1.
    pose proof (rootOf_det _ _ _ _ Hv' Hv2) as E2.
    destruct (decide (ru = x)) as [Eu|Eu], (decide (rv = x)) as [Ev|Ev].
    + rewrite Eu in Hu. rewrite Ev in Hv. left. by exists x.
    + rewrite Eu in Hu. assert (rv = y) as Ey by congruence.
      rewrite Ey in Hv. right; left. split; [by exists x|by exists y].
    + rewrite Ev in Hv. assert (ru = y) as Ey by congruence.
      rewrite Ey in Hu. right; right. split; [by exists y|by exists x].
    + assert (ru = rv) as Ey by congruence.
      rewrite Ey in Hu. left. by exists rv.
  - intros [(r & Hu & Hv)|[[(r1 & Hu & Hx1) (r2 & Hy2 & Hv)]
                           |[(r1 & Hu & Hy1) (r2 & Hx2 & Hv)]]].
    + exists (if decide (r = x) then y else r).
      split; [exact (Hlink _ _ Hu)|exact (Hlink _ _ Hv)].
    + assert (r1 = x) as -> by by eapply (rootOf_det h x).
      assert (r2 = y) as -> by by eapply (rootOf_det h y).
      pose proof (Hlink u x Hu) as Hu2.
      pose proof (Hlink v y Hv) as Hv2.
      repeat case_decide; try done. by exists y.
    + assert (r1 = y) as -> by by eapply (rootOf_det h y).
      assert (r2 = x) as -> by by eapply (rootOf_det h x).
      pose proof (Hlink u y Hu) as Hu2.
      pose proof (Hlink v x Hv) as Hv2.
      repeat case_decide; try done. by exists y.
Qed.

(** The relation that joining the sets of [a] and [b] gives. *)
Lemma joined_roots (R : nat → nat → Prop) a b x y :
  (∀ u v, R u v → R v u) → (∀ u v w, R u v → R v w → R u w) →
  R a x → R b y →
  ∀ u v, (R u v ∨ (R u x ∧ R y v) ∨ (R u y ∧ R x v)) ↔
         (R u v ∨ (R u a ∧ R b v) ∨ (R u b ∧ R a v)).
Proof.
  intros Hsym Htr Hax Hby u v.
  split; (intros [?|[[? ?]|[? ?]]]; [by left|right; left|right; right]);
    split; eauto.
Qed.

Lemma link_forest g x y nx ny :
  rankOk g →
  (∀ z n, g !! z = Some n → rank n + countRoots g ≤ S (length g)) →
  g !! x = Some nx → parent nx = x → g !! y = Some ny → x ≠ y →
  rank nx < rank ny →
  forestOk (alter (setParent y) x g) ∧
  S (countRoots (alter (setParent y) x g)) = countRoots g.
Proof.
  intros Hrank Hbound Hx Hpx Hy Hxy Hlt.
  assert (S (countRoots (alter (setParent y) x g)) = countRoots g) as Hc.
  { eapply countRoots_alter_root; [done|done|]. simpl. congruence. }
  split; [split|done].
  - eapply rankOk_alter; [done|done|simpl; lia|].
    simpl. intros _. by exists ny.
  - intros z n Hz. rewrite length_alter.
    destruct (decide (z = x)) as [->|Hne].
    + rewrite list_lookup_alter_eq, Hx in Hz. simplify_eq/=.
      specialize (Hbound _ _ Hx). lia.
    + rewrite list_lookup_alter_ne in Hz by done.
      specialize (Hbound _ _ Hz). lia.
Qed.

Lemma rootOf_total h : forestOk h → ∀ u, u < length h → ∃ r, rootOf h u r.
Proof. intros Hok u Hu. by apply rootOf_exists. Qed.

(** [union] of two different sets joins exactly these two. *)
Lemma union_spec h a b fuel :
  forestOk h → a < length h → b < length h → ¬ sameSet h a b →
  length h < fuel →
  ∃ h', union fuel h a b = Ok h' ∧ forestOk h' ∧ length h' = length h ∧
        S (countRoots h') = countRoots h ∧
        ∀ u v, sameSet h' u v ↔
               sameSet h u v ∨ (sameSet h u a ∧ sameSet h b v) ∨
               (sameSet h u b ∧ sameSet h a v).
Proof.
  intros Hok Ha Hb Hab Hfuel.
  destruct (findSet_ok h a fuel Hok Ha Hfuel)
    as (h1 & x & Hf1 & Hax & Hax1 & Hsr1 & Hok1 & Hc1).
  pose proof (proj1 Hsr1) as Hl1.
  destruct (findSet_ok h1 b fuel Hok1 ltac:(lia) ltac:(lia))
    as (h2 & y & Hf2 & Hby1 & Hby2 & Hsr2 & Hok2 & Hc2).
  pose proof (proj1 Hsr2) as Hl2.
  pose proof (sameRoots_trans _ _ _ Hsr1 Hsr2) as Hsr.
  assert (rootOf h2 a x) as Hax2 by by apply Hsr2.
  assert (rootOf h b y) as Hby by by apply Hsr1.
  assert (x ≠ y) as Hxy.
  { intros ->. apply Hab. by exists y. }
  destruct (rootOf_root _ _ _ Hax2) as (nx & Hnx & Hpx).
  destruct (rootOf_root _ _ _ Hby2) as (ny & Hny & Hpy).
  assert (rootOf h2 x x) as Hxx by by eapply rootOf_self.
  assert (rootOf h2 y y) as Hyy by by eapply rootOf_self.
  assert (∀ u v, sameSet h2 u v ↔ sameSet h u v) as HR.
  { intros u v. symmetry. by apply sameRoots_sameSet. }
  assert (sameSet h a x) as Rax.
  { apply HR. by exists x. }
  assert (sameSet h b y) as Rby.
  { apply HR. by exists y. }
  pose proof (joined_roots (sameSet h) a b x y (sameSet_sym h)
                (sameSet_trans h) Rax Rby) as Hjoin.
  unfold union. rewrite Hf1. simpl. rewrite Hf2. simpl.
  rewrite (at_lookup _ _ _ Hnx), (at_lookup _ _ _ Hny). simpl.
  destruct (Nat.ltb_spec (rank ny) (rank nx)) as [Hlt|Hge].
  - destruct (link_forest h2 y x ny nx (proj1 Hok2)) as [Hok' Hc'];
      [|done|done|done|congruence|done|].
    { intros z n Hz. pose proof (proj2 Hok2 z n Hz). lia. }
    eexists; split; [done|]; split; [done|];
      split; [by rewrite length_alter; lia|]; split; [lia|].
    intros u v.
    rewrite (sameSet_link h2 y x ny (rootOf_total h2 Hok2)
               ltac:(congruence) Hny Hpy Hxx).
    rewrite !HR, <- Hjoin. tauto.
  - set (g := if rank nx =? rank ny then alter incrRank y h2 else h2).
    assert ((if rank nx =? rank ny
             then Ok (alter incrRank y (alter (setParent y) x h2))
             else Ok (alter (setParent y) x h2))
            = Ok (alter (setParent y) x g)) as ->.
    { unfold g. destruct (rank nx =? rank ny); [|done].
      by rewrite list_alter_alter_ne by congruence. }
    assert (sameRoots h2 g) as Hsg.
    { unfold g. destruct (rank nx =? rank ny); [|apply sameRoots_refl].
      by apply sameRoots_alter_rank. }
    assert (length g = length h2) as Hlg by apply Hsg.
    assert (countRoots g = countRoots h2) as Hcg.
    { unfold g. destruct (rank nx =? rank ny); [|done].
      by apply countRoots_alter_same. }
    assert (g !! x = Some nx) as Hgx.
    { unfold g. destruct (rank nx =? rank ny); [|done].
      by rewrite list_lookup_alter_ne by congruence. }
    assert (∃ ny', g !! y = Some ny' ∧ rank nx < rank ny' ∧
                   rank ny' ≤ S (rank ny)) as (ny' & Hgy & Hlt' & Hle').
    { unfold g. destruct (Nat.eqb_spec (rank nx) (rank ny)) as [Heq|Hne].
      - exists (incrRank ny). rewrite list_lookup_alter_eq, Hny. simpl.
        split; [done|lia].
      - exists ny. split; [done|lia]. }
    assert (rankOk g) as Hrg.
    { unfold g. destruct (rank nx =? rank ny); [|apply Hok2].
      eapply rankOk_alter; [apply Hok2|done|simpl; lia|]. simpl. done. }
    assert (S (countRoots (alter (setParent y) x h2)) = countRoots h2)
      as Hcl.
    { eapply countRoots_alter_root; [done|done|]. simpl. congruence. }
    destruct (link_forest g x y nx ny' Hrg) as [Hok' Hc'];
      [|done|done|done|done|done|].
    { intros z n Hz. rewrite Hcg, Hlg.
      destruct (decide (z = y)) as [->|Hzy].
      - assert (n = ny') as -> by congruence.
        pose proof (proj2 Hok2 y ny Hny). lia.
      - assert (h2 !! z = Some n) as Hz2.
        { revert Hz. unfold g. destruct (rank nx =? rank ny); [|done].
          by rewrite list_lookup_alter_ne by congruence. }
        pose proof (proj2 Hok2 z n Hz2). lia. }
    eexists; split; [done|]; split; [done|];
      split; [by rewrite length_alter; lia|]; split; [lia|].
    intros u v.
    assert (∀ u v, sameSet g u v ↔ sameSet h u v) as HRg.
    { intros u' v'. rewrite <- HR. symmetry. by apply sameRoots_sameSet. }
    rewrite (sameSet_link g x y nx); try done.
    + rewrite !HRg, <- Hjoin. tauto.
    + intros w Hw. destruct (rootOf_total h2 Hok2 w ltac:(lia)) as [r Hr].
      exists r. by apply Hsg.
    + by apply Hsg.
Qed.


(** ** Paths and forests *)

Section Paths.

Context (E R : nat → nat → Prop).

Lemma path_mono (E' : nat → nat → Prop) u v p :
  (∀ x y, E x y → E' x y) → path E u v p → path E' u v p.
Proof. intros Hsub. induction 1; econstructor; eauto. Qed.

Lemma path_head u v p : path E u v p → ∃ p', p = u :: p'.
Proof. destruct 1; eauto. Qed.

Lemma path_start_in u v p : path E u v p → u ∈ p.
Proof. destruct 1; left. Qed.

Lemma path_end_in u v p : path E u v p → v ∈ p.
Proof. induction 1; [left|by right]. Qed.

Lemma path_app u a b v p q :
  path E u a p → E a b → path E b v q → path E u v (p ++ q).
Proof.
  intros Hp Hab Hq. induction Hp as [a|u w a p Huw Hp IH]; simpl.
  - by econstructor.
  - econstructor; eauto.
Qed.

Hypothesis Rsym : ∀ u v, R u v → R v u.
Hypothesis Rtrans : ∀ u v w, R u v → R v w → R u w.
Hypothesis Redge : ∀ u v, E u v → R u v.

Lemma path_rel_end u v p : path E u v p → R v v → R u v.
Proof using Rtrans Redge. induction 1; eauto. Qed.

Lemma path_rel_start u v p : path E u v p → R u u → R u v.
Proof using Rsym Rtrans Redge.
  induction 1 as [|u w v p Huw Hp IH]; [done|]. intros _.
  pose proof (Redge _ _ Huw). eauto.
Qed.

Lemma path_in_rel u v p x : path E u v p → R u u → x ∈ p → R u x.
Proof using Rsym Rtrans Redge.
  induction 1 as [u|u w v p Huw Hp IH]; intros Hu Hx.
  - apply list_elem_of_singleton in Hx. by subst.
  - apply elem_of_cons in Hx as [->|Hx]; [done|].
    pose proof (Redge _ _ Huw). eauto.
Qed.

(** A simple path of the graph with one more edge uses that edge at
    most once. *)
Lemma path_addEdge_split a b u v p :
  path (addEdge E a b) u v p → NoDup p →
  path E u v p ∨
  (∃ p1 p2, p = p1 ++ p2 ∧ path E u a p1 ∧ path E b v p2) ∨
  (∃ p1 p2, p = p1 ++ p2 ∧ path E u b p1 ∧ path E a v p2).
Proof.
  induction 1 as [u|u w v p Huw Hp IH]; intros Hnd.
  - left. constructor.
  - apply NoDup_cons in Hnd as [Hu Hnd].
    destruct Huw as [Huw|[[-> ->]|[-> ->]]].
    + destruct (IH Hnd) as [Hq|[(p1 & p2 & -> & H1 & H2)
                               |(p1 & p2 & -> & H1 & H2)]].
      * left. by econstructor.
      * right; left. exists (u :: p1), p2. split; [done|].
        split; [by econstructor|done].
      * right; right. exists (u :: p1), p2. split; [done|].
        split; [by econstructor|done].
    + destruct (IH Hnd) as [Hq|[(p1 & p2 & -> & H1 & H2)
                               |(p1 & p2 & -> & H1 & H2)]].
      * right; left. exists [a], p. split; [done|]. split; [constructor|done].
      * exfalso. apply Hu. apply elem_of_app. left.
        by eapply path_end_in.
      * exfalso. apply Hu. apply elem_of_app. right.
        by eapply path_start_in.
    + destruct (IH Hnd) as [Hq|[(p1 & p2 & -> & H1 & H2)
                               |(p1 & p2 & -> & H1 & H2)]].
      * right; right. exists [b], p. split; [done|].
        split; [constructor|done].
      * exfalso. apply Hu. apply elem_of_app. right.
        by eapply path_start_in.
      * exfalso. apply Hu. apply elem_of_app. left.
        by eapply path_end_in.
Qed.

End Paths.

Lemma forestOf_ext (E E' R R' : nat → nat → Prop) :
  (∀ u v, E u v ↔ E' u v) → (∀ u v, R u v ↔ R' u v) →
  forestOf E R → forestOf E' R'.
Proof.
  intros HE HR [Hs Ht He Hp Hu].
  assert (∀ u v p, path E u v p ↔ path E' u v p) as Hpath.
  { intros u v p. split; apply path_mono; intros x y; apply HE. }
  split.
  - intros u v. rewrite <- !HR. apply Hs.
  - intros u v w. rewrite <- !HR. apply Ht.
  - intros u v. rewrite <- HE, <- HR. apply He.
  - intros u v HRuv. apply HR in HRuv. destruct (Hp u v HRuv) as [p [H1 H2]].
    exists p. split; [by apply Hpath|done].
  - intros u v p q [H1 H2] [H3 H4].
    apply (Hu u v); (split; [by apply Hpath|done]).
Qed.

(** Joining two trees of a forest by an edge gives a forest. *)
Lemma forestOf_add (E R : nat → nat → Prop) a b :
  forestOf E R → R a a → R b b → ¬ R a b →
  forestOf (addEdge E a b) (joinSets R a b).
Proof.
  intros [Hs Ht He Hp Hu] Haa Hbb Hab.
  assert (¬ R b a) as Hba by eauto.
  pose proof (path_rel_end E R Ht He) as Hend.
  pose proof (path_rel_start E R Hs Ht He) as Hstart.
  pose proof (path_in_rel E R Hs Ht He) as Hin.
  split.
  - intros u v [H|[[H1 H2]|[H1 H2]]]; unfold joinSets; eauto 6.
  - intros u v w [H|[[H1 H2]|[H1 H2]]] [H'|[[H1' H2']|[H1' H2']]];
      unfold joinSets; eauto 8.
  - intros u v [H|[[-> ->]|[-> ->]]]; unfold joinSets; eauto.
  - intros u v [H|[[H1 H2]|[H1 H2]]].
    + destruct (Hp u v H) as [p [Hp1 Hp2]]. exists p. split; [|done].
      eapply path_mono; [|done]. intros x y Hxy. by left.
    + destruct (Hp u a H1) as [p [Hp1 Hp2]].
      destruct (Hp b v H2) as [q [Hq1 Hq2]].
      exists (p ++ q). split.
      * eapply (path_app _ u a b v).
        { eapply path_mono; [|done]. intros x y Hxy. by left. }
        { right; left. done. }
        { eapply path_mono; [|done]. intros x y Hxy. by left. }
      * apply NoDup_app. split; [done|]. split; [|done].
        intros x Hx1 Hx2. apply Hab.
        assert (R u u) as Huu by eauto.
        pose proof (Hin u a p x Hp1 Huu Hx1).
        pose proof (Hin b v q x Hq1 Hbb Hx2). eauto.
    + destruct (Hp u b H1) as [p [Hp1 Hp2]].
      destruct (Hp a v H2) as [q [Hq1 Hq2]].
      exists (p ++ q). split.
      * eapply (path_app _ u b a v).
        { eapply path_mono; [|done]. intros x y Hxy. by left. }
        { right; right. done. }
        { eapply path_mono; [|done]. intros x y Hxy. by left. }
      * apply NoDup_app. split; [done|]. split; [|done].
        intros x Hx1 Hx2. apply Hab.
        assert (R u u) as Huu by eauto.
        pose proof (Hin u b p x Hp1 Huu Hx1).
        pose proof (Hin a v q x Hq1 Haa Hx2). eauto.
  - intros u v p q [Hp1 Hp2] [Hq1 Hq2].
    destruct (path_addEdge_split E a b u v p Hp1 Hp2)
      as [Hpe|[(p1 & p2 & -> & Hpa & Hpb)|(p1 & p2 & -> & Hpa & Hpb)]];
    destruct (path_addEdge_split E a b u v q Hq1 Hq2)
      as [Hqe|[(q1 & q2 & -> & Hqa & Hqb)|(q1 & q2 & -> & Hqa & Hqb)]];
    try (apply NoDup_app in Hp2 as (Hp21 & _ & Hp22));
    try (apply NoDup_app in Hq2 as (Hq21 & _ & Hq22)).
    + by apply (Hu u v).
    + exfalso. apply Hab.
      pose proof (Hend _ _ _ Hqa Haa). pose proof (Hstart _ _ _ Hqb Hbb).
      assert (R u u) as Huu by eauto.
      pose proof (Hstart _ _ _ Hpe Huu). eauto.
    + exfalso. apply Hab.
      pose proof (Hend _ _ _ Hqa Hbb). pose proof (Hstart _ _ _ Hqb Haa).
      assert (R u u) as Huu by eauto.
      pose proof (Hstart _ _ _ Hpe Huu). eauto 6.
    + exfalso. apply Hab.
      pose proof (Hend _ _ _ Hpa Haa). pose proof (Hstart _ _ _ Hpb Hbb).
      assert (R u u) as Huu by eauto.
      pose proof (Hstart _ _ _ Hqe Huu). eauto.
    + f_equal; [by apply (Hu u a)|by apply (Hu b v)].
    + exfalso. apply Hab.
      pose proof (Hend _ _ _ Hpa Haa). pose proof (Hend _ _ _ Hqa Hbb).
      eauto.
    + exfalso. apply Hab.
      pose proof (Hend _ _ _ Hpa Hbb). pose proof (Hstart _ _ _ Hpb Haa).
      assert (R u u) as Huu by eauto.
      pose proof (Hstart _ _ _ Hqe Huu). eauto 6.
    + exfalso. apply Hab.
      pose proof (Hend _ _ _ Hpa Hbb). pose proof (Hend _ _ _ Hqa Haa).
      eauto.
    + f_equal; [by apply (Hu u b)|by apply (Hu a v)].
Qed.


(** ** Maze generator *)

Lemma states_lookup m i s :
  states m !! i = Some s ↔ ∃ c, cells m !! i = Some c ∧ state c = s.
Proof.
  unfold states. rewrite list_lookup_fmap.
  destruct (cells m !! i) as [c|]; simpl; split.
  - intros [= <-]. eauto.
  - by intros (c' & [= <-] & <-).
  - done.
  - by intros (c' & ? & ?).
Qed.

Lemma states_cell m i c : cells m !! i = Some c → states m !! i = Some (state c).
Proof. intros Hc. apply states_lookup. eauto. Qed.

Lemma joinable_inv m n :
  joinable m n →
  ∃ sa sb, states m !! baseIndex n = Some sa ∧ sa ≠ 2 ∧
           states m !! otherIndex m n = Some sb ∧ sb ≠ 2 ∧
           (neighborDirection n = 2 ∧
            baseIndex n mod width m ≠ width m - 1 ∨
            neighborDirection n = 3).
Proof.
  unfold joinable, pairsAt, otherIndex. destruct n as [b d]. simpl.
  destruct (states m !! b) as [sa|] eqn:Ha; [|by intros ?%elem_of_nil].
  destruct (Nat.eqb_spec sa 2) as [|Hsa]; [by intros ?%elem_of_nil|].
  intros [Hn|Hn]%elem_of_app.
  - destruct (Nat.eqb_spec (b mod width m) (width m - 1));
      simpl in Hn; [by apply elem_of_nil in Hn|].
    destruct (states m !! (b + 1)) as [sb|] eqn:Hb;
      [|by apply elem_of_nil in Hn].
    destruct (Nat.eqb_spec sb 2); simpl in Hn; [by apply elem_of_nil in Hn|].
    apply list_elem_of_singleton in Hn. injection Hn as ->. simpl.
    exists sa, sb. split_and!; try done. by left.
  - destruct (states m !! (b + width m)) as [sb|] eqn:Hb;
      [|by apply elem_of_nil in Hn].
    destruct (Nat.eqb_spec sb 2); simpl in Hn; [by apply elem_of_nil in Hn|].
    apply list_elem_of_singleton in Hn. injection Hn as ->. simpl.
    exists sa, sb. split_and!; try done. by right.
Qed.

Lemma joinable_right m u sa sb :
  states m !! u = Some sa → sa ≠ 2 → u mod width m ≠ width m - 1 →
  states m !! (u + 1) = Some sb → sb ≠ 2 → joinable m (Neighbor u 2).
Proof.
  intros Ha Hsa Hmod Hb Hsb. unfold joinable, pairsAt. simpl.
  rewrite Ha, Hb.
  destruct (Nat.eqb_spec sa 2); [done|].
  destruct (Nat.eqb_spec (u mod width m) (width m - 1)); [done|].
  destruct (Nat.eqb_spec sb 2); [done|]. simpl. left.
Qed.

Lemma joinable_down m u sa sb :
  states m !! u = Some sa → sa ≠ 2 →
  states m !! (u + width m) = Some sb → sb ≠ 2 → joinable m (Neighbor u 3).
Proof.
  intros Ha Hsa Hb Hsb. unfold joinable, pairsAt. simpl.
  rewrite Ha, Hb.
  destruct (Nat.eqb_spec sa 2); [done|].
  destruct (Nat.eqb_spec sb 2); [done|]. simpl.
  apply elem_of_app. right. by apply list_elem_of_singleton.
Qed.

Lemma joinable_dir m n :
  joinable m n → neighborDirection n = 2 ∨ neighborDirection n = 3.
Proof. intros (sa & sb & _ & _ & _ & _ & [[? _]|?])%joinable_inv; eauto. Qed.

Lemma joinable_frame m m' n :
  sameFrame m m' → joinable m n ↔ joinable m' n.
Proof. intros (Hw & _ & Hs). unfold joinable. by rewrite Hw, Hs. Qed.

Lemma otherIndex_frame m m' n :
  width m' = width m → otherIndex m' n = otherIndex m n.
Proof. intros Hw. unfold otherIndex. by rewrite Hw. Qed.

Lemma joinable_lt m n :
  1 ≤ width m → joinable m n →
  baseIndex n < length (cells m) ∧ otherIndex m n < length (cells m) ∧
  baseIndex n ≠ otherIndex m n.
Proof.
  intros Hw Hj.
  pose proof Hj as (sa & sb & Ha & _ & Hb & _ & Hd)%joinable_inv.
  apply lookup_lt_Some in Ha, Hb. unfold states in Ha, Hb.
  rewrite length_map in Ha, Hb. split; [done|]. split; [done|].
  unfold otherIndex in *.
  destruct (Nat.eqb_spec (neighborDirection n) 2); lia.
Qed.

Lemma gridInv_heap m h h' :
  gridInv m h → sameRoots h h' → forestOk h' → gridInv m h'.
Proof.
  intros [] Hsr Hok. split; try done.
  - rewrite (proj1 Hsr). done.
  - eapply forestOf_ext; [done| |done].
    intros u v. by apply sameRoots_sameSet.
Qed.

Lemma listInv_heap m h h' ns :
  listInv m h ns → sameRoots h h' → listInv m h' ns.
Proof.
  intros [Hl Hc Hs] Hsr. split; try done.
  intros n Hn. destruct (Hc n Hn) as [?|?]; [by left|right].
  by apply (sameRoots_sameSet h h').
Qed.

Lemma gridInv_setNeighbors ns m h : gridInv (setNeighbors ns m) h ↔ gridInv m h.
Proof. split; intros []; split; done. Qed.

Lemma listInv_setNeighbors ns' m h ns :
  listInv (setNeighbors ns' m) h ns ↔ listInv m h ns.
Proof. split; intros []; split; done. Qed.

Lemma neighborIndex_joinable m n :
  joinable m n → neighborIndex m n = Ok (otherIndex m n).
Proof.
  intros [Hd|Hd]%joinable_dir; unfold neighborIndex, otherIndex;
    rewrite Hd; done.
Qed.

Lemma pairRoots_spec fuel m h n :
  gridInv m h → joinable m n → length h < fuel →
  ∃ h2 ra rb, pairRoots fuel m h n = Ok (h2, ra, rb) ∧ sameRoots h h2 ∧
    forestOk h2 ∧ countRoots h2 = countRoots h ∧
    (ra = rb ↔ sameSet h (baseIndex n) (otherIndex m n)).
Proof.
  intros Hinv Hj Hfuel.
  pose proof (joinable_lt m n (grid_width _ _ Hinv) Hj) as (Hal & Hbl & _).
  destruct (lookup_lt_is_Some_2 _ _ Hal) as [ca Hca].
  destruct (lookup_lt_is_Some_2 _ _ Hbl) as [cb Hcb].
  pose proof (grid_djSet _ _ Hinv _ _ Hca) as Hda.
  pose proof (grid_djSet _ _ Hinv _ _ Hcb) as Hdb.
  pose proof (grid_heap _ _ Hinv) as Hlen.
  destruct (findSet_ok h (baseIndex n) fuel (grid_forest _ _ Hinv)
              ltac:(lia) Hfuel)
    as (h1 & ra & Hf1 & Hra & Hra1 & Hsr1 & Hok1 & Hc1).
  pose proof (proj1 Hsr1) as Hl1.
  destruct (findSet_ok h1 (otherIndex m n) fuel Hok1 ltac:(lia) ltac:(lia))
    as (h2 & rb & Hf2 & Hrb1 & Hrb2 & Hsr2 & Hok2 & Hc2).
  exists h2, ra, rb. unfold pairRoots.
  rewrite (at_lookup _ _ _ Hca). simpl.
  rewrite (neighborIndex_joinable _ _ Hj). simpl.
  rewrite (at_lookup _ _ _ Hcb). simpl.
  rewrite Hda. simpl. rewrite Hf1. simpl. rewrite Hdb. simpl.
  rewrite Hf2. simpl. split; [done|].
  split; [by eapply sameRoots_trans|]. split; [done|]. split; [lia|].
  assert (rootOf h (otherIndex m n) rb) as Hrb by by apply Hsr1.
  split.
  - intros ->. by exists rb.
  - intros (r & H1 & H2).
    rewrite (rootOf_det _ _ _ _ Hra H1). by eapply rootOf_det.
Qed.

(** Dropping the entry [i] of the list the way the code does. *)
Lemma drop_entry_elem {A} (ns : list A) i last x :
  i < length ns → ns !! (length ns - 1) = Some last →
  x ∈ take (length ns - 1) (<[i:=last]> ns) → x ∈ ns.
Proof.
  intros Hi Hlast Hx. apply list_elem_of_lookup in Hx as [j Hj].
  apply lookup_take_Some in Hj as [Hj Hjl].
  destruct (decide (i = j)) as [->|Hne].
  - rewrite list_lookup_insert_eq in Hj by done. simplify_eq.
    by eapply list_elem_of_lookup_2.
  - rewrite list_lookup_insert_ne in Hj by done.
    by eapply list_elem_of_lookup_2.
Qed.

Lemma drop_entry_keep {A} (ns : list A) i last y x :
  ns !! i = Some y → ns !! (length ns - 1) = Some last →
  x ∈ ns → x = y ∨ x ∈ take (length ns - 1) (<[i:=last]> ns).
Proof.
  intros Hi Hlast Hx. apply list_elem_of_lookup in Hx as [j Hj].
  pose proof (lookup_lt_Some _ _ _ Hi) as Hil.
  pose proof (lookup_lt_Some _ _ _ Hj) as Hjl.
  destruct (decide (j = i)) as [->|Hne]; [left; congruence|right].
  destruct (decide (j = length ns - 1)) as [->|Hne'].
  - assert (x = last) as -> by congruence.
    apply list_elem_of_lookup. exists i.
    apply lookup_take_Some. split; [|lia].
    by rewrite list_lookup_insert_eq.
  - apply list_elem_of_lookup. exists j.
    apply lookup_take_Some. split; [|lia].
    by rewrite list_lookup_insert_ne.
Qed.

Lemma drop_entry_lookup {A} (ns : list A) i last j :
  j < i → take (length ns - 1) (<[i:=last]> ns) !! j = ns !! j ∨
          take (length ns - 1) (<[i:=last]> ns) !! j = None.
Proof.
  intros Hji. destruct (decide (j < length ns - 1)).
  - left. rewrite lookup_take_lt by done.
    by rewrite list_lookup_insert_ne by lia.
  - right. apply lookup_take_ge. lia.
Qed.

Lemma pairRoots_setNeighbors fuel ns m h n :
  pairRoots fuel (setNeighbors ns m) h n = pairRoots fuel m h n.
Proof. reflexivity. Qed.

(** [updateDisjointNeighbors] keeps exactly the pairs that are still in
    two sets. *)
Lemma updateLoop_spec fuel m h :
  gridInv m h → listInv m h (neighbors m) →
  length h < fuel → length (neighbors m) < fuel →
  ∃ ns h', loop fuel (updateStep fuel m) (0, neighbors m, h) = Ok (ns, h') ∧
    sameRoots h h' ∧ forestOk h' ∧ countRoots h' = countRoots h ∧
    listInv m h' ns ∧
    (∀ n, n ∈ ns → ¬ sameSet h' (baseIndex n) (otherIndex m n)).
Proof.
  intros Hgrid Hlist Hfuel Hfuel'.
  set (I := λ s : nat * list gridNeighborInfo * heap,
    let '(i, ns, h') := s in
    sameRoots h h' ∧ forestOk h' ∧ countRoots h' = countRoots h ∧
    listInv m h' ns ∧ i ≤ length ns ∧
    ∀ j n, j < i → ns !! j = Some n →
           ¬ sameSet h' (baseIndex n) (otherIndex m n)).
  set (Q := λ r : list gridNeighborInfo * heap,
    let '(ns, h') := r in
    sameRoots h h' ∧ forestOk h' ∧ countRoots h' = countRoots h ∧
    listInv m h' ns ∧
    (∀ n, n ∈ ns → ¬ sameSet h' (baseIndex n) (otherIndex m n))).
  set (μ := λ s : nat * list gridNeighborInfo * heap,
    let '(i, ns, _) := s in length ns - i).
  assert (I (0, neighbors m, h)) as HI0.
  { simpl. split; [apply sameRoots_refl|].
    split; [exact (grid_forest _ _ Hgrid)|].
    split; [done|]. split; [done|]. split; [lia|]. intros j n Hj. lia. }
  assert (∀ s, I s →
            match updateStep fuel m s with
            | Ok (inl s') => I s' ∧ μ s' < μ s
            | Ok (inr r) => Q r
            | _ => False
            end) as Hstep.
  { intros [[i ns0] h0] (Hsr & Hok & Hc & Hl & Hi & Hprev). simpl.
    destruct (Nat.ltb_spec i (length ns0)) as [Hlt|Hge]; simpl.
    2:{ split_and!; try done. intros n [j Hj]%list_elem_of_lookup.
        eapply Hprev; [|done]. apply lookup_lt_Some in Hj. lia. }
    destruct (lookup_lt_is_Some_2 _ _ Hlt) as [tmp Htmp].
    rewrite (at_lookup _ _ _ Htmp). simpl.
    assert (gridInv m h0) as Hg0 by by eapply gridInv_heap.
    assert (joinable m tmp) as Hj.
    { apply (list_listed _ _ _ Hl). by eapply list_elem_of_lookup_2. }
    pose proof (proj1 Hsr) as Hlen0.
    destruct (pairRoots_spec fuel m h0 tmp Hg0 Hj ltac:(lia))
      as (h2 & ra & rb & Hpr & Hsr2 & Hok2 & Hc2 & Hroots).
    rewrite pairRoots_setNeighbors, Hpr. simpl.
    assert (∀ u v, sameSet h2 u v ↔ sameSet h0 u v) as HR.
    { intros u v. symmetry. by apply sameRoots_sameSet. }
    destruct (Nat.eqb_spec ra rb) as [Heq|Hne]; simpl.
    + assert (length ns0 - 1 < length ns0) as Hll by lia.
      destruct (lookup_lt_is_Some_2 _ _ Hll) as [last Hlast].
      rewrite (at_lookup _ _ _ Hlast). simpl.
      split; [|rewrite length_take, length_insert; lia].
      split; [by eapply sameRoots_trans|]. split; [done|].
      split; [lia|]. split; [|split].
      * destruct Hl as [Hl1 Hl2 Hl3]. split.
        -- intros n Hn. apply Hl1. by eapply (drop_entry_elem ns0 i last).
        -- intros n Hn. destruct (Hl2 n Hn) as [Hin|Hss].
           ++ destruct (drop_entry_keep _ _ _ _ _ Htmp Hlast Hin)
                as [->|Hin']; [|by left].
              right. apply HR. by apply Hroots.
           ++ right. by apply HR.
        -- rewrite length_take, length_insert. lia.
      * rewrite length_take, length_insert. lia.
      * intros j n Hji Hjn. rewrite HR.
        destruct (drop_entry_lookup ns0 i last j Hji) as [E|E];
          rewrite E in Hjn; [|done]. by eapply Hprev.
    + split; [|lia].
      split; [by eapply sameRoots_trans|]. split; [done|].
      split; [lia|]. split; [by eapply listInv_heap|]. split; [lia|].
      intros j n Hji Hjn. rewrite HR.
      destruct (decide (j = i)) as [->|Hne'].
      * assert (n = tmp) as -> by congruence. by rewrite <- Hroots.
      * eapply Hprev; [|done]. lia. }
  pose proof (loop_spec I Q (λ _, False) μ _ Hstep fuel
                (0, neighbors m, h) HI0 ltac:(simpl; lia)) as Hloop.
  destruct (loop fuel (updateStep fuel m) (0, neighbors m, h))
    as [[ns h']|e| |]; try done.
  exists ns, h'. by split.
Qed.

(** *** Clearing the wall between two cells *)

Lemma flag_setCellWall d b c d' :
  d ≤ 3 → d' ≤ 3 →
  flag (setCellWall d b c) d' = if d' =? d then b else flag c d'.
Proof.
  intros Hd Hd'. destruct c as [[l t r bt] s dj].
  do 4 (try destruct d as [|d]); try lia;
  do 4 (try destruct d' as [|d']); try lia; done.
Qed.

Lemma clearPair_length cs i j d : length (clearPair cs i j d) = length cs.
Proof. unfold clearPair. by rewrite !length_alter. Qed.

Lemma clearPair_lookup cs i j d k c :
  d ≤ 3 → cs !! k = Some c →
  ∃ c', clearPair cs i j d !! k = Some c' ∧ state c' = state c ∧
        djSet c' = djSet c ∧
        ∀ d', d' ≤ 3 → flag c' d' = flag c d' && negb (cleared i j d k d').
Proof.
  intros Hd Hk. unfold clearPair, cleared.
  assert (opposite d ≤ 3) as Hod.
  { do 4 (try destruct d as [|d]); simpl; lia. }
  rewrite !list_lookup_alter.
  destruct (decide (j = k)) as [->|Hjk], (decide (i = k)) as [->|Hik];
    rewrite ?Hk; simpl; rewrite ?Hk; simpl;
    (eexists; split; [done|]; split; [done|]; split; [done|]);
    intros d' Hd'; rewrite ?flag_setCellWall by done;
    rewrite ?Nat.eqb_refl; simpl;
    repeat match goal with
           | |- context [?a =? ?b] => destruct (Nat.eqb_spec a b); simpl
           end;
    try done; try lia; by destruct (flag c d').
Qed.

Lemma clearPair_lookup_inv cs i j d k c' :
  d ≤ 3 → clearPair cs i j d !! k = Some c' →
  ∃ c, cs !! k = Some c ∧ state c' = state c ∧ djSet c' = djSet c ∧
       ∀ d', d' ≤ 3 → flag c' d' = flag c d' && negb (cleared i j d k d').
Proof.
  intros Hd Hk. pose proof (lookup_lt_Some _ _ _ Hk) as Hlt.
  rewrite clearPair_length in Hlt.
  destruct (lookup_lt_is_Some_2 _ _ Hlt) as [c Hc].
  destruct (clearPair_lookup cs i j d k c Hd Hc) as (c2 & H2 & Hrest).
  assert (c2 = c') as -> by congruence. by exists c.
Qed.

Lemma clearPair_states m i j d :
  states (setCells (clearPair (cells m) i j d) m) = states m.
Proof.
  unfold states, clearPair. simpl. apply list_eq. intros k.
  rewrite !list_lookup_fmap, !list_lookup_alter.
  repeat case_decide; subst; destruct (cells m !! k); done.
Qed.

(** Take the flags of a cell of [clearPair] apart. *)
Ltac simplFlag H :=
  unfold cleared in H; simpl in H;
  repeat first [rewrite andb_false_r in H | rewrite andb_true_r in H
               | rewrite orb_false_r in H | rewrite orb_false_l in H];
  simpl in H;
  repeat rewrite andb_true_r in H.

Ltac clearedFlags H :=
  let H0 := fresh "Hf0" in
  let H1 := fresh "Hf1" in
  let H2 := fresh "Hf2" in
  let H3 := fresh "Hf3" in
  pose proof (H 0 ltac:(lia)) as H0;
  pose proof (H 1 ltac:(lia)) as H1;
  pose proof (H 2 ltac:(lia)) as H2;
  pose proof (H 3 ltac:(lia)) as H3;
  simplFlag H0; simplFlag H1; simplFlag H2; simplFlag H3;
  clear H.

Ltac eqbCases :=
  repeat match goal with
         | H : context [?a =? ?b] |- _ => destruct (Nat.eqb_spec a b)
         | |- context [?a =? ?b] => destruct (Nat.eqb_spec a b)
         end.

Section ClearRight.

Context (m : GridMaze) (i : nat).

Let m' := setCells (clearPair (cells m) i (i + 1) 2) m.

Lemma rightOpen_clearRight u :
  i mod width m ≠ width m - 1 → i + 1 < length (cells m) →
  rightOpen m' u ↔ rightOpen m u ∨ u = i.
Proof.
  intros Hmod Hlt. unfold rightOpen, m'. simpl. split.
  - intros (Hu & cu' & cv' & Hcu & Hcv & Hr & Hl).
    apply clearPair_lookup_inv in Hcu as (cu & Hcu & _ & _ & Hfu); [|lia].
    apply clearPair_lookup_inv in Hcv as (cv & Hcv & _ & _ & Hfv); [|lia].
    clearedFlags Hfu. clearedFlags Hfv.
    destruct (decide (u = i)) as [->|Hne]; [by right|left].
    split; [done|]. exists cu, cv. split; [done|]. split; [done|].
    rewrite Hr in *. rewrite Hl in *.
    eqbCases; try lia; simpl in *;
      split; symmetry; by rewrite ?andb_true_r in *.
  - intros [(Hu & cu & cv & Hcu & Hcv & Hr & Hl)| ->].
    + split; [done|].
      destruct (clearPair_lookup _ i (i + 1) 2 _ _ ltac:(lia) Hcu)
        as (cu' & Hcu' & _ & _ & Hfu).
      destruct (clearPair_lookup _ i (i + 1) 2 _ _ ltac:(lia) Hcv)
        as (cv' & Hcv' & _ & _ & Hfv).
      clearedFlags Hfu. clearedFlags Hfv.
      exists cu', cv'. split; [done|]. split; [done|].
      rewrite Hr in *. rewrite Hl in *. done.
    + split; [done|].
      destruct (lookup_lt_is_Some_2 (cells m) i ltac:(lia)) as [cu Hcu].
      destruct (lookup_lt_is_Some_2 (cells m) (i + 1) Hlt) as [cv Hcv].
      destruct (clearPair_lookup _ i (i + 1) 2 _ _ ltac:(lia) Hcu)
        as (cu' & Hcu' & _ & _ & Hfu).
      destruct (clearPair_lookup _ i (i + 1) 2 _ _ ltac:(lia) Hcv)
        as (cv' & Hcv' & _ & _ & Hfv).
      clearedFlags Hfu. clearedFlags Hfv.
      exists cu', cv'. split; [done|]. split; [done|].
      rewrite !Nat.eqb_refl in *. simpl in *.
      rewrite ?andb_false_r in *. done.
Qed.

Lemma downOpen_clearRight u : downOpen m' u ↔ downOpen m u.
Proof.
  unfold downOpen, m'. simpl. split.
  - intros (cu' & cv' & Hcu & Hcv & Hr & Hl).
    apply clearPair_lookup_inv in Hcu as (cu & Hcu & _ & _ & Hfu); [|lia].
    apply clearPair_lookup_inv in Hcv as (cv & Hcv & _ & _ & Hfv); [|lia].
    clearedFlags Hfu. clearedFlags Hfv.
    exists cu, cv. split; [done|]. split; [done|]. split; congruence.
  - intros (cu & cv & Hcu & Hcv & Hr & Hl).
    destruct (clearPair_lookup _ i (i + 1) 2 _ _ ltac:(lia) Hcu)
      as (cu' & Hcu' & _ & _ & Hfu).
    destruct (clearPair_lookup _ i (i + 1) 2 _ _ ltac:(lia) Hcv)
      as (cv' & Hcv' & _ & _ & Hfv).
    clearedFlags Hfu. clearedFlags Hfv.
    exists cu', cv'. split; [done|]. split; [done|]. split; congruence.
Qed.

Lemma passage_clearRight u v :
  i mod width m ≠ width m - 1 → i + 1 < length (cells m) →
  passage m' u v ↔ addEdge (passage m) i (i + 1) u v.
Proof.
  intros Hmod Hlt. unfold passage, addEdge.
  rewrite !rightOpen_clearRight, !downOpen_clearRight by done.
  change (width m') with (width m). intuition (subst; auto; lia).
Qed.

Lemma wallSymmetric_clearRight : wallSymmetric m → wallSymmetric m'.
Proof.
  intros Hsym u cu' cv' Hcu.
  apply clearPair_lookup_inv in Hcu as (cu & Hcu & _ & _ & Hfu); [|lia].
  clearedFlags Hfu. split.
  - intros Hmod Hcv.
    apply clearPair_lookup_inv in Hcv as (cv & Hcv & _ & _ & Hfv); [|lia].
    clearedFlags Hfv. destruct (Hsym u cu cv Hcu) as [Hs _].
    rewrite Hf2, Hf4, (Hs Hmod Hcv). eqbCases; try lia; done.
  - intros Hcv.
    apply clearPair_lookup_inv in Hcv as (cv & Hcv & _ & _ & Hfv); [|lia].
    clearedFlags Hfv. destruct (Hsym u cu cv Hcu) as [_ Hs].
    rewrite Hf3, Hf5, (Hs Hcv). done.
Qed.

End ClearRight.

Section ClearDown.

Context (m : GridMaze) (i : nat).

Let m' := setCells (clearPair (cells m) i (i + width m) 3) m.

Lemma downOpen_clearDown u :
  i + width m < length (cells m) →
  downOpen m' u ↔ downOpen m u ∨ u = i.
Proof.
  intros Hlt. unfold downOpen, m'. simpl. split.
  - intros (cu' & cv' & Hcu & Hcv & Hr & Hl).
    apply clearPair_lookup_inv in Hcu as (cu & Hcu & _ & _ & Hfu); [|lia].
    apply clearPair_lookup_inv in Hcv as (cv & Hcv & _ & _ & Hfv); [|lia].
    clearedFlags Hfu. clearedFlags Hfv.
    destruct (decide (u = i)) as [->|Hne]; [by right|left].
    exists cu, cv. split; [done|]. split; [done|].
    rewrite Hr in *. rewrite Hl in *.
    eqbCases; try lia; simpl in *;
      split; symmetry; by rewrite ?andb_true_r in *.
  - intros [(cu & cv & Hcu & Hcv & Hr & Hl)| ->].
    + destruct (clearPair_lookup _ i (i + width m) 3 _ _ ltac:(lia) Hcu)
        as (cu' & Hcu' & _ & _ & Hfu).
      destruct (clearPair_lookup _ i (i + width m) 3 _ _ ltac:(lia) Hcv)
        as (cv' & Hcv' & _ & _ & Hfv).
      clearedFlags Hfu. clearedFlags Hfv.
      exists cu', cv'. split; [done|]. split; [done|].
      rewrite Hr in *. rewrite Hl in *. done.
    + destruct (lookup_lt_is_Some_2 (cells m) i ltac:(lia)) as [cu Hcu].
      destruct (lookup_lt_is_Some_2 (cells m) (i + width m) Hlt)
        as [cv Hcv].
      destruct (clearPair_lookup _ i (i + width m) 3 _ _ ltac:(lia) Hcu)
        as (cu' & Hcu' & _ & _ & Hfu).
      destruct (clearPair_lookup _ i (i + width m) 3 _ _ ltac:(lia) Hcv)
        as (cv' & Hcv' & _ & _ & Hfv).
      clearedFlags Hfu. clearedFlags Hfv.
      exists cu', cv'. split; [done|]. split; [done|].
      rewrite !Nat.eqb_refl in *. simpl in *.
      rewrite ?andb_false_r in *. done.
Qed.

Lemma rightOpen_clearDown u : rightOpen m' u ↔ rightOpen m u.
Proof.
  unfold rightOpen, m'. simpl. split.
  - intros (Hu & cu' & cv' & Hcu & Hcv & Hr & Hl).
    apply clearPair_lookup_inv in Hcu as (cu & Hcu & _ & _ & Hfu); [|lia].
    apply clearPair_lookup_inv in Hcv as (cv & Hcv & _ & _ & Hfv); [|lia].
    clearedFlags Hfu. clearedFlags Hfv. split; [done|].
    exists cu, cv. split; [done|]. split; [done|]. split; congruence.
  - intros (Hu & cu & cv & Hcu & Hcv & Hr & Hl).
    destruct (clearPair_lookup _ i (i + width m) 3 _ _ ltac:(lia) Hcu)
      as (cu' & Hcu' & _ & _ & Hfu).
    destruct (clearPair_lookup _ i (i + width m) 3 _ _ ltac:(lia) Hcv)
      as (cv' & Hcv' & _ & _ & Hfv).
    clearedFlags Hfu. clearedFlags Hfv. split; [done|].
    exists cu', cv'. split; [done|]. split; [done|]. split; congruence.
Qed.

Lemma passage_clearDown u v :
  i + width m < length (cells m) →
  passage m' u v ↔ addEdge (passage m) i (i + width m) u v.
Proof.
  intros Hlt. unfold passage, addEdge.
  rewrite !rightOpen_clearDown, !downOpen_clearDown by done.
  change (width m') with (width m). intuition (subst; auto; lia).
Qed.

Lemma wallSymmetric_clearDown : wallSymmetric m → wallSymmetric m'.
Proof.
  intros Hsym u cu' cv' Hcu.
  apply clearPair_lookup_inv in Hcu as (cu & Hcu & _ & _ & Hfu); [|lia].
  clearedFlags Hfu. split.
  - intros Hmod Hcv.
    apply clearPair_lookup_inv in Hcv as (cv & Hcv & _ & _ & Hfv); [|lia].
    clearedFlags Hfv. destruct (Hsym u cu cv Hcu) as [Hs _].
    rewrite Hf2, Hf4, (Hs Hmod Hcv). done.
  - intros Hcv.
    apply clearPair_lookup_inv in Hcv as (cv & Hcv & _ & _ & Hfv); [|lia].
    clearedFlags Hfv. destruct (Hsym u cu cv Hcu) as [_ Hs].
    rewrite Hf3, Hf5, (Hs Hcv). change (width m') with (width m) in *.
    eqbCases; try lia; done.
Qed.

End ClearDown.

Lemma excluded_clearPair m i j d ci cj :
  d ≤ 3 → cells m !! i = Some ci → state ci ≠ 2 →
  cells m !! j = Some cj → state cj ≠ 2 →
  (∀ k c, cells m !! k = Some c → state c = 2 →
          walls c = Walls true true true true) →
  ∀ k c, clearPair (cells m) i j d !! k = Some c → state c = 2 →
         walls c = Walls true true true true.
Proof.
  intros Hd Hi Hsi Hj Hsj Hex k c' Hk Hs.
  apply clearPair_lookup_inv in Hk as (c & Hc & Hst & _ & Hf); [|done].
  rewrite Hst in Hs. pose proof (Hex k c Hc Hs) as Hw.
  assert (k ≠ i) as Hki by (intros ->; congruence).
  assert (k ≠ j) as Hkj by (intros ->; congruence).
  assert (∀ d', d' ≤ 3 → flag c' d' = true) as Hall.
  { intros d' Hd'. rewrite (Hf d' Hd'). unfold cleared.
    destruct (Nat.eqb_spec k i), (Nat.eqb_spec k j); try done. simpl.
    unfold flag. rewrite Hw. by do 4 (try destruct d' as [|d']). }
  pose proof (Hall 0 ltac:(lia)) as H0. pose proof (Hall 1 ltac:(lia)) as H1.
  pose proof (Hall 2 ltac:(lia)) as H2. pose proof (Hall 3 ltac:(lia)) as H3.
  simpl in *. destruct (walls c'). simpl in *. congruence.
Qed.

Lemma join_gridInv m h1 h2 n :
  gridInv m h1 → joinable m n →
  ¬ sameSet h1 (baseIndex n) (otherIndex m n) →
  forestOk h2 → length h2 = length h1 →
  (∀ u v, sameSet h2 u v ↔
          joinSets (sameSet h1) (baseIndex n) (otherIndex m n) u v) →
  gridInv (setCells (clearPair (cells m) (baseIndex n) (otherIndex m n)
                       (neighborDirection n)) m) h2.
Proof.
  intros Hinv Hj Hns Hok Hlen HR.
  pose proof (grid_width _ _ Hinv) as Hw.
  pose proof (joinable_lt m n Hw Hj) as (Hil & Hjl & Hij).
  pose proof (grid_heap _ _ Hinv) as Hhl.
  pose proof Hj as (sa & sb & Ha & Hsa & Hb & Hsb & Hd)%joinable_inv.
  apply states_lookup in Ha as (ci & Hci & <-).
  apply states_lookup in Hb as (cj & Hcj & <-).
  set (m' := setCells _ m).
  assert (states m' = states m) as Hst by apply clearPair_states.
  assert (∀ x, joinable m x → joinable m' x) as Hjm.
  { intros x. unfold joinable. by rewrite Hst. }
  assert (neighborDirection n ≤ 3) as Hd3 by (destruct Hd as [[-> _]| ->]; lia).
  assert (forestOf (addEdge (passage m) (baseIndex n) (otherIndex m n))
            (joinSets (sameSet h1) (baseIndex n) (otherIndex m n))) as Hf.
  { apply forestOf_add; [exact (grid_tree _ _ Hinv)| | |done];
      apply sameSet_refl; try exact (grid_forest _ _ Hinv); lia. }
  split; simpl.
  - done.
  - exact (grid_height _ _ Hinv).
  - rewrite clearPair_length. exact (grid_cells _ _ Hinv).
  - rewrite clearPair_length. lia.
  - done.
  - intros k c' Hk.
    apply clearPair_lookup_inv in Hk as (c & Hc & _ & Hdj & _); [|done].
    rewrite Hdj. by eapply grid_djSet.
  - unfold m', otherIndex. destruct Hd as [[-> Hmod]| ->]; simpl.
    + apply wallSymmetric_clearRight. exact (grid_sym _ _ Hinv).
    + apply wallSymmetric_clearDown. exact (grid_sym _ _ Hinv).
  - eapply excluded_clearPair; try done. exact (grid_excluded _ _ Hinv).
  - intros u Hu. apply Hjm. revert Hu. unfold m', otherIndex in *.
    destruct Hd as [[Hd Hmod]|Hd]; rewrite Hd in *; simpl in *.
    + intros [Hu| ->]%rightOpen_clearRight; [|by destruct n; simplify_eq/=
                                             |done|done].
      by apply (grid_right _ _ Hinv).
    + intros Hu%rightOpen_clearDown. by apply (grid_right _ _ Hinv).
  - intros u Hu. apply Hjm. revert Hu. unfold m', otherIndex in *.
    destruct Hd as [[Hd Hmod]|Hd]; rewrite Hd in *; simpl in *.
    + intros Hu%downOpen_clearRight. by apply (grid_down _ _ Hinv).
    + intros [Hu| ->]%downOpen_clearDown; [|by destruct n; simplify_eq/=
                                            |done].
      by apply (grid_down _ _ Hinv).
  - eapply forestOf_ext; [|symmetry; apply HR|exact Hf].
    intros u v. symmetry. unfold m', otherIndex in *.
    destruct Hd as [[Hd Hmod]|Hd]; rewrite Hd in *; simpl in *.
    + by apply passage_clearRight.
    + by apply passage_clearDown.
Qed.

Lemma join_listInv m h1 h2 ns i j d :
  listInv m h1 ns →
  (∀ u v, sameSet h1 u v → sameSet h2 u v) →
  listInv (setCells (clearPair (cells m) i j d) m) h2 ns.
Proof.
  intros [Hl Hc Hs] HR.
  set (m' := setCells _ m).
  assert (states m' = states m) as Hst by apply clearPair_states.
  assert (∀ x, joinable m x ↔ joinable m' x) as Hjm.
  { intros x. unfold joinable. by rewrite Hst. }
  split.
  - intros n Hn. apply Hjm. by apply Hl.
  - intros n Hn%Hjm. destruct (Hc n Hn) as [?|?]; [by left|right].
    by apply HR.
  - unfold m'. simpl. by rewrite clearPair_length.
Qed.

Lemma countRootsFrom_le i h : countRootsFrom i h ≤ length h.
Proof.
  revert i. induction h as [|n h IH]; intros i; simpl; [done|].
  specialize (IH (S i)). destruct (parent n =? i); lia.
Qed.

Lemma setNeighbors_neighbors m : setNeighbors (neighbors m) m = m.
Proof. by destruct m. Qed.

(** *** The state before the first round *)

Lemma initHeap_lookup (cs : list gridMazeCell) x n :
  imap (λ i _, newDisjointSet i) cs !! x = Some n → n = newDisjointSet x.
Proof.
  rewrite list_lookup_imap. destruct (cs !! x); simpl; congruence.
Qed.

Lemma initHeap_rootOf (cs : list gridMazeCell) x r :
  rootOf (imap (λ i _, newDisjointSet i) cs) x r ↔ x = r ∧ x < length cs.
Proof.
  split.
  - induction 1 as [x n Hx Hp|x n r Hx Hp Hr IH].
    + split; [done|]. apply lookup_lt_Some in Hx. by rewrite length_imap in Hx.
    + apply initHeap_lookup in Hx as ->. done.
  - intros [<- Hx]. destruct (lookup_lt_is_Some_2 cs x Hx) as [c Hc].
    eapply rootOf_self.
    + rewrite list_lookup_imap, Hc. done.
    + done.
Qed.

Lemma initHeap_forestOk (cs : list gridMazeCell) :
  forestOk (imap (λ i _, newDisjointSet i) cs).
Proof.
  split.
  - intros x n Hx Hp. apply initHeap_lookup in Hx as ->. done.
  - intros x n Hx. apply initHeap_lookup in Hx as ->. simpl.
    apply countRootsFrom_le.
Qed.

Lemma initHeap_sameSet (cs : list gridMazeCell) u v :
  sameSet (imap (λ i _, newDisjointSet i) cs) u v ↔ u = v ∧ u < length cs.
Proof.
  unfold sameSet. split.
  - intros (r & [-> Hu]%initHeap_rootOf & [-> Hv]%initHeap_rootOf). done.
  - intros [-> Hv]. exists v. split; by apply initHeap_rootOf.
Qed.

Lemma initCells_lookup (cs : list gridMazeCell) i c :
  imap initGridMazeCell cs !! i = Some c →
  ∃ c0, cs !! i = Some c0 ∧ c = initGridMazeCell i c0.
Proof.
  rewrite list_lookup_imap. destruct (cs !! i) as [c0|]; simpl; [|done].
  intros [= <-]. eauto.
Qed.

Lemma initCells_states m :
  states (setCells (imap initGridMazeCell (cells m)) m) = states m.
Proof.
  unfold states. simpl. apply list_eq. intros i.
  rewrite !list_lookup_fmap, list_lookup_imap.
  by destruct (cells m !! i).
Qed.

Lemma forestOf_empty (E R : nat → nat → Prop) (n : nat) :
  (∀ u v, ¬ E u v) → (∀ u v, R u v ↔ u = v ∧ u < n) → forestOf E R.
Proof.
  intros HE HR.
  assert (∀ u v p, path E u v p → p = [u] ∧ u = v) as Hp.
  { intros u v p [|? ? ? ? Hedge]; [done|]. by apply HE in Hedge. }
  split.
  - intros u v [-> ?]%HR. by apply HR.
  - intros u v w [-> ?]%HR [-> ?]%HR. by apply HR.
  - intros u v Hedge. by apply HE in Hedge.
  - intros u v [-> ?]%HR. exists [v]. split; [constructor|].
    apply NoDup_singleton.
  - intros u v p q [[-> _]%Hp _] [[-> _]%Hp _]. done.
Qed.

Lemma initial_gridInv m :
  1 ≤ width m → 1 ≤ height m → length (cells m) = width m * height m →
  gridInv (setCells (imap initGridMazeCell (cells m)) m)
          (imap (λ i _, newDisjointSet i) (cells m)).
Proof.
  intros Hw Hh Hlen.
  assert (∀ i c, imap initGridMazeCell (cells m) !! i = Some c →
                 walls c = Walls true true true true) as Hwalls.
  { by intros i c (c0 & _ & ->)%initCells_lookup. }
  split; simpl.
  - done.
  - done.
  - by rewrite length_imap.
  - by rewrite !length_imap.
  - apply initHeap_forestOk.
  - by intros i c (c0 & _ & ->)%initCells_lookup.
  - intros u cu cv Hcu. apply Hwalls in Hcu. split.
    + intros _ Hcv%Hwalls. by rewrite Hcu, Hcv.
    + intros Hcv%Hwalls. by rewrite Hcu, Hcv.
  - intros i c Hc _. by eapply Hwalls.
  - intros u (_ & cu & cv & Hcu%Hwalls & _ & Hr & _).
    by rewrite Hcu in Hr.
  - intros u (cu & cv & Hcu%Hwalls & _ & Hr & _). by rewrite Hcu in Hr.
  - apply (forestOf_empty _ _ (length (cells m))).
    + intros u v [[_ (_ & cu & cv & Hcu%Hwalls & _ & Hr & _)]
                 |[[_ (_ & cu & cv & Hcu%Hwalls & _ & Hr & _)]
                 |[[_ (cu & cv & Hcu%Hwalls & _ & Hr & _)]
                 |[_ (cu & cv & Hcu%Hwalls & _ & Hr & _)]]]];
        simpl in *; by rewrite Hcu in Hr.
    + apply initHeap_sameSet.
Qed.

(** The list that [initDisjointNeighbors] builds. *)
Lemma pairsAt_length w st i : length (pairsAt w st i) ≤ 2.
Proof.
  unfold pairsAt. destruct (st !! i) as [s|]; [|simpl; lia].
  destruct (s =? 2); [simpl; lia|]. rewrite length_app.
  destruct (negb (i mod w =? w - 1)), (st !! (i + 1)) as [r|],
    (st !! (i + w)) as [b|]; simpl;
    try destruct (negb (r =? 2)); try destruct (negb (b =? 2)); simpl; lia.
Qed.

Lemma pairsAt_base w st i n : n ∈ pairsAt w st i → baseIndex n = i.
Proof.
  unfold pairsAt. destruct (st !! i) as [s|]; [|by intros ?%elem_of_nil].
  destruct (s =? 2); [by intros ?%elem_of_nil|].
  intros [Hn|Hn]%elem_of_app.
  - destruct (negb (i mod w =? w - 1)); [|by apply elem_of_nil in Hn].
    destruct (st !! (i + 1)) as [r|]; [|by apply elem_of_nil in Hn].
    destruct (negb (r =? 2)); [|by apply elem_of_nil in Hn].
    by apply list_elem_of_singleton in Hn as ->.
  - destruct (st !! (i + w)) as [b|]; [|by apply elem_of_nil in Hn].
    destruct (negb (b =? 2)); [|by apply elem_of_nil in Hn].
    by apply list_elem_of_singleton in Hn as ->.
Qed.

Lemma pairsUpTo_length w st k :
  length (flat_map (pairsAt w st) (seq 0 k)) ≤ 2 * k.
Proof.
  induction k as [|k IH]; [done|].
  rewrite seq_S, flat_map_app, length_app. simpl. rewrite app_nil_r.
  pose proof (pairsAt_length w st k). lia.
Qed.

Lemma pairsUpTo_elem w st k n :
  n ∈ flat_map (pairsAt w st) (seq 0 k) ↔
  n ∈ pairsAt w st (baseIndex n) ∧ baseIndex n < k.
Proof.
  rewrite list_elem_of_In, in_flat_map. split.
  - intros (i & Hi%in_seq & Hn%list_elem_of_In).
    pose proof (pairsAt_base _ _ _ _ Hn) as ->. split; [done|lia].
  - intros [Hn Hk]. exists (baseIndex n). split; [apply in_seq; lia|].
    by apply list_elem_of_In.
Qed.

Lemma pairsAt_lt w st i n : n ∈ pairsAt w st i → i < length st.
Proof.
  unfold pairsAt. destruct (st !! i) as [s|] eqn:Hs;
    [|by intros ?%elem_of_nil].
  intros _. by eapply lookup_lt_Some.
Qed.

Lemma initNeighborsAt_spec m row ns col :
  1 ≤ width m → length (cells m) = width m * height m →
  row < height m → col < width m →
  initNeighborsAt m row ns col
  = Ok (ns ++ pairsAt (width m) (states m) (row * width m + col)).
Proof.
  intros Hw Hlen Hrow Hcol. unfold initNeighborsAt, pairsAt. cbv zeta.
  set (index := row * width m + col).
  assert (index < length (cells m)) as Hi.
  { rewrite Hlen. by apply rowcol_lt. }
  assert (index mod width m = col) as Hmod by by apply rowcol_mod.
  destruct (lookup_lt_is_Some_2 _ _ Hi) as [c Hc].
  rewrite (at_lookup _ _ _ Hc), (states_cell _ _ _ Hc). simpl.
  destruct (state c =? 2); [by rewrite app_nil_r|].
  rewrite Hmod.
  assert ((if negb (col =? width m - 1)
           then r ← at_ (cells m) (index + 1);
                Ok (if negb (state r =? 2) then ns ++ [Neighbor index 2]
                    else ns)
           else Ok ns)
          = Ok (ns ++ (if negb (col =? width m - 1)
                       then match states m !! (index + 1) with
                            | Some r => if negb (r =? 2)
                                        then [Neighbor index 2] else []
                            | None => []
                            end
                       else []))) as ->.
  { destruct (Nat.eqb_spec col (width m - 1)) as [|Hne]; simpl;
      [by rewrite app_nil_r|].
    assert (index + 1 < length (cells m)) as Hi1.
    { rewrite Hlen. unfold index.
      replace (row * width m + col + 1) with (row * width m + (col + 1))
        by lia. apply rowcol_lt; lia. }
    destruct (lookup_lt_is_Some_2 _ _ Hi1) as [r Hr].
    rewrite (at_lookup _ _ _ Hr), (states_cell _ _ _ Hr). simpl.
    destruct (state r =? 2); simpl; by rewrite ?app_nil_r. }
  simpl.
  destruct (Nat.eqb_spec row (height m - 1)) as [Hlast|Hnl].
  - assert (states m !! (index + width m) = None) as ->.
    { apply lookup_ge_None. unfold states. rewrite length_map, Hlen.
      unfold index. nia. }
    by rewrite app_nil_r.
  - assert (index + width m < length (cells m)) as Hi2.
    { rewrite Hlen. unfold index. nia. }
    destruct (lookup_lt_is_Some_2 _ _ Hi2) as [b Hb].
    rewrite (at_lookup _ _ _ Hb), (states_cell _ _ _ Hb). simpl.
    destruct (state b =? 2); simpl; by rewrite ?app_nil_r, ?app_assoc.
Qed.

Lemma initDisjointNeighbors_spec m :
  1 ≤ width m → 1 ≤ height m → length (cells m) = width m * height m →
  neighbors m = [] →
  initDisjointNeighbors m
  = Ok (setNeighbors
          (flat_map (pairsAt (width m) (states m))
                    (seq 0 (length (cells m)))) m).
Proof.
  intros Hw Hh Hlen Hnil. unfold initDisjointNeighbors.
  destruct (Nat.eqb_spec ((width m - 1) * height m
                          + (height m - 1) * width m) 0) as [Hz|Hnz].
  - assert (width m = 1 ∧ height m = 1) as [Hw1 Hh1] by nia.
    assert (pairsAt (width m) (states m) 0 = []) as Hp0.
    { unfold pairsAt. destruct (states m !! 0) as [s|] eqn:Hs; [|done].
      destruct (s =? 2); [done|]. rewrite Hw1. simpl.
      rewrite (proj2 (lookup_ge_None (states m) 1)); [done|].
      unfold states. rewrite length_map, Hlen, Hw1, Hh1. simpl. lia. }
    replace (length (cells m)) with 1 by (rewrite Hlen, Hw1, Hh1; done).
    simpl. rewrite Hp0. simpl.
    rewrite <- Hnil. by rewrite setNeighbors_neighbors.
  - set (g := λ k, flat_map (pairsAt (width m) (states m)) (seq 0 k)).
    rewrite (foldM_seq_Ok _ (λ row, g (row * width m)) 0 (height m)).
    + simpl. by rewrite Hlen, (Nat.mul_comm (height m)).
    + done.
    + intros row Hrow.
      rewrite (foldM_seq_Ok _ (λ col, g (row * width m + col)) 0 (width m)).
      * f_equal. f_equal. lia.
      * f_equal. lia.
      * intros col Hcol. rewrite initNeighborsAt_spec by (try done; lia).
        unfold g.
        replace (row * width m + S col) with (S (row * width m + col)) by lia.
        rewrite seq_S, flat_map_app. simpl. by rewrite app_nil_r.
Qed.

(** When the list is empty and no cell is excluded, every cell is in the
    set of cell 0. *)
Lemma connected_all m h :
  genInv m h → neighbors m = [] → noExclusions m →
  ∀ i, i < length (cells m) → sameSet h 0 i.
Proof.
  intros [Hgrid Hlist] Hnil Hno i.
  pose proof (grid_width _ _ Hgrid) as Hw.
  pose proof (grid_heap _ _ Hgrid) as Hhl.
  assert (∀ n, joinable m n → sameSet h (baseIndex n) (otherIndex m n))
    as Hcover.
  { intros n Hn. destruct (list_cover _ _ _ Hlist n Hn) as [Hin|?]; [|done].
    rewrite Hnil in Hin. by apply elem_of_nil in Hin. }
  assert (∀ k, k < length (cells m) →
               ∃ s, states m !! k = Some s ∧ s ≠ 2) as Hstate.
  { intros k Hk. assert (k < length (states m)) as Hk'.
    { unfold states. by rewrite length_map. }
    destruct (lookup_lt_is_Some_2 (states m) k Hk') as [s Hs].
    exists s. split; [done|]. exact (Hno k s Hs). }
  induction i as [i IH] using lt_wf_ind. intros Hi.
  destruct (decide (i = 0)) as [->|Hi0].
  { apply sameSet_refl; [exact (grid_forest _ _ Hgrid)|lia]. }
  pose proof (index_rowcol (width m) i ltac:(lia)) as Hrc.
  pose proof (Nat.mod_upper_bound i (width m) ltac:(lia)) as Hc.
  destruct (Hstate i Hi) as (si & Hsi & Hsi2).
  destruct (decide (i mod width m = 0)) as [Hz|Hnz].
  - assert (1 ≤ i / width m) as Hrow.
    { destruct (i / width m); [lia|lia]. }
    assert (i - width m + width m = i) as Hback by nia.
    destruct (Hstate (i - width m) ltac:(lia)) as (su & Hsu & Hsu2).
    assert (joinable m (Neighbor (i - width m) 3)) as Hj.
    { apply (joinable_down m (i - width m) su si);
        [done|done|by rewrite Hback|done]. }
    apply Hcover in Hj. unfold otherIndex in Hj. simpl in Hj.
    rewrite Hback in Hj.
    eapply sameSet_trans; [|exact Hj]. apply IH; lia.
  - assert (i - 1 + 1 = i) as Hback by lia.
    destruct (Hstate (i - 1) ltac:(lia)) as (su & Hsu & Hsu2).
    assert ((i - 1) mod width m = i mod width m - 1) as Hmod.
    { replace (i - 1) with (i / width m * width m + (i mod width m - 1))
        by lia. apply rowcol_mod. lia. }
    assert (joinable m (Neighbor (i - 1) 2)) as Hj.
    { apply (joinable_right m (i - 1) su si);
        [done|done|lia|by rewrite Hback|done]. }
    apply Hcover in Hj. unfold otherIndex in Hj. simpl in Hj.
    rewrite Hback in Hj.
    eapply sameSet_trans; [|exact Hj]. apply IH; lia.
Qed.

(** A forest with a single tree has exactly one simple path between any
    two of its vertices. *)
Lemma spanning_tree m h :
  genInv m h → neighbors m = [] → noExclusions m →
  ∀ u v, u < length (cells m) → v < length (cells m) →
    ∃ p, simplePath (passage m) u v p ∧
         ∀ q, simplePath (passage m) u v q → q = p.
Proof.
  intros Hinv Hnil Hno u v Hu Hv.
  pose proof (grid_tree _ _ (proj1 Hinv)) as Htree.
  assert (sameSet h u v) as Huv.
  { eapply sameSet_trans; [apply sameSet_sym|]; by eapply connected_all. }
  destruct (forest_path _ _ Htree u v Huv) as [p Hp].
  exists p. split; [done|]. intros q Hq. by eapply (forest_unique _ _ Htree).
Qed.

Section GeneratorProofs.

Context `{Rand}.

Lemma sampleNeighbor_spec fuel m h rng :
  gridInv m h → listInv m h (neighbors m) → length h < fuel →
  neighbors m ≠ [] →
  ∃ r h' rng', sampleNeighbor fuel m h rng = Ok (r, h', rng') ∧
    sameRoots h h' ∧ forestOk h' ∧ countRoots h' = countRoots h ∧
    ∃ n, n ∈ neighbors m ∧
      if r is Some n'
      then n' = n ∧ ¬ sameSet h (baseIndex n) (otherIndex m n)
      else sameSet h (baseIndex n) (otherIndex m n).
Proof.
  intros Hgrid Hlist Hfuel Hne. unfold sampleNeighbor, rngIntn.
  assert (0 < length (neighbors m)) as Hlen.
  { destruct (neighbors m); [done|simpl; lia]. }
  destruct (Nat.eqb_spec (length (neighbors m)) 0) as [|_]; [lia|].
  pose proof (Intn_lt rng _ Hlen) as Hk.
  destruct (Intn rng (length (neighbors m))) as [k rng'] eqn:HI.
  simpl in *.
  destruct (lookup_lt_is_Some_2 _ _ Hk) as [n Hn].
  rewrite (at_lookup _ _ _ Hn). simpl.
  assert (n ∈ neighbors m) as Hin by by eapply list_elem_of_lookup_2.
  pose proof (list_listed _ _ _ Hlist n Hin) as Hj.
  destruct (pairRoots_spec fuel m h n Hgrid Hj Hfuel)
    as (h2 & ra & rb & Hpr & Hsr & Hok & Hc & Hroots).
  rewrite Hpr. simpl.
  destruct (Nat.eqb_spec ra rb) as [Heq|Hneq].
  - exists None, h2, rng'. splitAll; try done.
    exists n. split; [done|]. by apply Hroots.
  - exists (Some n), h2, rng'. splitAll; try done.
    exists n. split; [done|]. split; [done|]. by rewrite <- Hroots.
Qed.

Lemma getDisjointNeighbor_spec fuel m h rng :
  genInv m h → 2 * length (cells m) + 2 ≤ fuel →
  ∃ tmp done ns h1 rng1,
    getDisjointNeighbor fuel m h rng
    = Ok (tmp, done, setNeighbors ns m, h1, rng1) ∧
    sameRoots h h1 ∧ forestOk h1 ∧ countRoots h1 = countRoots h ∧
    listInv m h1 ns ∧
    if done then ns = []
    else ∃ n, tmp = Some n ∧ n ∈ ns ∧
              ¬ sameSet h1 (baseIndex n) (otherIndex m n).
Proof.
  intros [Hgrid Hlist] Hfuel. unfold getDisjointNeighbor.
  pose proof (grid_heap _ _ Hgrid) as Hhl.
  pose proof (list_short _ _ _ Hlist) as Hshort.
  destruct (Nat.eqb_spec (length (neighbors m)) 0) as [Hz|Hnz].
  { exists None, true, (neighbors m), h, rng.
    rewrite setNeighbors_neighbors.
    splitAll; first [done|apply sameRoots_refl
                    |exact (grid_forest _ _ Hgrid)
                    |by apply length_zero_iff_nil]. }
  assert (neighbors m ≠ []) as Hne by (intros E; by rewrite E in Hnz).
  destruct (sampleNeighbor_spec fuel m h rng Hgrid Hlist ltac:(lia) Hne)
    as (r & h1 & rng1 & Hs & Hsr1 & Hok1 & Hc1 & n & Hin & Hr).
  rewrite Hs. simpl.
  assert (∀ u v, sameSet h1 u v ↔ sameSet h u v) as HR1.
  { intros u v. symmetry. by apply sameRoots_sameSet. }
  destruct r as [n'|].
  - destruct Hr as [-> Hns].
    exists (Some n), false, (neighbors m), h1, rng1.
    rewrite setNeighbors_neighbors.
    splitAll; first [done|by eapply listInv_heap|idtac].
    exists n. splitAll; first [done|by rewrite HR1].
  - unfold updateDisjointNeighbors.
    assert (gridInv m h1) as Hg1 by by eapply gridInv_heap.
    assert (listInv m h1 (neighbors m)) as Hl1 by by eapply listInv_heap.
    pose proof (proj1 Hsr1) as Hlen1.
    destruct (updateLoop_spec fuel m h1 Hg1 Hl1 ltac:(lia) ltac:(lia))
      as (ns & h2 & Hloop & Hsr2 & Hok2 & Hc2 & Hl2 & Hall).
    rewrite Hloop. simpl.
    destruct (Nat.eqb_spec (length ns) 0) as [Hz|Hnz'].
    { exists None, true, ns, h2, rng1.
      splitAll; first [done|by eapply sameRoots_trans|lia
                      |by apply length_zero_iff_nil]. }
    assert (gridInv (setNeighbors ns m) h2) as Hg2.
    { apply gridInv_setNeighbors. by eapply gridInv_heap. }
    assert (listInv (setNeighbors ns m) h2 (neighbors (setNeighbors ns m)))
      as Hl2'.
    { by apply listInv_setNeighbors. }
    pose proof (proj1 Hsr2) as Hlen2.
    assert (neighbors (setNeighbors ns m) ≠ []) as Hne2.
    { simpl. intros E. by rewrite E in Hnz'. }
    destruct (sampleNeighbor_spec fuel (setNeighbors ns m) h2 rng1 Hg2 Hl2'
                ltac:(lia) Hne2)
      as (r & h3 & rng2 & Hs2 & Hsr3 & Hok3 & Hc3 & n2 & Hin2 & Hr2).
    rewrite Hs2. simpl. simpl in Hin2.
    assert (∀ u v, sameSet h3 u v ↔ sameSet h2 u v) as HR3.
    { intros u v. symmetry. by apply sameRoots_sameSet. }
    destruct r as [n'|].
    + destruct Hr2 as [-> Hns].
      exists (Some n2), false, ns, h3, rng2.
      splitAll; first [done|lia|by eapply listInv_heap|idtac].
      * eapply sameRoots_trans; [done|]. by eapply sameRoots_trans.
      * exists n2. splitAll; first [done|by rewrite HR3].
    + exfalso. by apply (Hall n2 Hin2).
Qed.

Lemma sameFrame_refl m : sameFrame m m.
Proof. done. Qed.

Lemma sameFrame_trans m1 m2 m3 :
  sameFrame m1 m2 → sameFrame m2 m3 → sameFrame m1 m3.
Proof. intros (? & ? & ?) (? & ? & ?). unfold sameFrame. split_and!; congruence. Qed.

Lemma sameEnds_trans m1 m2 m3 :
  sameEnds m1 m2 → sameEnds m2 m3 → sameEnds m1 m3.
Proof. intros (? & ?) (? & ?). unfold sameEnds. split; congruence. Qed.

(** One round of the loop of [RegenerateFromSeed] either finds the list
    empty or joins two sets. *)
Lemma regenerateStep_spec fuel m h rng :
  genInv m h → 2 * length (cells m) + 2 ≤ fuel →
  match regenerateStep fuel (m, h, rng) with
  | Ok (inl (m', h', _)) =>
      genInv m' h' ∧ countRoots h' < countRoots h ∧
      sameFrame m m' ∧ sameEnds m m' ∧ randomSeed m' = randomSeed m
  | Ok (inr (m', h')) =>
      genInv m' h' ∧ neighbors m' = [] ∧
      sameFrame m m' ∧ sameEnds m m' ∧ randomSeed m' = randomSeed m
  | _ => False
  end.
Proof.
  intros Hinv Hfuel. pose proof Hinv as [Hgrid Hlist].
  unfold regenerateStep.
  destruct (Nat.eqb_spec (length (neighbors m)) 0) as [Hz|Hnz].
  { splitAll; try done. by apply length_zero_iff_nil. }
  destruct (getDisjointNeighbor_spec fuel m h rng Hinv Hfuel)
    as (tmp & done & ns & h1 & rng1 & Hget & Hsr & Hok & Hc & Hl1 & Hd).
  rewrite Hget. simpl.
  set (m1 := setNeighbors ns m).
  assert (gridInv m1 h1) as Hg1.
  { apply gridInv_setNeighbors. by eapply gridInv_heap. }
  assert (listInv m1 h1 ns) as Hl1' by by apply listInv_setNeighbors.
  destruct done.
  { subst ns. by splitAll. }
  destruct Hd as (n & -> & Hin & Hns). simpl.
  pose proof (list_listed _ _ _ Hl1' n Hin) as Hj.
  pose proof (joinable_lt m1 n (grid_width _ _ Hg1) Hj) as (Hal & Hbl & _).
  destruct (lookup_lt_is_Some_2 _ _ Hal) as [ca Hca].
  destruct (lookup_lt_is_Some_2 _ _ Hbl) as [cb Hcb].
  pose proof (grid_djSet _ _ Hg1 _ _ Hca) as Hda.
  pose proof (grid_djSet _ _ Hg1 _ _ Hcb) as Hdb.
  pose proof (grid_heap _ _ Hg1) as Hhl.
  change (cells m1) with (cells m) in *.
  rewrite (at_lookup _ _ _ Hca). simpl.
  destruct (union_spec h1 (baseIndex n) (otherIndex m1 n) fuel Hok
              ltac:(lia) ltac:(lia) Hns ltac:(lia))
    as (h2 & Hun & Hok2 & Hlen2 & Hc2 & HR).
  assert (genInv (setCells (clearPair (cells m) (baseIndex n)
                   (otherIndex m1 n) (neighborDirection n)) m1) h2) as Hnew.
  { split.
    - by apply (join_gridInv m1 h1 h2 n).
    - apply (join_listInv m1 h1 h2 ns); [done|].
      intros u v Huv. apply HR. by left. }
  destruct (joinable_dir _ _ Hj) as [Hdir|Hdir];
    unfold otherIndex in *; rewrite Hdir in *; simpl in *;
    rewrite (at_lookup _ _ _ Hcb); simpl;
    rewrite Hda, Hdb; simpl; rewrite Hun; simpl;
    (split; [exact Hnew|]); (split; [lia|]); split; try done;
    unfold sameFrame; simpl; splitAll; try done;
    first [exact (clearPair_states m1 (baseIndex n) (baseIndex n + 1) 2)
          |exact (clearPair_states m1 (baseIndex n)
                    (baseIndex n + width m) 3)].
Qed.

Lemma genInv_setRandomSeed seed m h : genInv m h → genInv (setRandomSeed seed m) h.
Proof. intros [[] []]. split; split; done. Qed.

Lemma genInv_setEnds s e m h : genInv m h → genInv (setEnds s e m) h.
Proof. intros [[] []]. split; split; done. Qed.

Lemma initial_genInv m :
  valid m →
  let m0 := setCells (imap initGridMazeCell (cells m)) m in
  genInv (setNeighbors
            (flat_map (pairsAt (width m0) (states m0))
                      (seq 0 (length (cells m0)))) m0)
         (imap (λ i _, newDisjointSet i) (cells m)).
Proof.
  intros [Hw Hh Hlen Hnil] m0. split.
  - apply gridInv_setNeighbors. by apply initial_gridInv.
  - simpl. split.
    + intros n [Hn _]%pairsUpTo_elem. done.
    + intros n Hn. left. apply pairsUpTo_elem. split; [done|].
      apply pairsAt_lt in Hn. unfold states in Hn.
      by rewrite length_map in Hn.
    + apply pairsUpTo_length.
Qed.

(** The loop of [RegenerateFromSeed] ends, with the list empty. *)
Lemma regenerateLoop_spec fuel seed m :
  valid m → enoughFuel (cellCount m) ≤ fuel →
  ∃ m' h', regenerateLoop fuel seed m = Ok (m', h') ∧ genInv m' h' ∧
           neighbors m' = [] ∧ sameFrame m m' ∧ sameEnds m m' ∧
           randomSeed m' = seed.
Proof.
  intros Hvalid Hfuel. pose proof Hvalid as [Hw Hh Hlen Hnil].
  unfold enoughFuel, cellCount in Hfuel.
  unfold regenerateLoop, initCells.
  set (m0 := setCells (imap initGridMazeCell (cells m)) m).
  rewrite (initDisjointNeighbors_spec m0);
    [|done|done|by unfold m0; simpl; rewrite length_imap|done].
  simpl.
  pose proof (initial_genInv m Hvalid) as Hinv0. fold m0 in Hinv0.
  simpl in Hinv0.
  set (m1 := setNeighbors _ m0) in *.
  set (h0 := imap (λ i _, newDisjointSet i) (cells m)) in *.
  set (I := λ s : GridMaze * heap * rngState,
    let '(m', h', _) := s in
    genInv m' h' ∧ sameFrame m m' ∧ sameEnds m m' ∧ randomSeed m' = seed).
  set (Q := λ r : GridMaze * heap,
    let '(m', h') := r in
    genInv m' h' ∧ neighbors m' = [] ∧ sameFrame m m' ∧ sameEnds m m' ∧
    randomSeed m' = seed).
  set (μ := λ s : GridMaze * heap * rngState,
    let '(_, h', _) := s in countRoots h').
  assert (I (setRandomSeed seed m1, h0, NewSource seed)) as HI0.
  { simpl. split; [by apply genInv_setRandomSeed|].
    split; [|done]. unfold sameFrame. simpl. splitAll; try done.
    apply initCells_states. }
  assert (∀ s, I s →
            match regenerateStep fuel s with
            | Ok (inl s') => I s' ∧ μ s' < μ s
            | Ok (inr r) => Q r
            | _ => False
            end) as Hstep.
  { intros [[m' h'] rng] (Hinv & Hfr & Hen & Hseed).
    assert (length (cells m') = length (cells m)) as Hl'.
    { destruct Hfr as (Hw' & Hh' & _).
      rewrite (grid_cells _ _ (proj1 Hinv)), Hlen. congruence. }
    pose proof (regenerateStep_spec fuel m' h' rng Hinv ltac:(lia)) as Hs.
    destruct (regenerateStep fuel (m', h', rng))
      as [[[[m2 h2] rng2]|[m2 h2]]| | |]; try done; simpl.
    - destruct Hs as (Hinv2 & Hlt & Hfr2 & Hen2 & Hseed2).
      splitAll; try done.
      + by eapply sameFrame_trans.
      + by eapply sameEnds_trans.
      + congruence.
    - destruct Hs as (Hinv2 & Hnil2 & Hfr2 & Hen2 & Hseed2).
      splitAll; try done.
      + by eapply sameFrame_trans.
      + by eapply sameEnds_trans.
      + congruence. }
  assert (μ (setRandomSeed seed m1, h0, NewSource seed) < fuel) as Hμ.
  { simpl. pose proof (countRootsFrom_le 0 h0) as Hle.
    unfold countRoots, h0 in *. rewrite length_imap in Hle. lia. }
  pose proof (loop_spec I Q (λ _, False) μ _ Hstep fuel _ HI0 Hμ) as Hloop.
  destruct (loop fuel (regenerateStep fuel) _) as [[m' h']| | |]; try done.
  by exists m', h'.
Qed.

Lemma genInv_valid m h : genInv m h → neighbors m = [] → valid m.
Proof. intros [[] _] Hnil. by split. Qed.

(** [RegenerateFromSeed] always succeeds on a valid grid. *)
Lemma RegenerateFromSeed_spec fuel seed m :
  valid m → enoughFuel (cellCount m) ≤ fuel →
  ∃ m' h', RegenerateFromSeed fuel seed m = Ok m' ∧ genInv m' h' ∧
           valid m' ∧ sameFrame m m' ∧ randomSeed m' = seed ∧
           (if (startCellIndex m =? -1)%Z
            then startCellIndex m' = 0%Z ∧
                 endCellIndex m' = (Z.of_nat (cellCount m) - 1)%Z
            else sameEnds m m').
Proof.
  intros Hvalid Hfuel.
  destruct (regenerateLoop_spec fuel seed m Hvalid Hfuel)
    as (m' & h' & Hloop & Hinv & Hnil & Hfr & [Hs He] & Hseed).
  unfold RegenerateFromSeed. rewrite Hloop. simpl. rewrite Hs.
  assert (length (cells m') = cellCount m) as Hl'.
  { destruct Hfr as (Hw' & Hh' & _). unfold cellCount.
    rewrite (grid_cells _ _ (proj1 Hinv)), (valid_cells _ Hvalid).
    congruence. }
  destruct (startCellIndex m =? -1)%Z.
  - exists (setEnds 0 (Z.of_nat (length (cells m')) - 1) m'), h'.
    splitAll; try done.
    + by apply genInv_setEnds.
    + apply (genInv_valid _ h'); [by apply genInv_setEnds|done].
    + simpl. by rewrite Hl'.
  - exists m', h'. splitAll; try done. by eapply genInv_valid.
Qed.

End GeneratorProofs.


(** ** Wall eroder *)

Lemma foldl_seq_inv {B} (I : nat → B → Prop) (f : B → nat → B)
    (start len : nat) (b : B) :
  I start b →
  (∀ k b, start ≤ k < start + len → I k b → I (S k) (f b k)) →
  I (start + len) (foldl f b (seq start len)).
Proof.
  revert start b. induction len as [|len IH]; intros start b Hb Hf; simpl.
  - by rewrite Nat.add_0_r.
  - replace (start + S len) with (S start + len) by lia.
    apply IH; [apply Hf; [lia|done]|]. intros k b0 Hk. apply Hf. lia.
Qed.

Lemma foldM_seq_foldl {B} (P : B → Prop) (f : B → nat → result B)
    (g : B → nat → B) (start len : nat) (b : B) :
  P b →
  (∀ k b, start ≤ k < start + len → P b → f b k = Ok (g b k) ∧ P (g b k)) →
  foldM f (seq start len) b = Ok (foldl g b (seq start len)) ∧
  P (foldl g b (seq start len)).
Proof.
  revert start b. induction len as [|len IH]; intros start b Hb Hf; simpl.
  - done.
  - destruct (Hf start b ltac:(lia) Hb) as [-> Hb']. simpl.
    apply IH; [done|]. intros k b0 Hk. apply Hf. lia.
Qed.

Lemma erodeCorner_length w snapshot cs idx :
  length (erodeCorner w snapshot cs idx) = length cs.
Proof.
  unfold erodeCorner, clearSegment.
  destruct (List.filter _ _) as [|s [|s' l]]; try done.
  apply clearPair_length.
Qed.

(** The code of one corner does what the specification says of it. *)
Lemma erodeAt_spec w origCells row cs col :
  row * w + col + w + 1 < length origCells →
  length cs = length origCells →
  erodeAt w origCells row cs col
  = Ok (erodeCorner w origCells cs (row * w + col)).
Proof.
  intros Hlt Hlen. unfold erodeAt, erodeCorner, cornerSegments, clearSegment.
  cbv zeta. set (idx := row * w + col) in *.
  destruct (lookup_lt_is_Some_2 origCells idx ltac:(lia)) as [a Ha].
  destruct (lookup_lt_is_Some_2 origCells (idx + w + 1) Hlt) as [d Hd].
  rewrite (at_lookup _ _ _ Ha). simpl.
  unfold segmentSet. simpl. rewrite Ha, Hd. simpl.
  assert (∀ k, k ≤ idx + w + 1 → ∃ c, at_ cs k = Ok c) as Hat.
  { intros k Hk. apply at_lt. lia. }
  destruct (Hat idx ltac:(lia)) as [c0 Hc0].
  destruct (Hat (idx + 1) ltac:(lia)) as [c1 Hc1].
  destruct (Hat (idx + w) ltac:(lia)) as [c2 Hc2].
  destruct (Hat (idx + w + 1) ltac:(lia)) as [c3 Hc3].
  replace (idx + w + 1 - 1) with (idx + w) by lia.
  replace (idx + w + 1 - w) with (idx + 1) by lia.
  destruct (wRight (walls a)), (wBottom (walls a)); simpl;
    rewrite ?(at_lookup _ _ _ Hd); simpl;
    destruct (wLeft (walls d)), (wTop (walls d)); simpl; try done;
    unfold clearStub; simpl; rewrite ?Hc0, ?Hc1, ?Hc2, ?Hc3; simpl;
    try done; unfold clearPair, acrossWall; simpl; do 2 f_equal; lia.
Qed.

(** [ErodeWalls] is the pass of the specification. *)
Lemma erodeCells_spec w h origCells cs :
  1 ≤ w → length origCells = w * h → length cs = length origCells →
  erodeCells w h origCells cs = Ok (erodeSpec w h origCells cs).
Proof.
  intros Hw Hlen Hcs. unfold erodeCells, erodeSpec.
  apply (foldM_seq_foldl (λ cs, length cs = length origCells)); [done|].
  intros row cs0 Hrow Hcs0.
  apply (foldM_seq_foldl (λ cs, length cs = length origCells)); [done|].
  intros col cs1 Hcol Hcs1. split.
  - apply erodeAt_spec; [|done]. rewrite Hlen. nia.
  - by rewrite erodeCorner_length.
Qed.

Lemma erodeSpec_length w h snapshot cs :
  length (erodeSpec w h snapshot cs) = length cs.
Proof.
  unfold erodeSpec.
  apply (foldl_seq_inv (λ _ cs', length cs' = length cs)); [done|].
  intros row cs0 _ Hcs0.
  apply (foldl_seq_inv (λ _ cs', length cs' = length cs)); [done|].
  intros col cs1 _ Hcs1. by rewrite erodeCorner_length.
Qed.

Lemma ErodeWalls_spec m :
  1 ≤ width m → length (cells m) = width m * height m →
  ErodeWalls m
  = Ok (setCells (erodeSpec (width m) (height m) (cells m) (cells m)) m).
Proof.
  intros Hw Hlen. unfold ErodeWalls.
  by rewrite erodeCells_spec.
Qed.

Lemma opposite_opposite d : d ≤ 3 → opposite (opposite d) = d.
Proof. intros Hd. do 4 (try destruct d as [|d]); simpl; lia. Qed.

Lemma clearPair_swap cs i j d :
  i ≠ j → d ≤ 3 → clearPair cs j i (opposite d) = clearPair cs i j d.
Proof.
  intros Hij Hd. unfold clearPair. rewrite opposite_opposite by done.
  by rewrite list_alter_alter_ne.
Qed.

Lemma wallSymmetric_ext m1 m2 :
  width m1 = width m2 → cells m1 = cells m2 →
  wallSymmetric m1 → wallSymmetric m2.
Proof. unfold wallSymmetric. intros <- <-. done. Qed.

(** The four shapes of [clearSegment] at a corner. *)
Lemma clearSegment_cases w idx s cs :
  1 ≤ w → In s (cornerSegments w idx) →
  ∃ i, (clearSegment w s cs = clearPair cs i (i + 1) 2 ∧
        (i = idx ∧ s = (idx, 2) ∨ i = idx + w ∧ s = (idx + w + 1, 0))) ∨
       (clearSegment w s cs = clearPair cs i (i + w) 3 ∧
        (i = idx ∧ s = (idx, 3) ∨ i = idx + 1 ∧ s = (idx + w + 1, 1))).
Proof.
  unfold cornerSegments, clearSegment, acrossWall.
  intros Hw [<-|[<-|[<-|[<-|[]]]]]; simpl.
  - exists idx. left. split; [done|]. by left.
  - exists idx. right. split; [done|]. by left.
  - exists (idx + w). left. split; [|by right].
    replace (idx + w + 1 - 1) with (idx + w) by lia.
    by rewrite <- (clearPair_swap cs (idx + w) (idx + w + 1) 2) by lia.
  - exists (idx + 1). right. split; [|by right].
    replace (idx + w + 1 - w) with (idx + 1) by lia.
    replace (idx + w + 1) with (idx + 1 + w) by lia.
    by rewrite <- (clearPair_swap cs (idx + 1) (idx + 1 + w) 3) by lia.
Qed.

Lemma filter_singleton_In {A} (f : A → bool) (l : list A) s :
  List.filter f l = [s] → In s l ∧ f s = true.
Proof.
  intros Hf. apply filter_In. rewrite Hf. by left.
Qed.

Lemma erodeCorner_sym m snapshot cs idx :
  1 ≤ width m → wallSymmetric (setCells cs m) →
  wallSymmetric (setCells (erodeCorner (width m) snapshot cs idx) m).
Proof.
  intros Hw Hsym. unfold erodeCorner.
  destruct (List.filter _ _) as [|s [|s' l]] eqn:Hf; try done.
  apply filter_singleton_In in Hf as [Hin _].
  destruct (clearSegment_cases (width m) idx s cs Hw Hin)
    as (i & [[-> _]|[-> _]]).
  - eapply wallSymmetric_ext;
      [| |exact (wallSymmetric_clearRight (setCells cs m) i Hsym)]; done.
  - eapply wallSymmetric_ext;
      [| |exact (wallSymmetric_clearDown (setCells cs m) i Hsym)]; done.
Qed.

Lemma erodeSpec_sym m :
  1 ≤ width m → wallSymmetric m →
  wallSymmetric
    (setCells (erodeSpec (width m) (height m) (cells m) (cells m)) m).
Proof.
  intros Hw Hsym. unfold erodeSpec.
  apply (foldl_seq_inv (λ _ cs, wallSymmetric (setCells cs m))).
  { eapply wallSymmetric_ext; [| |exact Hsym]; done. }
  intros row cs0 _ Hcs0.
  apply (foldl_seq_inv (λ _ cs, wallSymmetric (setCells cs m))); [done|].
  intros col cs1 _ Hcs1. by apply erodeCorner_sym.
Qed.

Lemma clearPair_lookup_other cs i j d k :
  k ≠ i → k ≠ j → clearPair cs i j d !! k = cs !! k.
Proof.
  intros Hi Hj. unfold clearPair.
  by rewrite !list_lookup_alter_ne by done.
Qed.

Lemma clearPair_map_state cs i j d :
  map state (clearPair cs i j d) = map state cs.
Proof.
  unfold clearPair. apply list_eq. intros k.
  rewrite !list_lookup_fmap, !list_lookup_alter.
  repeat case_decide; subst; destruct (cs !! k); done.
Qed.

(** At a corner that touches an excluded cell at least two segments are
    present, so a segment that is the only one lies between two cells
    that are not excluded. *)
Lemma stub_not_excluded m row col s :
  1 ≤ width m → length (cells m) = width m * height m →
  wallSymmetric m → excludedWalled m →
  row + 1 < height m → col + 1 < width m →
  List.filter (segmentSet (cells m))
    (cornerSegments (width m) (row * width m + col)) = [s] →
  ∀ t ct, (t = s.1 ∨ t = acrossWall (width m) s) →
          cells m !! t = Some ct → state ct ≠ 2.
Proof.
  intros Hw Hlen Hsym Hex Hrow Hcol Hf.
  set (w := width m) in *. set (idx := row * w + col) in *.
  assert (idx + w + 1 < length (cells m)) as Hlt by (rewrite Hlen; unfold idx; nia).
  destruct (lookup_lt_is_Some_2 (cells m) idx ltac:(lia)) as [a Ha].
  destruct (lookup_lt_is_Some_2 (cells m) (idx + 1) ltac:(lia)) as [b Hb].
  destruct (lookup_lt_is_Some_2 (cells m) (idx + w) ltac:(lia)) as [c Hc].
  destruct (lookup_lt_is_Some_2 (cells m) (idx + w + 1) Hlt) as [d Hd].
  assert (idx mod w = col) as Hma by (apply rowcol_mod; lia).
  assert ((idx + w) mod w = col) as Hmc.
  { replace (idx + w) with ((row + 1) * w + col) by (unfold idx; lia).
    apply rowcol_mod. lia. }
  destruct (Hsym idx a b Ha) as [Hab _].
  specialize (Hab ltac:(unfold w in *; lia) Hb).
  destruct (Hsym idx a c Ha) as [_ Hac]. specialize (Hac Hc).
  destruct (Hsym (idx + w) c d Hc) as [Hcd _].
  specialize (Hcd ltac:(unfold w in *; lia) Hd).
  destruct (Hsym (idx + 1) b d Hb) as [_ Hbd].
  replace (idx + 1 + width m) with (idx + w + 1) in Hbd by (unfold w; lia).
  specialize (Hbd Hd).
  pose proof (λ Hs, Hex idx a Ha Hs) as Ea.
  pose proof (λ Hs, Hex (idx + 1) b Hb Hs) as Eb.
  pose proof (λ Hs, Hex (idx + w) c Hc Hs) as Ec.
  pose proof (λ Hs, Hex (idx + w + 1) d Hd Hs) as Ed.
  unfold cornerSegments, segmentSet in Hf. simpl in Hf.
  fold w idx in Hf. rewrite Ha, Hd in Hf.
  intros t ct Ht Hct Hst.
  destruct (wRight (walls a)) eqn:F1, (wBottom (walls a)) eqn:F2,
    (wLeft (walls d)) eqn:F3, (wTop (walls d)) eqn:F4;
    simpl in Hf; try done; injection Hf as <-;
    unfold acrossWall in Ht; simpl in Ht; fold w in Ht;
    destruct Ht as [->| ->];
    repeat match goal with
           | H : cells m !! ?k = Some ct |- _ =>
               first [replace k with (idx + w) in H by lia
                     |replace k with (idx + 1) in H by lia]
           end;
    simplify_eq;
    first [specialize (Ea Hst); rewrite Ea in *
          |specialize (Eb Hst); rewrite Eb in *
          |specialize (Ec Hst); rewrite Ec in *
          |specialize (Ed Hst); rewrite Ed in *];
    simpl in *; congruence.
Qed.

Lemma erodeCorner_excluded m row col cs :
  1 ≤ width m → length (cells m) = width m * height m →
  wallSymmetric m → excludedWalled m →
  row + 1 < height m → col + 1 < width m →
  map state cs = states m ∧
  (∀ k c, cells m !! k = Some c → state c = 2 → cs !! k = Some c) →
  let cs' := erodeCorner (width m) (cells m) cs (row * width m + col) in
  map state cs' = states m ∧
  (∀ k c, cells m !! k = Some c → state c = 2 → cs' !! k = Some c).
Proof.
  intros Hw Hlen Hsym Hex Hrow Hcol [Hst Hkeep]. simpl. unfold erodeCorner.
  destruct (List.filter _ _) as [|s [|s' l]] eqn:Hf; try done.
  pose proof (stub_not_excluded m row col s Hw Hlen Hsym Hex Hrow Hcol Hf)
    as Hstub.
  unfold clearSegment. split.
  - by rewrite clearPair_map_state.
  - intros k c Hk Hs. rewrite clearPair_lookup_other; [by apply Hkeep| |].
    + intros ->. by eapply (Hstub (s.1) c); [left| |].
    + intros ->. by eapply (Hstub (acrossWall (width m) s) c); [right| |].
Qed.

Lemma erodeSpec_excluded m :
  1 ≤ width m → length (cells m) = width m * height m →
  wallSymmetric m → excludedWalled m →
  let cs' := erodeSpec (width m) (height m) (cells m) (cells m) in
  map state cs' = states m ∧
  (∀ k c, cells m !! k = Some c → state c = 2 → cs' !! k = Some c).
Proof.
  intros Hw Hlen Hsym Hex. simpl. unfold erodeSpec.
  set (I := λ cs : list gridMazeCell,
    map state cs = states m ∧
    (∀ k c, cells m !! k = Some c → state c = 2 → cs !! k = Some c)).
  apply (foldl_seq_inv (λ _, I)); [done|].
  intros row cs0 Hrow Hcs0.
  apply (foldl_seq_inv (λ _, I)); [done|].
  intros col cs1 Hcol Hcs1.
  apply (erodeCorner_excluded m row col cs1); try done; lia.
Qed.

(** One pass of erosion on a grid whose walls are symmetric and whose
    excluded cells are walled in: the excluded cells are left as they
    are, and both properties hold again. *)
Lemma ErodeWalls_inert m :
  1 ≤ width m → length (cells m) = width m * height m →
  wallSymmetric m → excludedWalled m →
  ∃ m', ErodeWalls m = Ok m' ∧ wallSymmetric m' ∧ excludedWalled m' ∧
        sameFrame m m' ∧ sameEnds m m' ∧ neighbors m' = neighbors m ∧
        length (cells m') = length (cells m) ∧
        ∀ k c, cells m !! k = Some c → state c = 2 → cells m' !! k = Some c.
Proof.
  intros Hw Hlen Hsym Hex. rewrite ErodeWalls_spec by done.
  destruct (erodeSpec_excluded m Hw Hlen Hsym Hex) as [Hst Hkeep].
  eexists. split; [done|]. split; [by apply erodeSpec_sym|].
  split; [|split; [|split; [done|split; [done|split]]]].
  - intros k c' Hk Hs. simpl in Hk.
    assert (states m !! k = Some 2) as Hsk.
    { rewrite <- Hst, list_lookup_fmap, Hk. simpl. by rewrite Hs. }
    apply states_lookup in Hsk as (c & Hc & Hsc).
    pose proof (Hkeep k c Hc Hsc) as Hk'.
    assert (c' = c) as -> by congruence. by eapply Hex.
  - unfold sameFrame. simpl. done.
  - simpl. apply erodeSpec_length.
  - done.
Qed.

(** *** The pass as a whole *)

Lemma foldl_flat_map {A B C} (f : B → C → B) (g : A → list C) (l : list A)
    (b : B) :
  foldl f b (flat_map g l) = foldl (λ b x, foldl f b (g x)) b l.
Proof.
  revert b. induction l as [|x l IH]; intros b; simpl; [done|].
  by rewrite foldl_app, IH.
Qed.

Lemma foldl_map {A B C} (f : B → C → B) (g : A → C) (l : list A) (b : B) :
  foldl f b (map g l) = foldl (λ b x, f b (g x)) b l.
Proof. revert b. induction l as [|x l IH]; intros b; simpl; [done|apply IH]. Qed.

Lemma foldl_ext_in {A B} (f g : B → A → B) (l : list A) (b : B) :
  (∀ b a, f b a = g b a) → foldl f b l = foldl g b l.
Proof.
  intros Hfg. revert b. induction l as [|x l IH]; intros b; simpl; [done|].
  by rewrite Hfg, IH.
Qed.

Lemma erodeSpec_corners w h snapshot cs :
  erodeSpec w h snapshot cs = foldl (erodeCorner w snapshot) cs (corners w h).
Proof.
  unfold erodeSpec, corners. rewrite foldl_flat_map.
  apply foldl_ext_in. intros b row. by rewrite foldl_map.
Qed.

Lemma corners_elem w h idx :
  1 ≤ w → idx ∈ corners w h ↔ idx / w < h - 1 ∧ idx mod w < w - 1.
Proof.
  intros Hw. unfold corners.
  rewrite list_elem_of_In, in_flat_map. split.
  - intros (row & Hrow%in_seq & Hin). apply in_map_iff in Hin
      as (col & <- & Hcol%in_seq).
    rewrite rowcol_div, rowcol_mod by lia. lia.
  - intros [Hr Hc]. exists (idx / w). split; [apply in_seq; lia|].
    apply in_map_iff. exists (idx mod w). split; [|apply in_seq; lia].
    pose proof (Nat.div_mod_eq idx w). lia.
Qed.

Lemma cornerSegments_dir w idx s :
  In s (cornerSegments w idx) → s.2 ≤ 3.
Proof. intros [<-|[<-|[<-|[<-|[]]]]]; simpl; lia. Qed.

Lemma erodeCorner_lookup w snapshot cs idx k c :
  cs !! k = Some c →
  ∃ c', erodeCorner w snapshot cs idx !! k = Some c' ∧
        state c' = state c ∧ djSet c' = djSet c ∧
        ∀ d, d ≤ 3 → flag c' d = flag c d && negb (erodes w snapshot idx k d).
Proof.
  intros Hk. unfold erodeCorner, erodes.
  destruct (List.filter _ _) as [|s [|s' l]] eqn:Hf.
  - exists c. splitAll; try done. intros d _. by rewrite andb_true_r.
  - apply filter_singleton_In in Hf as [Hin _].
    apply cornerSegments_dir in Hin. unfold clearSegment.
    by apply clearPair_lookup.
  - exists c. splitAll; try done. intros d _. by rewrite andb_true_r.
Qed.

Lemma erodeList_lookup w snapshot l cs k c :
  cs !! k = Some c →
  ∃ c', foldl (erodeCorner w snapshot) cs l !! k = Some c' ∧
        state c' = state c ∧ djSet c' = djSet c ∧
        ∀ d, d ≤ 3 →
          flag c' d
          = flag c d && negb (existsb (λ idx, erodes w snapshot idx k d) l).
Proof.
  revert cs c. induction l as [|idx l IH]; intros cs c Hk; simpl.
  - exists c. splitAll; try done. intros d _. by rewrite andb_true_r.
  - destruct (erodeCorner_lookup w snapshot cs idx k c Hk)
      as (c1 & Hk1 & Hs1 & Hd1 & Hf1).
    destruct (IH _ c1 Hk1) as (c2 & Hk2 & Hs2 & Hd2 & Hf2).
    exists c2. splitAll; [done|congruence|congruence|].
    intros d Hd. rewrite Hf2, Hf1 by done.
    by rewrite negb_orb, andb_assoc.
Qed.

(** [ErodeWalls], wall by wall: a wall flag is set afterwards exactly
    when it was set before and no corner of the pass clears it. *)
Lemma ErodeWalls_flags m :
  1 ≤ width m → length (cells m) = width m * height m →
  ∃ m', ErodeWalls m = Ok m' ∧
        m' = setCells (erodeSpec (width m) (height m) (cells m) (cells m)) m ∧
        ∀ k c, cells m !! k = Some c →
          ∃ c', cells m' !! k = Some c' ∧
                state c' = state c ∧ djSet c' = djSet c ∧
                ∀ d, d ≤ 3 →
                  flag c' d
                  = flag c d &&
                    negb (existsb (λ idx, erodes (width m) (cells m) idx k d)
                            (corners (width m) (height m))).
Proof.
  intros Hw Hlen. eexists. split; [by apply ErodeWalls_spec|].
  split; [done|]. intros k c Hk. simpl. rewrite erodeSpec_corners.
  by apply erodeList_lookup.
Qed.


(** ** Path solver *)

(** *** The ranking of directions *)

Lemma setDirRanking_spec cc cr tc tr dr :
  coordinate cc → coordinate cr → coordinate tc → coordinate tr →
  length dr = 4 →
  setDirRanking cc cr tc tr dr = specRanking (tc - cc) (tr - cr).
Proof.
  unfold coordinate. intros Hcc Hcr Htc Htr Hlen.
  destruct dr as [|a [|b [|c [|d [|]]]]]; try done.
  unfold setDirRanking, specRanking, betterHorizontal, betterVertical.
  rewrite (wrap64_small (tc - cc)), (wrap64_small (tr - cr)) by lia.
  assert ((if (tc - cc <? 0)%Z then wrap64 (- (tc - cc)) else (tc - cc)%Z)
          = Z.abs (tc - cc)) as ->.
  { destruct (Z.ltb_spec (tc - cc) 0); [rewrite wrap64_small|]; lia. }
  assert ((if (tr - cr <? 0)%Z then wrap64 (- (tr - cr)) else (tr - cr)%Z)
          = Z.abs (tr - cr)) as ->.
  { destruct (Z.ltb_spec (tr - cr) 0); [rewrite wrap64_small|]; lia. }
  rewrite Z.gtb_ltb, !(Z.gtb_ltb _ 0).
  destruct (Z.abs (tc - cc) <? Z.abs (tr - cr))%Z,
    (0 <? tc - cc)%Z, (0 <? tr - cr)%Z; done.
Qed.

Lemma specRanking_directions colDiff rowDiff d :
  d ∈ specRanking colDiff rowDiff → d ≤ 3.
Proof.
  unfold specRanking, betterHorizontal, betterVertical.
  destruct (Z.abs colDiff <? Z.abs rowDiff)%Z, (0 <? colDiff)%Z,
    (0 <? rowDiff)%Z; simpl; intros Hd;
    repeat (apply elem_of_cons in Hd as [->|Hd]; [lia|]);
    by apply elem_of_nil in Hd.
Qed.

Lemma specRanking_NoDup colDiff rowDiff : NoDup (specRanking colDiff rowDiff).
Proof.
  unfold specRanking, betterHorizontal, betterVertical.
  destruct (Z.abs colDiff <? Z.abs rowDiff)%Z, (0 <? colDiff)%Z,
    (0 <? rowDiff)%Z; simpl;
    repeat (apply NoDup_cons; split;
            [rewrite ?elem_of_cons, ?elem_of_nil; lia|]);
    apply NoDup_nil_2.
Qed.

(** *** Counting visited cells *)

Lemma count_true_false l : countTrue l + countFalse l = length l.
Proof.
  unfold countTrue, countFalse. induction l as [|[] l IH]; simpl; lia.
Qed.

Lemma count_visit l i :
  l !! i = Some false →
  countTrue (<[i:=true]> l) = S (countTrue l) ∧
  S (countFalse (<[i:=true]> l)) = countFalse l.
Proof.
  unfold countTrue, countFalse. revert i.
  induction l as [|b l IH]; intros i Hi; [done|].
  destruct i as [|i]; simpl in *.
  - by simplify_eq.
  - destruct (IH i Hi) as [H1 H2]. destruct b; simpl; lia.
Qed.

Lemma countTrue_pos l i : l !! i = Some true → 1 ≤ countTrue l.
Proof.
  unfold countTrue. revert i. induction l as [|b l IH]; intros i Hi; [done|].
  destruct i as [|i]; simpl in *.
  - simplify_eq. simpl. lia.
  - specialize (IH i Hi). destruct b; simpl; lia.
Qed.

(** *** Moves on the grid *)

Lemma mod_pred w u : 1 ≤ w → u mod w ≠ 0 →
  1 ≤ u ∧ (u - 1) mod w = u mod w - 1 ∧ (u - 1) / w = u / w.
Proof.
  intros Hw Hu. pose proof (index_rowcol w u ltac:(lia)) as Hrc.
  pose proof (Nat.mod_upper_bound u w ltac:(lia)) as Hlt.
  assert (u - 1 = u / w * w + (u mod w - 1)) as E by lia.
  split; [lia|].
  split; rewrite E; [apply rowcol_mod|apply rowcol_div]; lia.
Qed.

Lemma mod_succ w u : 1 ≤ w → u mod w ≠ w - 1 →
  (u + 1) mod w = u mod w + 1 ∧ (u + 1) / w = u / w.
Proof.
  intros Hw Hu. pose proof (index_rowcol w u ltac:(lia)) as Hrc.
  pose proof (Nat.mod_upper_bound u w ltac:(lia)) as Hlt.
  assert (u + 1 = u / w * w + (u mod w + 1)) as E by lia.
  split; rewrite E; [apply rowcol_mod|apply rowcol_div]; lia.
Qed.

Lemma div_pred w u : 1 ≤ w → u / w ≠ 0 →
  w ≤ u ∧ (u - w) mod w = u mod w ∧ (u - w) / w = u / w - 1.
Proof.
  intros Hw Hu. pose proof (index_rowcol w u ltac:(lia)) as Hrc.
  pose proof (Nat.mod_upper_bound u w ltac:(lia)) as Hlt.
  assert (u - w = (u / w - 1) * w + u mod w) as E by nia.
  split; [nia|].
  split; rewrite E; [apply rowcol_mod|apply rowcol_div]; lia.
Qed.

Lemma div_succ w u : 1 ≤ w →
  (u + w) mod w = u mod w ∧ (u + w) / w = u / w + 1.
Proof.
  intros Hw. pose proof (index_rowcol w u ltac:(lia)) as Hrc.
  pose proof (Nat.mod_upper_bound u w ltac:(lia)) as Hlt.
  assert (u + w = (u / w + 1) * w + u mod w) as E by nia.
  split; rewrite E; [apply rowcol_mod|apply rowcol_div]; lia.
Qed.

Lemma target_lt w h u d :
  1 ≤ w → u < w * h → d ≤ 3 → inGrid w h u d → target w u d < w * h.
Proof.
  intros Hw Hu Hd Hin.
  pose proof (index_rowcol w u ltac:(lia)) as Hrc.
  pose proof (Nat.mod_upper_bound u w ltac:(lia)) as Hlt.
  pose proof (index_row_lt w h u ltac:(lia) Hu) as Hrow.
  do 4 (try destruct d as [|d]); simpl in *; try lia; nia.
Qed.

Lemma target_inj w h u d d' :
  1 ≤ w → d ≤ 3 → d' ≤ 3 → inGrid w h u d → inGrid w h u d' →
  target w u d = target w u d' → d = d'.
Proof.
  intros Hw Hd Hd' Hin Hin'.
  pose proof (Nat.mod_upper_bound u w ltac:(lia)) as Hlt.
  assert (w = 1 → u mod w = 0) as H1 by (intros ->; apply Nat.mod_1_r).
  do 4 (try destruct d as [|d]); try lia;
    do 4 (try destruct d' as [|d']); try lia; simpl in *; try done;
    try (pose proof (mod_pred w u Hw ltac:(done)) as (? & _));
    try (pose proof (div_pred w u Hw ltac:(done)) as (? & _));
    intros E; exfalso;
    destruct (decide (w = 1)) as [Hw1|Hw1];
    try (specialize (H1 Hw1)); lia.
Qed.

Lemma target_rowcol w h u d :
  1 ≤ w → d ≤ 3 → inGrid w h u d →
  Z.of_nat (target w u d mod w) = (Z.of_nat (u mod w) + colStep d)%Z ∧
  Z.of_nat (target w u d / w) = (Z.of_nat (u / w) + rowStep d)%Z.
Proof.
  intros Hw Hd Hin. do 4 (try destruct d as [|d]); try lia; simpl in *.
  - destruct (mod_pred w u Hw Hin) as (? & -> & ->).
    assert (1 ≤ u mod w) by lia. lia.
  - destruct (div_pred w u Hw Hin) as (? & -> & ->).
    assert (1 ≤ u / w) by lia. lia.
  - destruct (mod_succ w u Hw Hin) as (-> & ->). lia.
  - destruct (div_succ w u Hw) as (-> & ->). lia.
Qed.

Lemma getWall_flag c d : d ≤ 3 → getWall (walls c) d = Ok (flag c d).
Proof. intros Hd. do 4 (try destruct d as [|d]); try lia; done. Qed.

(** [isReachableAndUnvisited] on a cell of the grid: no panic; a
    destination it answers is a step the solver may take, and when it
    answers none the move is closed. *)
Lemma isReachable_spec m cur visited v :
  1 ≤ width m → length (cells m) = width m * height m →
  length visited = length (cells m) → cur < length (cells m) → v ≤ 3 →
  ∃ r, isReachableAndUnvisited m cur (Z.of_nat (cur mod width m))
         (Z.of_nat (cur / width m)) v visited = Ok r ∧
       (∀ dst, r = Some dst →
          dst = target (width m) cur v ∧ inGrid (width m) (height m) cur v ∧
          dst < length (cells m) ∧ visited !! dst = Some false ∧
          canStep m cur dst) ∧
       (r = None → blocked m visited cur v).
Proof.
  intros Hw Hlen Hvis Hcur Hv. unfold isReachableAndUnvisited.
  destruct (lookup_lt_is_Some_2 _ _ Hcur) as [c Hc].
  rewrite (at_lookup _ _ _ Hc). simpl. rewrite getWall_flag by done. simpl.
  destruct (flag c v) eqn:Hflag.
  { eexists. split; [done|]. split; [done|].
    intros _ cu Hcu Hf. congruence. }
  assert (∀ dst, inGrid (width m) (height m) cur v →
                 dst = target (width m) cur v →
            ∃ r, (v0 ← at_ visited dst; if v0 : bool then Ok None
                                         else Ok (Some dst)) = Ok r ∧
              (∀ dst', r = Some dst' →
                 dst' = target (width m) cur v ∧
                 inGrid (width m) (height m) cur v ∧
                 dst' < length (cells m) ∧ visited !! dst' = Some false ∧
                 canStep m cur dst') ∧
              (r = None → blocked m visited cur v)) as Hfin.
  { intros dst Hin ->.
    pose proof (target_lt (width m) (height m) cur v Hw ltac:(lia) Hv Hin)
      as Hlt.
    destruct (lookup_lt_is_Some_2 visited (target (width m) cur v)
                ltac:(lia)) as [b Hb].
    rewrite (at_lookup _ _ _ Hb). simpl. destruct b.
    - eexists. split; [done|]. split; [done|]. by intros _ cu _ _ _.
    - eexists. split; [done|]. split; [|done]. intros dst' [= <-].
      splitAll; try done; [lia|]. by exists c, v. }
  assert (¬ inGrid (width m) (height m) cur v →
          ∃ r, @Ok (option nat) None = Ok r ∧
            (∀ dst', r = Some dst' →
               dst' = target (width m) cur v ∧
               inGrid (width m) (height m) cur v ∧
               dst' < length (cells m) ∧ visited !! dst' = Some false ∧
               canStep m cur dst') ∧
            (r = None → blocked m visited cur v)) as Hout.
  { intros Hnin. eexists. split; [done|]. split; [done|].
    by intros _ cu _ _ Hin. }
  do 4 (try destruct v as [|v]); try lia; simpl.
  - destruct (Z.eqb_spec (Z.of_nat (cur mod width m)) 0) as [E|E].
    { apply Hout. simpl. lia. }
    assert (cur mod width m ≠ 0) as Hin by lia.
    destruct (mod_pred _ _ Hw Hin) as (Hge & _). unfold subIndex.
    destruct (Nat.ltb_spec cur 1); [lia|]. simpl. by apply Hfin.
  - destruct (Z.eqb_spec (Z.of_nat (cur / width m)) 0) as [E|E].
    { apply Hout. simpl. lia. }
    assert (cur / width m ≠ 0) as Hin by lia.
    destruct (div_pred _ _ Hw Hin) as (Hge & _). unfold subIndex.
    destruct (Nat.ltb_spec cur (width m)); [lia|]. simpl. by apply Hfin.
  - destruct (Z.eqb_spec (Z.of_nat (cur mod width m))
                (Z.of_nat (width m) - 1)) as [E|E].
    { apply Hout. simpl. lia. }
    assert (cur mod width m ≠ width m - 1) as Hin by lia.
    simpl. by apply Hfin.
  - destruct (Z.eqb_spec (Z.of_nat (cur / width m))
                (Z.of_nat (height m) - 1)) as [E|E].
    { apply Hout. simpl. lia. }
    assert (cur / width m ≠ height m - 1) as Hin.
    { intros E'. apply E. rewrite E'.
      pose proof (index_row_lt (width m) (height m) cur ltac:(lia)
                    ltac:(lia)). lia. }
    simpl. by apply Hfin.
Qed.

(** *** The invariant of the search *)

Lemma reached_insert parent s dst (v : Z) q :
  parent !! dst = Some (-1)%Z → reached parent s q →
  reached (<[dst:=v]> parent) s q.
Proof.
  intros Hdst [->|[p Hp]]; [by left|]. right. exists p.
  rewrite list_lookup_insert_ne; [done|]. intros ->.
  rewrite Hdst in Hp. simplify_eq. lia.
Qed.

Lemma trail_insert parent s dst (v : Z) i l :
  parent !! dst = Some (-1)%Z → dst ≠ s → trail parent s i l →
  trail (<[dst:=v]> parent) s i l.
Proof.
  intros Hdst Hs. induction 1 as [Hp|i p l Hi Hp Ht IH].
  - apply trail_start. by rewrite list_lookup_insert_ne.
  - eapply trail_step; [done| |done].
    rewrite list_lookup_insert_ne; [done|]. intros ->.
    rewrite Hdst in Hp. simplify_eq. lia.
Qed.

Lemma solveInv_unvisited m s visited parent stack dst :
  solveInv m s visited parent stack → dst < length (cells m) →
  visited !! dst = Some false →
  dst ≠ s ∧ parent !! dst = Some (-1)%Z ∧
  ∃ c, cells m !! dst = Some c ∧ state c ≠ 2.
Proof.
  intros Hinv Hlt Hv. split; [|split].
  - intros ->. rewrite (solve_start_visited _ _ _ _ _ Hinv) in Hv. done.
  - destruct (lookup_lt_is_Some_2 parent dst) as [p Hp].
    { by rewrite (solve_parent _ _ _ _ _ Hinv). }
    destruct (solve_link _ _ _ _ _ Hinv dst p Hp)
      as [->|(q & c & _ & _ & Hv' & _)]; [done|congruence].
  - destruct (lookup_lt_is_Some_2 _ _ Hlt) as [c Hc]. exists c.
    split; [done|]. intros Hs.
    rewrite (solve_excluded _ _ _ _ _ Hinv dst c Hc Hs) in Hv. done.
Qed.

(** Visiting an unvisited cell from a reached one keeps the invariant. *)
Lemma solveInv_visit m s visited parent stack stack' cur dst :
  solveInv m s visited parent stack →
  reached parent s cur → dst < length (cells m) →
  visited !! dst = Some false → canStep m cur dst →
  (∀ i, i ∈ stack' → i ∈ stack ∨ i = dst) →
  solveInv m s (<[dst:=true]> visited) (<[dst:=Z.of_nat cur]> parent) stack'.
Proof.
  intros Hinv Hcur Hlt Hv Hstep Hstack.
  destruct (solveInv_unvisited _ _ _ _ _ _ Hinv Hlt Hv)
    as (Hds & Hdp & c & Hc & Hcs).
  pose proof Hinv as [Hlv Hlp Hsv Hsp Hex Hlink Hstk Htrail].
  assert (reached (<[dst:=Z.of_nat cur]> parent) s dst) as Hrd.
  { right. exists cur. apply list_lookup_insert_eq. lia. }
  split.
  - by rewrite length_insert.
  - by rewrite length_insert.
  - by rewrite list_lookup_insert_ne.
  - by rewrite list_lookup_insert_ne.
  - intros i ci Hci Hsi. destruct (decide (i = dst)) as [->|Hne].
    + apply list_lookup_insert_eq. lia.
    + rewrite list_lookup_insert_ne by done. by eapply Hex.
  - intros i p Hp. destruct (decide (i = dst)) as [->|Hne].
    + rewrite list_lookup_insert_eq in Hp by lia. simplify_eq.
      right. exists cur, c. splitAll; try done.
      * apply list_lookup_insert_eq. lia.
      * by apply reached_insert.
    + rewrite list_lookup_insert_ne in Hp by done.
      destruct (Hlink i p Hp) as [->|(q & ci & -> & ? & ? & ? & ? & ? & ?)];
        [by left|right].
      exists q, ci. splitAll; try done.
      * by rewrite list_lookup_insert_ne.
      * by apply reached_insert.
  - intros i Hi. destruct (Hstack i Hi) as [Hin| ->]; [|done].
    destruct (Hstk i Hin) as [Hr ?]. split; [|done]. by apply reached_insert.
  - intros i Hi. destruct (count_visit _ _ Hv) as [-> _].
    destruct (decide (i = dst)) as [->|Hne].
    + destruct (Htrail cur Hcur) as (l & Hl & Hlen).
      exists (dst :: l). split; [|simpl; lia].
      eapply trail_step; [done| |by apply trail_insert].
      apply list_lookup_insert_eq. lia.
    + assert (reached parent s i) as Hri.
      { destruct Hi as [->|[p Hp]]; [by left|right]. exists p.
        by rewrite list_lookup_insert_ne in Hp. }
      destruct (Htrail i Hri) as (l & Hl & Hlen).
      exists l. split; [by apply trail_insert|lia].
Qed.

Lemma solveInv_stack m s visited parent stack stack' :
  solveInv m s visited parent stack → (∀ i, i ∈ stack' → i ∈ stack) →
  solveInv m s visited parent stack'.
Proof. intros [] Hsub. split; try done. intros i Hi. auto. Qed.

(** The state the search starts from. *)
Lemma solveInv_initial m s :
  s < length (cells m) →
  solveInv m s (<[s:=true]> (map (λ c, state c =? 2) (cells m)))
    (replicate (length (cells m)) (-1)%Z) [s].
Proof.
  intros Hs.
  assert (<[s:=true]> (map (λ c, state c =? 2) (cells m)) !! s = Some true)
    as Hsv.
  { apply list_lookup_insert_eq. by rewrite length_map. }
  assert (∀ i p, replicate (length (cells m)) (-1)%Z !! i = Some p →
                 p = (-1)%Z) as Hrep.
  { intros i p [-> _]%lookup_replicate. done. }
  split.
  - by rewrite length_insert, length_map.
  - by rewrite length_replicate.
  - done.
  - by apply lookup_replicate.
  - intros i c Hc Hst. destruct (decide (i = s)) as [->|Hne]; [done|].
    rewrite list_lookup_insert_ne, list_lookup_fmap, Hc by done. simpl.
    by rewrite Hst.
  - intros i p Hp. left. by eapply Hrep.
  - intros i ->%list_elem_of_singleton. split; [by left|done].
  - intros i [->|[p Hp%Hrep]]; [|lia].
    exists [s]. split.
    + apply trail_start. by apply lookup_replicate.
    + simpl. by eapply countTrue_pos.
Qed.

(** A trail is a path of steps, walked backwards. *)
Lemma trail_path m s visited parent stack i l :
  solveInv m s visited parent stack → trail parent s i l →
  path (flip (canStep m)) i s l ∧
  ∀ x, x ∈ l → x = s ∨ ∃ c, cells m !! x = Some c ∧ state c ≠ 2.
Proof.
  intros Hinv. induction 1 as [Hp|i p l Hi Hp Ht [IH1 IH2]].
  - split; [constructor|]. intros x ->%list_elem_of_singleton. by left.
  - destruct (solve_link _ _ _ _ _ Hinv i _ Hp)
      as [E|(q & c & E & _ & _ & Hstep & _ & Hc & Hcs)]; [lia|].
    apply Nat2Z.inj in E as <-. split.
    + econstructor; [|done]. done.
    + intros x [->|Hx]%elem_of_cons; [right; eauto|by apply IH2].
Qed.

Lemma path_snoc (E : nat → nat → Prop) u v w p :
  path E u v p → E v w → path E u w (p ++ [w]).
Proof.
  intros Hp Hvw. eapply path_app; [done|done|constructor].
Qed.

Lemma path_rev (E : nat → nat → Prop) u v p :
  path (flip E) u v p → path E v u (rev p).
Proof.
  induction 1 as [u|u w v p Huw Hp IH]; simpl; [constructor|].
  by eapply path_snoc.
Qed.

Lemma foldM_prefix {A B} (I : list A → B → Prop) (f : B → A → result B)
    (l : list A) (b : B) :
  I [] b →
  (∀ pre a post b, l = pre ++ a :: post → I pre b →
     match f b a with Ok b' => I (pre ++ [a]) b' | _ => False end) →
  match foldM f l b with Ok b' => I l b' | _ => False end.
Proof.
  intros Hb Hf.
  assert (∀ rest pre b, l = pre ++ rest → I pre b →
            match foldM f rest b with Ok b' => I l b' | _ => False end)
    as Hgen.
  { induction rest as [|a rest IH]; intros pre b0 Hl Hpre; simpl.
    - rewrite app_nil_r in Hl. by subst.
    - pose proof (Hf pre a rest b0 Hl Hpre) as Ha.
      destruct (f b0 a) as [b'| | |]; try done. simpl.
      apply (IH (pre ++ [a])); [|done]. by rewrite <- app_assoc. }
  by apply (Hgen l []).
Qed.

(** The loop over the ranked directions: the first legal move is kept,
    the others are pushed. *)
Lemma insert_true_mono (vis : list bool) dst j :
  dst < length vis → vis !! j = Some true →
  <[dst:=true]> vis !! j = Some true.
Proof.
  intros Hlt Hj. destruct (decide (j = dst)) as [->|Hne].
  - by apply list_lookup_insert_eq.
  - by rewrite list_lookup_insert_ne.
Qed.

Lemma insert_true_inv (vis : list bool) dst j :
  <[dst:=true]> vis !! j = Some true → j = dst ∨ vis !! j = Some true.
Proof.
  intros Hj. destruct (decide (j = dst)) as [->|Hne]; [by left|].
  right. by rewrite list_lookup_insert_ne in Hj.
Qed.

Lemma reached_insert_inv parent s dst (v : Z) i :
  reached (<[dst:=v]> parent) s i → i = dst ∨ reached parent s i.
Proof.
  intros [->|[p Hp]]; [right; by left|].
  destruct (decide (i = dst)) as [->|Hne]; [by left|].
  right. right. exists p. by rewrite list_lookup_insert_ne in Hp.
Qed.

Lemma grown_refl s visited parent stack :
  grown s visited parent stack visited parent stack.
Proof. split; auto. Qed.

Lemma grown_push s visited parent stack vis0 par0 stk0 dst (c : nat) :
  grown s visited parent stack vis0 par0 stk0 →
  dst < length vis0 → par0 !! dst = Some (-1)%Z →
  grown s visited parent stack (<[dst:=true]> vis0)
    (<[dst:=Z.of_nat c]> par0) (dst :: stk0).
Proof.
  intros [Hv Hn Hs Hr Hp] Hlt Hdst. split.
  - intros j Hj. apply insert_true_mono; auto.
  - intros j [->|Hj]%insert_true_inv; [right; left|].
    destruct (Hn j Hj); [by left|right; by right].
  - intros i Hi. right. auto.
  - intros i Hi. apply reached_insert; auto.
  - intros i [->|Hi]%reached_insert_inv; [right; left|].
    destruct (Hp i Hi); [by left|right; by right].
Qed.

Lemma blocked_mono m vis vis' u d :
  (∀ j, vis !! j = Some true → vis' !! j = Some true) →
  blocked m vis u d → blocked m vis' u d.
Proof. intros Hmono Hb cu Hcu Hf Hin. apply Hmono. by apply (Hb cu). Qed.

(** The loop over the four directions from a reached cell. *)
Lemma directions_spec m s cur visited parent stack dirs :
  1 ≤ width m → length (cells m) = width m * height m →
  solveInv m s visited parent stack → reached parent s cur →
  cur < length (cells m) → NoDup dirs → (∀ d, d ∈ dirs → d ≤ 3) →
  match foldM (tryDirection m cur (Z.of_nat (cur mod width m))
                 (Z.of_nat (cur / width m)))
          dirs (None, visited, parent, stack) with
  | Ok (move, vis', par', stk') =>
      solveInv m s vis' par' stk' ∧ reached par' s cur ∧
      countFalse vis' + length stk' = countFalse visited + length stack ∧
      length stack ≤ length stk' ∧
      grown s visited parent stack vis' par' stk' ∧
      (∀ d, d ∈ dirs → tried m vis' cur move d) ∧
      match move with
      | None => True
      | Some (dst, d) =>
          d ≤ 3 ∧ inGrid (width m) (height m) cur d ∧
          dst = target (width m) cur d ∧ dst < length (cells m) ∧
          vis' !! dst = Some false ∧ canStep m cur dst
      end
  | _ => False
  end.
Proof.
  intros Hw Hlen Hinv Hcur Hlt Hnd Hdirs.
  set (J := λ (pre : list nat)
              (st : option (nat * nat) * list bool * list Z * list nat),
    let '(move, vis', par', stk') := st in
    solveInv m s vis' par' stk' ∧ reached par' s cur ∧
    countFalse vis' + length stk' = countFalse visited + length stack ∧
    length stack ≤ length stk' ∧
    grown s visited parent stack vis' par' stk' ∧
    (∀ d, d ∈ pre → tried m vis' cur move d) ∧
    match move with
    | None => True
    | Some (dst, d) =>
        d ∈ pre ∧ d ≤ 3 ∧ inGrid (width m) (height m) cur d ∧
        dst = target (width m) cur d ∧ dst < length (cells m) ∧
        vis' !! dst = Some false ∧ canStep m cur dst
    end).
  assert (∀ pre v post st, dirs = pre ++ v :: post → J pre st →
            match tryDirection m cur (Z.of_nat (cur mod width m))
                    (Z.of_nat (cur / width m)) st v with
            | Ok st' => J (pre ++ [v]) st'
            | _ => False
            end) as Hstep.
  { intros pre v post [[[move0 vis0] par0] stk0] Hl
      (Hi0 & Hr0 & Hc0 & Hs0 & Hg0 & Ht0 & Hm0).
    unfold tryDirection.
    assert (v ≤ 3) as Hv.
    { apply Hdirs. rewrite Hl. apply elem_of_app. right. left. }
    assert (v ∉ pre) as Hvpre.
    { rewrite Hl in Hnd. apply NoDup_app in Hnd as (_ & Hnd & _).
      intros Hin. apply (Hnd v Hin). left. }
    destruct (isReachable_spec m cur vis0 v Hw Hlen
                (solve_visited _ _ _ _ _ Hi0) Hlt Hv)
      as (r & -> & Hr & Hnone).
    simpl. destruct r as [dst|].
    2:{ simpl. splitAll; try done.
        - intros d [Hd|Hd%list_elem_of_singleton]%elem_of_app;
            [by apply Ht0|]. subst d.
          intros cu Hcu Hf Hin. left. exact (Hnone eq_refl cu Hcu Hf Hin).
        - destruct move0 as [[dst0 d0]|]; [|done].
          destruct Hm0 as (? & ?). split; [|done]. apply elem_of_app.
          by left. }
    destruct (Hr dst eq_refl) as (Hdst & Hin & Hdlt & Hdv & Hstep).
    destruct move0 as [[dst0 d0]|].
    2:{ simpl. splitAll; try done.
        - intros d [Hd|Hd%list_elem_of_singleton]%elem_of_app.
          + intros cu Hcu Hf Hind.
            destruct (Ht0 d Hd cu Hcu Hf Hind) as [?|?]; [by left|done].
          + subst d. intros cu Hcu Hf Hind. right. by rewrite Hdst.
        - apply elem_of_app. right. left. }
    destruct Hm0 as (Hd0 & Hd03 & Hin0 & Hdst0 & Hlt0 & Hv0 & Hstep0).
    assert (dst ≠ dst0) as Hne.
    { intros E. rewrite Hdst, Hdst0 in E.
      apply (target_inj _ (height m)) in E; [congruence|done..]. }
    destruct (at_lt vis0 dst) as [? ->];
      [by rewrite (solve_visited _ _ _ _ _ Hi0)|].
    destruct (at_lt par0 dst) as [? ->];
      [by rewrite (solve_parent _ _ _ _ _ Hi0)|].
    simpl.
    destruct (solveInv_unvisited _ _ _ _ _ _ Hi0 Hdlt Hdv) as (_ & Hdp & _).
    destruct (count_visit _ _ Hdv) as [_ Hcf].
    assert (dst < length vis0) as Hdlt'
      by by rewrite (solve_visited _ _ _ _ _ Hi0).
    splitAll; try done.
    - eapply solveInv_visit; try done.
      by intros i [->|?]%elem_of_cons; [right|left].
    - by apply reached_insert.
    - simpl. lia.
    - simpl. lia.
    - by apply grown_push.
    - intros d [Hd|Hd%list_elem_of_singleton]%elem_of_app.
      + intros cu Hcu Hf Hind.
        destruct (Ht0 d Hd cu Hcu Hf Hind) as [?|?]; [left|by right].
        by apply insert_true_mono.
      + subst d. intros cu Hcu Hf Hind. left. rewrite <- Hdst.
        by apply list_lookup_insert_eq.
    - apply elem_of_app. by left.
    - by rewrite list_lookup_insert_ne. }
  assert (J [] (None, visited, parent, stack)) as HJ0.
  { simpl. splitAll; try done; [apply grown_refl|].
    by intros d ?%elem_of_nil. }
  pose proof (foldM_prefix J _ dirs (None, visited, parent, stack) HJ0 Hstep)
    as Hfold.
  destruct (foldM _ dirs _) as [[[[move vis'] par'] stk']| | |]; try done.
  destruct Hfold as (H1 & H2 & H3 & H4 & H5 & H6 & H7). splitAll; try done.
  destruct move as [[dst d]|]; [|done]. by destruct H7 as (_ & ?).
Qed.

Lemma setDirRanking_perm cc cr tc tr dr :
  length dr = 4 →
  let dr' := setDirRanking cc cr tc tr dr in
  length dr' = 4 ∧ NoDup dr' ∧ (∀ d, d ∈ dr' → d ≤ 3) ∧
  (∀ d, d ≤ 3 → d ∈ dr').
Proof.
  intros Hlen. destruct dr as [|a [|b [|c [|d [|]]]]]; try done.
  unfold setDirRanking.
  repeat match goal with
         | |- context [if ?b then _ else _] => destruct b
         end; simpl;
    (split; [done|]); (split;
     [repeat (apply NoDup_cons; split;
              [rewrite ?elem_of_cons, ?elem_of_nil; lia|]);
      apply NoDup_nil_2
     |split;
      [intros x Hx;
       repeat (apply elem_of_cons in Hx as [->|Hx]; [lia|]);
       by apply elem_of_nil in Hx
      |intros x Hx; rewrite !elem_of_cons; lia]]).
Qed.

Lemma at_end_iff w cur e :
  1 ≤ w →
  ((Z.of_nat (cur / w) =? Z.quot (Z.of_nat e) (Z.of_nat w)) &&
   (Z.of_nat (cur mod w) =? Z.rem (Z.of_nat e) (Z.of_nat w)))%Z = true
  ↔ cur = e.
Proof.
  intros Hw. rewrite Z.quot_div_nonneg, Z.rem_mod_nonneg by lia.
  rewrite <- Nat2Z.inj_div, <- Nat2Z.inj_mod.
  rewrite andb_true_iff, !Z.eqb_eq, !Nat2Z.inj_iff. split.
  - intros [Hd Hm]. rewrite (index_rowcol w cur), (index_rowcol w e) by lia.
    by rewrite Hd, Hm.
  - by intros ->.
Qed.

Lemma moveDir_steps (d : nat) (col row : Z) :
  d ≤ 3 →
  match d with
  | 0 => ((col - 1)%Z, row)
  | 1 => (col, (row - 1)%Z)
  | 2 => ((col + 1)%Z, row)
  | 3 => (col, (row + 1)%Z)
  | _ => (col, row)
  end = ((col + colStep d)%Z, (row + rowStep d)%Z).
Proof.
  intros Hd. do 4 (try destruct d as [|d]); try lia; simpl;
    f_equal; lia.
Qed.

(** *** The cells the search is done with *)

Lemma done_directions m s e cur visited parent stack vis1 par1 stk1 :
  doneInv m s e (Some cur) visited parent stack →
  solveInv m s vis1 par1 stk1 →
  grown s visited parent stack vis1 par1 stk1 →
  doneInv m s e (Some cur) vis1 par1 stk1.
Proof.
  intros [Hv Hc He] Hinv [Gv Gn Gs Gr Gp]. split.
  - intros j Hj. destruct (Gn j Hj) as [Hold|Hstk].
    + destruct (Hv j Hold) as [?|?]; [left; by apply Gr|by right].
    + left. by apply (solve_stack _ _ _ _ _ Hinv).
  - intros i d Hi Hstk Hcur Hd.
    destruct (Gp i Hi) as [Hold|?]; [|done].
    apply (blocked_mono m visited); [done|].
    apply Hc; try done. intros Hin. apply Hstk. by apply Gs.
  - intros Hre. destruct (Gp e Hre) as [Hold|?]; [|done].
    apply Gs. by apply He.
Qed.

Lemma done_finish m s e cur vis par stk :
  doneInv m s e (Some cur) vis par stk →
  (∀ d, d ≤ 3 → blocked m vis cur d) →
  doneInv m s e None vis par stk.
Proof.
  intros [Hv Hc He] Hcur. split; [done| |done].
  intros i d Hi Hstk _ Hd. destruct (decide (i = cur)) as [->|Hne].
  - by apply Hcur.
  - apply Hc; try done. congruence.
Qed.

Lemma done_move m s e cur vis par stk dst d0 :
  doneInv m s e (Some cur) vis par stk →
  (∀ d, d ≤ 3 → tried m vis cur (Some (dst, d0)) d) →
  dst < length vis → length par = length vis →
  par !! dst = Some (-1)%Z → dst ≠ e →
  doneInv m s e (Some dst) (<[dst:=true]> vis) (<[dst:=Z.of_nat cur]> par)
    stk.
Proof.
  intros [Hv Hc He] Htried Hlt Hlen Hdst Hne. split.
  - intros j [->|Hj]%insert_true_inv.
    + left. right. exists cur. apply list_lookup_insert_eq. lia.
    + destruct (Hv j Hj) as [?|?]; [left|by right].
      by apply reached_insert.
  - intros i d [->|Hi]%reached_insert_inv Hstk Hcur Hd; [done|].
    destruct (decide (i = cur)) as [->|Hic].
    + intros cu Hcu Hf Hin.
      destruct (Htried d Hd cu Hcu Hf Hin) as [Ht|Ht].
      * by apply insert_true_mono.
      * injection Ht as -> _. by apply list_lookup_insert_eq.
    + apply (blocked_mono m vis);
        [intros j; by apply insert_true_mono|].
      apply Hc; try done. congruence.
  - intros [->|Hre]%reached_insert_inv; [done|]. by apply He.
Qed.

Lemma done_pop m s e cur vis par stk :
  doneInv m s e None vis par (cur :: stk) → cur ≠ e →
  doneInv m s e (Some cur) vis par stk.
Proof.
  intros [Hv Hc He] Hne. split; [done| |].
  - intros i d Hi Hstk Hcur Hd. apply Hc; try done.
    intros [->|?]%elem_of_cons; [|done]. by apply Hcur.
  - intros Hre. pose proof (He Hre) as Hin.
    apply elem_of_cons in Hin as [->|?]; done.
Qed.

Lemma done_initial m s e :
  s < length (cells m) →
  doneInv m s e None (<[s:=true]> (map (λ c, state c =? 2) (cells m)))
    (replicate (length (cells m)) (-1)%Z) [s].
Proof.
  intros Hs.
  assert (∀ i, reached (replicate (length (cells m)) (-1)%Z) s i → i = s)
    as Hstart.
  { intros i [->|[p [Hp _]%lookup_replicate]]; [done|lia]. }
  split.
  - intros j [->|Hj]%insert_true_inv; [left; by left|]. right.
    change (map (λ c, state c =? 2) (cells m))
      with ((λ c, state c =? 2) <$> cells m) in Hj.
    rewrite list_lookup_fmap in Hj.
    destruct (cells m !! j) as [c|] eqn:Hc; [|done].
    simpl in Hj. injection Hj as Hj. apply Nat.eqb_eq in Hj. by exists c.
  - intros i d Hi Hstk. apply Hstart in Hi as ->. exfalso. apply Hstk. left.
  - intros Hi. apply Hstart in Hi as ->. left.
Qed.

(** With nothing left on the stack the end cell is out of reach. *)
Lemma done_unsolvable m s e vis par :
  doneInv m s e None vis par [] → ¬ solvable m s e.
Proof.
  intros [Hv Hc He] [q Hq].
  assert (∀ u v q, path (openStep m) u v q →
            reached par s u → reached par s v) as Hwalk.
  { induction 1 as [|u w v p [Hstep Hfree] _ IH]; [done|].
    intros Hu. apply IH.
    destruct Hstep as (cu & d & Hd & Hcu & Hf & Hin & ->).
    assert (vis !! target (width m) u d = Some true) as Hvis.
    { assert (blocked m vis u d) as Hb.
      { apply Hc; try done. by intros ?%elem_of_nil. }
      exact (Hb cu Hcu Hf Hin). }
    by destruct (Hv _ Hvis). }
  assert (reached par s e) as Hre by (apply (Hwalk s e q Hq); by left).
  by apply He, elem_of_nil in Hre.
Qed.

(** The inner loop, which follows one path: it ends, the cells it
    visits and pushes balance, when it reports the end cell that cell
    has been reached, and when it does not the search is done with every
    cell on the way. *)
Lemma followLoop_spec fuel m s e cur dr visited parent stack :
  1 ≤ width m → length (cells m) = width m * height m →
  solveInv m s visited parent stack → reached parent s cur →
  cur < length (cells m) → length dr = 4 →
  doneInv m s e (Some cur) visited parent stack → cur ≠ e →
  length (cells m) < fuel →
  match loop fuel
          (followStep m (Z.rem (Z.of_nat e) (Z.of_nat (width m)))
             (Z.quot (Z.of_nat e) (Z.of_nat (width m))))
          (cur, Z.of_nat (cur mod width m), Z.of_nat (cur / width m),
           (dr, visited, parent, stack)) with
  | Ok (found, (dr', vis', par', stk')) =>
      solveInv m s vis' par' stk' ∧ length dr' = 4 ∧
      countFalse vis' + length stk' ≤ countFalse visited + length stack ∧
      (found = true → reached par' s e) ∧
      (found = false → doneInv m s e None vis' par' stk')
  | _ => False
  end.
Proof.
  intros Hw Hlen Hinv Hcur Hlt Hdr Hdone Hcure Hfuel.
  set (M0 := countFalse visited + length stack).
  set (I := λ st : nat * Z * Z * dfsState,
    let '(cur, col, row, (dr, vis, par, stk)) := st in
    solveInv m s vis par stk ∧ reached par s cur ∧
    cur < length (cells m) ∧ col = Z.of_nat (cur mod width m) ∧
    row = Z.of_nat (cur / width m) ∧ length dr = 4 ∧
    countFalse vis + length stk ≤ M0 ∧
    doneInv m s e (Some cur) vis par stk ∧ cur ≠ e).
  set (Q := λ r : bool * dfsState,
    let '(found, (dr, vis, par, stk)) := r in
    solveInv m s vis par stk ∧ length dr = 4 ∧
    countFalse vis + length stk ≤ M0 ∧ (found = true → reached par s e) ∧
    (found = false → doneInv m s e None vis par stk)).
  set (μ := λ st : nat * Z * Z * dfsState,
    let '(_, _, _, (_, vis, _, _)) := st in countFalse vis).
  assert (∀ st, I st →
            match followStep m (Z.rem (Z.of_nat e) (Z.of_nat (width m)))
                    (Z.quot (Z.of_nat e) (Z.of_nat (width m))) st with
            | Ok (inl st') => I st' ∧ μ st' < μ st
            | Ok (inr r) => Q r
            | _ => False
            end) as Hstep.
  { intros [[[c col] row] [[[dr0 vis0] par0] stk0]]
      (Hi0 & Hr0 & Hc0 & -> & -> & Hdr0 & HM0 & Hd0 & Hce).
    unfold followStep.
    destruct (setDirRanking_perm (Z.of_nat (c mod width m))
                (Z.of_nat (c / width m))
                (Z.rem (Z.of_nat e) (Z.of_nat (width m)))
                (Z.quot (Z.of_nat e) (Z.of_nat (width m))) dr0 Hdr0)
      as (Hdr1 & Hnd & Hle & Hall).
    set (dr1 := setDirRanking _ _ _ _ dr0) in *.
    pose proof (directions_spec m s c vis0 par0 stk0 dr1 Hw Hlen Hi0 Hr0
                  Hc0 Hnd Hle) as Hdirs.
    destruct (foldM _ dr1 _) as [[[[move vis1] par1] stk1]| | |];
      try done. simpl.
    destruct Hdirs as (Hi1 & Hr1 & Hc1 & Hs1 & Hg1 & Ht1 & Hmove).
    pose proof (done_directions _ _ _ _ _ _ _ _ _ _ Hd0 Hi1 Hg1) as Hd1.
    destruct move as [[dst d]|].
    2:{ simpl. splitAll; try done; [lia|]. intros _.
        apply (done_finish _ _ _ c); [done|]. intros d Hd cu Hcu Hf Hin.
        by destruct (Ht1 d (Hall d Hd) cu Hcu Hf Hin). }
    destruct Hmove as (Hd & Hin & Hdst & Hdlt & Hdv & Hcan).
    destruct (at_lt vis1 dst) as [? ->];
      [by rewrite (solve_visited _ _ _ _ _ Hi1)|].
    destruct (at_lt par1 dst) as [? ->];
      [by rewrite (solve_parent _ _ _ _ _ Hi1)|].
    simpl. rewrite (moveDir_steps d) by done.
    destruct (target_rowcol (width m) (height m) c d Hw Hd Hin)
      as [Ecol Erow].
    rewrite <- Hdst in Ecol, Erow. rewrite <- Ecol, <- Erow.
    destruct (count_visit _ _ Hdv) as [_ Hcf].
    assert (solveInv m s (<[dst:=true]> vis1) (<[dst:=Z.of_nat c]> par1)
              stk1) as Hi2.
    { eapply solveInv_visit; try done. intros i Hi. by left. }
    assert (reached (<[dst:=Z.of_nat c]> par1) s dst) as Hr2.
    { right. exists c. apply list_lookup_insert_eq.
      by rewrite (solve_parent _ _ _ _ _ Hi1). }
    destruct (_ && _)%Z eqn:Hend.
    - apply at_end_iff in Hend; [|done].
      simpl. splitAll; [done|done|lia|intros _; by rewrite <- Hend|done].
    - assert (dst ≠ e) as Hde.
      { intros ->. apply not_true_iff_false in Hend. apply Hend.
        by apply at_end_iff. }
      destruct (solveInv_unvisited _ _ _ _ _ _ Hi1 Hdlt Hdv)
        as (_ & Hdp & _).
      simpl. splitAll; try done; [lia| |lia].
      apply (done_move _ _ _ c _ _ _ dst d); try done.
      + intros d' Hd'. by apply Ht1, Hall.
      + by rewrite (solve_visited _ _ _ _ _ Hi1).
      + by rewrite (solve_visited _ _ _ _ _ Hi1),
          (solve_parent _ _ _ _ _ Hi1). }
  assert (I (cur, Z.of_nat (cur mod width m), Z.of_nat (cur / width m),
             (dr, visited, parent, stack))) as HI0.
  { simpl. splitAll; try done. }
  assert (μ (cur, Z.of_nat (cur mod width m), Z.of_nat (cur / width m),
             (dr, visited, parent, stack)) < fuel) as Hμ.
  { simpl. pose proof (count_true_false visited).
    rewrite (solve_visited _ _ _ _ _ Hinv) in *. lia. }
  pose proof (loop_spec I Q (λ _, False) μ _ Hstep fuel _ HI0 Hμ) as Hloop.
  destruct (loop fuel _ _) as [[found [[[dr' vis'] par'] stk']]| | |];
    done.
Qed.

(** The search: it ends; the end cell has been reached, or the stack has
    run empty, which happens only when no walk of open steps leads from
    the start cell to the end cell. *)
Lemma solveParents_spec fuel m s e :
  1 ≤ width m → length (cells m) = width m * height m →
  startCellIndex m = Z.of_nat s → s < length (cells m) →
  endCellIndex m = Z.of_nat e →
  enoughFuel (length (cells m)) ≤ fuel →
  match solveParents fuel m with
  | Ok par => ∃ vis stk, solveInv m s vis par stk ∧ reached par s e
  | Err err => err = ErrSolve ∧ ¬ solvable m s e
  | _ => False
  end.
Proof.
  intros Hw Hlen Hs Hslt He Hfuel. unfold enoughFuel in Hfuel.
  unfold solveParents.
  destruct (Nat.eqb_spec (width m) 0) as [|_]; [lia|].
  rewrite Hs, He. unfold toIndex.
  destruct (Z.ltb_spec (Z.of_nat s) 0) as [|_]; [lia|]. simpl.
  rewrite Nat2Z.id.
  destruct (at_lt (map (λ c, state c =? 2) (cells m)) s) as [? ->];
    [by rewrite length_map|]. simpl.
  pose proof (solveInv_initial m s Hslt) as Hinv0.
  pose proof (done_initial m s e Hslt) as Hdone0.
  set (vis0 := <[s:=true]> _) in *.
  set (par0 := replicate _ _) in *.
  set (endCol := Z.rem _ _). set (endRow := Z.quot _ _).
  set (I := λ st : dfsState,
    let '(dr, vis, par, stk) := st in
    solveInv m s vis par stk ∧ length dr = 4 ∧
    doneInv m s e None vis par stk).
  set (Q := λ par : list Z,
    ∃ vis stk, solveInv m s vis par stk ∧ reached par s e).
  set (μ := λ st : dfsState,
    let '(_, vis, _, stk) := st in countFalse vis + length stk).
  assert (∀ st, I st →
            match dfsStep fuel m endCol endRow st with
            | Ok (inl st') => I st' ∧ μ st' < μ st
            | Ok (inr r) => Q r
            | Err err => err = ErrSolve ∧ ¬ solvable m s e
            | _ => False
            end) as Hstep.
  { intros [[[dr vis] par] stk] (Hinv & Hdr & Hdone). unfold dfsStep.
    destruct stk as [|cur stk].
    { split; [done|]. by eapply done_unsolvable. }
    destruct (Nat.eqb_spec (width m) 0) as [|_]; [lia|].
    destruct (solve_stack _ _ _ _ _ Hinv cur ltac:(left)) as [Hrc Hclt].
    destruct (_ && _)%Z eqn:Hend.
    { apply at_end_iff in Hend; [|done]. subst cur. by exists vis, (e :: stk). }
    assert (cur ≠ e) as Hce.
    { intros ->. apply not_true_iff_false in Hend. apply Hend.
      by apply at_end_iff. }
    assert (solveInv m s vis par stk) as Hinv'.
    { eapply solveInv_stack; [done|]. intros i Hi. by right. }
    pose proof (followLoop_spec fuel m s e cur dr vis par stk Hw Hlen Hinv'
                  Hrc Hclt Hdr (done_pop _ _ _ _ _ _ _ Hdone Hce) Hce
                  ltac:(lia)) as Hfollow.
    fold endCol endRow in Hfollow.
    destruct (loop fuel _ _) as [[found [[[dr' vis'] par'] stk']]| | |];
      try done. simpl.
    destruct Hfollow as (Hinv2 & Hdr2 & Hcount & Hfound & Hnot).
    destruct found; simpl.
    - exists vis', stk'. split; [done|]. by apply Hfound.
    - splitAll; [done|done|by apply Hnot|]. lia. }
  assert (I (replicate 4 0, vis0, par0, [s])) as HI0 by done.
  assert (μ (replicate 4 0, vis0, par0, [s]) < fuel) as Hμ.
  { simpl. pose proof (count_true_false vis0) as Hc.
    rewrite (solve_visited _ _ _ _ _ Hinv0) in Hc. lia. }
  pose proof (loop_spec I Q (λ err, err = ErrSolve ∧ ¬ solvable m s e) μ _
                Hstep fuel _ HI0 Hμ) as Hloop.
  by destruct (loop fuel _ _).
Qed.

(** *** Highlighting *)

Lemma highlight_trail parent s i l :
  trail parent s i l →
  ∀ fuel cs, length l < fuel → length cs = length parent →
    loop fuel (highlightStep parent) (Z.of_nat i, cs) = Ok (markAll l cs).
Proof.
  induction 1 as [Hp|i p l Hi Hp Ht IH]; intros fuel cs Hfuel Hlen.
  - destruct fuel as [|[|fuel]]; simpl in Hfuel; try lia.
    pose proof (lookup_lt_Some _ _ _ Hp) as Hs.
    destruct (at_lt cs s ltac:(lia)) as [c Hc].
    simpl. destruct (Z.ltb_spec (Z.of_nat s) 0) as [|_]; [lia|].
    rewrite Nat2Z.id, Hc, (at_lookup _ _ _ Hp). simpl. done.
  - destruct fuel as [|fuel]; simpl in Hfuel; try lia.
    pose proof (lookup_lt_Some _ _ _ Hp) as Hs.
    destruct (at_lt cs i ltac:(lia)) as [c Hc].
    simpl. destruct (Z.ltb_spec (Z.of_nat i) 0) as [|_]; [lia|].
    rewrite Nat2Z.id, Hc, (at_lookup _ _ _ Hp). simpl.
    apply IH; [lia|]. by rewrite length_alter.
Qed.

Lemma markAll_length l cs : length (markAll l cs) = length cs.
Proof.
  revert cs. induction l as [|i l IH]; intros cs; simpl; [done|].
  unfold markAll in *. simpl. by rewrite IH, length_alter.
Qed.

Lemma markAll_lookup l cs k c :
  cs !! k = Some c →
  markAll l cs !! k
  = Some (if decide (k ∈ l) then setCellState 1 c else c).
Proof.
  revert cs c. induction l as [|i l IH]; intros cs c Hk.
  - case_decide as Hin; [by apply elem_of_nil in Hin|done].
  - change (markAll (i :: l) cs)
      with (markAll l (alter (setCellState 1) i cs)).
    destruct (decide (k = i)) as [->|Hne].
    + rewrite (IH _ (setCellState 1 c))
        by by rewrite list_lookup_alter_eq, Hk.
      rewrite (decide_True (P := i ∈ i :: l)) by left.
      by destruct (decide (i ∈ l)).
    + rewrite (IH _ c) by by rewrite list_lookup_alter_ne.
      case_decide as Hin; case_decide as Hin'; try done.
      * exfalso. apply Hin'. by right.
      * apply elem_of_cons in Hin' as [?|?]; done.
Qed.

(** [ShowSolution(true)]: it ends; when it answers without error, the
    cells it marks are those of a list from the end cell back to the
    start cell along steps the solver may take. *)
Lemma ShowSolution_spec fuel m s e :
  1 ≤ width m → length (cells m) = width m * height m →
  startCellIndex m = Z.of_nat s → s < length (cells m) →
  endCellIndex m = Z.of_nat e →
  enoughFuel (length (cells m)) ≤ fuel →
  match ShowSolution fuel true m with
  | Ok m' =>
      ∃ l, m' = setCells (markAll l (cells m)) m ∧
           path (canStep m) s e (rev l) ∧ length l ≤ length (cells m) ∧
           ∀ x, x ∈ l → x = s ∨ ∃ c, cells m !! x = Some c ∧ state c ≠ 2
  | Err err => err = ErrSolve ∧ ¬ solvable m s e
  | _ => False
  end.
Proof.
  intros Hw Hlen Hs Hslt He Hfuel. unfold ShowSolution. simpl.
  pose proof (solveParents_spec fuel m s e Hw Hlen Hs Hslt He Hfuel) as Hsp.
  destruct (solveParents fuel m) as [par|err| |]; try done. simpl.
  destruct Hsp as (vis & stk & Hinv & Hre).
  destruct (solve_trail _ _ _ _ _ Hinv e Hre) as (l & Hl & Hlen').
  assert (length l ≤ length (cells m)) as Hll.
  { pose proof (count_true_false vis) as Hc.
    rewrite (solve_visited _ _ _ _ _ Hinv) in Hc. lia. }
  unfold enoughFuel in Hfuel.
  rewrite He, (highlight_trail par s e l Hl fuel (cells m));
    [|lia|by rewrite (solve_parent _ _ _ _ _ Hinv)].
  simpl. exists l. split; [done|].
  destruct (trail_path m s vis par stk e l Hinv Hl) as [Hpath Hnon].
  split; [by apply path_rev|]. by split.
Qed.

(** *** Steps of the solver and passages of the maze *)

(** With symmetric walls a step of the solver goes through a passage. *)
Lemma canStep_passage m u v :
  1 ≤ width m → length (cells m) = width m * height m →
  wallSymmetric m → canStep m u v → passage m u v.
Proof.
  intros Hw Hlen Hsym (cu & d & Hd & Hu & Hflag & Hin & ->).
  pose proof (lookup_lt_Some _ _ _ Hu) as Hult. rewrite Hlen in Hult.
  pose proof (target_lt _ _ u d Hw Hult Hd Hin) as Hvlt.
  rewrite <- Hlen in Hvlt.
  destruct (lookup_lt_is_Some_2 _ _ Hvlt) as [cv Hv].
  unfold passage, rightOpen, downOpen.
  do 4 (try destruct d as [|d]); try lia; simpl in *.
  - destruct (mod_pred _ u Hw Hin) as (Hu1 & Hmod & _).
    pose proof (Nat.mod_upper_bound u (width m) ltac:(lia)) as Hub.
    right; left. split; [lia|]. split; [lia|].
    exists cv, cu. replace (u - 1 + 1) with u by lia.
    splitAll; try done.
    destruct (Hsym (u - 1) cv cu Hv) as [Hr _]. rewrite Hr; [done|lia|].
    by replace (u - 1 + 1) with u by lia.
  - destruct (div_pred _ u Hw Hin) as (Hu1 & _ & _).
    do 3 right. split; [lia|].
    exists cv, cu. replace (u - width m + width m) with u by lia.
    splitAll; try done.
    destruct (Hsym (u - width m) cv cu Hv) as [_ Hb]. rewrite Hb; [done|].
    by replace (u - width m + width m) with u by lia.
  - left. split; [done|]. split; [done|].
    exists cu, cv. splitAll; try done.
    destruct (Hsym u cu cv Hu) as [Hr _]. by rewrite <- Hr.
  - right; right; left. split; [done|].
    exists cu, cv. splitAll; try done.
    destruct (Hsym u cu cv Hu) as [_ Hb]. by rewrite <- Hb.
Qed.


Lemma passage_canStep m u v :
  1 ≤ width m → length (cells m) = width m * height m →
  passage m u v → canStep m u v.
Proof.
  intros Hw Hlen.
  intros [[-> (Hm & cu & cv & Hu & Hv & Hr & Hl)]
         |[[-> (Hm & cu & cv & Hu & Hv & Hr & Hl)]
         |[[-> (cu & cv & Hu & Hv & Hb & Ht)]
         |[-> (cu & cv & Hu & Hv & Hb & Ht)]]]].
  - exists cu, 2. splitAll; [lia|done|exact Hr|exact Hm|done].
  - exists cv, 0. destruct (mod_succ _ v Hw Hm) as [Hmod _].
    splitAll; [lia|done|exact Hl|unfold inGrid; lia|unfold target; lia].
  - exists cu, 3.
    pose proof (lookup_lt_Some _ _ _ Hv) as Hlt. rewrite Hlen in Hlt.
    pose proof (index_row_lt (width m) (height m) (u + width m)
                  ltac:(lia) Hlt) as Hrow.
    destruct (div_succ _ u Hw) as [_ Hdiv].
    splitAll; [lia|done|exact Hb|unfold inGrid; lia|done].
  - exists cv, 1. destruct (div_succ _ v Hw) as [_ Hdiv].
    splitAll; [lia|done|exact Ht|unfold inGrid; lia|unfold target; lia].
Qed.

Lemma path_length_pos (E : nat → nat → Prop) u v p :
  path E u v p → 1 ≤ length p.
Proof. destruct 1; simpl; lia. Qed.


(** ** Template loader *)

Lemma classify_range c : colorToTemplateCellType c ≤ 3.
Proof.
  unfold colorToTemplateCellType.
  repeat match goal with |- context [if ?b then _ else _] => destruct b end;
    lia.
Qed.

Lemma classify_black c : colorToTemplateCellType c = 1 ↔ isBlack c.
Proof.
  unfold colorToTemplateCellType, isBlack, channel8.
  destruct (Z.eqb_spec (Z.shiftr (cR c) 8) 0);
    destruct (Z.eqb_spec (Z.shiftr (cG c) 8) 0);
    destruct (Z.eqb_spec (Z.shiftr (cB c) 8) 0); simpl;
    repeat match goal with |- context [if ?b then _ else _] => destruct b end;
    intuition (try discriminate; try lia).
Qed.

Lemma classify_green c : colorToTemplateCellType c = 2 ↔ isGreen c.
Proof.
  unfold colorToTemplateCellType, isGreen, channel8.
  destruct (Z.eqb_spec (Z.shiftr (cR c) 8) 0);
    destruct (Z.eqb_spec (Z.shiftr (cG c) 8) 0);
    destruct (Z.eqb_spec (Z.shiftr (cB c) 8) 0);
    destruct (Z.gtb_spec (Z.shiftr (cG c) 8) 200);
    destruct (Z.gtb_spec (Z.shiftr (cR c) 8) 200); simpl;
    repeat match goal with |- context [if ?b then _ else _] => destruct b end;
    intuition (try discriminate; try lia).
Qed.

Lemma classify_red c : colorToTemplateCellType c = 3 ↔ isRed c.
Proof.
  unfold colorToTemplateCellType, isRed, channel8.
  destruct (Z.eqb_spec (Z.shiftr (cR c) 8) 0);
    destruct (Z.eqb_spec (Z.shiftr (cG c) 8) 0);
    destruct (Z.eqb_spec (Z.shiftr (cB c) 8) 0);
    destruct (Z.gtb_spec (Z.shiftr (cG c) 8) 200);
    destruct (Z.gtb_spec (Z.shiftr (cR c) 8) 200); simpl;
    repeat match goal with |- context [if ?b then _ else _] => destruct b end;
    intuition (try discriminate; try lia).
Qed.

Lemma classify_normal c :
  colorToTemplateCellType c = 0 ↔ ¬ isBlack c ∧ ¬ isGreen c ∧ ¬ isRed c.
Proof.
  pose proof (classify_range c). pose proof (classify_black c).
  pose proof (classify_green c). pose proof (classify_red c).
  destruct (colorToTemplateCellType c) as [|[|[|[|?]]]];
    intuition (try discriminate; try lia).
Qed.

Lemma zrange_length lo hi : length (zrange lo hi) = Z.to_nat (hi - lo).
Proof. unfold zrange. by rewrite length_map, length_seq. Qed.

Lemma zrange_elem lo hi z : z ∈ zrange lo hi ↔ (lo ≤ z < hi)%Z.
Proof.
  unfold zrange. rewrite list_elem_of_In, in_map_iff. split.
  - intros (k & <- & Hk). apply in_seq in Hk. lia.
  - intros Hz. exists (Z.to_nat (z - lo)). split; [lia|].
    apply in_seq. lia.
Qed.

(** One row of pixels: the counter moves on by the length of the row, or
    a pixel of the row is of no recognized type. *)
Lemma templateRow_spec classify pic row cols k cs a b :
  k + length cols ≤ length cs →
  match foldM (templatePixel classify pic row) cols (k, (cs, a, b)) with
  | Ok (k', (cs', _, _)) =>
      k' = k + length cols ∧ length cs' = length cs ∧
      ∀ col, col ∈ cols → classify (At pic col row) ≤ 3
  | Err e =>
      ∃ col, col ∈ cols ∧ 3 < classify (At pic col row) ∧
             e = ErrTemplatePixel (classify (At pic col row))
  | _ => False
  end.
Proof.
  revert k cs a b. induction cols as [|col cols IH]; intros k cs a b Hk.
  - simpl. splitAll; [lia|done|]. by intros col ?%elem_of_nil.
  - simpl in Hk. cbn [foldM]. unfold templatePixel at 1.
    assert (∀ cs' a' b',
      length cs' = length cs →
      match foldM (templatePixel classify pic row) cols
              (k + 1, (cs', a', b')) with
      | Ok (k', (cs'', _, _)) =>
          k' = k + S (length cols) ∧ length cs'' = length cs ∧
          (classify (At pic col row) ≤ 3 →
           ∀ c, c ∈ col :: cols → classify (At pic c row) ≤ 3)
      | Err e =>
          ∃ c, c ∈ col :: cols ∧ 3 < classify (At pic c row) ∧
               e = ErrTemplatePixel (classify (At pic c row))
      | _ => False
      end) as Hrest.
    { intros cs' a' b' Hlen.
      pose proof (IH (k + 1) cs' a' b' ltac:(lia)) as Hi.
      destruct (foldM _ cols _) as [[k' [[cs'' ?] ?]]|e| |]; try done.
      - destruct Hi as (-> & Hl & Hall). splitAll; [lia|congruence|].
        intros Hc c [->|Hin]%elem_of_cons; [done|by apply Hall].
      - destruct Hi as (c & Hin & Hc & ->). exists c.
        split; [by right|done]. }
    destruct (classify (At pic col row)) as [|[|[|[|t]]]] eqn:Ht; simpl.
    + specialize (Hrest cs a b eq_refl).
      destruct (foldM _ cols _) as [[k' [[cs'' ?] ?]]|e| |]; try done.
      destruct Hrest as (? & ? & Hall). splitAll; [done|done|].
      apply Hall. lia.
    + destruct (at_lt cs k ltac:(lia)) as [c ->]. simpl.
      specialize (Hrest (alter (setCellState 2) k cs) a b
                    ltac:(by rewrite length_alter)).
      destruct (foldM _ cols _) as [[k' [[cs'' ?] ?]]|e| |]; try done.
      destruct Hrest as (? & ? & Hall). splitAll; [done|done|].
      apply Hall. lia.
    + specialize (Hrest cs (a ++ [k]) b eq_refl).
      destruct (foldM _ cols _) as [[k' [[cs'' ?] ?]]|e| |]; try done.
      destruct Hrest as (? & ? & Hall). splitAll; [done|done|].
      apply Hall. lia.
    + specialize (Hrest cs a (b ++ [k]) eq_refl).
      destruct (foldM _ cols _) as [[k' [[cs'' ?] ?]]|e| |]; try done.
      destruct Hrest as (? & ? & Hall). splitAll; [done|done|].
      apply Hall. lia.
    + exists col. rewrite Ht. split; [left|]. split; [lia|done].
Qed.

Lemma templateRows_spec classify pic rows cols k cs a b :
  k + length rows * length cols ≤ length cs →
  match foldM (λ st row, foldM (templatePixel classify pic row) cols st)
          rows (k, (cs, a, b)) with
  | Ok (k', (cs', _, _)) =>
      k' = k + length rows * length cols ∧ length cs' = length cs ∧
      ∀ row col, row ∈ rows → col ∈ cols → classify (At pic col row) ≤ 3
  | Err e =>
      ∃ row col, row ∈ rows ∧ col ∈ cols ∧ 3 < classify (At pic col row) ∧
                 e = ErrTemplatePixel (classify (At pic col row))
  | _ => False
  end.
Proof.
  revert k cs a b. induction rows as [|row rows IH]; intros k cs a b Hk.
  - simpl. splitAll; [lia|done|]. by intros row col ?%elem_of_nil.
  - simpl in Hk. cbn [foldM].
    pose proof (templateRow_spec classify pic row cols k cs a b ltac:(lia))
      as Hrow.
    destruct (foldM _ cols _) as [[k1 [[cs1 a1] b1]]|e| |]; try done; simpl.
    + destruct Hrow as (-> & Hl1 & Hall1).
      pose proof (IH (k + length cols) cs1 a1 b1 ltac:(lia)) as Hi.
      destruct (foldM _ rows _) as [[k2 [[cs2 ?] ?]]|e| |]; try done.
      * destruct Hi as (-> & Hl2 & Hall2).
        splitAll; [simpl; lia|congruence|].
        intros r c [->|Hr]%elem_of_cons Hc; [by apply Hall1|by apply Hall2].
      * destruct Hi as (r & c & Hr & Hc & Ht & ->).
        exists r, c. split; [by right|done].
    + destruct Hrow as (c & Hc & Ht & ->).
      exists row, c. split; [left|done].
Qed.

Lemma allocateMaze_spec w h :
  (1 ≤ w)%Z → (1 ≤ h)%Z → (w * h < 2 ^ 63)%Z →
  allocateMaze w h
  = Ok (Maze (Z.to_nat w) (Z.to_nat h)
          (replicate (Z.to_nat w * Z.to_nat h) zeroCell) (-1) (-1) [] 0).
Proof.
  intros Hw Hh Hwh. unfold allocateMaze.
  destruct (Z.ltb_spec w 1); [lia|]. destruct (Z.ltb_spec h 1); [lia|].
  simpl. rewrite wrap64_small by nia.
  destruct (Z.leb_spec (w * h) 0); [nia|].
  by rewrite Z2Nat.inj_mul by lia.
Qed.

Lemma allocateMaze_valid w h m :
  (1 ≤ w)%Z → (1 ≤ h)%Z → (w * h < 2 ^ 63)%Z →
  allocateMaze w h = Ok m →
  valid m ∧ startCellIndex m = (-1)%Z ∧
  ∀ i c, cells m !! i = Some c → c = zeroCell.
Proof.
  intros Hw Hh Hwh. rewrite allocateMaze_spec by done. intros [= <-].
  split; [|split; [done|]].
  - split; simpl; [lia|lia| |done]. by rewrite length_replicate.
  - simpl. by intros i c [-> _]%lookup_replicate.
Qed.

Section TemplateProofs.

Context `{Rand}.

(** A pixel whose type is none of the four makes the loader fail. *)
Lemma newFromTemplate_unrecognised classify fuel now pic seed col row :
  fitsInt pic → inBounds pic col row → 3 < classify (At pic col row) →
  ∃ t, 3 < t ∧
       newFromTemplate classify fuel now pic seed = Err (ErrTemplatePixel t).
Proof.
  intros (Hx & Hy & Hfit) [Hcol Hrow] Ht. unfold newFromTemplate.
  rewrite allocateMaze_spec by lia. simpl.
  pose proof (templateRows_spec classify pic
                (zrange (minY pic) (maxY pic)) (zrange (minX pic) (maxX pic))
                0 (replicate (Z.to_nat (maxX pic - minX pic)
                              * Z.to_nat (maxY pic - minY pic)) zeroCell)
                [] []) as Hrows.
  rewrite !zrange_length, length_replicate in Hrows.
  specialize (Hrows ltac:(lia)).
  destruct (foldM _ _ _) as [[k [[cs a] b]]|e| |]; try done.
  - destruct Hrows as (_ & _ & Hall).
    specialize (Hall row col ltac:(by apply zrange_elem)
                  ltac:(by apply zrange_elem)). lia.
  - destruct Hrows as (r & c & _ & _ & Hc & ->). by eexists.
Qed.

End TemplateProofs.

Lemma foldM_Err {A B} (f : B → A → result B) (l : list A) (b : B) e :
  foldM f l b = Err e → ∃ a b', a ∈ l ∧ f b' a = Err e.
Proof.
  revert b. induction l as [|a l IH]; intros b; simpl; [done|].
  destruct (f b a) as [b1|e1| |] eqn:Hf; simpl; try done.
  - intros (a' & b' & Hin & He)%IH. exists a', b'. split; [by right|done].
  - intros [= ->]. exists a, b. split; [left|done].
Qed.

Lemma templatePixel_Err classify pic row st col e :
  templatePixel classify pic row st col = Err e →
  3 < classify (At pic col row) ∧
  e = ErrTemplatePixel (classify (At pic col row)).
Proof.
  destruct st as [k [[cs a] b]]. unfold templatePixel, templateCell.
  destruct (classify (At pic col row)) as [|[|[|[|t]]]]; simpl;
    try discriminate.
  - unfold at_. by destruct (cs !! k).
  - intros [= <-]. split; [lia|done].
Qed.

Section TemplateErrors.

Context `{Rand}.

(** With the classifier of the repository the loader never meets a pixel
    it does not recognize. *)
Lemma NewGridMazeFromTemplate_recognises fuel now pic seed t :
  NewGridMazeFromTemplate fuel now pic seed ≠ Err (ErrTemplatePixel t).
Proof.
  unfold NewGridMazeFromTemplate, newFromTemplate.
  destruct (allocateMaze _ _) as [m|e| |] eqn:Ha; simpl; try done.
  2:{ unfold allocateMaze in Ha.
    destruct (_ || _)%bool; [by inversion Ha|]. cbv zeta in Ha.
    destruct (_ <=? _)%Z; by inversion Ha. }
  destruct (foldM _ _ _) as [[k [[cs a] b]]|e| |] eqn:Hf; simpl; try done.
  2:{ apply foldM_Err in Hf as (row & st & _ & Hf).
      apply foldM_Err in Hf as (col & st' & _ & Hf).
      apply templatePixel_Err in Hf as [Hlt _].
      pose proof (classify_range (At pic col row)). lia. }
  unfold mbind, result_bind, bind, rngIntn, at_, wrapErr.
  repeat match goal with
         | |- context [match ?x with _ => _ end] =>
             lazymatch x with
             | context [match _ with _ => _ end] => fail
             | _ => destruct x; try discriminate
             end
         end.
Qed.

End TemplateErrors.

(** ** Consequences for the exported methods *)

Lemma erodeTimes_sym k m :
  1 ≤ width m → length (cells m) = width m * height m → wallSymmetric m →
  ∃ m', erodeTimes k m = Ok m' ∧ wallSymmetric m'.
Proof.
  revert m. induction k as [|k IH]; intros m Hw Hlen Hsym; simpl.
  - by exists m.
  - rewrite ErodeWalls_spec by done. simpl. apply IH; simpl; try done.
    + by rewrite erodeSpec_length.
    + by apply erodeSpec_sym.
Qed.

Lemma erodeTimes_inert k m :
  1 ≤ width m → length (cells m) = width m * height m →
  wallSymmetric m → excludedWalled m →
  ∃ m', erodeTimes k m = Ok m' ∧ wallSymmetric m' ∧ excludedWalled m' ∧
        sameFrame m m' ∧ sameEnds m m' ∧
        length (cells m') = length (cells m) ∧
        ∀ i c, cells m !! i = Some c → state c = 2 → cells m' !! i = Some c.
Proof.
  revert m. induction k as [|k IH]; intros m Hw Hlen Hsym Hex; simpl.
  - exists m. by splitAll.
  - destruct (ErodeWalls_inert m Hw Hlen Hsym Hex)
      as (m1 & -> & Hsym1 & Hex1 & Hfr1 & Hends1 & _ & Hlen1 & Hkeep1).
    simpl. pose proof Hfr1 as (Hw1 & Hh1 & _).
    destruct (IH m1 ltac:(lia) ltac:(congruence) Hsym1 Hex1)
      as (m2 & -> & Hsym2 & Hex2 & Hfr2 & Hends2 & Hlen2 & Hkeep2).
    exists m2. splitAll; try done.
    + by eapply sameFrame_trans.
    + by eapply sameEnds_trans.
    + congruence.
    + intros i c Hi Hs. apply Hkeep2; auto.
Qed.

Lemma passage_freeStep m u v :
  excludedWalled m → passage m u v → freeStep m u v.
Proof.
  intros Hex Hp.
  assert (∀ i c d, cells m !! i = Some c → flag c d = false → free m i)
    as Hfree.
  { intros i c d Hi Hf. exists c. split; [done|]. intros Hs.
    pose proof (Hex i c Hi Hs) as Hwalls.
    destruct d as [|[|[|?]]]; simpl in Hf; by rewrite Hwalls in Hf. }
  destruct Hp as [[-> (Hm & cu & cv & Hu & Hv & Hr & Hl)]
                 |[[-> (Hm & cu & cv & Hu & Hv & Hr & Hl)]
                 |[[-> (cu & cv & Hu & Hv & Hb & Ht)]
                 |[-> (cu & cv & Hu & Hv & Hb & Ht)]]]].
  - split; [by left|].
    split; [by apply (Hfree _ cu 2)|by apply (Hfree _ cv 0)].
  - split; [by right; left|].
    split; [by apply (Hfree _ cv 0)|by apply (Hfree _ cu 2)].
  - split; [by right; right; left|].
    split; [by apply (Hfree _ cu 3)|by apply (Hfree _ cv 1)].
  - split; [by right; right; right|].
    split; [by apply (Hfree _ cv 1)|by apply (Hfree _ cu 3)].
Qed.

Lemma free_states m u : free m u ↔ ∃ s, states m !! u = Some s ∧ s ≠ 2.
Proof.
  unfold free. split.
  - intros (c & Hc & Hs). exists (state c). split; [by apply states_cell|done].
  - intros (s & (c & Hc & <-)%states_lookup & Hs). by exists c.
Qed.

Lemma freeStep_frame m m' u v :
  sameFrame m m' → freeStep m' u v → freeStep m u v.
Proof.
  intros (Hw & _ & Hst) (Hadj & Hu & Hv). unfold freeStep, adjacent in *.
  rewrite Hw in Hadj. split; [done|].
  rewrite !free_states in *. by rewrite <- Hst.
Qed.

Lemma validEnds_cells m :
  validEnds m →
  startCellIndex m = Z.of_nat (startCell m) ∧
  startCell m < length (cells m) ∧
  endCellIndex m = Z.of_nat (endCell m) ∧
  endCell m < length (cells m).
Proof. unfold validEnds, startCell, endCell. lia. Qed.

(** [ShowSolution(true)] on a grid with its two ends. *)
Lemma ShowSolution_ends fuel m :
  1 ≤ width m → length (cells m) = width m * height m → validEnds m →
  enoughFuel (length (cells m)) ≤ fuel →
  match ShowSolution fuel true m with
  | Ok m' =>
      ∃ l, m' = setCells (markAll l (cells m)) m ∧
           path (canStep m) (startCell m) (endCell m) (rev l) ∧
           length l ≤ length (cells m) ∧
           ∀ x, x ∈ l → x = startCell m ∨ free m x
  | Err err => err = ErrSolve ∧ ¬ solvable m (startCell m) (endCell m)
  | _ => False
  end.
Proof.
  intros Hw Hlen (Hs & Hslt & He & _)%validEnds_cells Hfuel.
  apply ShowSolution_spec; done.
Qed.

Lemma free_frame m m' u : sameFrame m m' → free m' u ↔ free m u.
Proof. intros (_ & _ & Hst). rewrite !free_states. by rewrite Hst. Qed.

Lemma sameEnds_cells m m' :
  sameEnds m m' → startCell m' = startCell m ∧ endCell m' = endCell m.
Proof. intros [Hs He]. unfold startCell, endCell. by rewrite Hs, He. Qed.

Lemma sameFrame_length m m' :
  sameFrame m m' → length (cells m') = length (cells m).
Proof.
  intros (_ & _ & Hst). unfold states in Hst.
  apply (f_equal length) in Hst. by rewrite !length_map in Hst.
Qed.

Lemma validEnds_frame m m' :
  sameFrame m m' → sameEnds m m' → validEnds m → validEnds m'.
Proof.
  intros Hfr [Hs He]. unfold validEnds.
  by rewrite Hs, He, (sameFrame_length _ _ Hfr).
Qed.

Lemma separated_frame m m' :
  sameFrame m m' → sameEnds m m' → separated m → separated m'.
Proof.
  intros Hfr Hends Hsep p Hp. apply (Hsep p).
  destruct (sameEnds_cells _ _ Hends) as [<- <-].
  eapply path_mono; [|done]. intros x y. by apply freeStep_frame.
Qed.

Lemma markAll_walls l cs i c' :
  markAll l cs !! i = Some c' →
  ∃ c, cs !! i = Some c ∧ walls c' = walls c ∧ djSet c' = djSet c ∧
       c' = if decide (i ∈ l) then setCellState 1 c else c.
Proof.
  intros Hi. pose proof (lookup_lt_Some _ _ _ Hi) as Hlt.
  rewrite markAll_length in Hlt.
  destruct (lookup_lt_is_Some_2 _ _ Hlt) as [c Hc].
  rewrite (markAll_lookup l cs i c Hc) in Hi. injection Hi as <-.
  exists c. by destruct (decide (i ∈ l)).
Qed.

Lemma passage_markAll m l u v :
  passage m u v → passage (setCells (markAll l (cells m)) m) u v.
Proof.
  assert (∀ i c, cells m !! i = Some c →
            ∃ c', markAll l (cells m) !! i = Some c' ∧ walls c' = walls c)
    as Hw.
  { intros i c Hc. rewrite (markAll_lookup l _ i c Hc).
    eexists. split; [done|]. by destruct (decide (i ∈ l)). }
  unfold passage, rightOpen, downOpen. simpl.
  intros [[-> (Hm & cu & cv & Hu & Hv & Hr & Hl)]
         |[[-> (Hm & cu & cv & Hu & Hv & Hr & Hl)]
         |[[-> (cu & cv & Hu & Hv & Hb & Ht)]
         |[-> (cu & cv & Hu & Hv & Hb & Ht)]]]];
    destruct (Hw _ _ Hu) as (cu' & Hu' & Hwu);
    destruct (Hw _ _ Hv) as (cv' & Hv' & Hwv).
  - left. split; [done|]. split; [done|]. exists cu', cv'.
    splitAll; congruence.
  - right; left. split; [done|]. split; [done|]. exists cu', cv'.
    splitAll; congruence.
  - right; right; left. split; [done|]. exists cu', cv'.
    splitAll; congruence.
  - right; right; right. split; [done|]. exists cu', cv'.
    splitAll; congruence.
Qed.

(** Every passage is an open step of the solver, on a grid whose excluded
    cells are walled in. *)
Lemma passage_openStep m u v :
  1 ≤ width m → length (cells m) = width m * height m →
  excludedWalled m → passage m u v → openStep m u v.
Proof.
  intros Hw Hlen Hex Hp. split; [by apply passage_canStep|].
  destruct (passage_freeStep m u v Hex Hp) as (_ & _ & (c & Hc & Hs)).
  intros (c' & Hc' & Hs'). congruence.
Qed.

Lemma passage_solvable m s e p :
  1 ≤ width m → length (cells m) = width m * height m →
  excludedWalled m → path (passage m) s e p → solvable m s e.
Proof.
  intros Hw Hlen Hex Hp. exists p. eapply path_mono; [|done].
  intros x y. by apply passage_openStep.
Qed.


(** * The properties of the specification *)

Lemma grid2x2_valid : valid grid2x2.
Proof. split; simpl; try lia; done. Qed.

Lemma grid2x2_allNormal : allNormal grid2x2.
Proof. by intros i c [-> _]%lookup_replicate. Qed.

Lemma allNormal_noExclusions m : allNormal m → noExclusions m.
Proof.
  intros Hn i s (c & Hc & <-)%states_lookup. by rewrite (Hn i c Hc).
Qed.

Lemma sameFrame_cellCount m m' : sameFrame m m' → cellCount m' = cellCount m.
Proof.
  intros (_ & _ & Hst). unfold cellCount, states in *.
  apply (f_equal length) in Hst. by rewrite !length_map in Hst.
Qed.

Lemma sameFrame_noExclusions m m' :
  sameFrame m m' → noExclusions m → noExclusions m'.
Proof. intros (_ & _ & Hst) Hno i s. rewrite Hst. apply Hno. Qed.

(** ** Spanning tree *)

(** C1.  On a grid without excluded cells [RegenerateFromSeed] returns
    without error, whatever the seed and the random source, and leaves a
    spanning tree: any two cells are joined by exactly one simple path
    along adjacent cells whose common wall is cleared. *)
Theorem C1_spanning_tree `{Rand} (fuel : nat) (seed : Z) (m : GridMaze) :
  valid m → noExclusions m → enoughFuel (cellCount m) ≤ fuel →
  ∃ m', RegenerateFromSeed fuel seed m = Ok m' ∧
        cellCount m' = cellCount m ∧
        ∀ u v, u < cellCount m' → v < cellCount m' →
          ∃ p, simplePath (passage m') u v p ∧
               ∀ q, simplePath (passage m') u v q → q = p.
Proof.
  intros Hvalid Hno Hfuel.
  destruct (RegenerateFromSeed_spec fuel seed m Hvalid Hfuel)
    as (m' & h' & Hrun & Hinv & Hvalid' & Hfr & _).
  exists m'. split; [done|]. split; [by apply sameFrame_cellCount|].
  apply (spanning_tree m' h' Hinv (valid_neighbors _ Hvalid')).
  by eapply sameFrame_noExclusions.
Qed.

Lemma C1_spanning_tree_witness :
  valid grid2x2 ∧ noExclusions grid2x2 ∧
  ∃ m', @RegenerateFromSeed lcg 10 1 grid2x2 = Ok m' ∧
        cellCount m' = cellCount grid2x2 ∧
        ∀ u v, u < cellCount m' → v < cellCount m' →
          ∃ p, simplePath (passage m') u v p ∧
               ∀ q, simplePath (passage m') u v q → q = p.
Proof.
  split; [exact grid2x2_valid|].
  split; [exact (allNormal_noExclusions _ grid2x2_allNormal)|].
  apply (@C1_spanning_tree lcg 10 1 grid2x2).
  - exact grid2x2_valid.
  - exact (allNormal_noExclusions _ grid2x2_allNormal).
  - vm_compute. lia.
Defined.

(** ** What regeneration keeps *)

Lemma marked2x2_valid : valid marked2x2.
Proof. split; simpl; try lia; done. Qed.

(** C10.  [RegenerateFromSeed] leaves the state of every cell as it was:
    the list of states is the same after the call, so a cell that was
    normal, on the solution path or excluded still is; in particular the
    marks of an earlier [ShowSolution(true)] are still there. *)
Theorem C10_states_kept `{Rand} (fuel : nat) (seed : Z) (m : GridMaze) :
  valid m → enoughFuel (cellCount m) ≤ fuel →
  ∃ m', RegenerateFromSeed fuel seed m = Ok m' ∧
        states m' = states m ∧
        ∀ i c, cells m !! i = Some c → state c = 1 →
          ∃ c', cells m' !! i = Some c' ∧ state c' = 1.
Proof.
  intros Hvalid Hfuel.
  destruct (RegenerateFromSeed_spec fuel seed m Hvalid Hfuel)
    as (m' & h' & Hrun & _ & _ & (_ & _ & Hst) & _).
  exists m'. splitAll; [done|done|].
  intros i c Hc Hs. apply states_lookup. rewrite Hst, <- Hs.
  by apply states_cell.
Qed.

Lemma C10_states_kept_witness :
  valid marked2x2 ∧
  ∃ m', @RegenerateFromSeed lcg 10 1 marked2x2 = Ok m' ∧
        states m' = states marked2x2 ∧
        ∀ i c, cells marked2x2 !! i = Some c → state c = 1 →
          ∃ c', cells m' !! i = Some c' ∧ state c' = 1.
Proof.
  split; [exact marked2x2_valid|].
  apply (@C10_states_kept lcg 10 1 marked2x2).
  - exact marked2x2_valid.
  - vm_compute. lia.
Defined.

(** ** Termination *)

(** C9.  On a valid grid, whatever its exclusions, the seed and the
    random source, [RegenerateFromSeed] ends and returns the grid; on a
    valid grid with a start and an end cell [ShowSolution] ends, with the
    grid or with its error.  No loop of either makes more rounds than
    [enoughFuel] of the cell count, that is, twice the cell count plus
    two: with that much fuel none of them runs out. *)
Theorem C9_termination `{Rand} (fuel : nat) (seed : Z) (show : bool)
    (m : GridMaze) :
  valid m → enoughFuel (cellCount m) ≤ fuel →
  (∃ m', RegenerateFromSeed fuel seed m = Ok m') ∧
  (validEnds m →
   (∃ m', ShowSolution fuel show m = Ok m') ∨
   ShowSolution fuel show m = Err ErrSolve).
Proof.
  intros Hvalid Hfuel. split.
  - destruct (RegenerateFromSeed_spec fuel seed m Hvalid Hfuel)
      as (m' & h' & Hrun & _). by exists m'.
  - intros Hends. destruct show.
    + pose proof (ShowSolution_ends fuel m (valid_width _ Hvalid)
                    (valid_cells _ Hvalid) Hends Hfuel) as Hsolve.
      destruct (ShowSolution fuel true m) as [m'|e| |]; try done.
      * left. by exists m'.
      * right. by destruct Hsolve as [-> _].
    + left. by eexists.
Qed.

Lemma C9_termination_witness :
  valid marked2x2 ∧ validEnds marked2x2 ∧
  (∃ m', @RegenerateFromSeed lcg 10 1 marked2x2 = Ok m') ∧
  ((∃ m', ShowSolution 10 true marked2x2 = Ok m') ∨
   ShowSolution 10 true marked2x2 = Err ErrSolve).
Proof.
  assert (validEnds marked2x2) as Hends by (vm_compute; repeat split; congruence).
  split; [exact marked2x2_valid|]. split; [exact Hends|].
  destruct (@C9_termination lcg 10 1 true marked2x2 marked2x2_valid
              ltac:(vm_compute; lia)) as [Hgen Hsolve].
  split; [exact Hgen|exact (Hsolve Hends)].
Defined.

(** ** Wall symmetry *)

(** C6.  After [RegenerateFromSeed] the walls are symmetric: for any two
    adjacent cells the wall between them is set on the one exactly when
    it is set on the other, right against left and bottom against top;
    and they still are after every further call of [ErodeWalls]. *)
Theorem C6_wall_symmetry `{Rand} (fuel : nat) (seed : Z) (m : GridMaze) :
  valid m → enoughFuel (cellCount m) ≤ fuel →
  ∃ m1, RegenerateFromSeed fuel seed m = Ok m1 ∧ wallSymmetric m1 ∧
        ∀ k, ∃ m2, erodeTimes k m1 = Ok m2 ∧ wallSymmetric m2.
Proof.
  intros Hvalid Hfuel.
  destruct (RegenerateFromSeed_spec fuel seed m Hvalid Hfuel)
    as (m1 & h1 & Hrun & [Hgrid _] & Hvalid1 & _).
  exists m1. split; [done|]. split; [exact (grid_sym _ _ Hgrid)|].
  intros k. apply erodeTimes_sym.
  - exact (valid_width _ Hvalid1).
  - exact (valid_cells _ Hvalid1).
  - exact (grid_sym _ _ Hgrid).
Qed.

Lemma C6_wall_symmetry_witness :
  valid grid2x2 ∧
  ∃ m1, @RegenerateFromSeed lcg 10 1 grid2x2 = Ok m1 ∧ wallSymmetric m1 ∧
        ∀ k, ∃ m2, erodeTimes k m1 = Ok m2 ∧ wallSymmetric m2.
Proof.
  split; [exact grid2x2_valid|].
  apply (@C6_wall_symmetry lcg 10 1 grid2x2).
  - exact grid2x2_valid.
  - vm_compute. lia.
Defined.

(** ** Erosion *)

(** The claim C5 as it is written fails in its last clause: a segment
    lies between two corners, and a corner with two segments present
    does not protect them.  On the 3x3 grid generated with seed 2 the
    corner of cell 0 has two segments present, the right wall of cell 0
    and the top wall of cell 4; the top wall of cell 4 is also the bottom
    wall of cell 1, the only segment present at the corner of cell 1,
    and [ErodeWalls] clears it. *)
Lemma C5_counterexample :
  ∃ m m',
    @RegenerateFromSeed lcg 20 2 grid3x3 = Ok m ∧
    ErodeWalls m = Ok m' ∧
    List.filter (segmentSet (cells m)) (cornerSegments 3 0)
    = [(0, 2); (4, 1)] ∧
    List.filter (segmentSet (cells m)) (cornerSegments 3 1) = [(1, 3)] ∧
    segmentSet (cells m) (4, 1) = true ∧
    segmentSet (cells m') (4, 1) = false.
Proof.
  eexists _, _. split; [vm_compute; reflexivity|].
  split; [vm_compute; reflexivity|]. by repeat split.
Qed.

(** C5, amended.  One call of [ErodeWalls] is one pass of the corner rule
    over the bottom-right corners of the cells that are not on the
    bottom row or on the right column, every corner judged on the walls
    as they were before the call: the four segments of a corner are the
    right and bottom walls of its cell and the left and top walls of the
    cell diagonally below-right; at a corner where a segment is the only
    one of the four present it is cleared on both cells that share it,
    and at a corner with zero, two, three or four segments present
    nothing is cleared.  Wall by wall: a flag is set afterwards exactly
    when it was set before and no corner of the pass has it, seen from
    either of its two cells, as its only segment present; states are
    untouched. *)
Theorem C5_erode_corners (m : GridMaze) :
  1 ≤ width m → length (cells m) = width m * height m →
  ∃ m', ErodeWalls m = Ok m' ∧
        m' = setCells (erodeSpec (width m) (height m) (cells m) (cells m)) m ∧
        ∀ k c, cells m !! k = Some c →
          ∃ c', cells m' !! k = Some c' ∧
                state c' = state c ∧ djSet c' = djSet c ∧
                ∀ d, d ≤ 3 →
                  flag c' d
                  = flag c d &&
                    negb (existsb (λ idx, erodes (width m) (cells m) idx k d)
                            (corners (width m) (height m))).
Proof. apply ErodeWalls_flags. Qed.

Lemma C5_erode_corners_witness :
  ErodeWalls stubGrid = Ok (setCells (replicate 4 zeroCell) stubGrid) ∧
  ∃ m', ErodeWalls stubGrid = Ok m' ∧
        m' = setCells (erodeSpec 2 2 (cells stubGrid) (cells stubGrid))
               stubGrid ∧
        ∀ k c, cells stubGrid !! k = Some c →
          ∃ c', cells m' !! k = Some c' ∧
                state c' = state c ∧ djSet c' = djSet c ∧
                ∀ d, d ≤ 3 →
                  flag c' d
                  = flag c d &&
                    negb (existsb (λ idx, erodes 2 (cells stubGrid) idx k d)
                            (corners 2 2)).
Proof.
  split; [reflexivity|].
  apply (C5_erode_corners stubGrid); [simpl; lia|reflexivity].
Defined.

(** ** The ranking of directions *)

Lemma betterHorizontal_spec colDiff :
  let h := betterHorizontal colDiff in
  (h = 0 ∨ h = 2) ∧
  (colDiff ≠ 0%Z → (Z.abs (colDiff - colStep h) < Z.abs colDiff)%Z) ∧
  (colDiff = 0%Z → h = 0).
Proof.
  unfold betterHorizontal. destruct (Z.ltb_spec 0 colDiff); simpl; lia.
Qed.

Lemma betterVertical_spec rowDiff :
  let v := betterVertical rowDiff in
  (v = 1 ∨ v = 3) ∧
  (rowDiff ≠ 0%Z → (Z.abs (rowDiff - rowStep v) < Z.abs rowDiff)%Z) ∧
  (rowDiff = 0%Z → v = 1).
Proof.
  unfold betterVertical. destruct (Z.ltb_spec 0 rowDiff); simpl; lia.
Qed.

(** C7.  The ranking that [setDirRanking] writes for a current and a
    target position: with [h] and [v] the better horizontal and the
    better vertical move, it is [v], [h], the opposite of [h], the
    opposite of [v] when the row offset is larger in magnitude than the
    column offset, and [h], [v], the opposite of [v], the opposite of [h]
    otherwise.  The better move of an axis is the one that reduces the
    offset on that axis; when that offset is zero it is left (0), resp.
    up (1). *)
Theorem C7_direction_ranking (currentCol currentRow targetCol targetRow : Z)
    (dirRanking : list nat) :
  coordinate currentCol → coordinate currentRow →
  coordinate targetCol → coordinate targetRow →
  length dirRanking = 4 →
  let colDiff := (targetCol - currentCol)%Z in
  let rowDiff := (targetRow - currentRow)%Z in
  ∃ h v,
    setDirRanking currentCol currentRow targetCol targetRow dirRanking
    = (if (Z.abs colDiff <? Z.abs rowDiff)%Z
       then [v; h; opposite h; opposite v]
       else [h; v; opposite v; opposite h]) ∧
    (h = 0 ∨ h = 2) ∧ (v = 1 ∨ v = 3) ∧
    (colDiff ≠ 0%Z → (Z.abs (colDiff - colStep h) < Z.abs colDiff)%Z) ∧
    (colDiff = 0%Z → h = 0) ∧
    (rowDiff ≠ 0%Z → (Z.abs (rowDiff - rowStep v) < Z.abs rowDiff)%Z) ∧
    (rowDiff = 0%Z → v = 1).
Proof.
  intros Hcc Hcr Htc Htr Hlen colDiff rowDiff.
  exists (betterHorizontal colDiff), (betterVertical rowDiff).
  destruct (betterHorizontal_spec colDiff) as (Hh & Hh1 & Hh2).
  destruct (betterVertical_spec rowDiff) as (Hv & Hv1 & Hv2).
  splitAll; try done.
  by rewrite setDirRanking_spec.
Qed.

Lemma C7_direction_ranking_witness :
  ∃ h v,
    setDirRanking 1 1 4 6 [0; 0; 0; 0]
    = (if (Z.abs (4 - 1) <? Z.abs (6 - 1))%Z
       then [v; h; opposite h; opposite v]
       else [h; v; opposite v; opposite h]) ∧
    (h = 0 ∨ h = 2) ∧ (v = 1 ∨ v = 3) ∧
    ((4 - 1)%Z ≠ 0%Z → (Z.abs (4 - 1 - colStep h) < Z.abs (4 - 1))%Z) ∧
    ((4 - 1)%Z = 0%Z → h = 0) ∧
    ((6 - 1)%Z ≠ 0%Z → (Z.abs (6 - 1 - rowStep v) < Z.abs (6 - 1))%Z) ∧
    ((6 - 1)%Z = 0%Z → v = 1).
Proof.
  apply (C7_direction_ranking 1 1 4 6 [0; 0; 0; 0]);
    first [reflexivity | unfold coordinate; lia].
Defined.

(** ** Template pixels *)

(** C8.  Every pixel of a template gets exactly one of the four types
    from [colorToTemplateCellType]: excluded (1) when it is black, start
    candidate (2) when it is green, end candidate (3) when it is red,
    normal (0) in all other cases.  The loader fails with the error
    [Invalid template pixel type] as soon as the classifier it is run
    with gives a pixel a type outside these four; with the classifier of
    the repository it never returns that error. *)
Theorem C8_template_pixels `{Rand} (classify : Color → nat) (fuel : nat)
    (now : Z) (templatePic : Image) (seed : Z) (col row : Z) :
  fitsInt templatePic → inBounds templatePic col row →
  let c := At templatePic col row in
  let t := colorToTemplateCellType c in
  (t = 0 ∨ t = 1 ∨ t = 2 ∨ t = 3) ∧
  (t = 1 ↔ isBlack c) ∧ (t = 2 ↔ isGreen c) ∧ (t = 3 ↔ isRed c) ∧
  (3 < classify c →
   ∃ t', 3 < t' ∧
         newFromTemplate classify fuel now templatePic seed
         = Err (ErrTemplatePixel t')) ∧
  (∀ t', NewGridMazeFromTemplate fuel now templatePic seed
         ≠ Err (ErrTemplatePixel t')).
Proof.
  intros Hfit Hin c t. splitAll.
  - pose proof (classify_range c). subst t. lia.
  - apply classify_black.
  - apply classify_green.
  - apply classify_red.
  - intros Ht. by eapply newFromTemplate_unrecognised.
  - intros t'. apply NewGridMazeFromTemplate_recognises.
Qed.

Lemma C8_template_pixels_witness :
  fitsInt dotPicture ∧ inBounds dotPicture 0 0 ∧
  colorToTemplateCellType (At dotPicture 0 0) = 0 ∧
  ∃ t', 3 < t' ∧
        @newFromTemplate lcg (λ _, 4) 10 1 dotPicture 1
        = Err (ErrTemplatePixel t').
Proof.
  assert (fitsInt dotPicture) as Hfit by (vm_compute; repeat split; congruence).
  assert (inBounds dotPicture 0 0) as Hin
    by (vm_compute; repeat split; congruence).
  split; [exact Hfit|]. split; [exact Hin|]. split; [reflexivity|].
  destruct (@C8_template_pixels lcg (λ _, 4) 10 1 dotPicture 1 0 0 Hfit Hin)
    as (_ & _ & _ & _ & Herr & _).
  apply Herr. lia.
Defined.

(** ** The solution path *)

Lemma generated_validEnds m m' :
  valid m → sameFrame m m' →
  startCellIndex m = (-1)%Z ∨ validEnds m →
  (if (startCellIndex m =? -1)%Z
   then startCellIndex m' = 0%Z ∧
        endCellIndex m' = (Z.of_nat (cellCount m) - 1)%Z
   else sameEnds m m') →
  validEnds m'.
Proof.
  intros Hvalid Hfr Hstart Hends.
  pose proof (sameFrame_length _ _ Hfr) as Hlen.
  pose proof (valid_width _ Hvalid). pose proof (valid_height _ Hvalid).
  pose proof (valid_cells _ Hvalid) as Hcells.
  destruct (Z.eqb_spec (startCellIndex m) (-1)) as [Heq|Hne].
  - destruct Hends as [Hs He]. unfold validEnds, cellCount in *.
    rewrite Hs, He, Hlen. nia.
  - destruct Hstart as [|Hv]; [done|]. by eapply validEnds_frame.
Qed.

Lemma path_pred (E : nat → nat → Prop) u v p x :
  path E u v p → x ∈ p → x ≠ u → ∃ y, y ∈ p ∧ E y x.
Proof.
  induction 1 as [u|u w v p Huw Hp IH]; intros Hx Hne.
  - by apply list_elem_of_singleton in Hx.
  - apply elem_of_cons in Hx as [->|Hx]; [done|].
    destruct (decide (x = w)) as [->|Hxw].
    + exists u. split; [left|done].
    + destruct (IH Hx Hxw) as (y & Hy & Hyx). exists y. split; [by right|done].
Qed.

(** The claim C3 as it is written fails: [RegenerateFromSeed] keeps the
    marks of an earlier [ShowSolution(true)] and [ShowSolution(true)]
    only adds marks.  A 3x3 grid is built with seed 3 and solved, then
    regenerated with seed 5 and solved again: the new path is 0, 1, 2, 5,
    8, and the cells 4 and 7 of the old path are still marked.  Cell 4
    has a single passage, to the unmarked cell 3, so no path along
    passages, of any length, has exactly the marked cells. *)
Lemma C3_counterexample :
  ∃ m0 m m',
    (m1 ← @NewGridMazeWithSeed lcg 20 0 3 3 3; ShowSolution 20 true m1)
    = Ok m0 ∧
    valid m0 ∧ noExclusions m0 ∧
    @RegenerateFromSeed lcg 20 5 m0 = Ok m ∧
    ShowSolution 20 true m = Ok m' ∧
    states m' = [1; 1; 1; 0; 1; 1; 0; 1; 1] ∧
    ¬ ∃ p, path (passage m') (startCell m') (endCell m') p ∧
           ∀ i c, cells m' !! i = Some c → (state c = 1 ↔ i ∈ p).
Proof.
  eexists _, _, _. split; [vm_compute; reflexivity|].
  split; [split; simpl; try lia; done|].
  split.
  { intros i s Hs.
    do 9 (destruct i as [|i]; [simpl in Hs; injection Hs as <-; lia|]).
    done. }
  split; [vm_compute; reflexivity|].
  split; [vm_compute; reflexivity|].
  split; [reflexivity|].
  intros (p & Hp & Hmarks).
  assert (4 ∈ p) as H4 by exact (proj1 (Hmarks 4 _ eq_refl) eq_refl).
  destruct (path_pred _ _ _ _ 4 Hp H4 ltac:(vm_compute; lia))
    as (y & Hy & Hpass).
  unfold passage, rightOpen, downOpen in Hpass. simpl in Hpass.
  destruct Hpass as [[E (_ & cu & cv & Hu & Hv & Hr & Hl)]
                    |[[-> (_ & cu & cv & Hu & Hv & Hr & Hl)]
                    |[[E (cu & cv & Hu & Hv & Hb & Ht)]
                    |[-> (cu & cv & Hu & Hv & Hb & Ht)]]]].
  - assert (y = 3) as -> by lia.
    pose proof (proj2 (Hmarks 3 _ eq_refl) Hy) as H3. simpl in H3. lia.
  - simpl in Hu. injection Hu as <-. done.
  - assert (y = 1) as -> by lia. simpl in Hu. injection Hu as <-. done.
  - simpl in Hu. injection Hu as <-. done.
Qed.

(** C3, amended.  A freshly generated grid with no cell marked, that is,
    a valid grid with every cell normal on which [RegenerateFromSeed]
    has run: [ShowSolution(true)] on it returns without error, and the
    cells it leaves marked as on the solution path are the cells of a
    path from the start cell to the end cell, each cell of it adjacent
    to the next with the wall between them cleared; the path has no more
    cells than the grid, so no more steps than the cell count. *)
Theorem C3_solution_path `{Rand} (fuel : nat) (seed : Z) (m0 : GridMaze) :
  valid m0 → allNormal m0 →
  startCellIndex m0 = (-1)%Z ∨ validEnds m0 →
  enoughFuel (cellCount m0) ≤ fuel →
  ∃ m m', RegenerateFromSeed fuel seed m0 = Ok m ∧
          ShowSolution fuel true m = Ok m' ∧
          ∃ p, path (passage m') (startCell m') (endCell m') p ∧
               length p ≤ cellCount m' ∧
               ∀ i c, cells m' !! i = Some c → (state c = 1 ↔ i ∈ p).
Proof.
  intros Hvalid Hnormal Hstart Hfuel.
  destruct (RegenerateFromSeed_spec fuel seed m0 Hvalid Hfuel)
    as (m & h & Hrun & Hinv & Hvalid' & Hfr & _ & Hends).
  pose proof (proj1 Hinv) as Hgrid.
  pose proof (generated_validEnds m0 m Hvalid Hfr Hstart Hends) as Hve.
  pose proof (valid_width _ Hvalid') as Hw.
  pose proof (valid_cells _ Hvalid') as Hlen.
  pose proof (sameFrame_length _ _ Hfr) as Hlen0.
  pose proof (ShowSolution_ends fuel m Hw Hlen Hve
                ltac:(by rewrite Hlen0)) as Hsolve.
  exists m.
  destruct (ShowSolution fuel true m) as [m'|e| |]; try done.
  2:{ exfalso. destruct Hsolve as [_ Hnot]. apply Hnot.
      destruct (validEnds_cells m Hve) as (_ & Hs & _ & He).
      destruct (spanning_tree m h Hinv (valid_neighbors _ Hvalid')
                  (sameFrame_noExclusions _ _ Hfr
                     (allNormal_noExclusions _ Hnormal))
                  (startCell m) (endCell m) Hs He) as (p & [Hp _] & _).
      apply (passage_solvable m _ _ p); try done.
      exact (grid_excluded _ _ Hgrid). }
  exists m'. split; [done|]. split; [done|].
  destruct Hsolve as (l & -> & Hpath & Hll & _).
  exists (rev l). splitAll.
  - change (path (passage (setCells (markAll l (cells m)) m))
              (startCell m) (endCell m) (rev l)).
    eapply path_mono; [|exact Hpath].
    intros x y Hxy. apply passage_markAll.
    apply canStep_passage; try done. exact (grid_sym _ _ Hgrid).
  - unfold cellCount. simpl. by rewrite length_rev, markAll_length.
  - simpl. intros i c' (c & Hc & _ & _ & ->)%markAll_walls.
    assert (state c = 0) as Hs0.
    { destruct Hfr as (_ & _ & Hst).
      pose proof (states_cell _ _ _ Hc) as Hsc. rewrite Hst in Hsc.
      apply states_lookup in Hsc as (c0 & Hc0 & <-). by apply Hnormal in Hc0. }
    rewrite (list_elem_of_In (rev l)), <- in_rev, <- list_elem_of_In.
    destruct (decide (i ∈ l)); simpl; [done|]. by rewrite Hs0.
Qed.

Lemma C3_solution_path_witness :
  valid grid2x2 ∧ allNormal grid2x2 ∧
  ∃ m m', @RegenerateFromSeed lcg 10 1 grid2x2 = Ok m ∧
          ShowSolution 10 true m = Ok m' ∧
          ∃ p, path (passage m') (startCell m') (endCell m') p ∧
               length p ≤ cellCount m' ∧
               ∀ i c, cells m' !! i = Some c → (state c = 1 ↔ i ∈ p).
Proof.
  split; [exact grid2x2_valid|]. split; [exact grid2x2_allNormal|].
  apply (@C3_solution_path lcg 10 1 grid2x2).
  - exact grid2x2_valid.
  - exact grid2x2_allNormal.
  - left. reflexivity.
  - vm_compute. lia.
Defined.

(** On the 2x2 grid the generator opens the walls 0-1, 0-2 and 1-3, and
    the solver marks the cells 0, 1 and 3. *)
Example solve_grid2x2 :
  (m ← @RegenerateFromSeed lcg 10 1 grid2x2;
   m' ← ShowSolution 10 true m;
   Ok (states m'))
  = Ok [1; 1; 0; 1].
Proof. reflexivity. Qed.

(** ** Exclusions *)

Lemma splitGrid_valid : valid splitGrid.
Proof. split; simpl; try lia; done. Qed.

Lemma splitGrid_validEnds : validEnds splitGrid.
Proof. vm_compute. repeat split; congruence. Qed.

(** A grid two cells wide whose second row is excluded keeps its two
    upper cells apart from everything below. *)
Lemma split_separated m :
  width m = 2 → states m = [0; 0; 2; 2; 0; 0] →
  startCellIndex m = 0%Z → endCellIndex m = 5%Z → separated m.
Proof.
  intros Hw Hst Hs He.
  assert (∀ u v p, path (freeStep m) u v p → u ≤ 1 → v ≤ 1) as Hstay.
  { induction 1 as [|u w v p (Hadj & _ & Hfree) _ IH]; [done|].
    intros Hu. apply IH.
    apply free_states in Hfree as (s & Hlook & Hne). rewrite Hst in Hlook.
    unfold adjacent in Hadj. rewrite Hw in Hadj.
    destruct Hadj as [[-> Hmod]|[[-> _]|[->| ->]]]; try lia.
    - destruct u as [|[|u]]; simpl in *; try lia.
    - destruct u as [|[|u]]; simpl in *; try lia; congruence. }
  intros p Hp. unfold startCell, endCell in Hp. rewrite Hs, He in Hp.
  apply Hstay in Hp; simpl in *; lia.
Qed.

Lemma splitGrid_separated : separated splitGrid.
Proof. by apply split_separated. Qed.

(** The claim C2 as it is written fails: [RegenerateFromSeed] resets the
    walls of every cell, excluded or not.  On the grid that the template
    loader builds from a picture with a black middle row, the excluded
    cell 2 has no wall set before the call and all four after it. *)
Lemma C2_counterexample :
  ∃ m' c c',
    @RegenerateFromSeed lcg 14 1 splitGrid = Ok m' ∧
    cells splitGrid !! 2 = Some c ∧ state c = 2 ∧
    cells m' !! 2 = Some c' ∧
    walls c = Walls false false false false ∧
    walls c' = Walls true true true true ∧
    walls c' ≠ walls c.
Proof.
  eexists _, _, _. split; [vm_compute; reflexivity|].
  repeat split; simpl; try reflexivity. discriminate.
Qed.

(** C2, amended.  On a valid grid whose start cell is not excluded:
    after [RegenerateFromSeed] every excluded cell has all four walls set
    (so its walls are as before when all four were set before); however
    often [ErodeWalls] is then called, the excluded cells stay as they
    are; and [ShowSolution(true)] on the result changes no excluded cell,
    so it marks none as on the solution path. *)
Theorem C2_exclusion_inert `{Rand} (fuel : nat) (seed : Z) (k : nat)
    (m : GridMaze) :
  valid m → validEnds m → startFree m → enoughFuel (cellCount m) ≤ fuel →
  ∃ m1, RegenerateFromSeed fuel seed m = Ok m1 ∧
    (∀ i c, cells m !! i = Some c → state c = 2 →
       ∃ c1, cells m1 !! i = Some c1 ∧ state c1 = 2 ∧
             walls c1 = Walls true true true true) ∧
    ∃ m2, erodeTimes k m1 = Ok m2 ∧
      (∀ i c, cells m1 !! i = Some c → state c = 2 →
         cells m2 !! i = Some c) ∧
      match ShowSolution fuel true m2 with
      | Ok m3 =>
          ∀ i c, cells m2 !! i = Some c → state c = 2 →
            cells m3 !! i = Some c
      | Err e => e = ErrSolve
      | _ => False
      end.
Proof.
  intros Hvalid Hends Hfree Hfuel.
  destruct (RegenerateFromSeed_spec fuel seed m Hvalid Hfuel)
    as (m1 & h1 & Hrun & [Hgrid _] & Hvalid1 & Hfr1 & _ & Hends1).
  destruct (Z.eqb_spec (startCellIndex m) (-1)) as [Heq|_];
    [unfold validEnds in Hends; lia|].
  exists m1. split; [done|]. split.
  { intros i c Hc Hs. pose proof (states_cell _ _ _ Hc) as Hsc.
    destruct Hfr1 as (_ & _ & Hst). rewrite <- Hst in Hsc.
    apply states_lookup in Hsc as (c1 & Hc1 & Hs1).
    exists c1. split; [done|]. split; [congruence|].
    apply (grid_excluded _ _ Hgrid i c1 Hc1). congruence. }
  pose proof (valid_width _ Hvalid1) as Hw1.
  pose proof (valid_cells _ Hvalid1) as Hlen1.
  destruct (erodeTimes_inert k m1 Hw1 Hlen1 (grid_sym _ _ Hgrid)
              (grid_excluded _ _ Hgrid))
    as (m2 & Hrun2 & _ & _ & Hfr2 & Hends2 & Hlen2 & Hkeep2).
  exists m2. split; [done|]. split; [done|].
  pose proof Hfr2 as (Hw2 & Hh2 & _).
  assert (validEnds m2) as Hve2.
  { apply (validEnds_frame m1 m2 Hfr2 Hends2).
    by apply (validEnds_frame m m1 Hfr1 Hends1). }
  assert (startFree m2) as Hfree2.
  { unfold startFree.
    destruct (sameEnds_cells _ _ Hends2) as [-> _].
    destruct (sameEnds_cells _ _ Hends1) as [-> _].
    by rewrite (free_frame m1 m2), (free_frame m m1). }
  pose proof (ShowSolution_ends fuel m2 ltac:(lia) ltac:(congruence) Hve2)
    as Hsolve.
  rewrite Hlen2, (sameFrame_length _ _ Hfr1) in Hsolve.
  specialize (Hsolve Hfuel).
  destruct (ShowSolution fuel true m2) as [m3|e| |];
    [|by destruct Hsolve|done|done].
  destruct Hsolve as (l & -> & _ & _ & Hon).
  intros i c Hc Hs. simpl. rewrite (markAll_lookup l _ i c Hc).
  destruct (decide (i ∈ l)) as [Hin|]; [|done].
  exfalso. destruct (Hon i Hin) as [->|(c' & Hc' & Hs')].
  - destruct Hfree2 as (c' & Hc' & Hs'). congruence.
  - congruence.
Qed.

Lemma marked2x2_validEnds : validEnds marked2x2.
Proof. vm_compute. repeat split; congruence. Qed.

Lemma marked2x2_startFree : startFree marked2x2.
Proof. eexists. split; [reflexivity|]. simpl. lia. Qed.

Lemma C2_exclusion_inert_witness :
  valid marked2x2 ∧ validEnds marked2x2 ∧ startFree marked2x2 ∧
  ∃ m1, @RegenerateFromSeed lcg 10 1 marked2x2 = Ok m1 ∧
    (∀ i c, cells marked2x2 !! i = Some c → state c = 2 →
       ∃ c1, cells m1 !! i = Some c1 ∧ state c1 = 2 ∧
             walls c1 = Walls true true true true) ∧
    ∃ m2, erodeTimes 2 m1 = Ok m2 ∧
      (∀ i c, cells m1 !! i = Some c → state c = 2 →
         cells m2 !! i = Some c) ∧
      match ShowSolution 10 true m2 with
      | Ok m3 =>
          ∀ i c, cells m2 !! i = Some c → state c = 2 →
            cells m3 !! i = Some c
      | Err e => e = ErrSolve
      | _ => False
      end.
Proof.
  split; [exact marked2x2_valid|]. split; [exact marked2x2_validEnds|].
  split; [exact marked2x2_startFree|].
  apply (@C2_exclusion_inert lcg 10 1 2 marked2x2).
  - exact marked2x2_valid.
  - exact marked2x2_validEnds.
  - exact marked2x2_startFree.
  - vm_compute. lia.
Defined.

(** On that grid the solver finds the end cell and leaves the excluded
    cell 2 alone. *)
Example solve_marked2x2 :
  (m1 ← @RegenerateFromSeed lcg 10 1 marked2x2;
   m2 ← erodeTimes 2 m1;
   m3 ← ShowSolution 10 true m2;
   Ok (states m3))
  = Ok [1; 1; 2; 1].
Proof. reflexivity. Qed.

(** ** Exclusions that cut the grid *)

(** The claim C4 as it is written fails: generation makes no
    connectivity check.  From a template whose middle row is black the
    loader returns a grid, without error, whose start cell and end cell
    lie in different regions. *)
Lemma C4_counterexample :
  ∃ m', @NewGridMazeFromTemplate lcg 14 7 splitPicture 1 = Ok m' ∧
        states m' = [0; 0; 2; 2; 0; 0] ∧
        startCellIndex m' = 0%Z ∧ endCellIndex m' = 5%Z ∧
        separated m'.
Proof.
  eexists. split; [vm_compute; reflexivity|].
  split; [reflexivity|]. split; [reflexivity|]. split; [reflexivity|].
  by apply split_separated.
Qed.

(** C4, amended.  On a valid grid whose exclusions leave the start cell
    and the end cell in different regions, [RegenerateFromSeed] returns
    without error; it is [ShowSolution(true)] on the generated grid that
    fails, with the error [Internal error: failed to solve maze]. *)
Theorem C4_split_reported_by_solver `{Rand} (fuel : nat) (seed : Z)
    (m : GridMaze) :
  valid m → validEnds m → separated m → enoughFuel (cellCount m) ≤ fuel →
  ∃ m', RegenerateFromSeed fuel seed m = Ok m' ∧ separated m' ∧
        ShowSolution fuel true m' = Err ErrSolve.
Proof.
  intros Hvalid Hends Hsep Hfuel.
  destruct (RegenerateFromSeed_spec fuel seed m Hvalid Hfuel)
    as (m' & h' & Hrun & [Hgrid _] & Hvalid' & Hfr & _ & Hends').
  destruct (Z.eqb_spec (startCellIndex m) (-1)) as [Heq|_];
    [unfold validEnds in Hends; lia|].
  pose proof (separated_frame m m' Hfr Hends' Hsep) as Hsep'.
  exists m'. split; [done|]. split; [done|].
  pose proof (valid_width _ Hvalid') as Hw.
  pose proof (valid_cells _ Hvalid') as Hlen.
  pose proof (ShowSolution_ends fuel m' Hw Hlen
                (validEnds_frame m m' Hfr Hends' Hends)) as Hsolve.
  rewrite (sameFrame_length _ _ Hfr) in Hsolve. specialize (Hsolve Hfuel).
  destruct (ShowSolution fuel true m') as [m''|e| |]; try done.
  - exfalso. destruct Hsolve as (l & _ & Hpath & _).
    apply (Hsep' (rev l)). eapply path_mono; [|exact Hpath].
    intros x y Hxy. apply passage_freeStep.
    + exact (grid_excluded _ _ Hgrid).
    + apply canStep_passage; try done. exact (grid_sym _ _ Hgrid).
  - by destruct Hsolve as [-> _].
Qed.

Lemma C4_split_reported_by_solver_witness :
  valid splitGrid ∧ validEnds splitGrid ∧ separated splitGrid ∧
  ∃ m', @RegenerateFromSeed lcg 14 1 splitGrid = Ok m' ∧ separated m' ∧
        ShowSolution 14 true m' = Err ErrSolve.
Proof.
  split; [exact splitGrid_valid|]. split; [exact splitGrid_validEnds|].
  split; [exact splitGrid_separated|].
  apply (@C4_split_reported_by_solver lcg 14 1 splitGrid).
  - exact splitGrid_valid.
  - exact splitGrid_validEnds.
  - exact splitGrid_separated.
  - vm_compute. lia.
Defined.


(** * Further properties of the code *)

(** ** Disjoint sets *)








(** ** The ranking of directions, for any positions *)

(** X3.  Whatever the four coordinates are, negative or overflowing
    ones included, [setDirRanking] fills the four entries with a
    permutation of the directions 0 to 3. *)
Theorem X3_ranking_permutation (currentCol currentRow targetCol targetRow : Z)
    (dirRanking : list nat) :
  length dirRanking = 4 →
  let r := setDirRanking currentCol currentRow targetCol targetRow
             dirRanking in
  length r = 4 ∧ NoDup r ∧ ∀ d, d ∈ r ↔ d ≤ 3.
Proof.
  intros Hlen r.
  destruct (setDirRanking_perm currentCol currentRow targetCol targetRow
              dirRanking Hlen) as (Hl & Hnd & Hle & Hall).
  splitAll; try done. intros d. split; [apply Hle|apply Hall].
Qed.

Lemma X3_ranking_permutation_witness :
  let r := setDirRanking (-5) (2 ^ 63 - 1) 7 (- 2 ^ 63) [9; 9; 9; 9] in
  length r = 4 ∧ NoDup r ∧ ∀ d, d ∈ r ↔ d ≤ 3.
Proof.
  apply (X3_ranking_permutation (-5) (2 ^ 63 - 1) 7 (- 2 ^ 63) [9; 9; 9; 9]).
  reflexivity.
Defined.

(** ** The generated maze on a grid with excluded cells *)

Lemma freeStep_sameSet m h u v :
  genInv m h → neighbors m = [] → freeStep m u v → sameSet h u v.
Proof.
  intros [Hgrid Hlist] Hnil (Hadj & Hu & Hv).
  assert (∀ n, joinable m n → sameSet h (baseIndex n) (otherIndex m n))
    as Hcover.
  { intros n Hn. destruct (list_cover _ _ _ Hlist n Hn) as [Hin|?]; [|done].
    rewrite Hnil in Hin. by apply elem_of_nil in Hin. }
  apply free_states in Hu as (su & Hsu & Hu2).
  apply free_states in Hv as (sv & Hsv & Hv2).
  destruct Hadj as [[-> Hmod]|[[-> Hmod]|[->| ->]]].
  - exact (Hcover _ (joinable_right m u su sv Hsu Hu2 Hmod Hsv Hv2)).
  - apply sameSet_sym.
    exact (Hcover _ (joinable_right m v sv su Hsv Hv2 Hmod Hsu Hu2)).
  - exact (Hcover _ (joinable_down m u su sv Hsu Hu2 Hsv Hv2)).
  - apply sameSet_sym.
    exact (Hcover _ (joinable_down m v sv su Hsv Hv2 Hsu Hu2)).
Qed.

Lemma freePath_sameSet m h u v p :
  genInv m h → neighbors m = [] → path (freeStep m) u v p →
  u = v ∨ sameSet h u v.
Proof.
  intros Hinv Hnil. induction 1 as [|u w v p Huw _ IH]; [by left|].
  right. pose proof (freeStep_sameSet m h u w Hinv Hnil Huw) as Hs.
  destruct IH as [<-|Hwv]; [done|]. by eapply sameSet_trans.
Qed.

Lemma freePath_passages m h u v p :
  genInv m h → neighbors m = [] → path (freeStep m) u v p →
  ∃ q, simplePath (passage m) u v q.
Proof.
  intros Hinv Hnil Hp.
  destruct (freePath_sameSet m h u v p Hinv Hnil Hp) as [<-|Hs].
  - exists [u]. split; [constructor|]. apply NoDup_singleton.
  - exact (forest_path _ _ (grid_tree _ _ (proj1 Hinv)) u v Hs).
Qed.

(** X4.  [RegenerateFromSeed] on a grid with excluded cells makes a
    spanning forest of the cells that are not excluded: a wall is only
    opened between two adjacent cells neither of which is excluded; two
    cells that a walk over such cells joins are joined by a simple path
    of the maze; and no two cells are joined by two simple paths. *)
Theorem X4_spanning_forest `{Rand} (fuel : nat) (seed : Z) (m : GridMaze) :
  valid m → enoughFuel (cellCount m) ≤ fuel →
  ∃ m', RegenerateFromSeed fuel seed m = Ok m' ∧
    (∀ u v, passage m' u v → freeStep m u v) ∧
    (∀ u v p, path (freeStep m) u v p →
       ∃ q, simplePath (passage m') u v q) ∧
    (∀ u v p q, simplePath (passage m') u v p →
       simplePath (passage m') u v q → p = q).
Proof.
  intros Hvalid Hfuel.
  destruct (RegenerateFromSeed_spec fuel seed m Hvalid Hfuel)
    as (m' & h' & Hrun & Hinv & Hvalid' & Hfr & _).
  pose proof (proj1 Hinv) as Hgrid.
  exists m'. splitAll; [done|..].
  - intros u v Hp. apply (freeStep_frame m m' u v Hfr).
    apply passage_freeStep; [exact (grid_excluded _ _ Hgrid)|done].
  - intros u v p Hp.
    apply (freePath_passages m' h' u v p Hinv (valid_neighbors _ Hvalid')).
    eapply path_mono; [|exact Hp]. intros x y (Hadj & Hx & Hy).
    destruct Hfr as (Hw & Hh & Hst). unfold freeStep, adjacent in *.
    rewrite Hw. split; [done|]. rewrite !free_states in *. by rewrite Hst.
  - exact (forest_unique _ _ (grid_tree _ _ Hgrid)).
Qed.

Lemma X4_spanning_forest_witness :
  valid splitGrid ∧
  ∃ m', @RegenerateFromSeed lcg 14 1 splitGrid = Ok m' ∧
    (∀ u v, passage m' u v → freeStep splitGrid u v) ∧
    (∀ u v p, path (freeStep splitGrid) u v p →
       ∃ q, simplePath (passage m') u v q) ∧
    (∀ u v p q, simplePath (passage m') u v p →
       simplePath (passage m') u v q → p = q).
Proof.
  split; [exact splitGrid_valid|].
  apply (@X4_spanning_forest lcg 14 1 splitGrid).
  - exact splitGrid_valid.
  - vm_compute. lia.
Defined.

(** ** Erosion only opens walls *)

Lemma ErodeWalls_opens m :
  1 ≤ width m → length (cells m) = width m * height m →
  ∃ m', ErodeWalls m = Ok m' ∧
        width m' = width m ∧ height m' = height m ∧
        length (cells m') = length (cells m) ∧
        states m' = states m ∧ sameEnds m m' ∧
        ∀ i c, cells m !! i = Some c →
          ∃ c', cells m' !! i = Some c' ∧
                ∀ d, d ≤ 3 → flag c d = false → flag c' d = false.
Proof.
  intros Hw Hlen.
  destruct (ErodeWalls_flags m Hw Hlen) as (m' & Hrun & Hm' & Hflags).
  exists m'. split; [done|].
  assert (length (cells m') = length (cells m)) as Hl.
  { rewrite Hm'. simpl. apply erodeSpec_length. }
  split; [by rewrite Hm'|]. split; [by rewrite Hm'|]. split; [done|].
  split; [|split; [by rewrite Hm'|]].
  - apply list_eq. intros i. unfold states. rewrite !list_lookup_fmap.
    destruct (cells m !! i) as [c|] eqn:Hc.
    + destruct (Hflags i c Hc) as (c' & -> & Hs & _). simpl. by rewrite Hs.
    + apply lookup_ge_None in Hc. rewrite <- Hl in Hc.
      apply lookup_ge_None in Hc. by rewrite Hc.
  - intros i c Hc. destruct (Hflags i c Hc) as (c' & Hc' & _ & _ & Hf).
    exists c'. split; [done|]. intros d Hd Hz. by rewrite (Hf d Hd), Hz.
Qed.

Lemma opens_passage m m' u v :
  width m' = width m →
  (∀ i c, cells m !! i = Some c →
     ∃ c', cells m' !! i = Some c' ∧
           ∀ d, d ≤ 3 → flag c d = false → flag c' d = false) →
  passage m u v → passage m' u v.
Proof.
  intros Hw Hopen. unfold passage, rightOpen, downOpen. rewrite Hw.
  intros [[-> (Hm & cu & cv & Hu & Hv & Hr & Hl)]
         |[[-> (Hm & cu & cv & Hu & Hv & Hr & Hl)]
         |[[-> (cu & cv & Hu & Hv & Hb & Ht)]
         |[-> (cu & cv & Hu & Hv & Hb & Ht)]]]];
    destruct (Hopen _ _ Hu) as (cu' & Hu' & Hfu);
    destruct (Hopen _ _ Hv) as (cv' & Hv' & Hfv).
  - left. split; [done|]. split; [done|]. exists cu', cv'.
    splitAll; [done|done|exact (Hfu 2 ltac:(lia) Hr)|exact (Hfv 0 ltac:(lia) Hl)].
  - right; left. split; [done|]. split; [done|]. exists cu', cv'.
    splitAll; [done|done|exact (Hfu 2 ltac:(lia) Hr)|exact (Hfv 0 ltac:(lia) Hl)].
  - right; right; left. split; [done|]. exists cu', cv'.
    splitAll; [done|done|exact (Hfu 3 ltac:(lia) Hb)|exact (Hfv 1 ltac:(lia) Ht)].
  - right; right; right. split; [done|]. exists cu', cv'.
    splitAll; [done|done|exact (Hfu 3 ltac:(lia) Hb)|exact (Hfv 1 ltac:(lia) Ht)].
Qed.

Lemma erodeTimes_opens k m :
  1 ≤ width m → length (cells m) = width m * height m →
  ∃ m', erodeTimes k m = Ok m' ∧
        width m' = width m ∧ height m' = height m ∧
        length (cells m') = length (cells m) ∧
        states m' = states m ∧ sameEnds m m' ∧
        ∀ i c, cells m !! i = Some c →
          ∃ c', cells m' !! i = Some c' ∧
                ∀ d, d ≤ 3 → flag c d = false → flag c' d = false.
Proof.
  revert m. induction k as [|k IH]; intros m Hw Hlen; simpl.
  - exists m. splitAll; try done. intros i c Hc. by exists c.
  - destruct (ErodeWalls_opens m Hw Hlen)
      as (m1 & -> & Hw1 & Hh1 & Hl1 & Hs1 & He1 & Hopen1).
    simpl.
    destruct (IH m1 ltac:(lia) ltac:(congruence))
      as (m2 & -> & Hw2 & Hh2 & Hl2 & Hs2 & He2 & Hopen2).
    exists m2. splitAll; try congruence.
    + by eapply sameEnds_trans.
    + intros i c Hc. destruct (Hopen1 i c Hc) as (c1 & Hc1 & Hf1).
      destruct (Hopen2 i c1 Hc1) as (c2 & Hc2 & Hf2).
      exists c2. split; [done|]. intros d Hd Hz. apply Hf2; [done|].
      by apply Hf1.
Qed.

(** X5.  However often [ErodeWalls] is called, on any grid, it never
    sets a wall: the size of the grid, the states of the cells and the
    two ends stay as they are, a wall that was clear is clear
    afterwards, and so every passage of the maze is kept. *)
Theorem X5_erosion_keeps_passages (k : nat) (m : GridMaze) :
  1 ≤ width m → length (cells m) = width m * height m →
  ∃ m', erodeTimes k m = Ok m' ∧
        width m' = width m ∧ height m' = height m ∧
        states m' = states m ∧ sameEnds m m' ∧
        (∀ i c, cells m !! i = Some c →
           ∃ c', cells m' !! i = Some c' ∧
                 ∀ d, d ≤ 3 → flag c d = false → flag c' d = false) ∧
        ∀ u v, passage m u v → passage m' u v.
Proof.
  intros Hw Hlen.
  destruct (erodeTimes_opens k m Hw Hlen)
    as (m' & Hrun & Hw' & Hh' & _ & Hs' & He' & Hopen).
  exists m'. splitAll; try done. intros u v. by apply opens_passage.
Qed.

Lemma X5_erosion_keeps_passages_witness :
  ∃ m', erodeTimes 3 stubGrid = Ok m' ∧
        width m' = width stubGrid ∧ height m' = height stubGrid ∧
        states m' = states stubGrid ∧ sameEnds stubGrid m' ∧
        (∀ i c, cells stubGrid !! i = Some c →
           ∃ c', cells m' !! i = Some c' ∧
                 ∀ d, d ≤ 3 → flag c d = false → flag c' d = false) ∧
        ∀ u v, passage stubGrid u v → passage m' u v.
Proof.
  apply (X5_erosion_keeps_passages 3 stubGrid); [simpl; lia|reflexivity].
Defined.

(** ** The solver on a generated maze with excluded cells *)

Lemma marked2x2_joined : joined marked2x2.
Proof.
  assert (∀ i c, cells marked2x2 !! i = Some c → state c ≠ 2 →
                 free marked2x2 i) as Hfree.
  { intros i c Hc Hs. by exists c. }
  exists [0; 1; 3]. change (path (freeStep marked2x2) 0 3 [0; 1; 3]).
  apply (path_cons _ 0 1).
  { split; [left; split; [done|simpl; lia]|].
    split; eapply Hfree; try reflexivity; simpl; lia. }
  apply (path_cons _ 1 3); [|constructor].
  split; [right; right; left; reflexivity|].
  split; eapply Hfree; try reflexivity; simpl; lia.
Qed.

(** X6.  The solver is complete on what the generator makes, with
    excluded cells, with marks left from an earlier solution, and after
    any number of erosions: when a walk over cells that are not excluded
    joins the start cell and the end cell of the grid,
    [ShowSolution(true)] succeeds, the cells it marks are those of a
    path of the maze from the start cell to the end cell, and every
    other cell is left as it is; when no such walk exists it fails with
    its error. *)
Theorem X6_solver_complete `{Rand} (fuel : nat) (seed : Z) (k : nat)
    (m : GridMaze) :
  valid m → validEnds m → enoughFuel (cellCount m) ≤ fuel →
  ∃ m1 m2,
    RegenerateFromSeed fuel seed m = Ok m1 ∧ erodeTimes k m1 = Ok m2 ∧
    (joined m →
     ∃ m3 p, ShowSolution fuel true m2 = Ok m3 ∧
       path (passage m2) (startCell m) (endCell m) p ∧
       length p ≤ cellCount m ∧
       ∀ i c, cells m2 !! i = Some c →
         cells m3 !! i
         = Some (if decide (i ∈ p) then setCellState 1 c else c)) ∧
    (¬ joined m → ShowSolution fuel true m2 = Err ErrSolve).
Proof.
  intros Hvalid Hends Hfuel.
  destruct (RegenerateFromSeed_spec fuel seed m Hvalid Hfuel)
    as (m1 & h1 & Hrun & Hinv & Hvalid1 & Hfr1 & _ & Hends1).
  destruct (Z.eqb_spec (startCellIndex m) (-1)) as [Heq|_];
    [unfold validEnds in Hends; lia|].
  pose proof (proj1 Hinv) as Hgrid.
  pose proof (valid_width _ Hvalid1) as Hw1.
  pose proof (valid_cells _ Hvalid1) as Hlen1.
  destruct (erodeTimes_inert k m1 Hw1 Hlen1 (grid_sym _ _ Hgrid)
              (grid_excluded _ _ Hgrid))
    as (m2 & Hrun2 & Hsym2 & Hex2 & Hfr2 & Hends2 & Hlen2 & _).
  destruct (erodeTimes_opens k m1 Hw1 Hlen1)
    as (m2' & Hrun2' & _ & _ & _ & _ & _ & Hopen).
  assert (m2' = m2) as -> by congruence.
  exists m1, m2. split; [done|]. split; [done|].
  pose proof Hfr2 as (Hw2 & Hh2 & _).
  assert (1 ≤ width m2) as Hw2' by lia.
  assert (length (cells m2) = width m2 * height m2) as Hl2 by congruence.
  assert (validEnds m2) as Hve2.
  { apply (validEnds_frame m1 m2 Hfr2 Hends2).
    by apply (validEnds_frame m m1 Hfr1 Hends1). }
  assert (startCell m2 = startCell m ∧ endCell m2 = endCell m) as [Hs He].
  { destruct (sameEnds_cells _ _ Hends2) as [-> ->].
    exact (sameEnds_cells _ _ Hends1). }
  pose proof (ShowSolution_ends fuel m2 Hw2' Hl2 Hve2) as Hsolve.
  rewrite Hlen2, (sameFrame_length _ _ Hfr1) in Hsolve.
  specialize (Hsolve Hfuel). rewrite Hs, He in Hsolve.
  split.
  - intros [q Hq].
    destruct (ShowSolution fuel true m2) as [m3|e| |]; try done.
    + destruct Hsolve as (l & -> & Hpath & Hll & _).
      exists (setCells (markAll l (cells m2)) m2), (rev l).
      splitAll; [done| | |].
      * eapply path_mono; [|exact Hpath]. intros x y.
        by apply canStep_passage.
      * by rewrite length_rev.
      * intros i c Hc. simpl. rewrite (markAll_lookup l _ i c Hc).
        destruct (decide (i ∈ l)) as [Hin|Hin];
          destruct (decide (i ∈ rev l)) as [Hin'|Hin']; try done;
          exfalso; apply list_elem_of_In in Hin ||
                   apply list_elem_of_In in Hin';
          [apply Hin'|apply Hin]; apply list_elem_of_In;
          [by apply in_rev in Hin|by apply in_rev].
    + exfalso. destruct Hsolve as [_ Hnot]. apply Hnot.
      assert (path (freeStep m1) (startCell m) (endCell m) q) as Hq1.
      { eapply path_mono; [|exact Hq]. intros x y (Hadj & Hx & Hy).
        destruct Hfr1 as (Hw & Hh & Hst). unfold freeStep, adjacent in *.
        rewrite Hw. split; [done|]. rewrite !free_states in *.
        by rewrite Hst. }
      destruct (freePath_passages m1 h1 _ _ q Hinv
                  (valid_neighbors _ Hvalid1) Hq1) as (q' & Hq' & _).
      apply (passage_solvable m2 _ _ q'); try done.
      eapply path_mono; [|exact Hq']. intros x y.
      apply opens_passage; [by destruct Hfr2|done].
  - intros Hnot.
    destruct (ShowSolution fuel true m2) as [m3|e| |]; try done.
    + exfalso. apply Hnot. destruct Hsolve as (l & _ & Hpath & _).
      exists (rev l). eapply path_mono; [|exact Hpath].
      intros x y Hxy. apply (freeStep_frame m m1 x y Hfr1).
      apply (freeStep_frame m1 m2 x y Hfr2).
      apply passage_freeStep; [done|]. by apply canStep_passage.
    + by destruct Hsolve as [-> _].
Qed.

Lemma X6_solver_complete_witness :
  valid marked2x2 ∧ validEnds marked2x2 ∧ joined marked2x2 ∧
  ∃ m1 m2,
    @RegenerateFromSeed lcg 10 1 marked2x2 = Ok m1 ∧
    erodeTimes 2 m1 = Ok m2 ∧
    (joined marked2x2 →
     ∃ m3 p, ShowSolution 10 true m2 = Ok m3 ∧
       path (passage m2) (startCell marked2x2) (endCell marked2x2) p ∧
       length p ≤ cellCount marked2x2 ∧
       ∀ i c, cells m2 !! i = Some c →
         cells m3 !! i
         = Some (if decide (i ∈ p) then setCellState 1 c else c)) ∧
    (¬ joined marked2x2 → ShowSolution 10 true m2 = Err ErrSolve).
Proof.
  split; [exact marked2x2_valid|]. split; [exact marked2x2_validEnds|].
  split; [exact marked2x2_joined|].
  apply (@X6_solver_complete lcg 10 1 2 marked2x2).
  - exact marked2x2_valid.
  - exact marked2x2_validEnds.
  - vm_compute. lia.
Defined.

(** ** The solution is the one simple path *)

Lemma trail_det parent s i l l' :
  trail parent s i l → trail parent s i l' → l = l'.
Proof.
  intros Hl. revert l'. induction Hl as [Hp|i p l Hi Hp Ht IH]; intros l' Hl'.
  - by inversion Hl'.
  - inversion Hl' as [|? p' l2 _ Hp' Ht']; subst; [done|].
    assert (p' = p) as -> by (rewrite Hp in Hp'; injection Hp'; lia).
    f_equal. by apply IH.
Qed.

Lemma trail_suffix parent s i l x :
  trail parent s i l → x ∈ l →
  ∃ l', trail parent s x l' ∧ length l' ≤ length l.
Proof.
  induction 1 as [Hp|i p l Hi Hp Ht IH]; intros Hx.
  - apply list_elem_of_singleton in Hx as ->. exists [s].
    split; [by constructor|done].
  - apply elem_of_cons in Hx as [->|Hx].
    + exists (i :: l). split; [by econstructor|done].
    + destruct (IH Hx) as (l' & Hl' & Hlen). exists l'.
      split; [done|]. simpl. lia.
Qed.

Lemma trail_NoDup parent s i l : trail parent s i l → NoDup l.
Proof.
  induction 1 as [Hp|i p l Hi Hp Ht IH]; [apply NoDup_singleton|].
  apply NoDup_cons. split; [|done]. intros Hin.
  destruct (trail_suffix _ _ _ _ i Ht Hin) as (l' & Hl' & Hlen).
  assert (l' = i :: l) as ->.
  { eapply trail_det; [exact Hl'|]. by econstructor. }
  simpl in Hlen. lia.
Qed.

(** The path that [ShowSolution(true)] marks visits no cell twice. *)
Lemma ShowSolution_simple fuel m :
  1 ≤ width m → length (cells m) = width m * height m → validEnds m →
  enoughFuel (length (cells m)) ≤ fuel →
  match ShowSolution fuel true m with
  | Ok m' =>
      ∃ l, m' = setCells (markAll l (cells m)) m ∧
           simplePath (canStep m) (startCell m) (endCell m) (rev l)
  | Err err => err = ErrSolve ∧ ¬ solvable m (startCell m) (endCell m)
  | _ => False
  end.
Proof.
  intros Hw Hlen (Hs & Hslt & He & _)%validEnds_cells Hfuel.
  unfold ShowSolution. simpl.
  pose proof (solveParents_spec fuel m _ _ Hw Hlen Hs Hslt He Hfuel) as Hsp.
  destruct (solveParents fuel m) as [par|err| |]; try done. simpl.
  destruct Hsp as (vis & stk & Hinv & Hre).
  destruct (solve_trail _ _ _ _ _ Hinv _ Hre) as (l & Hl & Hlen').
  assert (length l ≤ length (cells m)) as Hll.
  { pose proof (count_true_false vis) as Hc.
    rewrite (solve_visited _ _ _ _ _ Hinv) in Hc. lia. }
  unfold enoughFuel in Hfuel.
  rewrite He, (highlight_trail par _ _ l Hl fuel (cells m));
    [|lia|by rewrite (solve_parent _ _ _ _ _ Hinv)].
  simpl. exists l. split; [done|].
  destruct (trail_path m _ vis par stk _ l Hinv Hl) as [Hpath _].
  split; [by apply path_rev|].
  apply NoDup_ListNoDup, List.NoDup_rev, NoDup_ListNoDup.
  by eapply trail_NoDup.
Qed.

Lemma holed3x3_valid : valid holed3x3.
Proof. split; simpl; try lia; done. Qed.

Lemma holed3x3_validEnds : validEnds holed3x3.
Proof. vm_compute. repeat split; congruence. Qed.

Lemma holed3x3_noMarks : noMarks holed3x3.
Proof.
  intros i c Hc.
  do 9 (destruct i as [|i]; [simpl in Hc; injection Hc as <-; simpl; lia|]).
  done.
Qed.

(** X7.  On a grid with no cell shown as on the solution path, excluded
    cells or not, [RegenerateFromSeed] followed by [ShowSolution(true)]
    marks the solution of the maze and nothing else: the marked cells
    are those of a simple path of the maze from the start cell to the
    end cell, and the maze has no other simple path between the two.
    When [ShowSolution(true)] fails the exclusions separate the two
    cells. *)
Theorem X7_unique_solution `{Rand} (fuel : nat) (seed : Z) (m : GridMaze) :
  valid m → noMarks m →
  startCellIndex m = (-1)%Z ∨ validEnds m →
  enoughFuel (cellCount m) ≤ fuel →
  ∃ m1, RegenerateFromSeed fuel seed m = Ok m1 ∧
    match ShowSolution fuel true m1 with
    | Ok m2 =>
        ∃ p, simplePath (passage m1) (startCell m1) (endCell m1) p ∧
             (∀ q, simplePath (passage m1) (startCell m1) (endCell m1) q →
                   q = p) ∧
             ∀ i c, cells m2 !! i = Some c → (state c = 1 ↔ i ∈ p)
    | Err e => e = ErrSolve ∧ separated m1
    | _ => False
    end.
Proof.
  intros Hvalid Hno Hstart Hfuel.
  destruct (RegenerateFromSeed_spec fuel seed m Hvalid Hfuel)
    as (m1 & h1 & Hrun & Hinv & Hvalid1 & Hfr & _ & Hends).
  pose proof (proj1 Hinv) as Hgrid.
  pose proof (generated_validEnds m m1 Hvalid Hfr Hstart Hends) as Hve.
  pose proof (valid_width _ Hvalid1) as Hw.
  pose proof (valid_cells _ Hvalid1) as Hlen.
  pose proof (ShowSolution_simple fuel m1 Hw Hlen Hve) as Hsolve.
  rewrite (sameFrame_length _ _ Hfr) in Hsolve. specialize (Hsolve Hfuel).
  exists m1. split; [done|].
  destruct (ShowSolution fuel true m1) as [m2|e| |]; try done.
  - destruct Hsolve as (l & -> & Hpath & Hnd).
    assert (simplePath (passage m1) (startCell m1) (endCell m1) (rev l))
      as Hsimple.
    { split; [|done]. eapply path_mono; [|exact Hpath]. intros x y.
      apply canStep_passage; try done. exact (grid_sym _ _ Hgrid). }
    exists (rev l). split; [exact Hsimple|]. split.
    + intros q Hq.
      exact (forest_unique _ _ (grid_tree _ _ Hgrid) _ _ _ _ Hq Hsimple).
    + simpl. intros i c' (c & Hc & _ & _ & ->)%markAll_walls.
      assert (state c ≠ 1) as Hs1.
      { destruct Hfr as (_ & _ & Hst).
        pose proof (states_cell _ _ _ Hc) as Hsc. rewrite Hst in Hsc.
        apply states_lookup in Hsc as (c0 & Hc0 & <-). by apply (Hno i). }
      rewrite (list_elem_of_In (rev l)), <- in_rev, <- list_elem_of_In.
      destruct (decide (i ∈ l)); simpl; [done|]. split; [done|done].
  - destruct Hsolve as [-> Hnot]. split; [done|]. intros p Hp.
    apply Hnot.
    destruct (freePath_passages m1 h1 _ _ p Hinv
                (valid_neighbors _ Hvalid1) Hp) as (q & Hq & _).
    apply (passage_solvable m1 _ _ q); try done.
    exact (grid_excluded _ _ Hgrid).
Qed.

Lemma X7_unique_solution_witness :
  valid holed3x3 ∧ noMarks holed3x3 ∧ validEnds holed3x3 ∧
  ∃ m1, @RegenerateFromSeed lcg 20 1 holed3x3 = Ok m1 ∧
    match ShowSolution 20 true m1 with
    | Ok m2 =>
        ∃ p, simplePath (passage m1) (startCell m1) (endCell m1) p ∧
             (∀ q, simplePath (passage m1) (startCell m1) (endCell m1) q →
                   q = p) ∧
             ∀ i c, cells m2 !! i = Some c → (state c = 1 ↔ i ∈ p)
    | Err e => e = ErrSolve ∧ separated m1
    | _ => False
    end.
Proof.
  split; [exact holed3x3_valid|]. split; [exact holed3x3_noMarks|].
  split; [exact holed3x3_validEnds|].
  apply (@X7_unique_solution lcg 20 1 holed3x3).
  - exact holed3x3_valid.
  - exact holed3x3_noMarks.
  - right. exact holed3x3_validEnds.
  - vm_compute. lia.
Defined.

(** On that grid the solver goes round the excluded cell. *)
Example solve_holed3x3 :
  (m1 ← @RegenerateFromSeed lcg 20 1 holed3x3;
   m2 ← ShowSolution 20 true m1;
   Ok (states m2))
  = Ok [1; 0; 0; 1; 2; 0; 1; 1; 1].
Proof. reflexivity. Qed.


(** ** Regeneration replays the maze *)

Lemma loop_map {S R} (f : S → S) (g : R → R) (body : S → result (S + R)) :
  (∀ s, body (f s) = mapResult (sum_map f g) (body s)) →
  ∀ fuel s, loop fuel body (f s) = mapResult g (loop fuel body s).
Proof.
  intros Hb. induction fuel as [|fuel IH]; intros s; simpl; [done|].
  rewrite Hb. destruct (body s) as [[s'|r]| | |]; simpl; auto.
Qed.

Section Replay.

Context `{Rand}.

Lemma updateDisjointNeighbors_ends fuel s e m h :
  updateDisjointNeighbors fuel (setEnds s e m) h
  = mapResult (λ '(m', h'), (setEnds s e m', h'))
      (updateDisjointNeighbors fuel m h).
Proof.
  unfold updateDisjointNeighbors.
  change (updateStep fuel (setEnds s e m)) with (updateStep fuel m).
  change (neighbors (setEnds s e m)) with (neighbors m).
  by destruct (loop fuel (updateStep fuel m) (0, neighbors m, h))
    as [[ns h']| | |].
Qed.

Lemma getDisjointNeighbor_ends fuel s e m h rng :
  getDisjointNeighbor fuel (setEnds s e m) h rng
  = mapResult (λ '(t, d, m', h', r'), (t, d, setEnds s e m', h', r'))
      (getDisjointNeighbor fuel m h rng).
Proof.
  unfold getDisjointNeighbor.
  change (neighbors (setEnds s e m)) with (neighbors m).
  destruct (length (neighbors m) =? 0); [done|].
  change (sampleNeighbor fuel (setEnds s e m) h rng)
    with (sampleNeighbor fuel m h rng).
  destruct (sampleNeighbor fuel m h rng) as [[[[t|] h1] rng1]| | |];
    try done.
  simpl. rewrite updateDisjointNeighbors_ends.
  destruct (updateDisjointNeighbors fuel m h1) as [[m2 h2]| | |]; try done.
  simpl. change (neighbors (setEnds s e m2)) with (neighbors m2).
  destruct (length (neighbors m2) =? 0); [done|].
  change (sampleNeighbor fuel (setEnds s e m2) h2 rng1)
    with (sampleNeighbor fuel m2 h2 rng1).
  by destruct (sampleNeighbor fuel m2 h2 rng1) as [[[t h3] rng2]| | |].
Qed.

Lemma regenerateStep_ends fuel s e m h rng :
  regenerateStep fuel (setEnds s e m, h, rng)
  = mapResult
      (sum_map (λ '(m', h', r'), (setEnds s e m', h', r'))
               (λ '(m', h'), (setEnds s e m', h')))
      (regenerateStep fuel (m, h, rng)).
Proof.
  unfold regenerateStep.
  change (neighbors (setEnds s e m)) with (neighbors m).
  destruct (length (neighbors m) =? 0); [done|].
  rewrite getDisjointNeighbor_ends.
  destruct (getDisjointNeighbor fuel m h rng)
    as [[[[[t d] m1] h1] rng1]| | |]; try done.
  simpl. destruct d; [done|].
  destruct t as [t|]; [|done]. simpl.
  destruct (at_ (cells m1) (baseIndex t)) as [cellA| | |]; try done. simpl.
  destruct (neighborDirection t =? 2).
  - destruct (at_ (cells m1) (baseIndex t + 1)) as [cellB| | |]; try done.
    simpl. destruct (deref (djSet cellA)) as [pa| | |]; try done. simpl.
    destruct (deref (djSet cellB)) as [pb| | |]; try done. simpl.
    by destruct (union fuel h1 pa pb).
  - destruct (at_ (cells m1) (baseIndex t + width m1)) as [cellB| | |];
      try done.
    simpl. destruct (deref (djSet cellA)) as [pa| | |]; try done. simpl.
    destruct (deref (djSet cellB)) as [pb| | |]; try done. simpl.
    by destruct (union fuel h1 pa pb).
Qed.

Lemma initCells_frame (cs1 cs2 : list gridMazeCell) :
  map state cs1 = map state cs2 → initCells cs1 = initCells cs2.
Proof.
  intros Hst. assert (length cs1 = length cs2) as Hlen.
  { apply (f_equal length) in Hst. by rewrite !length_map in Hst. }
  unfold initCells. f_equal.
  - apply list_eq. intros i. rewrite !list_lookup_imap.
    pose proof (f_equal (λ l, l !! i) Hst) as Hi. simpl in Hi.
    rewrite !list_lookup_fmap in Hi.
    destruct (cs1 !! i) as [c1|], (cs2 !! i) as [c2|]; simpl in *;
      try done.
    injection Hi as Hi. unfold initGridMazeCell. by rewrite Hi.
  - apply list_eq. intros i. rewrite !list_lookup_imap.
    destruct (cs1 !! i) as [c1|] eqn:H1, (cs2 !! i) as [c2|] eqn:H2;
      simpl; try done.
    + apply lookup_lt_Some in H1. apply lookup_ge_None in H2. lia.
    + apply lookup_lt_Some in H2. apply lookup_ge_None in H1. lia.
Qed.

(** The loop of [RegenerateFromSeed] reads the dimensions and the states
    of the cells, and nothing else of the grid it is given. *)
Lemma regenerateLoop_frame fuel seed m1 m2 :
  valid m1 → valid m2 → sameFrame m1 m2 →
  regenerateLoop fuel seed m2
  = mapResult
      (λ '(m', h'), (setEnds (startCellIndex m2) (endCellIndex m2) m', h'))
      (regenerateLoop fuel seed m1).
Proof.
  intros [Hw1 Hh1 Hl1 Hn1] [Hw2 Hh2 Hl2 Hn2] (Hw & Hh & Hst).
  unfold regenerateLoop.
  rewrite (initCells_frame (cells m2) (cells m1) Hst).
  unfold initCells.
  assert (length (cells m1) = width m2 * height m2) as Hl12
    by (rewrite Hw, Hh; done).
  rewrite !initDisjointNeighbors_spec; simpl;
    rewrite ?length_imap; try done.
  set (cs := imap initGridMazeCell (cells m1)).
  set (h := imap (λ i _, newDisjointSet i) (cells m1)).
  rewrite <- (loop_map
    (λ '(m', h', r'),
       (setEnds (startCellIndex m2) (endCellIndex m2) m', h', r'))
    (λ '(m', h'),
       (setEnds (startCellIndex m2) (endCellIndex m2) m', h'))).
  2:{ intros [[m' h'] r']. apply regenerateStep_ends. }
  f_equal. unfold setRandomSeed, setNeighbors, setCells, setEnds, states.
  simpl. by rewrite Hw, Hh.
Qed.

End Replay.

Lemma erodeTimes_fields k m :
  1 ≤ width m → length (cells m) = width m * height m →
  ∃ m', erodeTimes k m = Ok m' ∧
        neighbors m' = neighbors m ∧ randomSeed m' = randomSeed m.
Proof.
  revert m. induction k as [|k IH]; intros m Hw Hlen; simpl.
  - by exists m.
  - rewrite ErodeWalls_spec by done. simpl.
    destruct (IH (setCells (erodeSpec (width m) (height m) (cells m)
                              (cells m)) m)) as (m' & -> & Hn & Hs).
    + done.
    + simpl. by rewrite erodeSpec_length.
    + by exists m'.
Qed.

Lemma setEnds_same m : setEnds (startCellIndex m) (endCellIndex m) m = m.
Proof. by destruct m. Qed.

(** Regeneration of a grid that has been generated before, from any
    state of its walls. *)
Lemma regenerate_again `{Rand} fuel seed m m1 m2 :
  valid m → enoughFuel (cellCount m) ≤ fuel →
  RegenerateFromSeed fuel seed m = Ok m1 →
  valid m2 → sameFrame m1 m2 → sameEnds m1 m2 →
  RegenerateFromSeed fuel seed m2 = Ok m1.
Proof.
  intros Hvalid Hfuel Hrun Hvalid2 Hfr2 [Hs2 He2].
  destruct (regenerateLoop_spec fuel seed m Hvalid Hfuel)
    as (m' & h' & Hloop & _ & _ & Hfr & _).
  unfold RegenerateFromSeed in Hrun. rewrite Hloop in Hrun. simpl in Hrun.
  assert (sameFrame m m2) as Hfr02.
  { eapply sameFrame_trans; [exact Hfr|].
    destruct (startCellIndex m' =? -1)%Z; by injection Hrun as <-. }
  unfold RegenerateFromSeed.
  rewrite (regenerateLoop_frame fuel seed m m2 Hvalid Hvalid2 Hfr02), Hloop.
  simpl. rewrite Hs2, He2.
  destruct (Z.eqb_spec (startCellIndex m') (-1)) as [Heq|Hne];
    injection Hrun as <-; simpl.
  - done.
  - destruct (Z.eqb_spec (startCellIndex m') (-1)) as [|_]; [done|].
    by rewrite setEnds_same.
Qed.

(** X8.  The seed that [RegenerateFromSeed] records in the grid brings
    the maze back: on any valid grid with the dimensions, the cell
    states and the two ends of the generated grid, whatever its walls,
    [RegenerateFromSeed] with the same seed returns the generated grid
    again; so it does on the grid that any number of calls of
    [ErodeWalls] leave, with the seed read from that grid. *)
Theorem X8_regeneration_replays `{Rand} (fuel : nat) (seed : Z)
    (m : GridMaze) :
  valid m → enoughFuel (cellCount m) ≤ fuel →
  ∃ m1, RegenerateFromSeed fuel seed m = Ok m1 ∧ randomSeed m1 = seed ∧
        (∀ m2, valid m2 → sameFrame m1 m2 → sameEnds m1 m2 →
               RegenerateFromSeed fuel seed m2 = Ok m1) ∧
        ∀ k, ∃ m2, erodeTimes k m1 = Ok m2 ∧
                   RegenerateFromSeed fuel (randomSeed m2) m2 = Ok m1.
Proof.
  intros Hvalid Hfuel.
  destruct (RegenerateFromSeed_spec fuel seed m Hvalid Hfuel)
    as (m1 & h1 & Hrun & _ & Hvalid1 & _ & Hseed & _).
  exists m1. split; [done|]. split; [done|]. split.
  - intros m2. by apply (regenerate_again fuel seed m m1 m2).
  - intros k.
    pose proof (valid_width _ Hvalid1) as Hw1.
    pose proof (valid_cells _ Hvalid1) as Hl1.
    destruct (erodeTimes_opens k m1 Hw1 Hl1)
      as (m2 & Hrun2 & Hw2 & Hh2 & Hl2 & Hs2 & He2 & _).
    destruct (erodeTimes_fields k m1 Hw1 Hl1) as (m2' & Hrun2' & Hn2 & Hr2).
    assert (m2' = m2) as -> by congruence.
    exists m2. split; [done|]. rewrite Hr2, Hseed.
    apply (regenerate_again fuel seed m m1 m2); try done.
    split.
    + rewrite Hw2. exact Hw1.
    + rewrite Hh2. exact (valid_height _ Hvalid1).
    + by rewrite Hl2, Hw2, Hh2.
    + rewrite Hn2. exact (valid_neighbors _ Hvalid1).
Qed.

Lemma X8_regeneration_replays_witness :
  valid holed3x3 ∧
  ∃ m1, @RegenerateFromSeed lcg 20 1 holed3x3 = Ok m1 ∧ randomSeed m1 = 1%Z ∧
        (∀ m2, valid m2 → sameFrame m1 m2 → sameEnds m1 m2 →
               @RegenerateFromSeed lcg 20 1 m2 = Ok m1) ∧
        ∀ k, ∃ m2, erodeTimes k m1 = Ok m2 ∧
                   @RegenerateFromSeed lcg 20 (randomSeed m2) m2 = Ok m1.
Proof.
  split; [exact holed3x3_valid|].
  apply (@X8_regeneration_replays lcg 20 1 holed3x3).
  - exact holed3x3_valid.
  - vm_compute. lia.
Defined.

(** ** Making a grid *)

Lemma allNormal_frame m m' : sameFrame m m' → allNormal m → allNormal m'.
Proof.
  intros (_ & _ & Hst) Hn i c Hc.
  pose proof (states_cell _ _ _ Hc) as Hsc. rewrite Hst in Hsc.
  apply states_lookup in Hsc as (c0 & Hc0 & <-). by apply (Hn i).
Qed.

(** X9.  [NewGridMazeWithSeed] fails with [width and height must be at
    least 1] exactly when one of the two is below 1, and with [The maze's
    size was too big] exactly when both are at least 1 and their 64-bit
    product is not positive.  When the product fits an [int] it returns
    a grid of that width and height with every cell in the normal state,
    the start cell in the first and the end cell in the last position,
    and the seed recorded: the given one when it is positive, the clock
    otherwise.  Generation itself never fails. *)
Theorem X9_new_grid_maze `{Rand} (fuel : nat) (now w h seed : Z) :
  (NewGridMazeWithSeed fuel now w h seed = Err ErrDimensions
   ↔ (w < 1 ∨ h < 1)%Z) ∧
  (NewGridMazeWithSeed fuel now w h seed = Err ErrTooBig
   ↔ (1 ≤ w ∧ 1 ≤ h ∧ wrap64 (w * h) ≤ 0)%Z) ∧
  ((1 ≤ w)%Z → (1 ≤ h)%Z → (w * h < 2 ^ 63)%Z →
   enoughFuel (Z.to_nat (w * h)) ≤ fuel →
   ∃ m, NewGridMazeWithSeed fuel now w h seed = Ok m ∧ valid m ∧
        width m = Z.to_nat w ∧ height m = Z.to_nat h ∧ allNormal m ∧
        startCellIndex m = 0%Z ∧ endCellIndex m = (w * h - 1)%Z ∧
        randomSeed m = if (seed <=? 0)%Z then now else seed).
Proof.
  assert (∀ (r : result GridMaze) e,
            (∀ e', e ≠ ErrGenerating e') → wrapErr ErrGenerating r ≠ Err e)
    as Hwrap.
  { intros [m|e'| |] e He; simpl; try done. intros [= <-]. by eapply He. }
  split; [|split].
  - unfold NewGridMazeWithSeed, allocateMaze.
    destruct (Z.ltb_spec w 1), (Z.ltb_spec h 1); simpl;
      try (split; intros; first [done|lia]).
    destruct (Z.leb_spec (wrap64 (w * h)) 0); simpl.
    + split; [done|lia].
    + simpl. split; [|lia]. intros Hr. by eapply Hwrap in Hr.
  - unfold NewGridMazeWithSeed, allocateMaze.
    destruct (Z.ltb_spec w 1), (Z.ltb_spec h 1); simpl;
      try (split; intros; first [done|lia]).
    destruct (Z.leb_spec (wrap64 (w * h)) 0); simpl.
    + split; [lia|done].
    + simpl. split; [|lia]. intros Hr. by eapply Hwrap in Hr.
  - intros Hw Hh Hfit Hfuel. unfold NewGridMazeWithSeed.
    rewrite (allocateMaze_spec w h Hw Hh Hfit). simpl.
    set (m0 := Maze _ _ _ _ _ _ _).
    destruct (allocateMaze_valid w h m0 Hw Hh Hfit
                (allocateMaze_spec w h Hw Hh Hfit)) as (Hvalid & Hs0 & Hz).
    assert (cellCount m0 = Z.to_nat (w * h)) as Hcount.
    { unfold cellCount, m0. simpl. rewrite length_replicate.
      rewrite Z2Nat.inj_mul by lia. done. }
    set (seed' := if (seed <=? 0)%Z then now else seed).
    destruct (RegenerateFromSeed_spec fuel seed' m0 Hvalid
                ltac:(by rewrite Hcount))
      as (m & hp & -> & _ & Hvalid' & Hfr & Hseed & Hends).
    simpl. exists m. rewrite Hs0 in Hends. simpl in Hends.
    destruct Hends as [Hs He]. pose proof Hfr as (Hwm & Hhm & _).
    splitAll; try done.
    + apply (allNormal_frame m0 m Hfr). intros i c Hc.
      by rewrite (Hz i c Hc).
    + rewrite He, Hcount. lia.
Qed.

Lemma X9_new_grid_maze_witness :
  ∃ m, @NewGridMazeWithSeed lcg 14 0 2 3 7 = Ok m ∧ valid m ∧
       width m = Z.to_nat 2 ∧ height m = Z.to_nat 3 ∧ allNormal m ∧
       startCellIndex m = 0%Z ∧ endCellIndex m = (2 * 3 - 1)%Z ∧
       randomSeed m = if (7 <=? 0)%Z then 0%Z else 7%Z.
Proof.
  apply (proj2 (proj2 (@X9_new_grid_maze lcg 14 0 2 3 7)));
    [lia|lia|lia|vm_compute; lia].
Defined.

(** The 2x3 grid made with the seed 7. *)
Example new_2x3 :
  (m ← @NewGridMazeWithSeed lcg 14 0 2 3 7;
   Ok (width m, height m, states m, startCellIndex m, endCellIndex m,
       randomSeed m))
  = Ok (2, 3, [0; 0; 0; 0; 0; 0], 0%Z, 5%Z, 7%Z).
Proof. reflexivity. Qed.

(** ** The template loader *)

Lemma foldM_map {A A' B} (f : B → A → result B) (g : A' → A) (l : list A')
    (b : B) :
  foldM f (map g l) b = foldM (λ b a, f b (g a)) l b.
Proof.
  revert b. induction l as [|a l IH]; intros b; simpl; [done|].
  destruct (f b (g a)); simpl; auto.
Qed.

Lemma templateCells_length p k n : k ≤ n → length (templateCells p k n) = n.
Proof.
  intros Hk. unfold templateCells.
  rewrite length_app, length_map, length_seq, length_replicate. lia.
Qed.

Lemma templateCells_S p k n :
  k < n →
  templateCells p (S k) n
  = alter (λ c, if colorToTemplateCellType (pixelOf p k) =? 1
                then setCellState 2 c else c) k (templateCells p k n).
Proof.
  intros Hk. unfold templateCells.
  rewrite seq_S, map_app. simpl.
  replace (n - k) with (S (n - S k)) by lia. simpl.
  rewrite <- app_assoc. simpl.
  rewrite alter_app_r_alt by (rewrite length_map, length_seq; lia).
  rewrite length_map, length_seq, Nat.sub_diag. simpl.
  by destruct (colorToTemplateCellType (pixelOf p k) =? 1).
Qed.

Lemma candidates_S t p k :
  candidates t p (S k)
  = candidates t p k
    ++ (if colorToTemplateCellType (pixelOf p k) =? t then [k] else []).
Proof. unfold candidates. by rewrite seq_S, List.filter_app. Qed.

Lemma candidates_elem t p k i :
  i ∈ candidates t p k ↔ i < k ∧ colorToTemplateCellType (pixelOf p i) = t.
Proof.
  unfold candidates. rewrite list_elem_of_In, List.filter_In, in_seq.
  rewrite Nat.eqb_eq. lia.
Qed.

(** One pixel: the cell [k] read from its pixel. *)
Lemma templateCell_spec p k n :
  k < n →
  templateCell (colorToTemplateCellType (pixelOf p k)) k
    (templateCells p k n, candidates 2 p k, candidates 3 p k)
  = Ok (templateCells p (S k) n, candidates 2 p (S k), candidates 3 p (S k)).
Proof.
  intros Hk. rewrite templateCells_S, !candidates_S by done.
  pose proof (classify_range (pixelOf p k)) as Hr.
  pose proof (templateCells_length p k n ltac:(lia)) as Hlen.
  destruct (colorToTemplateCellType (pixelOf p k)) as [|[|[|[|t]]]];
    simpl; try lia.
  - by rewrite !app_nil_r, list_alter_id.
  - destruct (at_lt (templateCells p k n) k ltac:(lia)) as [c ->]. simpl.
    by rewrite !app_nil_r.
  - by rewrite !app_nil_r, list_alter_id.
  - by rewrite !app_nil_r, list_alter_id.
Qed.

Lemma pixelOf_rowcol p row col :
  col < Z.to_nat (maxX p - minX p) →
  pixelOf p (row * Z.to_nat (maxX p - minX p) + col)
  = At p (minX p + Z.of_nat col) (minY p + Z.of_nat row).
Proof.
  intros Hc. unfold pixelOf. by rewrite rowcol_mod, rowcol_div.
Qed.

(** The loops of [NewGridMazeFromTemplate] over the pixels. *)
Lemma templateFold_spec p :
  let w := Z.to_nat (maxX p - minX p) in
  let h := Z.to_nat (maxY p - minY p) in
  foldM (λ st row,
           foldM (templatePixel colorToTemplateCellType p row)
             (zrange (minX p) (maxX p)) st)
    (zrange (minY p) (maxY p)) (0, (replicate (w * h) zeroCell, [], []))
  = Ok (w * h, (templateCells p (w * h) (w * h),
                candidates 2 p (w * h), candidates 3 p (w * h))).
Proof.
  intros w h. set (n := w * h).
  set (g := λ k, (k, (templateCells p k n, candidates 2 p k,
                      candidates 3 p k))).
  unfold zrange. rewrite foldM_map. fold w h.
  change (Ok (n, (templateCells p n n, candidates 2 p n, candidates 3 p n)))
    with (Ok (g n)).
  pose proof (foldM_seq_Ok
    (λ st row,
       foldM (templatePixel colorToTemplateCellType p
                (minY p + Z.of_nat row)%Z)
         (map (λ k : nat, (minX p + Z.of_nat k)%Z) (seq 0 w)) st)
    (λ j, g (j * w)) 0 h (0, (replicate n zeroCell, [], []))) as Hout.
  simpl in Hout. replace (h * w) with n in Hout by (unfold n; lia).
  apply Hout; clear Hout.
  { unfold g, templateCells, candidates. simpl. by rewrite Nat.sub_0_r. }
  intros j Hj. rewrite foldM_map.
  pose proof (foldM_seq_Ok
    (λ st col,
       templatePixel colorToTemplateCellType p (minY p + Z.of_nat j)%Z st
         (minX p + Z.of_nat col)%Z)
    (λ t, g (j * w + t)) 0 w (g (j * w))) as Hin.
  simpl in Hin. rewrite Nat.add_0_r in Hin.
  replace (w + j * w) with (j * w + w) by lia.
  apply Hin; clear Hin; [done|].
  intros t Ht.
  change (templateCell
            (colorToTemplateCellType
               (At p (minX p + Z.of_nat t)%Z (minY p + Z.of_nat j)%Z))
            (j * w + t)
            (templateCells p (j * w + t) n, candidates 2 p (j * w + t),
             candidates 3 p (j * w + t))
          ≫= (λ st', Ok (j * w + t + 1, st'))
          = Ok (g (j * w + S t))).
  rewrite <- (pixelOf_rowcol p j t) by (fold w; lia). fold w.
  rewrite (templateCell_spec p (j * w + t) n) by (unfold n; nia).
  unfold g. replace (j * w + S t) with (S (j * w + t)) by lia.
  replace (j * w + t + 1) with (S (j * w + t)) by lia. reflexivity.
Qed.

Lemma templateCells_lookup p n i :
  i < n →
  templateCells p n n !! i
  = Some (if colorToTemplateCellType (pixelOf p i) =? 1
          then setCellState 2 zeroCell else zeroCell).
Proof.
  intros Hi. unfold templateCells.
  rewrite lookup_app_l by (rewrite length_map, length_seq; lia).
  rewrite list_lookup_fmap, lookup_seq_lt by done. done.
Qed.

Lemma candidates_nil t p n :
  candidates t p n = [] →
  ∀ i, i < n → colorToTemplateCellType (pixelOf p i) ≠ t.
Proof.
  intros Hnil i Hi Ht.
  assert (i ∈ candidates t p n) as Hin by by apply candidates_elem.
  rewrite Hnil in Hin. by apply elem_of_nil in Hin.
Qed.

Lemma candidates_green p n i :
  i ∈ candidates 2 p n → i < n ∧ isGreen (pixelOf p i).
Proof. intros [Hi Ht]%candidates_elem. by apply classify_green in Ht. Qed.

Lemma candidates_red p n i :
  i ∈ candidates 3 p n → i < n ∧ isRed (pixelOf p i).
Proof. intros [Hi Ht]%candidates_elem. by apply classify_red in Ht. Qed.

Lemma no_green p n : candidates 2 p n = [] → ¬ hasGreen p n.
Proof.
  intros Hnil (i & Hi & Hg). apply classify_green in Hg.
  by apply (candidates_nil 2 p n Hnil i Hi).
Qed.

Lemma no_red p n : candidates 3 p n = [] → ¬ hasRed p n.
Proof.
  intros Hnil (i & Hi & Hg). apply classify_red in Hg.
  by apply (candidates_nil 3 p n Hnil i Hi).
Qed.

Lemma templateCells_state p n i c :
  templateCells p n n !! i = Some c →
  i < n ∧
  (isBlack (pixelOf p i) ∧ state c = 2 ∨
   ¬ isBlack (pixelOf p i) ∧ state c = 0).
Proof.
  intros Hc. pose proof (lookup_lt_Some _ _ _ Hc) as Hi.
  rewrite templateCells_length in Hi by done. split; [done|].
  rewrite (templateCells_lookup p n i Hi) in Hc. injection Hc as <-.
  rewrite <- classify_black.
  destruct (Nat.eqb_spec (colorToTemplateCellType (pixelOf p i)) 1);
    [by left|by right].
Qed.

Section TemplateProofs.

Context `{Rand}.

(** The choice of an end of the maze: one of the candidates, or the
    corner cell [j] when there is none and it is not excluded. *)
Lemma choose_spec (rng : rngState) (a : list nat) (cs : list gridMazeCell)
    (j : nat) (z : Z) (err : error) c :
  cs !! j = Some c →
  match (if negb (length a =? 0) then
           '(k, rng) ← rngIntn rng (length a);
           i ← at_ a k;
           Ok (Z.of_nat i, rng)
         else
           c ← at_ cs j;
           if state c =? 2 then Err err else Ok (z, rng)) with
  | Ok (z', _) =>
      (∃ i, z' = Z.of_nat i ∧ i ∈ a) ∨ (a = [] ∧ z' = z ∧ state c ≠ 2)
  | Err e => e = err ∧ a = [] ∧ state c = 2
  | _ => False
  end.
Proof.
  intros Hc. destruct (Nat.eqb_spec (length a) 0) as [Hz|Hnz]; simpl.
  - apply nil_length_inv in Hz. rewrite (at_lookup _ _ _ Hc). simpl.
    destruct (Nat.eqb_spec (state c) 2); [done|]. right. done.
  - unfold rngIntn. destruct (Nat.eqb_spec (length a) 0) as [|_]; [done|].
    simpl. pose proof (Intn_lt rng (length a) ltac:(lia)) as Hlt.
    destruct (Intn rng (length a)) as [k rng']. simpl in *.
    destruct (lookup_lt_is_Some_2 a k Hlt) as [i Hi].
    rewrite (at_lookup _ _ _ Hi). simpl. left. exists i. split; [done|].
    by eapply list_elem_of_lookup_2.
Qed.

(** X10.  [NewGridMazeFromTemplate] on a picture that is not empty and
    whose pixel count fits an [int].  It returns a grid with one cell for
    every pixel, the rows from top to bottom and each row from left to
    right: the cells of the black pixels are excluded and all others are
    in the normal state; the start cell is the cell of a green pixel when
    the picture has one and the first cell otherwise, the end cell the
    cell of a red pixel when the picture has one and the last cell
    otherwise; neither is excluded.  It fails only when the picture has
    no green pixel and its first pixel is black, or no red pixel and its
    last pixel is black. *)
Theorem X10_template_loader (fuel : nat) (now : Z) (p : Image) (seed : Z) :
  fitsInt p → (minX p < maxX p)%Z → (minY p < maxY p)%Z →
  enoughFuel (templateCount p) ≤ fuel →
  match NewGridMazeFromTemplate fuel now p seed with
  | Ok m =>
      width m = templateWidth p ∧ height m = templateHeight p ∧
      valid m ∧ validEnds m ∧
      (∀ i c, cells m !! i = Some c →
         isBlack (pixelOf p i) ∧ state c = 2 ∨
         ¬ isBlack (pixelOf p i) ∧ state c = 0) ∧
      (hasGreen p (templateCount p) → isGreen (pixelOf p (startCell m))) ∧
      (¬ hasGreen p (templateCount p) → startCell m = 0) ∧
      (hasRed p (templateCount p) → isRed (pixelOf p (endCell m))) ∧
      (¬ hasRed p (templateCount p) → endCell m = templateCount p - 1) ∧
      free m (startCell m) ∧ free m (endCell m)
  | Err e =>
      e = ErrNoStart ∧ ¬ hasGreen p (templateCount p) ∧
      isBlack (pixelOf p 0) ∨
      e = ErrNoEnd ∧ ¬ hasRed p (templateCount p) ∧
      isBlack (pixelOf p (templateCount p - 1))
  | _ => False
  end.
Proof.
  intros (_ & _ & Hfit) Hx Hy Hfuel.
  unfold NewGridMazeFromTemplate, newFromTemplate.
  rewrite (allocateMaze_spec (maxX p - minX p) (maxY p - minY p)
             ltac:(lia) ltac:(lia) Hfit).
  cbn [mbind result_bind bind cells].
  pose proof (templateFold_spec p) as Hfold. cbn zeta in Hfold.
  rewrite Hfold. clear Hfold.
  cbn [mbind result_bind bind].
  fold (templateWidth p) (templateHeight p). fold (templateCount p).
  assert (1 ≤ templateWidth p) as Hw by (unfold templateWidth; lia).
  assert (1 ≤ templateHeight p) as Hh by (unfold templateHeight; lia).
  assert (1 ≤ templateCount p) as Hn by (unfold templateCount; nia).
  set (n := templateCount p) in *.
  set (cs := templateCells p n n).
  set (seed' := if (seed <=? 0)%Z then now else seed).
  assert (length cs = n) as Hlen by by apply templateCells_length.
  destruct (lookup_lt_is_Some_2 cs 0 ltac:(lia)) as [c0 Hc0].
  destruct (lookup_lt_is_Some_2 cs (length cs - 1) ltac:(lia)) as [c1 Hc1].
  pose proof (templateCells_state p n 0 c0 Hc0) as [_ Hs0].
  pose proof (templateCells_state p n _ c1 Hc1) as [_ Hs1].
  rewrite Hlen in Hs1.
  pose proof (choose_spec (NewSource seed') (candidates 2 p n) cs 0 0%Z
                ErrNoStart c0 Hc0) as Hstart.
  match type of Hstart with
  | match ?x with _ => _ end => destruct x as [[zs rng1]|e| |]
  end; [|left|done|done].
  2:{ destruct Hstart as (-> & Hnil & Hst). split; [done|].
      split; [by apply no_green|]. destruct Hs0 as [[? _]|[_ ?]]; [done|lia]. }
  cbn [mbind result_bind bind].
  pose proof (choose_spec rng1 (candidates 3 p n) cs (length cs - 1)
                (Z.of_nat (length cs) - 1)%Z ErrNoEnd c1 Hc1) as Hend.
  match type of Hend with
  | match ?x with _ => _ end => destruct x as [[ze rng2]|e| |]
  end; [|right|done|done].
  2:{ destruct Hend as (-> & Hnil & Hst). split; [done|].
      split; [by apply no_red|]. destruct Hs1 as [[? _]|[_ ?]]; [done|lia]. }
  cbn [mbind result_bind bind].
  set (m0 := setEnds zs ze _).
  assert (∃ s, zs = Z.of_nat s ∧ s < n ∧
               (hasGreen p n → isGreen (pixelOf p s)) ∧
               (¬ hasGreen p n → s = 0) ∧
               ∃ c, cs !! s = Some c ∧ state c ≠ 2) as (s & -> & Hsn & Hsg & Hsz & Hsf).
  { destruct Hstart as [(i & -> & Hi)|(Hnil & -> & Hst)].
    - destruct (candidates_green p n i Hi) as [Hin Hg].
      exists i. splitAll; try done.
      + intros Hno. exfalso. apply Hno. by exists i.
      + destruct (lookup_lt_is_Some_2 cs i ltac:(lia)) as [c Hc].
        exists c. split; [done|].
        destruct (templateCells_state p n i c Hc) as [_ [[Hb _]|[_ ->]]];
          [|lia].
        apply classify_black in Hb. apply classify_green in Hg. congruence.
    - exists 0. splitAll; try done; try lia.
      + intros Hg. by apply no_green in Hg.
      + by exists c0. }
  assert (∃ e, ze = Z.of_nat e ∧ e < n ∧
               (hasRed p n → isRed (pixelOf p e)) ∧
               (¬ hasRed p n → e = n - 1) ∧
               ∃ c, cs !! e = Some c ∧ state c ≠ 2) as (e & -> & Hen & Heg & Hez & Hef).
  { destruct Hend as [(i & -> & Hi)|(Hnil & -> & Hst)].
    - destruct (candidates_red p n i Hi) as [Hin Hg].
      exists i. splitAll; try done.
      + intros Hno. exfalso. apply Hno. by exists i.
      + destruct (lookup_lt_is_Some_2 cs i ltac:(lia)) as [c Hc].
        exists c. split; [done|].
        destruct (templateCells_state p n i c Hc) as [_ [[Hb _]|[_ ->]]];
          [|lia].
        apply classify_black in Hb. apply classify_red in Hg. congruence.
    - exists (n - 1). rewrite Hlen. splitAll; try done; try lia.
      + intros Hg. by apply no_red in Hg.
      + exists c1. by rewrite Hlen in Hc1. }
  assert (valid m0) as Hvalid0 by (split; simpl; try done; by rewrite Hlen).
  destruct (RegenerateFromSeed_spec fuel seed' m0 Hvalid0)
    as (m & hp & -> & _ & Hvalid & Hfr & _ & Hends).
  { unfold cellCount. simpl. by rewrite Hlen. }
  simpl in Hends.
  destruct (Z.eqb_spec (Z.of_nat s) (-1)) as [|_]; [lia|].
  destruct (sameEnds_cells _ _ Hends) as [Hsc Hec].
  unfold m0, startCell, endCell in Hsc, Hec. simpl in Hsc, Hec.
  rewrite Nat2Z.id in Hsc, Hec.
  fold (startCell m) in Hsc. fold (endCell m) in Hec.
  simpl. rewrite Hsc, Hec. destruct Hfr as (Hwm & Hhm & Hst).
  assert (length (cells m) = n) as Hlm.
  { apply (f_equal length) in Hst. unfold states in Hst.
    rewrite !length_map in Hst. simpl in Hst. congruence. }
  assert (∀ i c, cells m !! i = Some c →
            ∃ c', cs !! i = Some c' ∧ state c' = state c) as Hcell.
  { intros i c Hc. pose proof (states_cell _ _ _ Hc) as Hsc'.
    rewrite Hst in Hsc'. by apply states_lookup in Hsc'. }
  assert (∀ i c', cs !! i = Some c' → state c' ≠ 2 → free m i) as Hfree.
  { intros i c' Hc' Hne. apply free_states. exists (state c').
    split; [|done]. rewrite Hst. unfold states. simpl.
    by rewrite list_lookup_fmap, Hc'. }
  splitAll; try done.
  - destruct Hends as [Hzs Hze]. unfold validEnds.
    rewrite Hzs, Hze, Hlm. simpl. lia.
  - intros i c Hc. destruct (Hcell i c Hc) as (c' & Hc' & <-).
    by destruct (templateCells_state p n i c' Hc').
  - destruct Hsf as (c & Hc & Hne). by apply (Hfree s c).
  - destruct Hef as (c & Hc & Hne). by apply (Hfree e c).
Qed.

End TemplateProofs.

Lemma X10_template_loader_witness :
  fitsInt cornerPicture ∧
  match @NewGridMazeFromTemplate lcg 10 1 cornerPicture 1 with
  | Ok m =>
      width m = templateWidth cornerPicture ∧
      height m = templateHeight cornerPicture ∧
      valid m ∧ validEnds m ∧
      (∀ i c, cells m !! i = Some c →
         isBlack (pixelOf cornerPicture i) ∧ state c = 2 ∨
         ¬ isBlack (pixelOf cornerPicture i) ∧ state c = 0) ∧
      (hasGreen cornerPicture (templateCount cornerPicture) →
       isGreen (pixelOf cornerPicture (startCell m))) ∧
      (¬ hasGreen cornerPicture (templateCount cornerPicture) →
       startCell m = 0) ∧
      (hasRed cornerPicture (templateCount cornerPicture) →
       isRed (pixelOf cornerPicture (endCell m))) ∧
      (¬ hasRed cornerPicture (templateCount cornerPicture) →
       endCell m = templateCount cornerPicture - 1) ∧
      free m (startCell m) ∧ free m (endCell m)
  | Err e =>
      e = ErrNoStart ∧ ¬ hasGreen cornerPicture (templateCount cornerPicture) ∧
      isBlack (pixelOf cornerPicture 0) ∨
      e = ErrNoEnd ∧ ¬ hasRed cornerPicture (templateCount cornerPicture) ∧
      isBlack (pixelOf cornerPicture (templateCount cornerPicture - 1))
  | _ => False
  end.
Proof.
  assert (fitsInt cornerPicture) as Hfit
    by (vm_compute; repeat split; congruence).
  split; [exact Hfit|].
  apply (@X10_template_loader lcg 10 1 cornerPicture 1).
  - exact Hfit.
  - reflexivity.
  - reflexivity.
  - vm_compute. lia.
Defined.

(** The grid of the picture with a green, a red and a black pixel: the
    start cell is the green one, the end cell the red one, and the cell
    of the black pixel is excluded. *)
Example load_cornerPicture :
  (m ← @NewGridMazeFromTemplate lcg 10 1 cornerPicture 1;
   Ok (states m, startCellIndex m, endCellIndex m))
  = Ok ([0; 0; 0; 2], 1%Z, 2%Z).
Proof. reflexivity. Qed.


(** * Drawing *)

(** One test of a drawing function, from the outside in. *)
Ltac caseIf :=
  lazymatch goal with
  | |- (if (?a =? ?b)%Z then _ else _) = _ ↔ _ =>
      destruct (Z.eqb_spec a b)
  | |- (if negb (?a =? ?b) then _ else _) = _ ↔ _ =>
      destruct (Nat.eqb_spec a b); cbn [negb]
  | |- (if ?a =? ?b then _ else _) = _ ↔ _ =>
      destruct (Nat.eqb_spec a b)
  | |- (if ?b then _ else _) = _ ↔ _ =>
      let E := fresh "E" in
      destruct b eqn:E;
      rewrite ?orb_true_iff, ?orb_false_iff, ?andb_true_iff, ?andb_false_iff,
        ?Z.gtb_ltb, ?Z.geb_leb, ?Z.ltb_lt, ?Z.ltb_ge, ?Z.leb_le, ?Z.leb_gt
        in E
  end; cbv iota.

Ltac drawCases c :=
  unfold cellAt, cornerSet, inCell, onWall, cellPixels;
  destruct c as [[l t r b] s dj]; cbn [flag walls state wLeft wTop wRight
    wBottom Z.to_nat Z.add Z.ltb Z.gtb Z.eqb Z.compare orb Pos.to_nat
    Pos.iter_op Nat.add Pos.add Pos.succ Pos.compare Pos.compare_cont Z.sub
    Z.opp Z.pos_sub Z.succ_double Z.pred_double Z.double Pos.pred_double];
  repeat caseIf.

Lemma cellAt_transparent c x y :
  cellAt c x y = Transparent ↔ ¬ inCell x y.
Proof. drawCases c; split; try discriminate; try done; lia. Qed.

Lemma cellAt_red c x y :
  cellAt c x y = SolutionRed ↔
  state c = 1 ∧ (2 ≤ x ≤ cellPixels - 3)%Z ∧ (2 ≤ y ≤ cellPixels - 3)%Z.
Proof. drawCases c; split; try discriminate; try done; lia. Qed.

Lemma cellAt_black c x y :
  cellAt c x y = Black ↔
  inCell x y ∧ state c ≠ 2 ∧
  (flag c 0 = true ∧ x = 0%Z ∨ flag c 1 = true ∧ y = 0%Z ∨
   flag c 2 = true ∧ x = (cellPixels - 1)%Z ∨
   flag c 3 = true ∧ y = (cellPixels - 1)%Z).
Proof.
  drawCases c; simpl in *; destruct l, t, r, b; simpl in *;
    (split; [try discriminate; intros _|try done]);
    intuition (try discriminate; try congruence; try lia).
Qed.

(** X11.  What [gridMazeCell.At] draws, for any cell and any
    coordinates: the pixel is transparent exactly outside the 9x9 square
    of the cell; it is black exactly when the cell is not excluded and
    the pixel lies on a wall of the cell that is set, the corner pixels
    lying on two walls; it has the red of the solution exactly when the
    cell is on the solution path and the pixel is at least two pixels
    away from every edge; so an excluded cell is drawn blank. *)
Theorem X11_cell_drawing (c : gridMazeCell) (x y : Z) :
  (cellAt c x y = Transparent ↔ ¬ inCell x y) ∧
  (cellAt c x y = Black ↔
   inCell x y ∧ state c ≠ 2 ∧
   ∃ d, d ≤ 3 ∧ flag c d = true ∧ onWall d x y) ∧
  (cellAt c x y = SolutionRed ↔
   state c = 1 ∧ (2 ≤ x ≤ cellPixels - 3)%Z ∧ (2 ≤ y ≤ cellPixels - 3)%Z) ∧
  (state c = 2 → inCell x y → cellAt c x y = White).
Proof.
  split; [apply cellAt_transparent|]. split; [|split; [apply cellAt_red|]].
  - rewrite cellAt_black. split.
    + intros (Hin & Hs & Hw). split; [done|]. split; [done|].
      destruct Hw as [[? ?]|[[? ?]|[[? ?]|[? ?]]]];
        [exists 0|exists 1|exists 2|exists 3]; simpl; split_and!;
        try done; lia.
    + intros (Hin & Hs & d & Hd & Hf & Hon). split; [done|]. split; [done|].
      do 4 (try destruct d as [|d]); simpl in Hon; try lia; tauto.
  - intros Hs Hin.
    pose proof (cellAt_transparent c x y) as Ht.
    pose proof (cellAt_black c x y) as Hb.
    pose proof (cellAt_red c x y) as Hr.
    destruct (cellAt c x y); try done.
    + exfalso. by apply (proj1 Ht).
    + exfalso. destruct (proj1 Hb eq_refl) as (_ & Hne & _). done.
    + exfalso. destruct (proj1 Hr eq_refl) as (Hone & _). lia.
Qed.

(** ** The picture of the grid *)

Lemma quot_cell a d :
  (0 ≤ a)%Z → (0 ≤ d < cellPixels)%Z →
  ((cellPixels * a + d) ÷ cellPixels = a)%Z ∧
  (Z.rem (cellPixels * a + d) cellPixels = d)%Z.
Proof.
  unfold cellPixels. intros Ha Hd.
  rewrite Z.quot_div_nonneg, Z.rem_mod_nonneg by lia.
  split.
  - symmetry. apply (Z.div_unique_pos _ _ a d); lia.
  - symmetry. apply (Z.mod_unique_pos _ _ a d); lia.
Qed.

Lemma getCell_index m row col :
  1 ≤ width m → length (cells m) = width m * height m → fitsImage m →
  col < width m → row < height m →
  getCell m (Z.of_nat row) (Z.of_nat col)
  = at_ (cells m) (row * width m + col).
Proof.
  intros Hw Hlen (_ & _ & Hfit) Hc Hr. unfold getCell.
  assert (Z.of_nat row * Z.of_nat (width m) + Z.of_nat col
          < Z.of_nat (width m) * Z.of_nat (height m))%Z as Hlt by nia.
  rewrite (wrap64_small (Z.of_nat row * Z.of_nat (width m))) by nia.
  rewrite wrap64_small by nia.
  unfold toIndex.
  destruct (Z.ltb_spec (Z.of_nat row * Z.of_nat (width m) + Z.of_nat col) 0);
    [lia|].
  simpl. f_equal. lia.
Qed.

Lemma mazeAt_inside m x y :
  1 ≤ width m → length (cells m) = width m * height m → fitsImage m →
  inPicture m x y →
  ∃ c, cells m !! (Z.to_nat (y ÷ cellPixels) * width m
                   + Z.to_nat (x ÷ cellPixels)) = Some c ∧
       mazeAt m x y
       = Ok (cellAt c (Z.rem x cellPixels) (Z.rem y cellPixels)).
Proof.
  intros Hw Hlen Hfit [Hx Hy]. pose proof Hfit as (Hfw & Hfh & _).
  unfold cellPixels in *. unfold mazeAt, cellPixels.
  rewrite !wrap64_small by lia.
  destruct (Z.ltb_spec x 0) as [|_]; [lia|].
  destruct (Z.ltb_spec y 0) as [|_]; [lia|].
  rewrite !Z.geb_leb.
  destruct (Z.leb_spec (Z.of_nat (width m) * 9) x) as [|_]; [lia|].
  destruct (Z.leb_spec (Z.of_nat (height m) * 9) y) as [|_]; [lia|].
  cbn [orb].
  assert (0 ≤ x ÷ 9 < Z.of_nat (width m))%Z as Hcol.
  { rewrite Z.quot_div_nonneg by lia. split; [apply Z.div_pos; lia|].
    apply Z.div_lt_upper_bound; lia. }
  assert (0 ≤ y ÷ 9 < Z.of_nat (height m))%Z as Hrow.
  { rewrite Z.quot_div_nonneg by lia. split; [apply Z.div_pos; lia|].
    apply Z.div_lt_upper_bound; lia. }
  pose proof (getCell_index m (Z.to_nat (y ÷ 9)) (Z.to_nat (x ÷ 9))
                Hw Hlen Hfit ltac:(lia) ltac:(lia)) as Hget.
  rewrite !Z2Nat.id in Hget by lia. rewrite Hget.
  destruct (at_lt (cells m)
              (Z.to_nat (y ÷ 9) * width m + Z.to_nat (x ÷ 9))) as [c Hc].
  { rewrite Hlen. apply (rowcol_lt (width m) (height m)); lia. }
  exists c. split; [by apply at_Ok|]. by rewrite Hc.
Qed.

(** X12.  The picture of a grid whose cells fill it.  Its bounds are 9
    pixels for every cell across and down; [GridMaze.At] answers for
    every pair of coordinates, never reaching past the cells, and the
    pixel is transparent exactly outside the bounds; the cell with index
    [i] is drawn by [gridMazeCell.At] in the 9x9 square at column
    [i mod width] and row [i / width], the position that the generator
    and the solver give the index. *)
Theorem X12_maze_drawing (m : GridMaze) :
  1 ≤ width m → length (cells m) = width m * height m → fitsImage m →
  mazeBounds m
  = (0, 0, Z.of_nat (width m) * cellPixels,
     Z.of_nat (height m) * cellPixels)%Z ∧
  (∀ x y, ∃ p, mazeAt m x y = Ok p ∧
               (p = Transparent ↔ ¬ inPicture m x y)) ∧
  (∀ i c dx dy, cells m !! i = Some c → inCell dx dy →
     mazeAt m (cellPixels * Z.of_nat (i mod width m) + dx)
              (cellPixels * Z.of_nat (i / width m) + dy)
     = Ok (cellAt c dx dy)).
Proof.
  intros Hw Hlen Hfit. pose proof Hfit as (Hfw & Hfh & _).
  split; [|split].
  - unfold mazeBounds, imageRect, cellPixels in *.
    rewrite !wrap64_small by lia. f_equal; [f_equal; [f_equal|]|]; lia.
  - intros x y. destruct (decide (inPicture m x y)) as [Hin|Hout].
    + destruct (mazeAt_inside m x y Hw Hlen Hfit Hin) as (c & _ & ->).
      eexists. split; [done|]. rewrite cellAt_transparent.
      pose proof Hin as [Hx Hy]. unfold inCell, cellPixels in *.
      rewrite !Z.rem_mod_nonneg by lia.
      pose proof (Z.mod_pos_bound x 9 ltac:(lia)).
      pose proof (Z.mod_pos_bound y 9 ltac:(lia)).
      split; intros Hn; exfalso; apply Hn; [lia|done].
    + exists Transparent. split; [|done].
      unfold mazeAt, inPicture, cellPixels in *.
      rewrite !wrap64_small by lia. rewrite !Z.geb_leb.
      destruct (Z.ltb_spec x 0); [done|].
      destruct (Z.ltb_spec y 0); [done|].
      destruct (Z.leb_spec (Z.of_nat (width m) * 9) x); [done|].
      destruct (Z.leb_spec (Z.of_nat (height m) * 9) y); [done|]. lia.
  - intros i c dx dy Hc [Hdx Hdy].
    pose proof (lookup_lt_Some _ _ _ Hc) as Hi. rewrite Hlen in Hi.
    pose proof (Nat.mod_upper_bound i (width m) ltac:(lia)) as Hmod.
    pose proof (index_row_lt (width m) (height m) i ltac:(lia) Hi) as Hdiv.
    destruct (quot_cell (Z.of_nat (i mod width m)) dx ltac:(lia) Hdx)
      as [Hqx Hrx].
    destruct (quot_cell (Z.of_nat (i / width m)) dy ltac:(lia) Hdy)
      as [Hqy Hry].
    destruct (mazeAt_inside m
                (cellPixels * Z.of_nat (i mod width m) + dx)
                (cellPixels * Z.of_nat (i / width m) + dy) Hw Hlen Hfit)
      as (c' & Hc' & ->).
    { unfold inPicture, cellPixels in *. lia. }
    rewrite Hqx, Hqy, !Nat2Z.id in Hc'.
    rewrite <- (index_rowcol (width m) i ltac:(lia)) in Hc'.
    rewrite Hrx, Hry. congruence.
Qed.

Lemma stubGrid_fitsImage : fitsImage stubGrid.
Proof. vm_compute. repeat split; congruence. Qed.

Lemma X12_maze_drawing_witness :
  fitsImage stubGrid ∧
  mazeBounds stubGrid
  = (0, 0, Z.of_nat (width stubGrid) * cellPixels,
     Z.of_nat (height stubGrid) * cellPixels)%Z ∧
  (∀ x y, ∃ p, mazeAt stubGrid x y = Ok p ∧
               (p = Transparent ↔ ¬ inPicture stubGrid x y)) ∧
  (∀ i c dx dy, cells stubGrid !! i = Some c → inCell dx dy →
     mazeAt stubGrid (cellPixels * Z.of_nat (i mod width stubGrid) + dx)
              (cellPixels * Z.of_nat (i / width stubGrid) + dy)
     = Ok (cellAt c dx dy)).
Proof.
  split; [exact stubGrid_fitsImage|].
  apply (X12_maze_drawing stubGrid);
    [simpl; lia|reflexivity|exact stubGrid_fitsImage].
Defined.

(** The wall between the two upper cells of that grid, drawn on the
    right edge of the first cell and on the left edge of the second,
    and the open edge below it. *)
Example draw_stubGrid :
  (mazeAt stubGrid 8 4, mazeAt stubGrid 9 4, mazeAt stubGrid 4 8,
   mazeAt stubGrid 8 13, mazeAt stubGrid 18 4)
  = (Ok Black, Ok Black, Ok White, Ok White, Ok Transparent).
Proof. reflexivity. Qed.

(** ** The border *)

(** X13.  [AddImageBorder] with a border that is not negative, on a
    picture whose framed coordinates fit an [int]: the bounds start at
    the origin and are the picture's size plus the border on every side;
    the pixel of the picture at [(x, y)] is found at the same offset
    from the inner corner [(width, width)]; every pixel outside that
    inner rectangle is white. *)
Theorem X13_image_border (pic : Image) (width : Z) :
  fitsBorder pic width →
  (minX (AddImageBorder pic width) = 0 ∧
   minY (AddImageBorder pic width) = 0 ∧
   maxX (AddImageBorder pic width) = maxX pic - minX pic + 2 * width ∧
   maxY (AddImageBorder pic width) = maxY pic - minY pic + 2 * width)%Z ∧
  (∀ x y, inBounds pic x y →
     At (AddImageBorder pic width)
        (x - minX pic + width)%Z (y - minY pic + width)%Z
     = At pic x y) ∧
  (∀ x y, ¬ inBounds pic (x - width + minX pic)%Z (y - width + minY pic)%Z →
     At (AddImageBorder pic width) x y = whitePixel).
Proof.
  intros (Hw & Hx & Hy & Hlx & Hly & Hhx & Hhy).
  unfold AddImageBorder, imageRect.
  rewrite (wrap64_small (maxX pic - minX pic)) by lia.
  rewrite (wrap64_small (maxY pic - minY pic)) by lia.
  rewrite (wrap64_small (width * 2)) by lia.
  rewrite !(wrap64_small (_ - _ + width * 2)) by lia.
  rewrite !(wrap64_small (_ - _ + width)) by lia.
  cbn [minX minY maxX maxY At].
  split; [lia|]. split.
  - intros x y [Hbx Hby]. rewrite !Z.geb_leb.
    destruct (Z.ltb_spec (x - minX pic + width) width); [lia|].
    destruct (Z.ltb_spec (y - minY pic + width) width); [lia|].
    destruct (Z.leb_spec (maxX pic - minX pic + width)
                (x - minX pic + width)); [lia|].
    destruct (Z.leb_spec (maxY pic - minY pic + width)
                (y - minY pic + width)); [lia|].
    cbn [orb].
    rewrite (wrap64_small (x - minX pic + width - width)) by lia.
    rewrite (wrap64_small (y - minY pic + width - width)) by lia.
    rewrite !wrap64_small by lia. f_equal; lia.
  - intros x y Hout. unfold inBounds in Hout. rewrite !Z.geb_leb.
    destruct (Z.ltb_spec x width); [done|].
    destruct (Z.ltb_spec y width); [done|].
    destruct (Z.leb_spec (maxX pic - minX pic + width) x); [done|].
    destruct (Z.leb_spec (maxY pic - minY pic + width) y); [done|].
    lia.
Qed.

Lemma X13_image_border_witness :
  fitsBorder splitPicture 2 ∧
  (minX (AddImageBorder splitPicture 2) = 0 ∧
   minY (AddImageBorder splitPicture 2) = 0 ∧
   maxX (AddImageBorder splitPicture 2)
   = maxX splitPicture - minX splitPicture + 2 * 2 ∧
   maxY (AddImageBorder splitPicture 2)
   = maxY splitPicture - minY splitPicture + 2 * 2)%Z ∧
  (∀ x y, inBounds splitPicture x y →
     At (AddImageBorder splitPicture 2)
        (x - minX splitPicture + 2)%Z (y - minY splitPicture + 2)%Z
     = At splitPicture x y) ∧
  (∀ x y, ¬ inBounds splitPicture (x - 2 + minX splitPicture)%Z
                                  (y - 2 + minY splitPicture)%Z →
     At (AddImageBorder splitPicture 2) x y = whitePixel).
Proof.
  assert (fitsBorder splitPicture 2) as Hfit
    by (vm_compute; repeat split; congruence).
  split; [exact Hfit|]. exact (X13_image_border splitPicture 2 Hfit).
Defined.


(** * Hiding the solution *)

Lemma clearSolution_lookup m i c :
  cells m !! i = Some c →
  cells (clearSolution m) !! i
  = Some (if state c =? 1 then setCellState 0 c else c).
Proof. intros Hc. simpl. by rewrite list_lookup_fmap, Hc. Qed.

Lemma setCells_cells m : setCells (cells m) m = m.
Proof. by destruct m. Qed.

Lemma stubGrid_validEnds : validEnds stubGrid.
Proof. vm_compute. repeat split; congruence. Qed.

Lemma stubGrid_plainStates : plainStates stubGrid.
Proof.
  intros i c Hc.
  do 4 (destruct i as [|i]; [simpl in Hc; injection Hc as <-; by left|]).
  done.
Qed.

Lemma stubGrid_startFree : startFree stubGrid.
Proof. eexists. split; [reflexivity|]. simpl. lia. Qed.

(** X14.  [ShowSolution(false)] takes back what [ShowSolution(true)]
    did.  On any grid it succeeds, leaves no cell on the solution path,
    keeps the walls and the excluded cells, and a second call changes
    nothing.  On a grid in which every cell is normal or excluded and
    the start cell is not excluded, [ShowSolution(true)] followed by
    [ShowSolution(false)] gives the grid back as it was. *)
Theorem X14_hide_solution (fuel : nat) (m : GridMaze) :
  (∃ m1, ShowSolution fuel false m = Ok m1 ∧ noMarks m1 ∧
         ShowSolution fuel false m1 = Ok m1 ∧
         ∀ i c, cells m !! i = Some c →
           ∃ c', cells m1 !! i = Some c' ∧ walls c' = walls c ∧
                 (state c = 2 ↔ state c' = 2)) ∧
  (1 ≤ width m → length (cells m) = width m * height m → validEnds m →
   plainStates m → startFree m → enoughFuel (cellCount m) ≤ fuel →
   match ShowSolution fuel true m with
   | Ok m' => ShowSolution fuel false m' = Ok m
   | Err e => e = ErrSolve
   | _ => False
   end).
Proof.
  split.
  - exists (clearSolution m). split; [done|].
    assert (noMarks (clearSolution m)) as Hno.
    { intros i c' Hc'. simpl in Hc'. rewrite list_lookup_fmap in Hc'.
      destruct (cells m !! i) as [c|]; [|done]. injection Hc' as <-.
      destruct (Nat.eqb_spec (state c) 1); simpl; lia. }
    split; [done|]. split.
    + unfold ShowSolution. simpl. f_equal. unfold clearSolution, setCells.
      simpl. f_equal. apply list_eq. intros i.
      rewrite !list_lookup_fmap.
      destruct (cells m !! i) as [c|]; [|done]. simpl. f_equal.
      destruct (Nat.eqb_spec (state c) 1) as [|Hne]; simpl; [done|].
      by destruct (Nat.eqb_spec (state c) 1).
    + intros i c Hc. eexists. split; [by apply clearSolution_lookup|].
      destruct (Nat.eqb_spec (state c) 1) as [E|]; simpl; [|done].
      split; [done|]. rewrite E. lia.
  - intros Hw Hlen Hends Hplain Hfree Hfuel.
    pose proof (ShowSolution_ends fuel m Hw Hlen Hends Hfuel) as Hsolve.
    destruct (ShowSolution fuel true m) as [m'|e| |]; try done.
    2:{ by destruct Hsolve. }
    destruct Hsolve as (l & -> & _ & _ & Hon).
    unfold ShowSolution. simpl. f_equal.
    assert (map (λ c, if state c =? 1 then setCellState 0 c else c)
              (markAll l (cells m)) = cells m) as Hcells.
    2:{ unfold clearSolution, setCells. simpl. rewrite Hcells.
        by destruct m. }
    apply list_eq. intros i. rewrite list_lookup_fmap.
    destruct (cells m !! i) as [c|] eqn:Hc.
    + rewrite (markAll_lookup l _ i c Hc). simpl. f_equal.
      destruct (decide (i ∈ l)) as [Hin|Hout]; simpl.
      * assert (state c = 0) as Hs0.
        { destruct (Hplain i c Hc) as [|Hs2]; [done|]. exfalso.
          destruct (Hon i Hin) as [->|(c' & Hc' & Hs')].
          - destruct Hfree as (c' & Hc' & Hs'). congruence.
          - congruence. }
        destruct c as [ws st dj]. simpl in *. by subst.
      * destruct (Hplain i c Hc) as [Hs|Hs]; by rewrite Hs.
    + apply lookup_ge_None in Hc.
      rewrite (proj2 (lookup_ge_None _ _)); [done|].
      by rewrite markAll_length.
Qed.

Lemma X14_hide_solution_witness :
  validEnds stubGrid ∧ plainStates stubGrid ∧ startFree stubGrid ∧
  match ShowSolution 10 true stubGrid with
  | Ok m' => ShowSolution 10 false m' = Ok stubGrid
  | Err e => e = ErrSolve
  | _ => False
  end.
Proof.
  split; [exact stubGrid_validEnds|]. split; [exact stubGrid_plainStates|].
  split; [exact stubGrid_startFree|].
  apply (proj2 (X14_hide_solution 10 stubGrid)).
  - simpl. lia.
  - reflexivity.
  - exact stubGrid_validEnds.
  - exact stubGrid_plainStates.
  - exact stubGrid_startFree.
  - vm_compute. lia.
Defined.

(** On that grid the solver goes down and then right. *)
Example solve_stubGrid :
  (m ← ShowSolution 10 true stubGrid; Ok (states m)) = Ok [1; 0; 1; 1].
Proof. reflexivity. Qed.

(** * The outer wall *)

Lemma cleared_inGrid w h i d k d' :
  1 ≤ w → i < w * h → d ≤ 3 → inGrid w h i d →
  cleared i (target w i d) d k d' = true → inGrid w h k d'.
Proof.
  intros Hw Hi Hd Hin. unfold cleared.
  pose proof (index_row_lt w h i ltac:(lia) Hi) as Hrow.
  intros [[->%Nat.eqb_eq ->%Nat.eqb_eq]%andb_true_iff
         |[->%Nat.eqb_eq ->%Nat.eqb_eq]%andb_true_iff]%orb_true_iff;
    [done|].
  do 4 (try destruct d as [|d]); try lia; simpl in *.
  - destruct (mod_pred w i Hw Hin) as (_ & -> & _).
    pose proof (Nat.mod_upper_bound i w ltac:(lia)). lia.
  - destruct (div_pred w i Hw Hin) as (_ & _ & ->). lia.
  - destruct (mod_succ w i Hw Hin) as [-> _]. lia.
  - destruct (div_succ w i Hw) as [_ ->]. lia.
Qed.

Lemma enclosed_clearPair m i d :
  1 ≤ width m → length (cells m) = width m * height m →
  i < length (cells m) → d ≤ 3 → inGrid (width m) (height m) i d →
  enclosed m →
  enclosed (setCells (clearPair (cells m) i (target (width m) i d) d) m).
Proof.
  intros Hw Hlen Hi Hd Hin Henc k c' d' Hk Hd' Hf. simpl in *.
  destruct (clearPair_lookup_inv _ _ _ _ _ _ Hd Hk)
    as (c & Hc & _ & _ & Hflags).
  rewrite (Hflags d' Hd') in Hf.
  apply andb_false_iff in Hf as [Hf|Hf].
  - by apply (Henc k c d').
  - apply negb_false_iff in Hf.
    apply (cleared_inGrid _ _ i d k d'); try done. by rewrite <- Hlen.
Qed.

Lemma enclosed_ext m m' :
  width m' = width m → height m' = height m → cells m' = cells m →
  enclosed m → enclosed m'.
Proof. intros Hw Hh Hc Henc i c d. rewrite Hw, Hh, Hc. apply Henc. Qed.

Lemma joinable_inGrid m n :
  1 ≤ width m → length (cells m) = width m * height m → joinable m n →
  neighborDirection n ≤ 3 ∧
  inGrid (width m) (height m) (baseIndex n) (neighborDirection n) ∧
  otherIndex m n = target (width m) (baseIndex n) (neighborDirection n).
Proof.
  intros Hw Hlen Hj.
  pose proof (joinable_lt m n Hw Hj) as (_ & Hother & _).
  pose proof Hj as (sa & sb & _ & _ & _ & _ & Hd)%joinable_inv.
  unfold otherIndex in *.
  destruct Hd as [[Hd Hmod]|Hd]; rewrite Hd in *; simpl in *.
  - split; [lia|]. done.
  - split; [lia|]. split; [|done]. rewrite Hlen in Hother.
    pose proof (index_row_lt (width m) (height m) (baseIndex n + width m)
                  ltac:(lia) Hother) as Hrow.
    destruct (div_succ (width m) (baseIndex n) Hw) as [_ Hdiv]. lia.
Qed.

Section Enclosed.

Context `{Rand}.

Lemma regenerateStep_enclosed fuel m h rng :
  genInv m h → 2 * length (cells m) + 2 ≤ fuel → enclosed m →
  match regenerateStep fuel (m, h, rng) with
  | Ok (inl (m', _, _)) => enclosed m'
  | Ok (inr (m', _)) => enclosed m'
  | _ => True
  end.
Proof.
  intros Hinv Hfuel Henc. pose proof Hinv as [Hgrid Hlist].
  pose proof (grid_width _ _ Hgrid) as Hw.
  pose proof (grid_cells _ _ Hgrid) as Hlen.
  unfold regenerateStep.
  destruct (length (neighbors m) =? 0); [done|].
  destruct (getDisjointNeighbor_spec fuel m h rng Hinv Hfuel)
    as (tmp & done & ns & h1 & rng1 & Hget & _ & _ & _ & Hl1 & Hd).
  rewrite Hget. simpl.
  destruct done; [done|].
  destruct Hd as (n & -> & Hin & _). simpl.
  pose proof (list_listed _ _ _ Hl1 n Hin) as Hj.
  destruct (joinable_inGrid m n Hw Hlen Hj) as (Hd3 & Hgrid' & Hother).
  pose proof (joinable_lt m n Hw Hj) as (Hbase & _ & _).
  pose proof (enclosed_clearPair m (baseIndex n) (neighborDirection n)
                Hw Hlen Hbase Hd3 Hgrid' Henc) as Hnew.
  destruct (at_ (cells m) (baseIndex n)) as [cellA| | |]; try done. simpl.
  destruct (joinable_dir _ _ Hj) as [Hdir|Hdir]; rewrite Hdir in *;
    simpl in *.
  - destruct (at_ (cells m) (baseIndex n + 1)) as [cellB| | |]; try done.
    simpl. destruct (djSet cellA) as [pa|]; [|done].
    destruct (djSet cellB) as [pb|]; [|done]. simpl.
    destruct (union fuel h1 pa pb); try done.
  - destruct (at_ (cells m) (baseIndex n + width m)) as [cellB| | |];
      try done.
    simpl. destruct (djSet cellA) as [pa|]; [|done].
    destruct (djSet cellB) as [pb|]; [|done]. simpl.
    destruct (union fuel h1 pa pb); try done.
Qed.

End Enclosed.

Lemma regenerateLoop_enclosed `{Rand} fuel seed m m' h' :
  valid m → enoughFuel (cellCount m) ≤ fuel →
  regenerateLoop fuel seed m = Ok (m', h') → enclosed m'.
Proof.
  intros Hvalid Hfuel. pose proof Hvalid as [Hw Hh Hlen Hnil].
  unfold enoughFuel, cellCount in Hfuel.
  unfold regenerateLoop, initCells.
  set (m0 := setCells (imap initGridMazeCell (cells m)) m).
  rewrite (initDisjointNeighbors_spec m0);
    [|done|done|by unfold m0; simpl; rewrite length_imap|done].
  simpl.
  pose proof (initial_genInv m Hvalid) as Hinv0. fold m0 in Hinv0.
  simpl in Hinv0.
  set (m1 := setNeighbors _ m0) in *.
  set (h0 := imap (λ i _, newDisjointSet i) (cells m)) in *.
  intros Hloop.
  refine (loop_inv
    (λ s : GridMaze * heap * rngState,
       let '(m2, h2, _) := s in
       genInv m2 h2 ∧ length (cells m2) = length (cells m) ∧ enclosed m2)
    (λ r : GridMaze * heap, enclosed r.1)
    (regenerateStep fuel) _ _ fuel _ (m', h') _ Hloop).
  - intros [[m2 h2] rng] [[m3 h3] rng3] (Hinv & Hl & Henc) Hb.
    pose proof (regenerateStep_spec fuel m2 h2 rng Hinv ltac:(lia)) as Hs.
    pose proof (regenerateStep_enclosed fuel m2 h2 rng Hinv ltac:(lia) Henc)
      as He.
    rewrite Hb in Hs, He. destruct Hs as (Hinv3 & _ & Hfr & _).
    split; [done|]. split; [|done].
    by rewrite (sameFrame_length _ _ Hfr).
  - intros [[m2 h2] rng] [m3 h3] (Hinv & Hl & Henc) Hb.
    pose proof (regenerateStep_enclosed fuel m2 h2 rng Hinv ltac:(lia) Henc)
      as He.
    rewrite Hb in He. done.
  - split; [by apply genInv_setRandomSeed|]. split.
    + simpl. by rewrite length_imap.
    + intros i c d Hc Hd Hf. simpl in Hc.
      apply initCells_lookup in Hc as (c0 & _ & ->).
      by destruct d as [|[|[|?]]].
Qed.

Lemma corner_inGrid w h idx s :
  1 ≤ w → idx ∈ corners w h → In s (cornerSegments w idx) →
  s.1 < w * h ∧ s.2 ≤ 3 ∧ inGrid w h s.1 s.2 ∧
  acrossWall w s = target w s.1 s.2.
Proof.
  intros Hw [Hrow Hcol]%corners_elem Hs; [|done].
  pose proof (index_rowcol w idx ltac:(lia)) as Hrc.
  assert (idx < w * h) as Hidx by nia.
  assert (idx + w + 1 < w * h) as Hdiag by nia.
  destruct (mod_succ w idx Hw ltac:(lia)) as [Hm1 Hd1].
  destruct (div_succ w (idx + 1) Hw) as [Hm2 Hd2].
  replace (idx + 1 + w) with (idx + w + 1) in Hm2, Hd2 by lia.
  destruct Hs as [<-|[<-|[<-|[<-|[]]]]]; simpl; splitAll; try done; lia.
Qed.

Lemma ErodeWalls_enclosed m :
  1 ≤ width m → length (cells m) = width m * height m → enclosed m →
  ∃ m', ErodeWalls m = Ok m' ∧ enclosed m'.
Proof.
  intros Hw Hlen Henc.
  destruct (ErodeWalls_flags m Hw Hlen) as (m' & Hrun & Hm' & Hflags).
  exists m'. split; [done|]. intros i c' d Hc' Hd Hf.
  assert (width m' = width m ∧ height m' = height m) as [-> ->]
    by by rewrite Hm'.
  assert (length (cells m') = length (cells m)) as Hl.
  { rewrite Hm'. simpl. apply erodeSpec_length. }
  pose proof (lookup_lt_Some _ _ _ Hc') as Hi. rewrite Hl in Hi.
  destruct (lookup_lt_is_Some_2 _ _ Hi) as [c Hc].
  destruct (Hflags i c Hc) as (c2 & Hc2 & _ & _ & Hfl).
  assert (c2 = c') as -> by congruence.
  rewrite (Hfl d Hd) in Hf. apply andb_false_iff in Hf as [Hf|Hf].
  { by apply (Henc i c d). }
  apply negb_false_iff, existsb_exists in Hf as (idx & Hidx & Her).
  apply list_elem_of_In in Hidx. unfold erodes in Her.
  destruct (List.filter _ _) as [|s [|s' l]] eqn:Hfilter; try done.
  apply filter_singleton_In in Hfilter as [Hin _].
  destruct (corner_inGrid _ _ idx s Hw Hidx Hin) as (Hs & Hd2 & Hg & Hacross).
  rewrite Hacross in Her.
  by apply (cleared_inGrid _ _ s.1 s.2 i d).
Qed.

Lemma erodeTimes_enclosed k m :
  1 ≤ width m → length (cells m) = width m * height m → enclosed m →
  ∃ m', erodeTimes k m = Ok m' ∧ enclosed m'.
Proof.
  revert m. induction k as [|k IH]; intros m Hw Hlen Henc; simpl.
  - by exists m.
  - destruct (ErodeWalls_enclosed m Hw Hlen Henc) as (m1 & Hrun & Henc1).
    destruct (ErodeWalls_opens m Hw Hlen) as (m1' & Hrun' & Hw1 & Hh1 & Hl1 & _).
    assert (m1' = m1) as -> by congruence.
    rewrite Hrun. simpl. apply IH; [lia|congruence|done].
Qed.

(** X15.  The maze is enclosed.  After [RegenerateFromSeed], and after
    any number of calls of [ErodeWalls], a wall flag that is clear
    always has a cell of the grid behind it, and the wall is clear on
    that cell too: the walls on the outer edge of the grid are never
    opened, and every opening is a passage between two cells. *)
Theorem X15_enclosed `{Rand} (fuel : nat) (seed : Z) (k : nat)
    (m : GridMaze) :
  valid m → enoughFuel (cellCount m) ≤ fuel →
  ∃ m1 m2, RegenerateFromSeed fuel seed m = Ok m1 ∧
    erodeTimes k m1 = Ok m2 ∧
    ∀ i c d, cells m2 !! i = Some c → d ≤ 3 → flag c d = false →
      inGrid (width m2) (height m2) i d ∧
      passage m2 i (target (width m2) i d).
Proof.
  intros Hvalid Hfuel.
  destruct (RegenerateFromSeed_spec fuel seed m Hvalid Hfuel)
    as (m1 & h1 & Hrun & [Hgrid _] & Hvalid1 & _).
  pose proof (valid_width _ Hvalid1) as Hw1.
  pose proof (valid_cells _ Hvalid1) as Hl1.
  assert (enclosed m1) as Henc1.
  { unfold RegenerateFromSeed in Hrun.
    destruct (regenerateLoop fuel seed m) as [[m' h']| | |] eqn:Hloop;
      try done.
    pose proof (regenerateLoop_enclosed fuel seed m m' h' Hvalid Hfuel Hloop)
      as Henc.
    simpl in Hrun. destruct (startCellIndex m' =? -1)%Z;
      injection Hrun as <-; exact Henc. }
  destruct (erodeTimes_enclosed k m1 Hw1 Hl1 Henc1) as (m2 & Hrun2 & Henc2).
  destruct (erodeTimes_inert k m1 Hw1 Hl1 (grid_sym _ _ Hgrid)
              (grid_excluded _ _ Hgrid))
    as (m2' & Hrun2' & Hsym2 & _ & (Hw2 & Hh2 & _) & _ & Hl2 & _).
  assert (m2' = m2) as -> by congruence.
  exists m1, m2. split; [done|]. split; [done|].
  intros i c d Hc Hd Hf.
  pose proof (Henc2 i c d Hc Hd Hf) as Hin. split; [done|].
  apply canStep_passage; [lia|congruence|done|].
  exists c, d. by splitAll.
Qed.

Lemma X15_enclosed_witness :
  valid holed3x3 ∧
  ∃ m1 m2, @RegenerateFromSeed lcg 20 1 holed3x3 = Ok m1 ∧
    erodeTimes 2 m1 = Ok m2 ∧
    ∀ i c d, cells m2 !! i = Some c → d ≤ 3 → flag c d = false →
      inGrid (width m2) (height m2) i d ∧
      passage m2 i (target (width m2) i d).
Proof.
  split; [exact holed3x3_valid|].
  apply (@X15_enclosed lcg 20 1 2 holed3x3).
  - exact holed3x3_valid.
  - vm_compute. lia.
Defined.
